(** * dag_executor: random weighted DAG generation and concurrent execution

    A shallow embedding of [weighted_dag.py] (class [WeightedDAG]) and
    [workflow_executor.py] (class [WorkflowExecutor]), with the part of the
    networkx [DiGraph] interface that the two classes call.

    Conventions.
    - Python [dict]s whose iteration order the code observes (the adjacency
      structure of a [DiGraph], the adjacency schema) are insertion-ordered
      association lists; the executor's book-keeping maps, whose order is
      never observed, are [gmap]s.
    - [random] is an oracle: the k-th draw of the run is a function of k.
    - Python [set] iteration order is an oracle as well ([set_iter]).
    - [float]s are rationals ([Q]); only comparisons and the field operations
      are used, rounding is not modelled.  What is stated about timings and
      metrics is therefore kept to what no rounding can change: which
      formula is computed, comparisons, counts, maxima, and bounds that
      rounding to nearest preserves.
    - asyncio is a cooperative scheduler: a task runs without interruption
      between two suspension points, so each such segment is one atomic step
      of the event loop. *)

From stdpp Require Import base decidable option list relations sorting gmap strings pretty.
From Stdlib Require Import QArith Qminmax Lqa.

Local Open Scope Z_scope.
#[local] Set Warnings "-clear-no-such-hyp".

(* ================================================================== *)
(** * Part I: the program *)
(* ================================================================== *)

(** ** Python exceptions and the state-and-exception monad *)

Inductive exn : Type :=
  | IndexError        (* list index out of range *)
  | KeyError          (* missing dict key *)
  | NetworkXError     (* e.g. remove_edge on an absent edge *)
  | TypeError.        (* e.g. arithmetic on None *)

Definition M (S A : Type) : Type := S → exn + (A * S).

Definition raise {S A} (e : exn) : M S A := λ _, inl e.
Definition get_state {S} : M S S := λ s, inr (s, s).
Definition put_state {S} (s : S) : M S unit := λ _, inr (tt, s).

#[global] Instance M_ret {S} : MRet (M S) := λ A a s, inr (a, s).
#[global] Instance M_bind {S} : MBind (M S) := λ A B f m s,
  match m s with
  | inl e => inl e
  | inr (a, s') => f a s'
  end.

(** [for x in xs: body x] *)
Fixpoint for_ {S A} (xs : list A) (body : A → M S unit) : M S unit :=
  match xs with
  | [] => mret tt
  | x :: rest => body x ≫= λ _, for_ rest body
  end.

(** ** Insertion-ordered dictionaries *)

Section dict.
Context {K A : Type} `{EqDecision K}.

Fixpoint dict_get (k : K) (d : list (K * A)) : option A :=
  match d with
  | [] => None
  | (k', a) :: r => if decide (k' = k) then Some a else dict_get k r
  end.

(** [d[k] = a]: an existing key keeps its position, a new key goes last. *)
Fixpoint dict_set (k : K) (a : A) (d : list (K * A)) : list (K * A) :=
  match d with
  | [] => [(k, a)]
  | (k', a') :: r =>
      if decide (k' = k) then (k, a) :: r else (k', a') :: dict_set k a r
  end.

(** [del d[k]] *)
Fixpoint dict_del (k : K) (d : list (K * A)) : list (K * A) :=
  match d with
  | [] => []
  | (k', a') :: r => if decide (k' = k) then r else (k', a') :: dict_del k r
  end.
End dict.

(** ** networkx.DiGraph

    A [DiGraph] is its successor structure [G._adj]: a dict from each node to
    the dict of its successors, whose value is the edge's data.  The only edge
    attribute in this program is [duration], so the data is that integer. *)

Abbreviation DiGraph V := (list (V * list (V * Z))).

Section digraph.
Context {V : Type} `{EqDecision V}.
Implicit Types (G : DiGraph V) (u v n : V).

(** [G.nodes] *)
Definition nodes G : list V := G.*1.

(** [G._adj[u]] (empty for a node that is absent) *)
Definition adj u G : list (V * Z) := default [] (dict_get u G).

(** [G.successors(u)] *)
Definition successors u G : list V := (adj u G).*1.

(** [G.predecessors(v)] *)
Definition predecessors v G : list V :=
  (filter (λ e, v ∈ e.2.*1) G).*1.

(** [G.in_degree(v)] *)
Definition in_degree v G : nat := length (predecessors v G).

(** [G.out_degree(u)] *)
Definition out_degree u G : nat := length (successors u G).

(** [G.edges(data='duration')] *)
Definition edges G : list (V * V * Z) :=
  '(u, a) ← G; '(v, d) ← a; [(u, v, d)].

(** [G.edges]: the pairs only *)
Definition edge_pairs G : list (V * V) :=
  '(u, a) ← G; '(v, _) ← a; [(u, v)].

(** [G.edges[u, v]['duration']] *)
Definition edge_duration G u v : exn + Z :=
  match dict_get u G with
  | None => inl KeyError
  | Some a => match dict_get v a with
              | None => inl KeyError
              | Some d => inr d
              end
  end.

(** [G.add_node(n)] *)
Definition add_node n G : DiGraph V :=
  if decide (n ∈ nodes G) then G else G ++ [(n, [])].

(** [G.add_nodes_from(ns)] *)
Definition add_nodes_from (ns : list V) G : DiGraph V :=
  foldl (λ G n, add_node n G) G ns.

(** [G.add_edge(u, v, duration=d)]: missing endpoints are added, [u]
    first; an existing edge has its duration overwritten. *)
Definition add_edge u v (d : Z) G : DiGraph V :=
  let G1 := add_node u G in
  let G2 := add_node v G1 in
  dict_set u (dict_set v d (adj u G2)) G2.

(** [G.remove_edge(u, v)] *)
Definition remove_edge u v G : exn + DiGraph V :=
  if decide (v ∈ successors u G)
  then inr (dict_set u (dict_del v (adj u G)) G)
  else inl NetworkXError.

(** The edge relation and directed acyclicity. *)
Definition has_edge G : relation V := λ u v, v ∈ successors u G.

#[global] Instance has_edge_dec G : RelDecision (has_edge G) :=
  λ u v, decide (v ∈ successors u G).

Definition acyclic G : Prop := ∀ u, ¬ tc (has_edge G) u u.

(** [nx.descendants(G, source)]: breadth-first search from [source]; the
    source itself is not part of the result. *)
Fixpoint bfs (fuel : nat) G (visited frontier : list V) : list V :=
  match fuel with
  | O => visited
  | S fuel' =>
      let next :=
        remove_dups (filter (λ v, v ∉ visited) (frontier ≫= λ u, successors u G)) in
      match next with
      | [] => visited
      | _ => bfs fuel' G (visited ++ next) next
      end
  end.

Definition descendants G (source : V) : list V :=
  drop 1 (bfs (length G) G [source] [source]).

(** [nx.is_directed_acyclic_graph(G)]: Kahn's algorithm by generations.
    Each round discards the nodes that have no predecessor left; the graph
    is a DAG when nothing remains. *)
Definition zero_indegree G (alive : list V) : list V :=
  filter (λ v, Forall (λ u, u ∉ alive) (predecessors v G)) alive.

Fixpoint topological_generations (fuel : nat) G (alive : list V) : list V :=
  match fuel with
  | O => alive
  | S fuel' =>
      topological_generations fuel' G
        (filter (λ v, v ∉ zero_indegree G alive) alive)
  end.

Definition is_directed_acyclic_graph G : bool :=
  bool_decide (topological_generations (length G) G (nodes G) = []).

(** Representation invariant of a [DiGraph]: keys are unique at both
    levels and every successor is itself a node. *)
Definition wf_graph G : Prop :=
  NoDup (nodes G)
  ∧ Forall (λ e, NoDup (e.2.*1) ∧ Forall (λ v, v ∈ nodes G) (e.2.*1)) G.
End digraph.

(** [nx.relabel_nodes(G, mapping)] for a mapping that is one-to-one on the
    nodes of [G] (as [node_label] below is): the copy has the same nodes and
    edges, in the same order, under their new names. *)
Definition relabel_nodes {V W} (G : DiGraph V) (mapping : V → W) : DiGraph W :=
  (λ e : V * list (V * Z), (mapping e.1, prod_map mapping id <$> e.2)) <$> G.

(** ** Randomness and set iteration

    [random.shuffle], [random.random] and [random.randint(1, 10)] read a
    hidden generator; a run is a function of the values it happens to draw.
    The draws of one run are numbered in the order in which they are made.
    The order in which CPython iterates a [set] is not specified either. *)

Record Oracle : Type := {
  shuffle : list nat → list nat;   (* the list as [random.shuffle] leaves it *)
  random : nat → Q;                (* draw k, made by [random.random()] *)
  randint : nat → Z;               (* draw k, made by [random.randint(1, 10)] *)
  set_iter : gset nat → list nat   (* the order of [for x in s] *)
}.

(** ** Instrumentation: the graph after every mutation

    Every statement that changes the edge set records where it is in the
    source and the graph it leaves behind. *)

Inductive site : Type :=
  | AddNodes      (* weighted_dag.py:34  G.add_nodes_from(ordering) *)
  | ForwardEdge   (* weighted_dag.py:40  G.add_edge(ordering[i], ordering[j], ...) *)
  | TryOut        (* weighted_dag.py:49  G.add_edge(node, target, ...) *)
  | UndoOut       (* weighted_dag.py:53  G.remove_edge(node, target) *)
  | TryIn         (* weighted_dag.py:55  G.add_edge(target, node, ...) *)
  | UndoIn        (* weighted_dag.py:59  G.remove_edge(target, node) *)
  | VirtualEdge.  (* weighted_dag.py:79  self.graph.add_edge("virtual", source, ...) *)

Inductive snapshot : Type :=
  | IntGraph (s : site) (G : DiGraph nat)      (* before relabelling *)
  | StrGraph (s : site) (G : DiGraph string).  (* after relabelling *)

Class Snapshot (V : Type) := snap : site → DiGraph V → snapshot.
#[global] Instance snap_nat : Snapshot nat := IntGraph.
#[global] Instance snap_string : Snapshot string := StrGraph.

Record Gen (V : Type) : Type := MkGen {
  gen_graph : DiGraph V;          (* G, respectively self.graph *)
  gen_draws : nat;                (* number of random draws made so far *)
  gen_trail : list snapshot       (* oldest first *)
}.
Arguments MkGen {V}.
Arguments gen_graph {V}.
Arguments gen_draws {V}.
Arguments gen_trail {V}.

Section gen_ops.
Context (O : Oracle) {V : Type} `{EqDecision V} `{Snapshot V}.

Definition rand_random : M (Gen V) Q := λ s,
  inr (random O (gen_draws s), MkGen (gen_graph s) (S (gen_draws s)) (gen_trail s)).

Definition rand_randint : M (Gen V) Z := λ s,
  inr (randint O (gen_draws s), MkGen (gen_graph s) (S (gen_draws s)) (gen_trail s)).

Definition get_graph : M (Gen V) (DiGraph V) := λ s, inr (gen_graph s, s).

Definition set_graph (at_ : site) (G' : DiGraph V) : M (Gen V) unit := λ s,
  inr (tt, MkGen G' (gen_draws s) (gen_trail s ++ [snap at_ G'])).

Definition g_add_nodes_from (at_ : site) (ns : list V) : M (Gen V) unit :=
  G ← get_graph; set_graph at_ (add_nodes_from ns G).

Definition g_add_edge (at_ : site) (u v : V) (d : Z) : M (Gen V) unit :=
  G ← get_graph; set_graph at_ (add_edge u v d G).

Definition g_remove_edge (at_ : site) (u v : V) : M (Gen V) unit :=
  G ← get_graph;
  match remove_edge u v G with
  | inl e => raise e
  | inr G' => set_graph at_ G'
  end.
End gen_ops.

(** [xs[i]] *)
Definition index {S A} (xs : list A) (i : nat) : M S A :=
  match xs !! i with
  | Some x => mret x
  | None => raise IndexError
  end.

(** [f"node_{n}"] *)
Definition node_label (n : nat) : string := "node_" +:+ pretty n.

(** ** class WeightedDAG *)

Module WeightedDAG.

Record LangSchema : Type := {
  ls_nodes : list string;
  ls_edges : list (string * string);
  ls_durations : list ((string * string) * Z);
  ls_source : string
}.

Record t : Type := {
  num_nodes : Z;
  edge_probability : Q;
  graph : DiGraph string;
  source : string;
  lang_schema : LangSchema;
  schema : list (string * list (string * Z))
}.

Section methods.
Context (O : Oracle) (num_nodes : Z) (edge_probability : Q).

(** Lines 48-59: try the candidate targets in turn, stopping at the first
    edge that leaves the graph acyclic.  The result is [inserted]. *)
Fixpoint try_targets (node : nat) (targets : list nat) : M (Gen nat) bool :=
  match targets with
  | [] => mret false
  | target :: rest =>
      d ← rand_randint O;
      g_add_edge TryOut node target d;;
      G ← get_graph;
      if is_directed_acyclic_graph G then mret true else
      g_remove_edge UndoOut node target;;
      d ← rand_randint O;
      g_add_edge TryIn target node d;;
      G ← get_graph;
      if is_directed_acyclic_graph G then mret true else
      g_remove_edge UndoIn target node;;
      try_targets node rest
  end.

(** Lines 46-62: [for node in unreachable: ...]. *)
Fixpoint repair (unreachable : list nat) (reachable : gset nat)
    : M (Gen nat) unit :=
  match unreachable with
  | [] => mret tt
  | node :: rest =>
      inserted ← try_targets node (set_iter O reachable);
      repair rest (if inserted : bool then {[node]} ∪ reachable else reachable)
  end.

Definition _generate_connected_dag : M (Gen nat) (DiGraph string) :=
  let n := Z.to_nat num_nodes in
  (* Step 1 *)
  let ordering := shuffle O (seq 0 n) in
  g_add_nodes_from AddNodes ordering;;
  (* Step 2 *)
  for_ (seq 0 n) (λ i,
    for_ (seq (i + 1) (n - (i + 1))) (λ j,
      r ← rand_random O;
      if Qlt_le_dec r edge_probability then
        oi ← index ordering i;
        oj ← index ordering j;
        d ← rand_randint O;
        g_add_edge ForwardEdge oi oj d
      else mret tt));;
  (* Step 3 *)
  o0 ← index ordering 0;
  G ← get_graph;
  let reachable : gset nat := list_to_set (descendants G o0) ∪ {[o0]} in
  let unreachable : gset nat := list_to_set (nodes G) ∖ reachable in
  repair (set_iter O unreachable) reachable;;
  G ← get_graph;
  mret (relabel_nodes G node_label).

Definition _get_source_node : M (Gen string) string :=
  G ← get_graph;
  let sources := filter (λ n, in_degree n G = 0%nat) (nodes G) in
  if decide (length sources = 1%nat) then index sources 0 else
  for_ sources (λ source,
    d ← rand_randint O;
    g_add_edge VirtualEdge "virtual" source d);;
  mret "virtual".
End methods.

(** [exn + _] as a monad, for the two pure schema conversions. *)
Definition lift {S A} (r : exn + A) : M S A :=
  match r with
  | inl e => raise e
  | inr a => mret a
  end.

Definition _to_langgraph_schema (G : DiGraph string) (source : string)
    : exn + LangSchema :=
  let fill : M (list ((string * string) * Z)) unit :=
    for_ (edge_pairs G) (λ '(u, v),
      d ← lift (edge_duration G u v);
      durations ← get_state;
      put_state (dict_set (u, v) d durations)) in
  match fill [] with
  | inl e => inl e
  | inr (_, durations) =>
      inr {| ls_nodes := nodes G; ls_edges := edge_pairs G;
             ls_durations := durations; ls_source := source |}
  end.

(** [schema[u].append(x)] on a [defaultdict(list)] *)
Definition append_at {K A} `{EqDecision K} (u : K) (x : A)
    (schema : list (K * list A)) : list (K * list A) :=
  dict_set u (default [] (dict_get u schema) ++ [x]) schema.

Definition _to_schema (G : DiGraph string)
    : exn + list (string * list (string * Z)) :=
  let fill : M (list (string * list (string * Z))) unit :=
    for_ (edge_pairs G) (λ '(u, v),
      d ← lift (edge_duration G u v);
      schema ← get_state;
      put_state (append_at u (v, d) schema)) in
  match fill [] with
  | inl e => inl e
  | inr (_, schema) => inr schema
  end.

(** [WeightedDAG(num_nodes, edge_probability)]: the object, and the trail of
    graphs that its construction went through. *)
Definition __init__ (O : Oracle) (num_nodes : Z) (edge_probability : Q)
    : exn + (t * list snapshot) :=
  match _generate_connected_dag O num_nodes edge_probability (MkGen [] 0 []) with
  | inl e => inl e
  | inr (G0, s1) =>
      match _get_source_node O (MkGen G0 (gen_draws s1) (gen_trail s1)) with
      | inl e => inl e
      | inr (src, s2) =>
          let G := gen_graph s2 in
          match _to_langgraph_schema G src with
          | inl e => inl e
          | inr ls =>
              match _to_schema G with
              | inl e => inl e
              | inr sch =>
                  inr ({| num_nodes := num_nodes;
                          edge_probability := edge_probability;
                          graph := G; source := src;
                          lang_schema := ls; schema := sch |},
                       gen_trail s2)
              end
          end
      end
  end.

End WeightedDAG.

(** ** class NodeExecutionStrategy

    [await strategy.execute(node, inputs, duration)] either returns a string
    or raises an [Exception] whose [str()] is the message. *)

Inductive outcome : Type :=
  | Return (result : string)
  | Raise (message : string).

Class NodeExecutionStrategy : Type :=
  execute : string → list string → Z → outcome.

(** [' + '.join(inputs)] *)
Fixpoint join_plus (inputs : list string) : string :=
  match inputs with
  | [] => ""
  | [x] => x
  | x :: rest => x +:+ " + " +:+ join_plus rest
  end.

(** [DurationSleepStrategy]: sleeps [0.1 * duration], then returns. *)
Definition DurationSleepStrategy : NodeExecutionStrategy := λ node inputs _,
  Return (node +:+ "_result(" +:+
          (match inputs with [] => "init_" +:+ node | _ => join_plus inputs end)
          +:+ ")").

(** [LLMStrategy(llm)]: the prompt is built from the node and its inputs and
    handed to [llm._call]; whatever that returns or raises is the outcome. *)
Definition LLMStrategy (llm_call : string → outcome) : NodeExecutionStrategy :=
  λ node inputs _,
    llm_call ("Node " +:+ node +:+ " - process: " +:+
              (match inputs with [] => "init_" +:+ node | _ => join_plus inputs end)).

(** ** class WorkflowExecutor and the asyncio event loop *)

Module WorkflowExecutor.

Record t : Type := MkSelf {
  dag : WeightedDAG.t;
  results : gmap string string;
  timings : gmap string Q;
  active_tasks : Z;
  max_parallelism : Z;
  child_inputs : gmap string (list string);   (* a defaultdict(list) *)
  in_degrees : gmap string Z;
  lock : bool;                                (* asyncio.Lock: is it held? *)
  wall_start_time : option Q;
  wall_end_time : option Q
}.

Definition __init__ (dag : WeightedDAG.t) : t :=
  let G := WeightedDAG.graph dag in
  {| dag := dag; results := ∅; timings := ∅;
     active_tasks := 0; max_parallelism := 0;
     child_inputs := ∅;
     in_degrees := list_to_map ((λ node, (node, Z.of_nat (in_degree node G))) <$> nodes G);
     lock := false;
     wall_start_time := None; wall_end_time := None |}.

(** A [_run_node_task(node)] coroutine that exists and has not finished is
    either not yet started, or suspended in
    [await self.strategy.execute(node, inputs, duration)], with [start_time]
    among its local variables. *)
Inductive task_state : Type :=
  | Created
  | Awaiting (start_time : Q) (inputs : list string) (duration : Z).

(** The [run()] coroutine. *)
Inductive main_state : Type :=
  | AwaitSource     (* in [await self._run_node_task(self.dag.source)] *)
  | Polling         (* in [_wait_until_all_done] *)
  | Finished.

#[global] Instance main_state_eq_dec : EqDecision main_state.
Proof. solve_decision. Defined.

(** The event loop: the executor object, the live coroutines, and three
    logs kept for the proofs (they influence nothing). *)
Record Loop : Type := MkLoop {
  self : t;
  tasks : list (string * task_state);
  main : main_state;
  calls : list (string * list string * Z);  (* strategy.execute(node, inputs, duration) *)
  spawned : list string;                    (* coroutines created, in order *)
  writes : list string                      (* assignments to self.results[node] *)
}.

Definition update_self (f : t → t) : M Loop unit := λ l,
  inr (tt, MkLoop (f (self l)) (tasks l) (main l) (calls l) (spawned l) (writes l)).

Definition the_graph : M Loop (DiGraph string) := λ l,
  inr (WeightedDAG.graph (dag (self l)), l).

(** [async with self.lock]: entering and leaving.  The lock is free whenever
    a segment starts (no segment suspends while holding it). *)
Definition acquire : M Loop unit :=
  update_self (λ s, MkSelf (dag s) (results s) (timings s) (active_tasks s)
    (max_parallelism s) (child_inputs s) (in_degrees s) true
    (wall_start_time s) (wall_end_time s)).

Definition release : M Loop unit :=
  update_self (λ s, MkSelf (dag s) (results s) (timings s) (active_tasks s)
    (max_parallelism s) (child_inputs s) (in_degrees s) false
    (wall_start_time s) (wall_end_time s)).

(** [self.active_tasks += 1; self.max_parallelism = max(...)] *)
Definition task_started : M Loop unit :=
  update_self (λ s, MkSelf (dag s) (results s) (timings s) (active_tasks s + 1)
    (Z.max (max_parallelism s) (active_tasks s + 1)) (child_inputs s)
    (in_degrees s) (lock s) (wall_start_time s) (wall_end_time s)).

(** [self.active_tasks -= 1] *)
Definition task_ended : M Loop unit :=
  update_self (λ s, MkSelf (dag s) (results s) (timings s) (active_tasks s - 1)
    (max_parallelism s) (child_inputs s) (in_degrees s) (lock s)
    (wall_start_time s) (wall_end_time s)).

(** [self.results[node] = result; self.timings[node] = elapsed] *)
Definition record_result (node result : string) (elapsed : Q) : M Loop unit := λ l,
  let s := self l in
  inr (tt, MkLoop
    (MkSelf (dag s) (<[node := result]> (results s)) (<[node := elapsed]> (timings s))
       (active_tasks s) (max_parallelism s) (child_inputs s) (in_degrees s)
       (lock s) (wall_start_time s) (wall_end_time s))
    (tasks l) (main l) (calls l) (spawned l) (writes l ++ [node])).

(** [self.in_degrees[succ] -= 1] *)
Definition decrement_in_degree (succ : string) : M Loop unit := λ l,
  let s := self l in
  match in_degrees s !! succ with
  | None => inl KeyError
  | Some d =>
      inr (tt, MkLoop
        (MkSelf (dag s) (results s) (timings s) (active_tasks s) (max_parallelism s)
           (child_inputs s) (<[succ := d - 1]> (in_degrees s)) (lock s)
           (wall_start_time s) (wall_end_time s))
        (tasks l) (main l) (calls l) (spawned l) (writes l))
  end.

(** [self.in_degrees[succ]] *)
Definition read_in_degree (succ : string) : M Loop Z := λ l,
  match in_degrees (self l) !! succ with
  | None => inl KeyError
  | Some d => inr (d, l)
  end.

(** [self.child_inputs[succ].append(result)] *)
Definition append_child_input (succ result : string) : M Loop unit :=
  update_self (λ s, MkSelf (dag s) (results s) (timings s) (active_tasks s)
    (max_parallelism s)
    (<[succ := default [] (child_inputs s !! succ) ++ [result]]> (child_inputs s))
    (in_degrees s) (lock s) (wall_start_time s) (wall_end_time s)).

(** [asyncio.create_task(self._run_node_task(succ))] *)
Definition create_task (succ : string) : M Loop unit := λ l,
  inr (tt, MkLoop (self l) (tasks l ++ [(succ, Created)]) (main l) (calls l)
             (spawned l ++ [succ]) (writes l)).

(** The coroutine of [node] is suspended in its strategy call. *)
Definition suspend_task (node : string) (start_time : Q)
    (inputs : list string) (duration : Z) : M Loop unit := λ l,
  inr (tt, MkLoop (self l)
             (dict_set node (Awaiting start_time inputs duration) (tasks l))
             (main l) (calls l) (spawned l) (writes l)).

(** The coroutine of [node] has run to its end. *)
Definition retire_task (node : string) : M Loop unit := λ l,
  inr (tt, MkLoop (self l) (dict_del node (tasks l))
             (main l) (calls l) (spawned l) (writes l)).

Definition log_call (node : string) (inputs : list string) (duration : Z)
    : M Loop unit := λ l,
  inr (tt, MkLoop (self l) (tasks l) (main l)
             (calls l ++ [(node, inputs, duration)]) (spawned l) (writes l)).

Definition set_main (m : main_state) : M Loop unit := λ l,
  inr (tt, MkLoop (self l) (tasks l) m (calls l) (spawned l) (writes l)).

(** [await self.strategy.execute(node, inputs, duration)]: the call is made
    and the coroutine waits for its outcome. *)
Definition await_strategy (node : string) (inputs : list string) (duration : Z)
    (start_time : Q) : M Loop unit :=
  log_call node inputs duration;;
  suspend_task node start_time inputs duration.

(** [sum(incoming_durations)] of lines 56-61 *)
Definition total_duration (G : DiGraph string) (node : string) : exn + Z :=
  foldr (λ src acc,
           match acc, edge_duration G src node with
           | inr a, inr d => inr (d + a)
           | inl e, _ => inl e
           | _, inl e => inl e
           end) (inr 0) (predecessors node G).

(** [_run_node_task(node)], lines 47-64: from the start of the coroutine to
    the point where it is suspended in the strategy call. *)
Definition _run_node_task_begin (node : string) (now : Q) : M Loop unit :=
  acquire;;
  task_started;;
  release;;
  let start_time := now in
  G ← the_graph;
  total ← WeightedDAG.lift (total_duration G node);
  await_strategy node [] total start_time.

(** Lines 80-85: the body of [for succ in self.dag.graph.successors(node)]. *)
Definition release_successor (result succ : string) : M Loop unit :=
  decrement_in_degree succ;;
  append_child_input succ result;;
  d ← read_in_degree succ;
  if decide (d = 0) then create_task succ else mret tt.

(** [_run_node_task(node)], lines 64-85: from the completion of the strategy
    call (normal or exceptional) to the end of the coroutine. *)
Definition _run_node_task_resume (node : string) (start_time : Q)
    (o : outcome) (now : Q) : M Loop unit :=
  let result :=
    match o with
    | Return r => r
    | Raise e => "ERROR: " +:+ e
    end in
  let end_time := now in
  record_result node result (end_time - start_time)%Q;;
  acquire;;
  task_ended;;
  G ← the_graph;
  for_ (successors node G) (release_successor result);;
  release;;
  retire_task node.

(** One pass of [_wait_until_all_done]'s loop test, and the end of [run]. *)
Definition poll (now : Q) : M Loop unit :=
  l ← get_state;
  G ← the_graph;
  if decide (size (results (self l)) < length (nodes G))%nat then mret tt else
  update_self (λ s, MkSelf (dag s) (results s) (timings s) (active_tasks s)
    (max_parallelism s) (child_inputs s) (in_degrees s) (lock s)
    (wall_start_time s) (Some now));;
  set_main Finished.

(** What the event loop can do next. *)
Inductive event : Type :=
  | Begin (node : string) (now : Q)
  | Resume (node : string) (o : outcome) (now : Q)
  | Poll (now : Q).

Definition enabled (ev : event) (l : Loop) : Prop :=
  lock (self l) = false ∧
  match ev with
  | Begin node _ => dict_get node (tasks l) = Some Created
  | Resume node _ _ => ∃ t0 i d, dict_get node (tasks l) = Some (Awaiting t0 i d)
  | Poll _ => main l = Polling
  end.

Definition fire (ev : event) : M Loop unit :=
  match ev with
  | Begin node now => _run_node_task_begin node now
  | Resume node o now =>
      l ← get_state;
      match dict_get node (tasks l) with
      | Some (Awaiting start_time _ _) =>
          _run_node_task_resume node start_time o now;;
          (* [run] was awaiting this coroutine *)
          if decide (main l = AwaitSource ∧ node = WeightedDAG.source (dag (self l)))
          then set_main Polling else mret tt
      | _ => mret tt
      end
  | Poll now => poll now
  end.

(** [run()] up to its first suspension: the clock is read and the source's
    coroutine is entered. *)
Definition run_begin (dag : WeightedDAG.t) (now : Q) : Loop :=
  let s := __init__ dag in
  let src := WeightedDAG.source dag in
  MkLoop
    (MkSelf dag (results s) (timings s) (active_tasks s) (max_parallelism s)
       (child_inputs s) (in_degrees s) (lock s) (Some now) (wall_end_time s))
    [(src, Created)] AwaitSource [] [src] [].

(** *** Running the loop

    A scheduler decides which live coroutine proceeds next and what the clock
    shows.  Passes of the polling loop that find work outstanding change
    nothing and are left out; when no coroutine is left, [run] polls. *)

Record Scheduler : Type := {
  pick : Loop → nat;     (* which live coroutine runs next *)
  clock : nat → Q        (* [time.perf_counter()] at step k *)
}.

Definition next_event `{NodeExecutionStrategy} (sch : Scheduler) (k : nat)
    (l : Loop) : event :=
  match tasks l !! (pick sch l mod length (tasks l))%nat with
  | Some (node, Created) => Begin node (clock sch k)
  | Some (node, Awaiting _ inputs d) =>
      Resume node (execute node inputs d) (clock sch k)
  | None => Poll (clock sch k)
  end.

(** [None]: out of fuel. *)
Fixpoint drive `{NodeExecutionStrategy} (fuel : nat) (sch : Scheduler) (k : nat)
    (l : Loop) : option (exn + Loop) :=
  match main l with
  | Finished => Some (inr l)
  | _ =>
      match fuel with
      | O => None
      | S fuel' =>
          match fire (next_event sch k l) l with
          | inl e => Some (inl e)
          | inr (_, l') => drive fuel' sch (S k) l'
          end
      end
  end.

(** [await executor.run()] *)
Definition run `{NodeExecutionStrategy} (fuel : nat) (sch : Scheduler)
    (dag : WeightedDAG.t) : option (exn + Loop) :=
  drive fuel sch 1 (run_begin dag (clock sch 0)).

(** [run()] up to its first suspension, on an executor that may have run
    before: lines 99 and 100 read and write the fields as they are. *)
Definition run_again (s : t) (now : Q) : Loop :=
  let src := WeightedDAG.source (dag s) in
  MkLoop
    (MkSelf (dag s) (results s) (timings s) (active_tasks s) (max_parallelism s)
       (child_inputs s) (in_degrees s) (lock s) (Some now) (wall_end_time s))
    [(src, Created)] AwaitSource [] [src] [].

(** *** Metrics *)

Inductive float : Type :=
  | Finite (q : Q)
  | Infinity.          (* float('inf') *)

Record Metrics : Type := {
  wall_time : Q;
  sequential_time : Q;
  time_saved : Q;
  speedup : float;
  alpha : Q;
  critical_path : Q;
  node_count : nat;
  metrics_max_parallelism : Z
}.

(** Python's [min(a, b)] and [max(a, b)]: the first argument wins a tie. *)
Definition py_min (a b : Q) : Q := if Qlt_le_dec b a then b else a.
Definition py_max (a b : Q) : Q := if Qlt_le_dec a b then b else a.

Definition get_performance_metrics (s : t) : exn + Metrics :=
  let values := (map_to_list (timings s)).*2 in
  let total_sequential_time := foldl Qplus 0%Q values in
  match wall_end_time s, wall_start_time s with
  | Some wall_end, Some wall_start =>
      let total_wall_time := (wall_end - wall_start)%Q in
      let time_saved := (total_sequential_time - total_wall_time)%Q in
      let speedup :=
        if Qlt_le_dec 0 total_wall_time
        then Finite (total_sequential_time / total_wall_time)
        else Infinity in
      let alpha :=
        if Qeq_dec total_sequential_time 0 then 1%Q
        else py_min 1 (py_max 0 (1 - time_saved / total_sequential_time)) in
      inr {| wall_time := total_wall_time;
             sequential_time := total_sequential_time;
             time_saved := time_saved;
             speedup := speedup;
             alpha := alpha;
             critical_path :=
               match values with
               | [] => 0%Q
               | x :: rest => foldl py_max x rest
               end;
             node_count := size (timings s);
             metrics_max_parallelism := max_parallelism s |}
  | _, _ => inl TypeError
  end.

End WorkflowExecutor.

(** ** Vocabulary of the specification *)

(** Total correctness of a monadic computation: from a state satisfying
    [P] it raises nothing and ends in a state satisfying [Q]. *)
Definition hoare {S A} (P : S → Prop) (m : M S A) (Q : A → S → Prop) : Prop :=
  ∀ s, P s → ∃ a s', m s = inr (a, s') ∧ Q a s'.

(** [random.shuffle] permutes its argument. *)
Definition shuffles (O : Oracle) : Prop := ∀ l, shuffle O l ≡ₚ l.

(** [a] comes before [b] in the list. *)
Definition before {A} (ordering : list A) (a b : A) : Prop :=
  ∃ i j, (i < j)%nat ∧ ordering !! i = Some a ∧ ordering !! j = Some b.

Definition snapshot_site (x : snapshot) : site :=
  match x with IntGraph s _ | StrGraph s _ => s end.

Definition snapshot_acyclic (x : snapshot) : Prop :=
  match x with
  | IntGraph _ G => acyclic G
  | StrGraph _ G => acyclic G
  end.

(** The snapshot was taken right after a tentative repair edge was added
    (lines 49 and 55) and [is_directed_acyclic_graph] says no to it. *)
Definition snapshot_rejected (x : snapshot) : Prop :=
  (snapshot_site x = TryOut ∨ snapshot_site x = TryIn) ∧
  match x with
  | IntGraph _ G => is_directed_acyclic_graph G = false
  | StrGraph _ G => is_directed_acyclic_graph G = false
  end.

Definition snapshot_undo (x : snapshot) : Prop :=
  snapshot_site x = UndoOut ∨ snapshot_site x = UndoIn.

(** Every graph of the trail is acyclic, except that of a rejected tentative
    edge, and then the very next mutation is the removal of that edge, which
    leaves an acyclic graph. *)
Fixpoint trail_ok (tr : list snapshot) : Prop :=
  match tr with
  | [] => True
  | x :: rest =>
      (snapshot_acyclic x ∨
       (snapshot_rejected x ∧
        match rest with
        | y :: _ => snapshot_undo y ∧ snapshot_acyclic y
        | [] => False
        end))
      ∧ trail_ok rest
  end.

Definition gen_inv {V} `{EqDecision V} (s : Gen V) : Prop :=
  wf_graph (gen_graph s) ∧ acyclic (gen_graph s) ∧ trail_ok (gen_trail s).

(** [s] is the one node without incoming edge. *)
Definition unique_source {V} `{EqDecision V} (G : DiGraph V) (s : V) : Prop :=
  filter (λ n, in_degree n G = 0%nat) (nodes G) = [s].

Definition all_reachable {V} `{EqDecision V} (G : DiGraph V) (s : V) : Prop :=
  ∀ x, x ∈ nodes G → rtc (has_edge G) s x.

Definition good_dag (dag : WeightedDAG.t) : Prop :=
  wf_graph (WeightedDAG.graph dag) ∧ acyclic (WeightedDAG.graph dag) ∧
  unique_source (WeightedDAG.graph dag) (WeightedDAG.source dag) ∧
  all_reachable (WeightedDAG.graph dag) (WeightedDAG.source dag).

(** The (node, successor, duration) triples of an adjacency schema. *)
Definition schema_triples (schema : list (string * list (string * Z)))
    : list (string * string * Z) :=
  '(u, l) ← schema; '(v, d) ← l; [(u, v, d)].

(** *** Vocabulary for the executor *)

(** The string that [_run_node_task] records for an outcome (lines 63-67). *)
Definition result_of (o : outcome) : string :=
  match o with
  | Return r => r
  | Raise e => "ERROR: " +:+ e
  end.

(** The sum of the durations of the edges of [G] that enter [node]. *)
Definition incoming_duration (G : DiGraph string) (node : string) : Z :=
  foldr Z.add 0 ((filter (λ e : string * string * Z, e.1.2 = node) (edges G)).*2).

Definition is_awaiting (t : string * WorkflowExecutor.task_state) : Prop :=
  match t.2 with
  | WorkflowExecutor.Awaiting _ _ _ => True
  | WorkflowExecutor.Created => False
  end.

#[global] Instance is_awaiting_dec t : Decision (is_awaiting t).
Proof. unfold is_awaiting. destruct (t.2); apply _. Defined.

(** The predecessors of [v] that have not written their result yet. *)
Definition pending_predecessors (G : DiGraph string) (done : list string)
    (v : string) : list string :=
  filter (λ u, u ∉ done) (predecessors v G).

(** What holds of the event loop between any two steps of a run over a
    well-formed acyclic graph with a single source. *)
Record loop_inv (dag : WeightedDAG.t) (l : WorkflowExecutor.Loop) : Prop := {
  inv_dag : WorkflowExecutor.dag (WorkflowExecutor.self l) = dag;
  inv_lock : WorkflowExecutor.lock (WorkflowExecutor.self l) = false;
  inv_spawned_nodup : NoDup (WorkflowExecutor.spawned l);
  inv_spawned_split :
    WorkflowExecutor.spawned l
    ≡ₚ WorkflowExecutor.writes l ++ (WorkflowExecutor.tasks l).*1;
  inv_spawned_nodes :
    ∀ v, v ∈ WorkflowExecutor.spawned l → v ∈ nodes (WeightedDAG.graph dag);
  inv_spawned_ready :
    ∀ v, v ∈ nodes (WeightedDAG.graph dag) →
      v ∈ WorkflowExecutor.spawned l ↔
      pending_predecessors (WeightedDAG.graph dag) (WorkflowExecutor.writes l) v = [];
  inv_in_degrees :
    ∀ v, v ∈ nodes (WeightedDAG.graph dag) →
      WorkflowExecutor.in_degrees (WorkflowExecutor.self l) !! v
      = Some (Z.of_nat (length (pending_predecessors (WeightedDAG.graph dag)
                                  (WorkflowExecutor.writes l) v)));
  inv_results :
    ∀ v, is_Some (WorkflowExecutor.results (WorkflowExecutor.self l) !! v)
         ↔ v ∈ WorkflowExecutor.writes l;
  inv_timings :
    ∀ v, is_Some (WorkflowExecutor.timings (WorkflowExecutor.self l) !! v)
         ↔ v ∈ WorkflowExecutor.writes l;
  inv_calls :
    Forall (λ c : string * list string * Z,
              c.1.2 = [] ∧ c.2 = incoming_duration (WeightedDAG.graph dag) c.1.1)
           (WorkflowExecutor.calls l);
  inv_calls_split :
    (WorkflowExecutor.calls l).*1.*1
    ≡ₚ WorkflowExecutor.writes l ++ (filter is_awaiting (WorkflowExecutor.tasks l)).*1;
  inv_awaiting :
    ∀ node t0 i d,
      (node, WorkflowExecutor.Awaiting t0 i d) ∈ WorkflowExecutor.tasks l →
      i = [] ∧ d = incoming_duration (WeightedDAG.graph dag) node;
  inv_inputs :
    ∀ u v r,
      WorkflowExecutor.results (WorkflowExecutor.self l) !! u = Some r →
      has_edge (WeightedDAG.graph dag) u v →
      r ∈ default [] (WorkflowExecutor.child_inputs (WorkflowExecutor.self l) !! v);
  inv_main_await :
    WorkflowExecutor.main l = WorkflowExecutor.AwaitSource
    ↔ WeightedDAG.source dag ∉ WorkflowExecutor.writes l;
  inv_main_finished :
    WorkflowExecutor.main l = WorkflowExecutor.Finished →
    WorkflowExecutor.tasks l = [] ∧
    ∀ v, v ∈ nodes (WeightedDAG.graph dag) → v ∈ WorkflowExecutor.writes l
}.

(** Every recorded result is what the strategy [E] makes of the node. *)
Definition results_from (E : NodeExecutionStrategy) (dag : WeightedDAG.t)
    (l : WorkflowExecutor.Loop) : Prop :=
  ∀ v r, WorkflowExecutor.results (WorkflowExecutor.self l) !! v = Some r →
         r = result_of (execute v [] (incoming_duration (WeightedDAG.graph dag) v)).

(** The steps that a run still has to make: one to begin and one to resume
    each node, less those made. *)
Definition steps_left (dag : WeightedDAG.t) (l : WorkflowExecutor.Loop) : nat :=
  (length (nodes (WeightedDAG.graph dag)) - length (WorkflowExecutor.calls l))
  + (length (nodes (WeightedDAG.graph dag)) - length (WorkflowExecutor.writes l)).

(** One step of the event loop. *)
Definition loop_step (l : WorkflowExecutor.Loop) (ev : WorkflowExecutor.event)
    (l' : WorkflowExecutor.Loop) : Prop :=
  WorkflowExecutor.enabled ev l ∧ WorkflowExecutor.fire ev l = inr (tt, l').

(** The states that a run can pass through. *)
Inductive loop_reachable (l0 : WorkflowExecutor.Loop) : WorkflowExecutor.Loop → Prop :=
  | reach_start : loop_reachable l0 l0
  | reach_step l ev l' :
      loop_reachable l0 l → loop_step l ev l' → loop_reachable l0 l'.

(** *** Metrics, in the words of the specification (section 4.4) *)

Definition clamp (x lo hi : Q) : Q := Qmin hi (Qmax lo x).

Definition spec_speedup (sequential_time wall_time : Q) : WorkflowExecutor.float :=
  if Qeq_dec wall_time 0 then WorkflowExecutor.Infinity
  else WorkflowExecutor.Finite (sequential_time / wall_time).

Definition spec_alpha (sequential_time wall_time : Q) : Q :=
  if Qeq_dec sequential_time 0 then 1%Q
  else clamp (1 - (sequential_time - wall_time) / sequential_time) 0 1.

(** *** Concrete inputs for the examples *)

(** An oracle: [shuffle] moves the last element to the front, only the third
    draw of [random.random()] falls below one half, every duration is 5, and
    sets of small integers are iterated in increasing order, as CPython
    does. *)
Definition demo_oracle : Oracle := {|
  shuffle := λ l, match reverse l with
                  | [] => []
                  | x :: r => x :: reverse r
                  end;
  random := λ k, if decide (k = 2%nat) then 0%Q else 1%Q;
  randint := λ _, 5;
  set_iter := λ s, merge_sort Nat.le (elements s)
|}.

(** A scheduler that always runs the oldest live coroutine; the clock
    advances by one per step. *)
Definition fifo : WorkflowExecutor.Scheduler := {|
  WorkflowExecutor.pick := λ _, 0%nat;
  WorkflowExecutor.clock := λ k, inject_Z (Z.of_nat k)
|}.

(** A strategy that fails on [node_0] and sleeps on every other node. *)
Definition failing_strategy : NodeExecutionStrategy := λ node inputs duration,
  if decide (node = "node_0") then Raise "boom"
  else DurationSleepStrategy node inputs duration.

(** A two-node chain, and an executor that has run it: one and two time
    units of work, done in three units of wall time. *)
Definition chain_dag : WeightedDAG.t := {|
  WeightedDAG.num_nodes := 2;
  WeightedDAG.edge_probability := 1;
  WeightedDAG.graph := [("node_0", [("node_1", 5)]); ("node_1", [])];
  WeightedDAG.source := "node_0";
  WeightedDAG.lang_schema :=
    {| WeightedDAG.ls_nodes := ["node_0"; "node_1"];
       WeightedDAG.ls_edges := [("node_0", "node_1")];
       WeightedDAG.ls_durations := [(("node_0", "node_1"), 5)];
       WeightedDAG.ls_source := "node_0" |};
  WeightedDAG.schema := [("node_0", [("node_1", 5)])]
|}.

Definition chain_executor : WorkflowExecutor.t :=
  WorkflowExecutor.MkSelf chain_dag
    {["node_0" := "node_0_result(init_node_0)";
      "node_1" := "node_1_result(init_node_1)"]}
    {["node_0" := 1%Q; "node_1" := 2%Q]}
    0 1 {["node_1" := ["node_0_result(init_node_0)"]]}
    {["node_0" := 0; "node_1" := 0]} false (Some 0%Q) (Some (3 # 1)).

(** The same executor with its two wall-clock fields exchanged: the run
    ends before it starts. *)
Definition backdated_executor : WorkflowExecutor.t :=
  WorkflowExecutor.MkSelf chain_dag
    {["node_0" := "node_0_result(init_node_0)";
      "node_1" := "node_1_result(init_node_1)"]}
    {["node_0" := 1%Q; "node_1" := 2%Q]}
    0 1 {["node_1" := ["node_0_result(init_node_0)"]]}
    {["node_0" := 0; "node_1" := 0]} false (Some (3 # 1)) (Some 0%Q).

(** *** Vocabulary for the properties X1 to X22 *)

(** [for x in s] visits every element of the set [s], each once. *)
Definition iterates (O : Oracle) : Prop := ∀ s, set_iter O s ≡ₚ elements s.

(** [random.randint(1, 10)] keeps to its range. *)
Definition randint_in_range (O : Oracle) : Prop := ∀ k, 1 ≤ randint O k ≤ 10.

(** The edges of a snapshot taken before relabelling. *)
Definition int_edges (x : snapshot) (a b : nat) : Prop :=
  match x with
  | IntGraph _ G => has_edge G a b
  | StrGraph _ _ => False
  end.

(** The edges of a snapshot, under the names that the nodes have in the
    final graph. *)
Definition snapshot_edges (x : snapshot) (a b : string) : Prop :=
  match x with
  | IntGraph _ G => ∃ i j, a = node_label i ∧ b = node_label j ∧ has_edge G i j
  | StrGraph _ G => has_edge G a b
  end.

(** Every two nodes are joined by an edge, one way or the other. *)
Definition all_joined {V} `{EqDecision V} (G : DiGraph V) : Prop :=
  ∀ a b, a ∈ nodes G → b ∈ nodes G → a ≠ b → has_edge G a b ∨ has_edge G b a.

Section executor_vocabulary.
Import WorkflowExecutor.

(** The time at which an event happens. *)
Definition event_time (ev : event) : Q :=
  match ev with
  | Begin _ now | Resume _ _ now | Poll now => now
  end.

(** [time.perf_counter()] never goes back. *)
Definition monotonic (clock : nat → Q) : Prop :=
  ∀ i j, (i ≤ j)%nat → (clock i <= clock j)%Q.

(** The fields that the loop of lines 79-85 does not touch, and the
    coroutines that it may add. *)
Definition release_frame (l l1 : Loop) : Prop :=
  active_tasks (self l1) = active_tasks (self l) ∧
  max_parallelism (self l1) = max_parallelism (self l) ∧
  wall_start_time (self l1) = wall_start_time (self l) ∧
  wall_end_time (self l1) = wall_end_time (self l) ∧
  timings (self l1) = timings (self l) ∧
  results (self l1) = results (self l) ∧
  dag (self l1) = dag (self l) ∧
  lock (self l1) = lock (self l) ∧
  main l1 = main l ∧ calls l1 = calls l ∧ writes l1 = writes l ∧
  ∀ x, x ∈ tasks l1 → x ∈ tasks l ∨ x.2 = Created.

(** The counters of lines 49, 50 and 77, and the two wall-clock fields. *)
Record counters_inv (l : Loop) : Prop := {
  cnt_active :
    active_tasks (self l) = Z.of_nat (length (calls l)) - Z.of_nat (length (writes l));
  cnt_max_lower : active_tasks (self l) ≤ max_parallelism (self l);
  cnt_max_upper : max_parallelism (self l) ≤ Z.of_nat (length (calls l));
  cnt_max_started : calls l ≠ [] → 1 ≤ max_parallelism (self l);
  cnt_wall_start : is_Some (wall_start_time (self l));
  cnt_wall_end : wall_end_time (self l) = None ↔ main l ≠ Finished
}.

(** Between the start [lo] of the run and the present [hi]. *)
Record time_inv (lo hi : Q) (l : Loop) : Prop := {
  tm_start : wall_start_time (self l) = Some lo;
  tm_order : (lo <= hi)%Q;
  tm_awaiting :
    ∀ node t0 i d, (node, Awaiting t0 i d) ∈ tasks l → (lo <= t0)%Q ∧ (t0 <= hi)%Q;
  tm_timings :
    ∀ v t, timings (self l) !! v = Some t → (0 <= t)%Q ∧ (t <= hi - lo)%Q;
  tm_end : ∀ e, wall_end_time (self l) = Some e → e = hi
}.

(** Results are written, and strategy calls are made, in an order that
    respects the edges. *)
Definition order_inv (dag : WeightedDAG.t) (l : Loop) : Prop :=
  ∀ u v, has_edge (WeightedDAG.graph dag) u v →
    (v ∈ writes l → before (writes l) u v) ∧
    (v ∈ (calls l).*1.*1 → before ((calls l).*1.*1) u v).

(** The predecessors of [v] that have finished, in the order in which they
    did. *)
Definition arrived (G : DiGraph string) (done : list string) (v : string) : list string :=
  filter (λ u, has_edge G u v) done.

(** [child_inputs[v]] holds the results of the finished predecessors of [v],
    in the order of their completion; the key exists once one has finished. *)
Definition inputs_inv (dag : WeightedDAG.t) (l : Loop) : Prop :=
  ∀ v, child_inputs (self l) !! v
       = match arrived (WeightedDAG.graph dag) (writes l) v with
         | [] => None
         | us => Some (omap (λ u, results (self l) !! u) us)
         end.

(** What holds throughout a run over a graph with a node that the source
    does not reach: only nodes within reach of the source are ever started
    or recorded. *)
Record stuck_inv (dag : WeightedDAG.t) (l : Loop) : Prop := {
  stuck_dag : WorkflowExecutor.dag (self l) = dag;
  stuck_in_degrees :
    ∀ v, v ∈ nodes (WeightedDAG.graph dag) → is_Some (in_degrees (self l) !! v);
  stuck_results :
    ∀ v, is_Some (results (self l) !! v) →
         v ∈ nodes (WeightedDAG.graph dag) ∧
         rtc (has_edge (WeightedDAG.graph dag)) (WeightedDAG.source dag) v;
  stuck_tasks :
    ∀ x, x ∈ tasks l →
         x.1 ∈ nodes (WeightedDAG.graph dag) ∧
         rtc (has_edge (WeightedDAG.graph dag)) (WeightedDAG.source dag) x.1;
  stuck_main : main l ≠ Finished
}.

End executor_vocabulary.

(** *** More concrete inputs *)

(** A state of the repair pass: node 0 reaches node 1, node 2 stands
    alone, no draw has been made. *)
Definition two_step_state : Gen nat :=
  MkGen [(0%nat, [(1%nat, 4)]); (1%nat, []); (2%nat, [])] 0 [].

(** A relabelled graph with two nodes of in-degree 0. *)
Definition two_roots : DiGraph string :=
  [("node_0", [("node_2", 3)]); ("node_1", [("node_2", 7)]); ("node_2", [])].

(** Two nodes and no edge: [node_1] is out of reach of the source. *)
Definition split_dag : WeightedDAG.t := {|
  WeightedDAG.num_nodes := 2;
  WeightedDAG.edge_probability := 0;
  WeightedDAG.graph := [("node_0", []); ("node_1", [])];
  WeightedDAG.source := "node_0";
  WeightedDAG.lang_schema :=
    {| WeightedDAG.ls_nodes := ["node_0"; "node_1"];
       WeightedDAG.ls_edges := [];
       WeightedDAG.ls_durations := [];
       WeightedDAG.ls_source := "node_0" |};
  WeightedDAG.schema := []
|}.

(** The random source whose draws of [random.random()] are all one half:
    the shuffle, the durations and the iteration of sets are those of
    [demo_oracle]. *)
Definition steady_oracle : Oracle := {|
  shuffle := shuffle demo_oracle;
  random := λ _, (1 # 2)%Q;
  randint := randint demo_oracle;
  set_iter := set_iter demo_oracle
|}.

(* ================================================================== *)
(** * Part II: properties *)
(* ================================================================== *)

(** ** Dictionaries *)

Section dict_facts.
Context {K A : Type} `{EqDecision K}.
Implicit Types (k : K) (a : A) (d : list (K * A)).

Lemma dict_get_Some_elem k a d : dict_get k d = Some a → (k, a) ∈ d.
Proof.
  induction d as [|[k' a'] d IH]; simpl; [done|].
  case_decide; intros ?; simplify_eq; [left | right; auto].
Qed.

Lemma dict_get_None k d : dict_get k d = None ↔ k ∉ d.*1.
Proof.
  induction d as [|[k' a'] d IH]; simpl.
  - split; [intros _; apply not_elem_of_nil | done].
  - rewrite not_elem_of_cons. destruct (decide (k' = k)); naive_solver.
Qed.

Lemma dict_get_is_Some k d : is_Some (dict_get k d) ↔ k ∈ d.*1.
Proof.
  rewrite <-not_eq_None_Some, dict_get_None.
  destruct (decide (k ∈ d.*1)); naive_solver.
Qed.

Lemma dict_get_elem k a d : NoDup d.*1 → (k, a) ∈ d → dict_get k d = Some a.
Proof.
  induction d as [|[k' a'] d IH]; simpl; [by intros _ ?%elem_of_nil|].
  intros [Hk Hd]%NoDup_cons [?|Hin]%elem_of_cons; simplify_eq.
  - by rewrite decide_True.
  - rewrite decide_False; [auto|]. intros ->. apply Hk.
    apply list_elem_of_fmap. by exists (k, a).
Qed.

Lemma dict_get_set k k' a d :
  dict_get k' (dict_set k a d) = if decide (k = k') then Some a else dict_get k' d.
Proof.
  induction d as [|[k0 a0] d IH]; simpl.
  - by destruct (decide (k = k')).
  - destruct (decide (k0 = k)) as [->|]; simpl.
    + by destruct (decide (k = k')).
    + rewrite IH. destruct (decide (k0 = k')) as [->|]; [|done].
      by rewrite decide_False.
Qed.

Lemma dict_set_keys k a d :
  (dict_set k a d).*1 = if decide (k ∈ d.*1) then d.*1 else d.*1 ++ [k].
Proof.
  induction d as [|[k0 a0] d IH].
  - done.
  - cbn [dict_set]. rewrite fmap_cons. cbn [fst].
    destruct (decide (k0 = k)) as [->|Hne].
    + rewrite decide_True by left. done.
    + rewrite fmap_cons, IH. cbn [fst]. destruct (decide (k ∈ d.*1)).
      * rewrite decide_True; [done | by right].
      * rewrite decide_False; [done|]. rewrite elem_of_cons. naive_solver.
Qed.

Lemma elem_of_dict_set_keys k k' a d :
  k' ∈ (dict_set k a d).*1 ↔ k' = k ∨ k' ∈ d.*1.
Proof.
  rewrite dict_set_keys. case_decide.
  - naive_solver.
  - rewrite elem_of_app, list_elem_of_singleton. naive_solver.
Qed.

Lemma dict_set_keys_NoDup k a d : NoDup d.*1 → NoDup (dict_set k a d).*1.
Proof.
  intros Hd. rewrite dict_set_keys. case_decide; [done|].
  apply NoDup_app. split_and!; [done | | apply NoDup_singleton].
  intros x ? ->%list_elem_of_singleton. done.
Qed.

Lemma dict_del_sublist k d : sublist (dict_del k d) d.
Proof.
  induction d as [|[k0 a0] d IH]; simpl; [done|].
  case_decide; [by apply sublist_cons | by apply sublist_skip].
Qed.

Lemma dict_del_keys_NoDup k d : NoDup d.*1 → NoDup (dict_del k d).*1.
Proof.
  intros Hd. eapply sublist_NoDup; [exact Hd|].
  apply fmap_sublist, dict_del_sublist.
Qed.

Lemma elem_of_dict_del_keys k k' d :
  NoDup d.*1 → k' ∈ (dict_del k d).*1 ↔ k' ∈ d.*1 ∧ k' ≠ k.
Proof.
  induction d as [|[k0 a0] d IH]; simpl.
  - intros _. rewrite elem_of_nil. naive_solver.
  - intros [Hk Hd]%NoDup_cons. case_decide; simplify_eq; simpl.
    + rewrite elem_of_cons. naive_solver.
    + rewrite !elem_of_cons, IH by done. naive_solver.
Qed.

Lemma dict_get_del k k' d :
  NoDup d.*1 →
  dict_get k' (dict_del k d) = if decide (k = k') then None else dict_get k' d.
Proof.
  induction d as [|[k0 a0] d IH]; simpl.
  - intros _. by case_decide.
  - intros [Hk Hd]%NoDup_cons.
    destruct (decide (k0 = k)) as [->|]; simpl.
    + destruct (decide (k = k')) as [->|]; [|done].
      by apply dict_get_None.
    + rewrite IH by done. destruct (decide (k0 = k')) as [->|]; [|done].
      by rewrite decide_False.
Qed.
End dict_facts.

(** ** Graphs: nodes, adjacency and well-formedness under the mutators *)

Section digraph_facts.
Context {V : Type} `{EqDecision V}.
Implicit Types (G : DiGraph V) (u v n a b x : V).

Lemma adj_elem u G l : NoDup (nodes G) → (u, l) ∈ G → adj u G = l.
Proof. intros HG Hin. unfold adj. by rewrite (dict_get_elem u l G). Qed.

Lemma adj_absent u G : u ∉ nodes G → adj u G = [].
Proof. intros Hu. unfold adj. by rewrite (proj2 (dict_get_None u G)). Qed.

Lemma has_edge_source_node G u v : has_edge G u v → u ∈ nodes G.
Proof.
  unfold has_edge, successors. intros Hv.
  destruct (decide (u ∈ nodes G)) as [|Hu]; [done|].
  rewrite (adj_absent u G Hu) in Hv. by apply elem_of_nil in Hv.
Qed.

(** Well-formedness in terms of the adjacency function. *)
Lemma wf_graph_alt G :
  wf_graph G ↔
  NoDup (nodes G) ∧ (∀ u, NoDup (successors u G)) ∧
  (∀ u v, has_edge G u v → v ∈ nodes G).
Proof.
  unfold wf_graph. rewrite Forall_forall. split.
  - intros [Hnd Hall]. split; [done|].
    assert (∀ u, NoDup (successors u G) ∧ Forall (λ v, v ∈ nodes G) (successors u G)) as Hs.
    { intros u. unfold successors, adj.
      destruct (dict_get u G) as [l|] eqn:Hget; simpl.
      - apply dict_get_Some_elem in Hget. apply (Hall _ Hget).
      - split; constructor. }
    split; [intros u; apply Hs|].
    intros u v Huv. destruct (Hs u) as [_ Hf].
    rewrite Forall_forall in Hf. by apply Hf.
  - intros (Hnd & Hs & Hcl). split; [done|].
    intros [u l] Hin. simpl. pose proof (adj_elem u G l Hnd Hin) as Hadj.
    specialize (Hs u). unfold successors in Hs. rewrite Hadj in Hs.
    split; [done|]. rewrite Forall_forall. intros v Hv.
    apply (Hcl u). unfold has_edge, successors. by rewrite Hadj.
Qed.

Lemma wf_graph_nil : wf_graph ([] : DiGraph V).
Proof. split; constructor. Qed.

Lemma has_edge_target_node G u v : wf_graph G → has_edge G u v → v ∈ nodes G.
Proof. rewrite wf_graph_alt. intros (_ & _ & Hcl). apply Hcl. Qed.

Lemma elem_of_predecessors G u v :
  NoDup (nodes G) → u ∈ predecessors v G ↔ has_edge G u v.
Proof.
  intros Hnd. unfold predecessors, has_edge, successors.
  rewrite list_elem_of_fmap. split.
  - intros ([u' l] & -> & [Hv Hin]%list_elem_of_filter). simpl in *.
    by rewrite (adj_elem u' G l).
  - intros Hv. assert (u ∈ nodes G) as Hu by by eapply has_edge_source_node.
    apply dict_get_is_Some in Hu as [l Hl].
    exists (u, l). split; [done|]. apply list_elem_of_filter.
    split; [|by apply dict_get_Some_elem].
    simpl. unfold adj in Hv. by rewrite Hl in Hv.
Qed.

Lemma predecessors_NoDup G v : NoDup (nodes G) → NoDup (predecessors v G).
Proof.
  intros Hnd. unfold predecessors.
  eapply sublist_NoDup; [exact Hnd|]. apply fmap_sublist, sublist_filter.
Qed.

(** *** add_node *)

Lemma nodes_add_node n G :
  nodes (add_node n G) = if decide (n ∈ nodes G) then nodes G else nodes G ++ [n].
Proof.
  unfold add_node. case_decide; [done|]. unfold nodes. by rewrite fmap_app.
Qed.

Lemma elem_of_nodes_add_node x n G :
  x ∈ nodes (add_node n G) ↔ x = n ∨ x ∈ nodes G.
Proof.
  rewrite nodes_add_node. case_decide.
  - naive_solver.
  - rewrite elem_of_app, list_elem_of_singleton. naive_solver.
Qed.

Lemma nodes_add_node_NoDup n G : NoDup (nodes G) → NoDup (nodes (add_node n G)).
Proof.
  intros Hnd. rewrite nodes_add_node. case_decide; [done|].
  apply NoDup_app. split_and!; [done | | apply NoDup_singleton].
  by intros x ? ->%list_elem_of_singleton.
Qed.

Lemma dict_get_app_absent (k : V) (d1 d2 : DiGraph V) :
  dict_get k (d1 ++ d2) =
  match dict_get k d1 with Some l => Some l | None => dict_get k d2 end.
Proof.
  induction d1 as [|[k0 l0] d1 IH]; [done|].
  cbn [app dict_get]. by destruct (decide (k0 = k)).
Qed.

Lemma adj_add_node u n G : adj u (add_node n G) = adj u G.
Proof.
  unfold add_node. case_decide; [done|]. unfold adj.
  rewrite dict_get_app_absent. destruct (dict_get u G); [done|].
  cbn [dict_get]. by case_decide.
Qed.

Lemma has_edge_add_node n G a b : has_edge (add_node n G) a b ↔ has_edge G a b.
Proof. unfold has_edge, successors. by rewrite adj_add_node. Qed.

Lemma wf_add_node n G : wf_graph G → wf_graph (add_node n G).
Proof.
  rewrite !wf_graph_alt. intros (Hnd & Hs & Hcl). split_and!.
  - by apply nodes_add_node_NoDup.
  - intros u. unfold successors. rewrite adj_add_node. apply Hs.
  - intros u v ?%has_edge_add_node. apply elem_of_nodes_add_node. eauto.
Qed.

Lemma add_nodes_from_spec (ns : list V) G :
  wf_graph G →
  wf_graph (add_nodes_from ns G) ∧
  (∀ x, x ∈ nodes (add_nodes_from ns G) ↔ x ∈ ns ∨ x ∈ nodes G) ∧
  (∀ a b, has_edge (add_nodes_from ns G) a b ↔ has_edge G a b).
Proof.
  unfold add_nodes_from. revert G.
  induction ns as [|n ns IH]; intros G HG; simpl.
  - split_and!; [done | | done]. intros x. rewrite elem_of_nil. naive_solver.
  - destruct (IH (add_node n G)) as (Hwf & Hn & He); [by apply wf_add_node|].
    split_and!; [done | |].
    + intros x. rewrite Hn, elem_of_nodes_add_node, elem_of_cons. naive_solver.
    + intros a b. by rewrite He, has_edge_add_node.
Qed.

(** *** add_edge *)

Lemma nodes_add_edge u v d G :
  nodes (add_edge u v d G) = nodes (add_node v (add_node u G)).
Proof.
  unfold add_edge, nodes at 1. rewrite dict_set_keys, decide_True; [done|].
  apply elem_of_nodes_add_node. right. apply elem_of_nodes_add_node. by left.
Qed.

Lemma elem_of_nodes_add_edge x u v d G :
  x ∈ nodes (add_edge u v d G) ↔ x = u ∨ x = v ∨ x ∈ nodes G.
Proof.
  rewrite nodes_add_edge, !elem_of_nodes_add_node. naive_solver.
Qed.

Lemma adj_add_edge a u v d G :
  adj a (add_edge u v d G) =
  if decide (u = a) then dict_set v d (adj u G) else adj a G.
Proof.
  unfold add_edge, adj at 1. rewrite dict_get_set.
  case_decide; simpl; [by rewrite !adj_add_node|].
  change (adj a (add_node v (add_node u G)) = adj a G).
  by rewrite !adj_add_node.
Qed.

Lemma has_edge_add_edge a b u v d G :
  has_edge (add_edge u v d G) a b ↔ (a = u ∧ b = v) ∨ has_edge G a b.
Proof.
  unfold has_edge, successors. rewrite adj_add_edge. case_decide; subst.
  - rewrite elem_of_dict_set_keys. naive_solver.
  - naive_solver.
Qed.

Lemma wf_add_edge u v d G : wf_graph G → wf_graph (add_edge u v d G).
Proof.
  intros HG. pose proof (wf_add_node v _ (wf_add_node u _ HG)) as HG2.
  revert HG HG2. rewrite !wf_graph_alt.
  intros (Hnd & Hs & Hcl) (Hnd2 & _ & _). split_and!.
  - by rewrite nodes_add_edge.
  - intros a. unfold successors. rewrite adj_add_edge. case_decide.
    + apply dict_set_keys_NoDup, Hs.
    + apply Hs.
  - intros a b [[-> ->]|Hab]%has_edge_add_edge; apply elem_of_nodes_add_edge; eauto.
Qed.

(** *** remove_edge *)

Lemma remove_edge_spec u v G :
  wf_graph G → has_edge G u v →
  ∃ G', remove_edge u v G = inr G' ∧ wf_graph G' ∧ nodes G' = nodes G ∧
        ∀ a b, has_edge G' a b ↔ has_edge G a b ∧ ¬ (a = u ∧ b = v).
Proof.
  intros HG Huv. unfold remove_edge. rewrite decide_True by done.
  eexists. split; [done|].
  pose proof (has_edge_source_node _ _ _ Huv) as Hu.
  assert (∀ a, adj a (dict_set u (dict_del v (adj u G)) G)
               = if decide (u = a) then dict_del v (adj u G) else adj a G) as Hadj.
  { intros a. unfold adj at 1. rewrite dict_get_set. by case_decide. }
  assert (nodes (dict_set u (dict_del v (adj u G)) G) = nodes G) as Hn.
  { unfold nodes. by rewrite dict_set_keys, decide_True. }
  apply wf_graph_alt in HG as (Hnd & Hs & Hcl).
  assert (∀ a b, has_edge (dict_set u (dict_del v (adj u G)) G) a b
                 ↔ has_edge G a b ∧ ¬ (a = u ∧ b = v)) as He.
  { intros a b. unfold has_edge, successors. rewrite Hadj. case_decide; subst.
    - rewrite elem_of_dict_del_keys by apply Hs. naive_solver.
    - naive_solver. }
  split_and!; [|done|done].
  apply wf_graph_alt. split_and!.
  - by rewrite Hn.
  - intros a. unfold successors. rewrite Hadj. case_decide.
    + apply dict_del_keys_NoDup, Hs.
    + apply Hs.
  - intros a b [Hab _]%He. rewrite Hn. eauto.
Qed.
End digraph_facts.

(** ** Finite acyclic relations have minimal elements *)

Section minimal.
Context {A : Type} (R : relation A) `{!RelDecision R}.

Lemma tc_last_step x y : tc R x y → ∃ w, rtc R x w ∧ R w y.
Proof.
  induction 1 as [x y Hxy | x z y Hxz _ (w & Hzw & Hwy)].
  - by exists x.
  - exists w. split; [by eapply rtc_l | done].
Qed.

Lemma tc_first_step x y : tc R x y → ∃ z, R x z.
Proof. destruct 1; eauto. Qed.

(** Walking backwards from [x] one reaches an element that nothing in
    [l] precedes. *)
Lemma minimal_ancestor (l : list A) x :
  (∀ y, ¬ tc R y y) → ∃ m, rtc R m x ∧ ∀ y, y ∈ l → ¬ R y m.
Proof.
  intros Hac. revert x. induction l as [|a l IH]; intros x.
  - exists x. split; [done|]. by intros y ?%elem_of_nil.
  - destruct (IH x) as (m & Hmx & Hmin).
    destruct (decide (R a m)) as [Ham|Ham].
    + destruct (IH a) as (m' & Hm'a & Hmin').
      exists m'. split.
      * etrans; [exact Hm'a|]. by eapply rtc_l.
      * intros y [->|Hy]%elem_of_cons; [|by apply Hmin'].
        intros Hyx. apply (Hac a). eapply tc_rtc_r; [by apply tc_once|done].
    + exists m. split; [done|].
      intros y [->|Hy]%elem_of_cons; [done | by apply Hmin].
Qed.
End minimal.

(** ** is_directed_acyclic_graph decides acyclicity *)

Section dag_check.
Context {V : Type} `{EqDecision V}.
Implicit Types (G : DiGraph V) (u v n a b x : V) (alive : list V).

Lemma acyclic_subrel G G' :
  (∀ a b, has_edge G' a b → has_edge G a b) → acyclic G → acyclic G'.
Proof.
  intros Hsub HG u Hu. apply (HG u).
  by apply (tc_congruence id (has_edge G)) in Hu.
Qed.

Lemma elem_of_zero_indegree G alive x :
  x ∈ zero_indegree G alive ↔
  x ∈ alive ∧ ∀ u, u ∈ predecessors x G → u ∉ alive.
Proof.
  unfold zero_indegree. rewrite list_elem_of_filter, Forall_forall. naive_solver.
Qed.

(** Nodes on a cycle are never discarded. *)
Lemma generations_keep_cycles fuel G alive x :
  NoDup (nodes G) →
  (∀ y, tc (has_edge G) y y → y ∈ alive) →
  tc (has_edge G) x x → x ∈ topological_generations fuel G alive.
Proof.
  intros Hnd. revert alive. induction fuel as [|fuel IH]; intros alive Hal Hx.
  - by apply Hal.
  - cbn [topological_generations]. apply IH; [|done].
    intros y Hy. apply list_elem_of_filter. split; [|by apply Hal].
    rewrite elem_of_zero_indegree. intros [_ Hpred].
    destruct (tc_last_step _ _ _ Hy) as (w & Hyw & Hwy).
    apply (Hpred w).
    + by apply elem_of_predecessors.
    + apply Hal. eapply tc_rtc_r; [by apply tc_once|done].
Qed.

(** In an acyclic graph every round discards at least one node. *)
Lemma generation_shrinks G alive :
  NoDup (nodes G) → acyclic G → alive ≠ [] →
  (length (filter (λ v, v ∉ zero_indegree G alive) alive) < length alive)%nat.
Proof.
  intros Hnd Hac Hne. destruct alive as [|x0 alive0]; [done|].
  set (alive := x0 :: alive0) in *.
  set (R := λ a b : V, has_edge G a b ∧ a ∈ alive ∧ b ∈ alive).
  assert (RelDecision R) as HR by (intros a b; unfold R; apply _).
  destruct (minimal_ancestor R alive x0) as (m & Hm & Hmin).
  { intros y Hy. apply (Hac y).
    apply (tc_congruence id (has_edge G)) in Hy; [done|]. by intros ?? [? _]. }
  assert (m ∈ alive) as Hmal.
  { apply rtc_inv in Hm as [->|(? & (_ & ? & _) & _)]; [left | done]. }
  apply (length_filter_lt _ _ m); [done|].
  intros Hnz. apply Hnz. apply elem_of_zero_indegree. split; [done|].
  intros u Hu Hual. apply (Hmin u Hual).
  split_and!; [|done|done]. by apply elem_of_predecessors.
Qed.

Lemma generations_exhaust fuel G alive :
  NoDup (nodes G) → acyclic G → (length alive ≤ fuel)%nat →
  topological_generations fuel G alive = [].
Proof.
  intros Hnd Hac. revert alive. induction fuel as [|fuel IH]; intros alive Hlen.
  - cbn. destruct alive; [done | simpl in Hlen; lia].
  - cbn [topological_generations]. apply IH.
    destruct (decide (alive = [])) as [->|Hne]; [simpl; lia|].
    pose proof (generation_shrinks G alive Hnd Hac Hne). lia.
Qed.

Lemma is_directed_acyclic_graph_spec G :
  NoDup (nodes G) → is_directed_acyclic_graph G = true ↔ acyclic G.
Proof.
  intros Hnd. unfold is_directed_acyclic_graph. rewrite bool_decide_eq_true.
  split.
  - intros Hnil x Hx.
    assert (x ∈ topological_generations (length G) G (nodes G)) as Hin.
    { apply generations_keep_cycles; [done | | done].
      intros y Hy. destruct (tc_first_step _ _ _ Hy) as [z Hyz].
      by eapply has_edge_source_node. }
    rewrite Hnil in Hin. by apply elem_of_nil in Hin.
  - intros Hac. apply generations_exhaust; [done..|].
    unfold nodes. by rewrite length_fmap.
Qed.
End dag_check.

(** ** nx.descendants computes reachability *)

Section descendants.
Context {V : Type} `{EqDecision V}.
Implicit Types (G : DiGraph V) (u v s : V).

(** What breadth-first search maintains: the visited nodes start with the
    source, are distinct, reachable, nodes of the graph (the source apart),
    and closed under the edges except at the frontier. *)
Lemma bfs_spec fuel G s (visited frontier : list V) rest :
  wf_graph G →
  visited = s :: rest → NoDup visited →
  (∀ v, v ∈ visited → rtc (has_edge G) s v) →
  (∀ v, v ∈ rest → v ∈ nodes G) →
  (∀ v, v ∈ frontier → v ∈ visited) →
  (∀ u v, u ∈ visited → u ∉ frontier → has_edge G u v → v ∈ visited) →
  (length (nodes G) < length visited + fuel)%nat →
  ∃ rest', bfs fuel G visited frontier = s :: rest' ∧ NoDup (s :: rest') ∧
           ∀ v, v ∈ s :: rest' ↔ rtc (has_edge G) s v.
Proof.
  intros Hwf. revert visited frontier rest.
  assert (∀ visited rest, visited = s :: rest → NoDup visited →
            (∀ v, v ∈ visited → rtc (has_edge G) s v) →
            (∀ u v, u ∈ visited → has_edge G u v → v ∈ visited) →
            ∃ rest', visited = s :: rest' ∧ NoDup (s :: rest') ∧
                     ∀ v, v ∈ s :: rest' ↔ rtc (has_edge G) s v) as Hclosed.
  { intros visited rest -> Hnd Hreach Hcl. exists rest. split_and!; [done..|].
    intros v. split; [apply Hreach|]. revert v.
    apply (rtc_ind_r (λ v, v ∈ s :: rest)); [left|].
    intros y z _ Hyz Hy. by eapply Hcl. }
  induction fuel as [|fuel IH]; intros visited frontier rest Hvis Hnd Hreach Hnodes
    Hfr Hcl Hlen.
  - cbn [bfs]. apply (Hclosed visited rest); [done..|].
    intros u v Hu Huv.
    assert (visited ⊆+ s :: nodes G) as Hsub.
    { apply NoDup_submseteq; [done|]. intros x Hx. rewrite Hvis in Hx.
      apply elem_of_cons in Hx as [->|Hx]; [left | right; by apply Hnodes]. }
    assert (visited ≡ₚ s :: nodes G) as Hperm.
    { apply submseteq_length_Permutation; [done|]. cbn. lia. }
    rewrite Hperm. right. by eapply has_edge_target_node.
  - cbn [bfs].
    set (next := remove_dups
                   (filter (λ v, v ∉ visited) (frontier ≫= λ u, successors u G))).
    assert (∀ v, v ∈ next ↔
                 (v ∉ visited) ∧ ∃ u, u ∈ frontier ∧ has_edge G u v) as Hnext.
    { intros v. unfold next.
      rewrite elem_of_remove_dups, list_elem_of_filter, list_elem_of_bind.
      unfold has_edge. naive_solver. }
    assert (NoDup next) as Hnd_next by apply NoDup_remove_dups.
    clearbody next. destruct next as [|x next'].
    + apply (Hclosed visited rest); [done..|].
      intros u v Hu Huv. destruct (decide (u ∈ frontier)) as [Hf|Hf]; [|by eapply Hcl].
      destruct (decide (v ∈ visited)) as [|Hv]; [done|].
      exfalso. apply (elem_of_nil v). apply Hnext. eauto.
    + apply (IH (visited ++ x :: next') (x :: next') (rest ++ x :: next')).
      * by rewrite Hvis.
      * apply NoDup_app. split_and!; [done | | done].
        intros v Hv [Hv' _]%Hnext. done.
      * intros v [Hv|Hv]%elem_of_app; [by apply Hreach|].
        apply Hnext in Hv as (_ & u & Hu & Huv).
        eapply rtc_r; [|exact Huv]. by apply Hreach, Hfr.
      * intros v [Hv|Hv]%elem_of_app; [by apply Hnodes|].
        apply Hnext in Hv as (_ & u & _ & Huv). by eapply has_edge_target_node.
      * intros v Hv. apply elem_of_app. by right.
      * intros u v [Hu|Hu]%elem_of_app Hnu Huv; [|done].
        apply elem_of_app.
        destruct (decide (v ∈ visited)) as [|Hv]; [by left|].
        destruct (decide (u ∈ frontier)) as [Hf|Hf].
        -- right. apply Hnext. eauto.
        -- left. by eapply Hcl.
      * rewrite length_app. cbn. lia.
Qed.

(** [nx.descendants]: the nodes other than the source that a directed path
    from the source reaches. *)
Lemma descendants_spec G s v :
  wf_graph G → v ∈ descendants G s ↔ v ≠ s ∧ tc (has_edge G) s v.
Proof.
  intros Hwf. unfold descendants.
  destruct (bfs_spec (length G) G s [s] [s] [] Hwf) as (rest & -> & Hnd & Hel);
    [done | apply NoDup_singleton | | | done | | |].
  - by intros v' ->%list_elem_of_singleton.
  - by intros v' ?%elem_of_nil.
  - by intros u v' Hu Hnu.
  - unfold nodes. rewrite length_fmap. cbn. lia.
  - cbn [drop]. apply NoDup_cons in Hnd as [Hs _].
    specialize (Hel v). rewrite elem_of_cons in Hel. rewrite rtc_tc in Hel.
    split.
    + intros Hv. assert (v ≠ s) as Hne by (by intros ->).
      split; [done|]. destruct Hel as [Hel _].
      by destruct (Hel (or_intror Hv)) as [->|].
    + intros [Hne Htc]. destruct Hel as [_ Hel].
      by destruct (Hel (or_intror Htc)) as [->|].
Qed.
End descendants.

(** ** Loops and the trail *)

Lemma for_app {S A} (xs ys : list A) (body : A → M S unit) s :
  for_ (xs ++ ys) body s =
  match for_ xs body s with
  | inl e => inl e
  | inr (_, s') => for_ ys body s'
  end.
Proof.
  revert s. induction xs as [|x xs IH]; intros s; [done|].
  cbn [app for_]. unfold mbind, M_bind.
  destruct (body x s) as [e|[[] s']]; [done|]. apply IH.
Qed.

Lemma for_inv {S A} (I : S → Prop) (xs : list A) (body : A → M S unit) :
  (∀ x, x ∈ xs → hoare I (body x) (λ _, I)) →
  hoare I (for_ xs body) (λ _, I).
Proof.
  induction xs as [|x xs IH]; intros Hbody s Hs.
  - by exists tt, s.
  - destruct (Hbody x (list_elem_of_here _ _) s Hs) as ([] & s1 & Hx & Hs1).
    destruct (IH (λ y Hy, Hbody y (list_elem_of_further _ _ _ Hy)) s1 Hs1)
      as ([] & s2 & Hxs & Hs2).
    exists tt, s2. split; [|done].
    cbn [for_]. unfold mbind, M_bind. by rewrite Hx.
Qed.

Lemma trail_ok_app tr1 tr2 : trail_ok tr1 → trail_ok tr2 → trail_ok (tr1 ++ tr2).
Proof.
  induction tr1 as [|x tr1 IH]; [done|].
  intros [Hx Htr1] Htr2. cbn [app trail_ok]. split; [|by apply IH].
  destruct Hx as [Hx|[Hx Hnext]]; [by left|].
  right. split; [done|]. by destruct tr1.
Qed.

Lemma trail_ok_snoc tr x : trail_ok tr → snapshot_acyclic x → trail_ok (tr ++ [x]).
Proof. intros ??. apply trail_ok_app; [done|]. split; [by left | done]. Qed.

Lemma trail_ok_snoc_undo tr x y :
  trail_ok tr → snapshot_rejected x → snapshot_undo y → snapshot_acyclic y →
  trail_ok ((tr ++ [x]) ++ [y]).
Proof.
  intros ????. rewrite <-app_assoc. apply trail_ok_app; [done|].
  cbn. split_and!; [by right | by left | done].
Qed.

(** ** Forward edges along a duplicate-free ordering cannot close a cycle *)

Section forward.
Context {V : Type} `{EqDecision V}.

Lemma before_irrefl (ordering : list V) a : NoDup ordering → ¬ before ordering a a.
Proof.
  intros Hnd (i & j & Hij & Hi & Hj).
  pose proof (NoDup_lookup _ _ _ _ Hnd Hi Hj). lia.
Qed.

Lemma before_trans (ordering : list V) a b c :
  NoDup ordering → before ordering a b → before ordering b c → before ordering a c.
Proof.
  intros Hnd (i & j & Hij & Hi & Hj) (j' & k & Hjk & Hj' & Hk).
  pose proof (NoDup_lookup _ _ _ _ Hnd Hj Hj'). subst j'.
  exists i, k. split_and!; [lia|done..].
Qed.

Lemma forward_acyclic (ordering : list V) (G : DiGraph V) :
  NoDup ordering → (∀ a b, has_edge G a b → before ordering a b) → acyclic G.
Proof.
  intros Hnd Hfw u Hu. apply (before_irrefl ordering u Hnd).
  revert Hu. generalize u at 1 3. generalize u. clear u.
  induction 1 as [a b Hab | a z b Haz _ IH]; [by apply Hfw|].
  eapply before_trans; [done | by apply Hfw | done].
Qed.

(** An edge out of a node that nothing points to cannot close a cycle. *)
Lemma acyclic_add_edge_from_root (G : DiGraph V) u v d :
  acyclic G → (∀ x, ¬ has_edge G x u) → u ≠ v → acyclic (add_edge u v d G).
Proof.
  intros Hac Hroot Huv.
  assert (∀ a b, tc (has_edge (add_edge u v d G)) a b →
                 b ≠ u ∧ (a ≠ u → tc (has_edge G) a b)) as Hpath.
  { induction 1 as [a b Hab | a z b Haz _ [IH1 IH2]].
    - apply has_edge_add_edge in Hab as [[-> ->]|Hab].
      + split; [done | by intros []].
      + split; [intros ->; by eapply Hroot | intros _; by apply tc_once].
    - split; [done|]. intros Ha.
      apply has_edge_add_edge in Haz as [[-> ->]|Haz]; [done|].
      eapply tc_l; [done|]. apply IH2. intros ->. by eapply Hroot. }
  intros x Hx. destruct (Hpath x x Hx) as [Hne Htc]. by apply (Hac x), Htc.
Qed.
End forward.

(** ** The repair pass keeps the graph well-formed and acyclic *)

Ltac msimpl :=
  repeat (progress (unfold mbind, M_bind, mret, M_ret, raise, rand_randint, rand_random,
                    g_add_edge, g_remove_edge, g_add_nodes_from, get_graph, set_graph;
                    cbn [gen_graph gen_draws gen_trail])).

Ltac msimpl_in H :=
  repeat (progress (unfold mbind, M_bind, mret, M_ret, raise, rand_randint, rand_random,
                    g_add_edge, g_remove_edge, g_add_nodes_from, get_graph, set_graph in H;
                    cbn [gen_graph gen_draws gen_trail] in H)).

Section attempt.
Context {V : Type} `{EqDecision V}.

(** One tentative edge: kept if the check passes, removed otherwise. *)
Lemma attempt_spec (G : DiGraph V) (u v : V) (d : Z) :
  wf_graph G → acyclic G →
  let G1 := add_edge u v d G in
  wf_graph G1 ∧ (∀ x, x ∈ nodes G → x ∈ nodes G1) ∧
  ((is_directed_acyclic_graph G1 = true ∧ acyclic G1) ∨
   (is_directed_acyclic_graph G1 = false ∧
    ∃ G2, remove_edge u v G1 = inr G2 ∧ wf_graph G2 ∧ acyclic G2 ∧
          (∀ x, x ∈ nodes G → x ∈ nodes G2))).
Proof.
  intros Hwf Hac G1. assert (wf_graph G1) as Hwf1 by by apply wf_add_edge.
  assert (∀ x, x ∈ nodes G → x ∈ nodes G1) as Hn1.
  { intros x Hx. apply elem_of_nodes_add_edge. auto. }
  split_and!; [done..|].
  destruct (is_directed_acyclic_graph G1) eqn:Hdag.
  - left. split; [done|]. apply is_directed_acyclic_graph_spec; [apply Hwf1 | done].
  - right. split; [done|].
    destruct (remove_edge_spec u v G1 Hwf1) as (G2 & Hrm & Hwf2 & Hn2 & He).
    { apply has_edge_add_edge. by left. }
    exists G2. split_and!; [done..| |].
    + apply (acyclic_subrel G); [|done].
      intros a b [Hab Hne]%He. apply has_edge_add_edge in Hab as [|]; [done..].
    + intros x Hx. rewrite Hn2. auto.
Qed.
End attempt.

Lemma try_targets_inv O x node targets :
  hoare (λ s, gen_inv s ∧ x ∈ nodes (gen_graph s))
    (WeightedDAG.try_targets O node targets)
    (λ _ s, gen_inv s ∧ x ∈ nodes (gen_graph s)).
Proof.
  induction targets as [|target rest IH]; intros s [(Hwf & Hac & Htr) Hx].
  - by exists false, s.
  - cbn [WeightedDAG.try_targets]. msimpl.
    destruct (attempt_spec (gen_graph s) node target (randint O (gen_draws s)) Hwf Hac)
      as (Hwf1 & Hn1 & [[Hd Hac1]|(Hd & G2 & Hrm & Hwf2 & Hac2 & Hn2)]); rewrite Hd.
    + eexists _, _. split; [done|]. split; [|by apply Hn1].
      split_and!; [done..|]. by apply trail_ok_snoc.
    + msimpl. rewrite Hrm. msimpl.
      destruct (attempt_spec G2 target node (randint O (S (gen_draws s))) Hwf2 Hac2)
        as (Hwf3 & Hn3 & [[Hd3 Hac3]|(Hd3 & G4 & Hrm4 & Hwf4 & Hac4 & Hn4)]);
        rewrite Hd3.
      * eexists _, _. split; [done|]. split; [|by apply Hn3, Hn2].
        split_and!; [done..|]. apply trail_ok_snoc; [|done].
        apply trail_ok_snoc_undo; [done | | by left | done].
        split; [by left | done].
      * msimpl. rewrite Hrm4. msimpl. apply IH. split; [|by apply Hn4, Hn2].
        split_and!; [done..|]. apply trail_ok_snoc_undo; [ | | by right | done].
        -- apply trail_ok_snoc_undo; [done | | by left | done].
           split; [by left | done].
        -- split; [by right | done].
Qed.

Lemma repair_inv O x unreachable reachable :
  hoare (λ s, gen_inv s ∧ x ∈ nodes (gen_graph s))
    (WeightedDAG.repair O unreachable reachable)
    (λ _ s, gen_inv s ∧ x ∈ nodes (gen_graph s)).
Proof.
  revert reachable. induction unreachable as [|node rest IH]; intros reachable s Hs.
  - by exists tt, s.
  - cbn [WeightedDAG.repair]. msimpl.
    destruct (try_targets_inv O x node (set_iter O reachable) s Hs) as (b & s1 & -> & Hs1).
    by apply IH.
Qed.

(** ** Relabelling with a one-to-one mapping *)

Section relabel.
Context {V W : Type} `{EqDecision V} `{EqDecision W}.
Context (f : V → W) `{!Inj (=) (=) f}.
Implicit Types (G : DiGraph V).

Lemma nodes_relabel G : nodes (relabel_nodes G f) = f <$> nodes G.
Proof.
  unfold nodes, relabel_nodes. rewrite <-!list_fmap_compose. done.
Qed.

Lemma dict_get_relabel G a :
  dict_get (f a) (relabel_nodes G f)
  = (λ l : list (V * Z), prod_map f id <$> l) <$> dict_get a G.
Proof.
  induction G as [|[k l] G IH]; [done|].
  cbn [relabel_nodes fmap list_fmap dict_get fst snd].
  destruct (decide (k = a)) as [->|Hne].
  - by rewrite decide_True.
  - rewrite decide_False; [apply IH|]. by intros ?%(inj f).
Qed.

Lemma successors_relabel G a :
  successors (f a) (relabel_nodes G f) = f <$> successors a G.
Proof.
  unfold successors, adj. rewrite dict_get_relabel.
  destruct (dict_get a G) as [l|]; [|done]. simpl.
  rewrite <-!list_fmap_compose. by apply list_fmap_ext.
Qed.

Lemma has_edge_relabel G x y :
  has_edge (relabel_nodes G f) x y ↔ ∃ a b, x = f a ∧ y = f b ∧ has_edge G a b.
Proof.
  split.
  - intros Hxy. pose proof (has_edge_source_node _ _ _ Hxy) as Hx.
    rewrite nodes_relabel in Hx. apply list_elem_of_fmap in Hx as (a & -> & _).
    unfold has_edge in Hxy. rewrite successors_relabel in Hxy.
    apply list_elem_of_fmap in Hxy as (b & -> & Hb). by exists a, b.
  - intros (a & b & -> & -> & Hab). unfold has_edge.
    rewrite successors_relabel. by apply list_elem_of_fmap_2.
Qed.

Lemma tc_relabel G x y :
  tc (has_edge (relabel_nodes G f)) x y →
  ∃ a b, x = f a ∧ y = f b ∧ tc (has_edge G) a b.
Proof.
  induction 1 as [x y Hxy | x z y Hxz _ (a' & b & -> & -> & Htc)].
  - apply has_edge_relabel in Hxy as (a & b & -> & -> & Hab).
    exists a, b. split_and!; [done..|]. by apply tc_once.
  - apply has_edge_relabel in Hxz as (a & a'' & -> & Heq & Hab).
    apply (inj f) in Heq as <-.
    exists a, b. split_and!; [done..|]. by eapply tc_l.
Qed.

Lemma acyclic_relabel G : acyclic G → acyclic (relabel_nodes G f).
Proof.
  intros Hac x Hx. apply tc_relabel in Hx as (a & b & -> & Heq & Htc).
  apply (inj f) in Heq as <-. by apply (Hac a).
Qed.

Lemma wf_relabel G : wf_graph G → wf_graph (relabel_nodes G f).
Proof.
  rewrite !wf_graph_alt. intros (Hnd & Hs & Hcl). split_and!.
  - rewrite nodes_relabel. by apply (NoDup_fmap_2 f).
  - intros x. destruct (decide (x ∈ nodes (relabel_nodes G f))) as [Hx|Hx].
    + rewrite nodes_relabel in Hx. apply list_elem_of_fmap in Hx as (a & -> & _).
      rewrite successors_relabel. apply (NoDup_fmap_2 f), Hs.
    + unfold successors. rewrite adj_absent by done. constructor.
  - intros x y (a & b & -> & -> & Hab)%has_edge_relabel.
    rewrite nodes_relabel. apply list_elem_of_fmap_2. by eapply Hcl.
Qed.
End relabel.

#[global] Instance node_label_inj : Inj (=) (=) node_label.
Proof. intros m n Heq. unfold node_label in Heq. by simplify_eq. Qed.

Lemma node_label_not_virtual n : node_label n ≠ "virtual".
Proof. unfold node_label. by destruct (pretty n). Qed.

(** ** Generation: steps 1 to 3 *)

Lemma hoare_bind {S A B} (P : S → Prop) (Q : A → S → Prop) (R : B → S → Prop)
    (m : M S A) (f : A → M S B) :
  hoare P m Q → (∀ a, hoare (Q a) (f a) R) → hoare P (m ≫= f) R.
Proof.
  intros Hm Hf s Hs. destruct (Hm s Hs) as (a & s1 & Hms & Hs1).
  destruct (Hf a s1 Hs1) as (b & s2 & Hfs & Hs2).
  exists b, s2. split; [|done]. unfold mbind, M_bind. by rewrite Hms.
Qed.

Lemma shuffles_facts O n :
  shuffles O →
  NoDup (shuffle O (seq 0 n)) ∧ length (shuffle O (seq 0 n)) = n.
Proof.
  intros HO. specialize (HO (seq 0 n)). split.
  - rewrite HO. apply NoDup_seq.
  - rewrite HO. apply length_seq.
Qed.

Section step2.
Context (O : Oracle) (num_nodes : Z) (edge_probability : Q).
Context (HO : shuffles O).
Let n := Z.to_nat num_nodes.
Let ordering := shuffle O (seq 0 n).

Let I2 (s : Gen nat) : Prop :=
  wf_graph (gen_graph s) ∧ trail_ok (gen_trail s) ∧
  (∀ x, x ∈ ordering → x ∈ nodes (gen_graph s)) ∧
  (∀ a b, has_edge (gen_graph s) a b → before ordering a b).

Lemma forward_edge_inv i j :
  (i < j < n)%nat →
  hoare I2
    (r ← rand_random O;
     if Qlt_le_dec r edge_probability then
       oi ← index ordering i;
       oj ← index ordering j;
       d ← rand_randint O;
       g_add_edge ForwardEdge oi oj d
     else mret tt)
    (λ _, I2).
Proof.
  intros Hij s (Hwf & Htr & Hn & Hfw). msimpl.
  destruct (shuffles_facts O n HO) as [Hnd Hlen]. fold ordering in Hnd, Hlen.
  destruct (Qlt_le_dec _ _); [|eexists tt, _; split; [done|]; by split_and!].
  destruct (lookup_lt_is_Some_2 ordering i) as [oi Hoi]; [lia|].
  destruct (lookup_lt_is_Some_2 ordering j) as [oj Hoj]; [lia|].
  unfold index. rewrite Hoi. msimpl. rewrite Hoj. msimpl.
  eexists _, _. split; [done|].
  assert (∀ a b, has_edge (add_edge oi oj (randint O (S (gen_draws s))) (gen_graph s)) a b
                 → before ordering a b) as Hfw'.
  { intros a b [[-> ->]|Hab]%has_edge_add_edge; [|by apply Hfw].
    exists i, j. split_and!; [lia|done..]. }
  split_and!; cbn [gen_graph gen_trail].
  - by apply wf_add_edge.
  - apply trail_ok_snoc; [done|]. by apply (forward_acyclic ordering).
  - intros x Hx. apply elem_of_nodes_add_edge. auto.
  - done.
Qed.

Lemma generate_connected_dag_spec draws :
  (1 ≤ num_nodes)%Z →
  ∃ G s,
    WeightedDAG._generate_connected_dag O num_nodes edge_probability (MkGen [] draws [])
      = inr (relabel_nodes G node_label, s) ∧
    gen_graph s = G ∧ wf_graph G ∧ acyclic G ∧ nodes G ≠ [] ∧ trail_ok (gen_trail s).
Proof.
  intros Hn1.
  destruct (shuffles_facts O n HO) as [Hnd Hlen]. fold ordering in Hnd, Hlen.
  assert (0 < n)%nat as Hpos by (unfold n; lia).
  destruct (lookup_lt_is_Some_2 ordering 0) as [o0 Ho0]; [lia|].
  assert (hoare (λ s, gen_graph s = [] ∧ gen_trail s = [])
            (WeightedDAG._generate_connected_dag O num_nodes edge_probability)
            (λ G0 s, G0 = relabel_nodes (gen_graph s) node_label ∧
                     gen_inv s ∧ o0 ∈ nodes (gen_graph s))) as Hh.
  { unfold WeightedDAG._generate_connected_dag. fold n. fold ordering.
    apply (hoare_bind _ (λ _, I2)).
    { intros s [HG Htr]. msimpl. eexists _, _. split; [done|].
      rewrite HG, Htr.
      destruct (add_nodes_from_spec ordering [] wf_graph_nil) as (Hwf & Hnodes & He).
      assert (∀ a b, ¬ has_edge (add_nodes_from ordering []) a b) as Hno.
      { intros a b Hab%He. unfold has_edge, successors, adj in Hab.
        by apply elem_of_nil in Hab. }
      split_and!; cbn [gen_graph gen_trail].
      - done.
      - split; [|done]. left. intros u Hu.
        destruct (tc_first_step _ _ _ Hu) as [z Hz]. by apply Hno in Hz.
      - intros x Hx. apply Hnodes. by left.
      - intros a b Hab. by apply Hno in Hab. }
    intros _. apply (hoare_bind _ (λ _, I2)).
    { apply for_inv. intros i Hi. apply for_inv. intros j Hj.
      apply forward_edge_inv.
      apply elem_of_seq in Hi, Hj. lia. }
    intros _ s (Hwf & Htr & Hnodes & Hfw). msimpl.
    unfold index. rewrite Ho0. msimpl.
    assert (gen_inv s ∧ o0 ∈ nodes (gen_graph s)) as Hs.
    { split; [split_and!; [done | | done]|].
      - by apply (forward_acyclic ordering).
      - apply Hnodes. by eapply list_elem_of_lookup_2. }
    match goal with
    | |- context [WeightedDAG.repair O ?u ?r s] =>
        destruct (repair_inv O o0 u r s Hs) as ([] & s1 & -> & Hs1 & Ho1)
    end.
    by eexists _, _. }
  destruct (Hh (MkGen [] draws [])) as (G0 & s & Hrun & -> & (Hwf & Hac & Htr) & Ho0');
    [done|].
  exists (gen_graph s), s. split_and!; [done..| |done].
  intros Hnil. rewrite Hnil in Ho0'. by apply elem_of_nil in Ho0'.
Qed.
End step2.

(** ** Source resolution *)

Section sources.
Context {V : Type} `{EqDecision V}.
Implicit Types (G : DiGraph V).

Lemma in_degree_zero G x :
  NoDup (nodes G) → in_degree x G = 0%nat ↔ ∀ u, ¬ has_edge G u x.
Proof.
  intros Hnd. unfold in_degree. rewrite length_zero_iff_nil. split.
  - intros Hnil u Hu%elem_of_predecessors; [|done].
    rewrite Hnil in Hu. by apply elem_of_nil in Hu.
  - intros Hno. apply elem_of_nil_inv. intros u Hu%elem_of_predecessors; [|done].
    by apply (Hno u).
Qed.

(** Every node descends from a node without incoming edge. *)
Lemma source_ancestor G x :
  wf_graph G → acyclic G → x ∈ nodes G →
  ∃ m, m ∈ filter (λ n, in_degree n G = 0%nat) (nodes G) ∧ rtc (has_edge G) m x.
Proof.
  intros Hwf Hac Hx.
  destruct (minimal_ancestor (has_edge G) (nodes G) x Hac) as (m & Hmx & Hmin).
  exists m. split; [|done]. apply list_elem_of_filter. split.
  - apply in_degree_zero; [apply Hwf|]. intros u Hu.
    apply (Hmin u); [|done]. by eapply has_edge_source_node.
  - apply rtc_inv in Hmx as [->|(z & Hmz & _)]; [done|].
    by eapply has_edge_source_node.
Qed.

Lemma filter_unique (P : V → Prop) `{∀ x, Decision (P x)} (l : list V) v :
  NoDup l → v ∈ l → P v → (∀ x, x ∈ l → P x → x = v) → filter P l = [v].
Proof.
  intros Hnd Hv HPv Huniq.
  assert (NoDup (filter P l)) as Hndf by by apply NoDup_filter.
  assert (∀ x, x ∈ filter P l ↔ x = v) as Hel.
  { intros x. rewrite list_elem_of_filter. naive_solver. }
  destruct (filter P l) as [|y [|z rest]].
  - exfalso. by apply (elem_of_nil v), Hel.
  - f_equal. apply Hel. left.
  - exfalso. apply NoDup_cons in Hndf as [Hy _]. apply Hy.
    assert (y = v) as -> by (apply Hel; left).
    assert (z = v) as -> by (apply Hel; right; left). left.
Qed.
End sources.

Lemma virtual_edges_spec O (srcs : list string) (s : Gen string) :
  wf_graph (gen_graph s) → acyclic (gen_graph s) → trail_ok (gen_trail s) →
  (∀ x, ¬ has_edge (gen_graph s) x "virtual") → "virtual" ∉ srcs →
  ∃ s',
    for_ srcs (λ source, d ← rand_randint O;
                         g_add_edge VirtualEdge "virtual" source d) s = inr (tt, s') ∧
    wf_graph (gen_graph s') ∧ acyclic (gen_graph s') ∧ trail_ok (gen_trail s') ∧
    (∀ a b, has_edge (gen_graph s') a b ↔
            has_edge (gen_graph s) a b ∨ (a = "virtual" ∧ b ∈ srcs)) ∧
    (∀ x, x ∈ nodes (gen_graph s') ↔
          x ∈ nodes (gen_graph s) ∨ (srcs ≠ [] ∧ (x = "virtual" ∨ x ∈ srcs))).
Proof.
  revert s. induction srcs as [|src srcs IH]; intros s Hwf Hac Htr Hroot Hv.
  - exists s. split_and!; [done..| |].
    + intros a b. rewrite elem_of_nil. naive_solver.
    + intros x. naive_solver.
  - apply not_elem_of_cons in Hv as [Hne Hv].
    cbn [for_]. msimpl.
    set (G1 := add_edge "virtual" src (randint O (gen_draws s)) (gen_graph s)).
    assert (acyclic G1) as Hac1 by by apply acyclic_add_edge_from_root.
    destruct (IH (MkGen G1 (S (gen_draws s)) (gen_trail s ++ [snap VirtualEdge G1])))
      as (s' & Hrun & Hwf' & Hac' & Htr' & He' & Hn'); cbn [gen_graph gen_trail].
    + by apply wf_add_edge.
    + done.
    + by apply trail_ok_snoc.
    + intros x [[_ ?]|Hx]%has_edge_add_edge; [done | by apply (Hroot x)].
    + done.
    + exists s'. split; [exact Hrun|]. split_and!; [done..| |].
      * intros a b. rewrite He'. cbn [gen_graph]. unfold G1.
        rewrite has_edge_add_edge, elem_of_cons.
        split; [intros [[[-> ->]|?]|[-> ?]] | intros [?|[-> [->|?]]]]; auto.
      * intros x. rewrite Hn'. cbn [gen_graph]. unfold G1.
        rewrite elem_of_nodes_add_edge, elem_of_cons.
        assert (src :: srcs ≠ []) as Hcons by done.
        split.
        -- intros [[?|[?|?]]|[_ [?|?]]]; auto 6.
        -- intros [?|[_ [?|[?|Hx]]]]; auto.
           destruct srcs; [by apply elem_of_nil in Hx | auto].
Qed.

Lemma get_source_node_spec O (G0 : DiGraph string) draws tr :
  wf_graph G0 → acyclic G0 → nodes G0 ≠ [] → "virtual" ∉ nodes G0 → trail_ok tr →
  ∃ src s,
    WeightedDAG._get_source_node O (MkGen G0 draws tr) = inr (src, s) ∧
    wf_graph (gen_graph s) ∧ acyclic (gen_graph s) ∧
    unique_source (gen_graph s) src ∧ all_reachable (gen_graph s) src ∧
    trail_ok (gen_trail s).
Proof.
  intros Hwf Hac Hne Hv Htr. unfold WeightedDAG._get_source_node. msimpl.
  set (sources := filter (λ n, in_degree n G0 = 0%nat) (nodes G0)).
  assert (∀ x, x ∈ nodes G0 → ∃ m, m ∈ sources ∧ rtc (has_edge G0) m x) as Hanc
    by (intros x Hx; by apply source_ancestor).
  case_decide as Hlen.
  - destruct sources as [|s0 [|]] eqn:Hsrc; try done.
    unfold index. cbn. eexists _, _. split; [done|]. cbn [gen_graph gen_trail].
    split_and!; [done..| |done].
    intros x Hx. destruct (Hanc x Hx) as (m & ->%list_elem_of_singleton & Hmx). done.
  - assert (sources ≠ []) as Hsne.
    { intros Hnil. destruct G0 as [|[x0 l0] G0']; [done|].
      destruct (Hanc x0) as (m & Hm & _); [left|].
      rewrite Hnil in Hm. by apply elem_of_nil in Hm. }
    assert (∀ x, x ∈ sources → x ∈ nodes G0) as Hsub.
    { intros x Hx. by apply list_elem_of_filter in Hx as [_ ?]. }
    destruct (virtual_edges_spec O sources (MkGen G0 draws tr))
      as (s' & Hrun & Hwf' & Hac' & Htr' & He' & Hn'); cbn [gen_graph gen_trail];
      [done.. | | | ].
    { intros x Hx. apply Hv. by eapply has_edge_target_node. }
    { intros Hin. by apply Hv, Hsub. }
    cbn [gen_graph] in He', Hn'. msimpl_in Hrun.
    rewrite Hrun. eexists _, _. split; [done|]. split_and!; [done..| | |done].
    + apply filter_unique.
      * apply Hwf'.
      * apply Hn'. right. auto.
      * apply in_degree_zero; [apply Hwf'|]. intros u [Hu|[_ Hu]]%He'.
        -- apply Hv. by eapply has_edge_target_node.
        -- by apply Hv, Hsub.
      * intros x Hx Hdeg. destruct (decide (x = "virtual")) as [|Hxv]; [done|].
        exfalso. assert (x ∈ nodes G0) as Hx0.
        { apply Hn' in Hx as [|[_ [|]]]; [done | done | by apply Hsub]. }
        rewrite in_degree_zero in Hdeg by apply Hwf'.
        apply (Hdeg "virtual"), He'. right. split; [done|].
        apply list_elem_of_filter. split; [|done].
        apply in_degree_zero; [apply Hwf|]. intros u Hu.
        apply (Hdeg u), He'. by left.
    + intros x Hx. destruct (decide (x = "virtual")) as [->|Hxv]; [done|].
      assert (x ∈ nodes G0) as Hx0.
      { apply Hn' in Hx as [|[_ [|]]]; [done | done | by apply Hsub]. }
      destruct (Hanc x Hx0) as (m & Hm & Hmx).
      eapply rtc_l; [apply He'; right; split; [done | exact Hm]|].
      eapply rtc_subrel; [|exact Hmx]. intros a b Hab. apply He'. by left.
Qed.

(** ** The schema conversions *)

Section dict_more.
Context {K A : Type} `{EqDecision K}.
Implicit Types (k : K) (a : A) (d : list (K * A)).

Lemma dict_set_absent k a d : k ∉ d.*1 → dict_set k a d = d ++ [(k, a)].
Proof.
  induction d as [|[k0 a0] d IH]; [done|].
  rewrite fmap_cons, not_elem_of_cons. cbn [fst]. intros [Hne Hd].
  cbn [dict_set app]. rewrite decide_False by done. by rewrite IH.
Qed.

Lemma dict_set_last k a a' d :
  k ∉ d.*1 → dict_set k a' (d ++ [(k, a)]) = d ++ [(k, a')].
Proof.
  induction d as [|[k0 a0] d IH].
  - intros _. cbn. by rewrite decide_True.
  - rewrite fmap_cons, not_elem_of_cons. cbn [fst]. intros [Hne Hd].
    cbn [dict_set app]. rewrite decide_False by done. by rewrite IH.
Qed.

Lemma dict_get_last k a d : k ∉ d.*1 → dict_get k (d ++ [(k, a)]) = Some a.
Proof.
  induction d as [|[k0 a0] d IH].
  - intros _. cbn. by rewrite decide_True.
  - rewrite fmap_cons, not_elem_of_cons. cbn [fst]. intros [Hne Hd].
    cbn [dict_get app]. rewrite decide_False by done. by apply IH.
Qed.
End dict_more.

Lemma M_bind_eq {S A B} (m : M S A) (f : A → M S B) s :
  (m ≫= f) s = match m s with inl e => inl e | inr (a, s') => f a s' end.
Proof. done. Qed.

Section schema.
Context (G : DiGraph string) (Hwf : wf_graph G).

Let body : string * string → M (list (string * list (string * Z))) unit :=
  λ '(u, v),
    d ← WeightedDAG.lift (edge_duration G u v);
    schema ← get_state;
    put_state (WeightedDAG.append_at u (v, d) schema).

Let partial (u : string) (l : list (string * Z)) : list (string * list (string * Z)) :=
  match l with [] => [] | _ => [(u, l)] end.

Lemma to_schema_inner u (a1 a2 : list (string * Z)) base :
  dict_get u G = Some (a1 ++ a2) → NoDup (a1 ++ a2).*1 → u ∉ base.*1 →
  for_ ('(v, _) ← a2; [(u, v)]) body (base ++ partial u a1)
  = inr (tt, base ++ partial u (a1 ++ a2)).
Proof.
  revert a1. induction a2 as [|[v d] a2 IH]; intros a1 Hget Hnd Hbase.
  - by rewrite app_nil_r.
  - assert (body (u, v) (base ++ partial u a1)
            = inr (tt, base ++ partial u (a1 ++ [(v, d)]))) as Hbody.
    { unfold body, edge_duration. rewrite Hget.
      rewrite (dict_get_elem v d (a1 ++ (v, d) :: a2)); [|done|].
      2:{ apply elem_of_app. right. left. }
      unfold WeightedDAG.lift, get_state, put_state, mbind, M_bind, mret, M_ret.
      do 2 f_equal.
      unfold WeightedDAG.append_at. destruct a1 as [|x a1]; cbn [partial app].
      - rewrite app_nil_r, (proj2 (dict_get_None u base)) by done.
        cbn. by rewrite dict_set_absent.
      - rewrite dict_get_last by done. cbn [default].
        by rewrite dict_set_last. }
    change (for_ ((u, v) :: ('(v0, _) ← a2; [(u, v0)])) body (base ++ partial u a1)
            = inr (tt, base ++ partial u (a1 ++ (v, d) :: a2))).
    cbn [for_]. rewrite M_bind_eq, Hbody.
    rewrite (cons_middle _ a1 a2), app_assoc in Hget, Hnd |- *.
    by apply IH.
Qed.

Lemma to_schema_outer (G1 G2 : DiGraph string) :
  G = G1 ++ G2 →
  for_ (edge_pairs G2) body (filter (λ e, e.2 ≠ []) G1)
  = inr (tt, filter (λ e, e.2 ≠ []) G).
Proof.
  revert G1. induction G2 as [|[u a] G2 IH]; intros G1 HG.
  - rewrite app_nil_r in HG. by subst.
  - unfold edge_pairs. cbn [mbind list_bind]. rewrite for_app.
    assert ((u, a) ∈ G) as Hin by (rewrite HG; apply elem_of_app; right; left).
    destruct Hwf as [Hnd Hall]. rewrite Forall_forall in Hall.
    destruct (Hall _ Hin) as [Hnda _]. cbn [snd] in Hnda.
    pose proof (to_schema_inner u [] a (filter (λ e, e.2 ≠ []) G1)) as Hinner.
    cbn [app partial] in Hinner. rewrite app_nil_r in Hinner.
    rewrite Hinner; [| by apply dict_get_elem | done |].
    + specialize (IH (G1 ++ [(u, a)])). rewrite filter_app in IH.
      replace (filter (λ e : string * list (string * Z), e.2 ≠ []) [(u, a)])
        with (partial u a) in IH by (by destruct a).
      apply IH. by rewrite <-app_assoc.
    + intros Hu. apply list_elem_of_fmap in Hu as ([u' l] & -> & Hf).
      apply list_elem_of_filter in Hf as [_ Hf].
      rewrite HG in Hnd. unfold nodes in Hnd. rewrite fmap_app in Hnd.
      apply NoDup_app in Hnd as (_ & Hdisj & _).
      apply (Hdisj u'); [apply list_elem_of_fmap; by exists (u', l) | left].
Qed.

Lemma to_schema_spec : WeightedDAG._to_schema G = inr (filter (λ e, e.2 ≠ []) G).
Proof.
  pose proof (to_schema_outer [] G eq_refl) as Hout.
  rewrite filter_nil in Hout. unfold body in Hout.
  unfold WeightedDAG._to_schema. by rewrite Hout.
Qed.

Lemma edge_pairs_elem u v :
  (u, v) ∈ edge_pairs G ↔ has_edge G u v.
Proof.
  unfold edge_pairs. rewrite list_elem_of_bind. split.
  - intros ([u' a] & Huv & Hin). apply list_elem_of_bind in Huv as ([v' d] & Huv & Hv).
    apply list_elem_of_singleton in Huv. simplify_eq.
    unfold has_edge, successors. rewrite (adj_elem u' G a); [|apply Hwf|done].
    apply list_elem_of_fmap. by exists (v', d).
  - intros Huv. pose proof (has_edge_source_node _ _ _ Huv) as Hu.
    apply dict_get_is_Some in Hu as [a Ha].
    unfold has_edge, successors, adj in Huv. rewrite Ha in Huv. cbn in Huv.
    apply list_elem_of_fmap in Huv as ([v' d] & -> & Hv).
    exists (u, a). split; [|by apply dict_get_Some_elem].
    apply list_elem_of_bind. exists (v', d). split; [left | done].
Qed.

Lemma edge_duration_total u v :
  has_edge G u v → ∃ d, edge_duration G u v = inr d.
Proof.
  intros Huv. unfold has_edge, successors, adj in Huv. unfold edge_duration.
  destruct (dict_get u G) as [a|]; [|by apply elem_of_nil in Huv].
  cbn in Huv. apply dict_get_is_Some in Huv as [d ->]. by exists d.
Qed.

Lemma to_langgraph_schema_total src :
  ∃ ls, WeightedDAG._to_langgraph_schema G src = inr ls.
Proof.
  unfold WeightedDAG._to_langgraph_schema.
  edestruct (for_inv (λ _ : list (string * string * Z), True) (edge_pairs G))
    as ([] & s' & -> & _); [| |by eexists]; [|done].
  intros [u v] Huv%edge_pairs_elem s _.
  destruct (edge_duration_total u v Huv) as [d Hd]. rewrite Hd.
  by eexists tt, _.
Qed.
End schema.

(** ** The constructor *)

Lemma init_spec O (num_nodes : Z) (edge_probability : Q) :
  shuffles O → 1 ≤ num_nodes →
  ∃ dag trail,
    WeightedDAG.__init__ O num_nodes edge_probability = inr (dag, trail) ∧
    good_dag dag ∧ trail_ok trail ∧
    WeightedDAG.schema dag = filter (λ e, e.2 ≠ []) (WeightedDAG.graph dag).
Proof.
  intros HO Hn. unfold WeightedDAG.__init__.
  destruct (generate_connected_dag_spec O num_nodes edge_probability HO 0%nat Hn)
    as (G & s1 & -> & HG & Hwf & Hac & Hne & Htr).
  destruct (get_source_node_spec O (relabel_nodes G node_label) (gen_draws s1)
              (gen_trail s1)) as (src & s2 & -> & Hwf2 & Hac2 & Huniq & Hreach & Htr2).
  - apply wf_relabel; [apply _ | done].
  - apply acyclic_relabel; [apply _ | done].
  - rewrite nodes_relabel. by destruct (nodes G).
  - rewrite nodes_relabel. intros (k & Hk & _)%list_elem_of_fmap.
    by apply (node_label_not_virtual k).
  - done.
  - destruct (to_langgraph_schema_total (gen_graph s2) Hwf2 src) as [ls ->].
    rewrite (to_schema_spec (gen_graph s2) Hwf2).
    eexists _, _. split; [done|]. by split_and!.
Qed.

(** ** The executor: incoming duration *)

Section incoming.
Context (G : DiGraph string) (Hwf : wf_graph G).

Lemma incoming_of_entry u (a : list (string * Z)) node :
  NoDup a.*1 →
  foldr Z.add 0
    ((filter (λ e : string * string * Z, e.1.2 = node)
        ('(v, d) ← a; [(u, v, d)])).*2)
  = default 0 (dict_get node a).
Proof.
  induction a as [|[v d] a IH]; [done|].
  rewrite fmap_cons. cbn [fst]. intros [Hv Hnd]%NoDup_cons.
  cbn [mbind list_bind app dict_get]. rewrite filter_cons. cbn [fst snd].
  destruct (decide (v = node)) as [->|Hne].
  - rewrite fmap_cons. cbn [snd foldr default].
    change (list_bind _ ?f ?l) with (l ≫= f).
    rewrite IH by done.
    rewrite (proj2 (dict_get_None node a)) by done. cbn. lia.
  - by apply IH.
Qed.

Lemma total_duration_suffix (G1 G2 : DiGraph string) node :
  G = G1 ++ G2 →
  foldr (λ src acc,
           match acc, edge_duration G src node with
           | inr a, inr d => inr (d + a)
           | inl e, _ => inl e
           | _, inl e => inl e
           end) (inr 0) (filter (λ e, node ∈ e.2.*1) G2).*1
  = inr (foldr Z.add 0
           ((filter (λ e : string * string * Z, e.1.2 = node) (edges G2)).*2)).
Proof.
  revert G1. induction G2 as [|[u a] G2 IH]; intros G1 HG; [done|].
  assert ((u, a) ∈ G) as Hin by (rewrite HG; apply elem_of_app; right; left).
  destruct Hwf as [Hnd Hall]. rewrite Forall_forall in Hall.
  destruct (Hall _ Hin) as [Hnda _]. cbn [snd] in Hnda.
  unfold edges. cbn [mbind list_bind].
  rewrite filter_app, fmap_app, foldr_app.
  change (list_bind _ ?f ?l) with (l ≫= f).
  fold (edges G2).
  specialize (IH (G1 ++ [(u, a)])). rewrite <-app_assoc in IH.
  specialize (IH HG).
  rewrite filter_cons. cbn [snd].
  assert (∀ z, foldr Z.add z
            ((filter (λ e : string * string * Z, e.1.2 = node)
                ('(v, d) ← a; [(u, v, d)])).*2)
          = default 0 (dict_get node a) + z) as Hentry.
  { intros z. rewrite <-(incoming_of_entry u a node Hnda).
    generalize ((filter (λ e : string * string * Z, e.1.2 = node)
                   ('(v, d) ← a; [(u, v, d)])).*2).
    intros ds. induction ds as [|d ds IHd]; cbn; [done | rewrite IHd; lia]. }
  rewrite Hentry.
  destruct (decide (node ∈ a.*1)) as [Hn|Hn].
  - rewrite fmap_cons. cbn [fst foldr]. rewrite IH.
    unfold edge_duration. rewrite (dict_get_elem u a G Hnd Hin).
    apply dict_get_is_Some in Hn as [d Hd]. by rewrite Hd.
  - rewrite IH. by rewrite (proj2 (dict_get_None node a)).
Qed.

Lemma total_duration_spec node :
  WorkflowExecutor.total_duration G node = inr (incoming_duration G node).
Proof. apply (total_duration_suffix [] G node eq_refl). Qed.
End incoming.

(** ** The executor: releasing the successors (lines 80-85) *)

Import WorkflowExecutor.

Ltac lsimpl :=
  repeat (progress (unfold mbind, M_bind, mret, M_ret, raise, get_state, put_state,
                    update_self, the_graph, acquire, release, task_started,
                    task_ended, record_result, decrement_in_degree, read_in_degree,
                    append_child_input, create_task, suspend_task, retire_task,
                    await_strategy, log_call, set_main;
                    cbn [self tasks main calls spawned writes
                         dag results timings active_tasks max_parallelism
                         child_inputs in_degrees lock wall_start_time wall_end_time])).

Lemma filter_ext_in {A} (P1 P2 : A → Prop) `{∀ x, Decision (P1 x)} `{∀ x, Decision (P2 x)}
    (l : list A) :
  (∀ x, x ∈ l → P1 x ↔ P2 x) → filter P1 l = filter P2 l.
Proof.
  induction l as [|x l IH]; intros Hext; [done|].
  rewrite !filter_cons.
  rewrite IH by (intros y Hy; apply Hext; by right).
  destruct (decide (P1 x)) as [H1|H1], (decide (P2 x)) as [H2|H2]; try done.
  - by apply Hext in H1; [|left].
  - by apply Hext in H2; [|left].
Qed.

Lemma release_successors result succs l :
  NoDup succs →
  (∀ v, v ∈ succs → is_Some (in_degrees (self l) !! v)) →
  ∃ l',
    for_ succs (release_successor result) l = inr (tt, l') ∧
    tasks l' = tasks l ++
      ((λ v, (v, Created)) <$> filter (λ v, in_degrees (self l) !! v = Some 1) succs) ∧
    spawned l' = spawned l ++ filter (λ v, in_degrees (self l) !! v = Some 1) succs ∧
    main l' = main l ∧ calls l' = calls l ∧ writes l' = writes l ∧
    dag (self l') = dag (self l) ∧ results (self l') = results (self l) ∧
    timings (self l') = timings (self l) ∧ lock (self l') = lock (self l) ∧
    (∀ v, in_degrees (self l') !! v =
          if decide (v ∈ succs) then (λ d, d - 1) <$> in_degrees (self l) !! v
          else in_degrees (self l) !! v) ∧
    (∀ v, child_inputs (self l') !! v =
          if decide (v ∈ succs)
          then Some (default [] (child_inputs (self l) !! v) ++ [result])
          else child_inputs (self l) !! v).
Proof.
  revert l. induction succs as [|succ rest IH]; intros l Hnd Hdom.
  - exists l. split_and!; try done.
    + by rewrite app_nil_r.
    + by rewrite app_nil_r.
  - apply NoDup_cons in Hnd as [Hsucc Hnd].
    destruct (Hdom succ) as [d Hd]; [left|].
    cbn [for_]. rewrite M_bind_eq. unfold release_successor at 1. lsimpl.
    rewrite Hd. lsimpl. rewrite lookup_insert_eq. lsimpl.
    set (l1 := if decide (d - 1 = 0)
               then MkLoop
                 (MkSelf (dag (self l)) (results (self l)) (timings (self l))
                    (active_tasks (self l)) (max_parallelism (self l))
                    (<[succ := default [] (child_inputs (self l) !! succ) ++ [result]]>
                       (child_inputs (self l)))
                    (<[succ := d - 1]> (in_degrees (self l))) (lock (self l))
                    (wall_start_time (self l)) (wall_end_time (self l)))
                 (tasks l ++ [(succ, Created)]) (main l) (calls l)
                 (spawned l ++ [succ]) (writes l)
               else MkLoop
                 (MkSelf (dag (self l)) (results (self l)) (timings (self l))
                    (active_tasks (self l)) (max_parallelism (self l))
                    (<[succ := default [] (child_inputs (self l) !! succ) ++ [result]]>
                       (child_inputs (self l)))
                    (<[succ := d - 1]> (in_degrees (self l))) (lock (self l))
                    (wall_start_time (self l)) (wall_end_time (self l)))
                 (tasks l) (main l) (calls l) (spawned l) (writes l)).
    assert (∀ v, v ∈ rest →
                 in_degrees (self l1) !! v = in_degrees (self l) !! v) as Hsame.
    { intros v Hv. unfold l1. case_decide; cbn; apply lookup_insert_ne; by intros ->. }
    destruct (IH l1) as (l' & Hrun & Ht & Hsp & Hm & Hc & Hw & Hdag & Hres & Htim
                         & Hlock & Hin & Hci); [done | |].
    { intros v Hv. rewrite Hsame by done. apply Hdom. by right. }
    exists l'. split.
    { rewrite <-Hrun. unfold l1. by case_decide. }
    rewrite (filter_ext_in _ (λ v, in_degrees (self l) !! v = Some 1) rest) in Ht, Hsp
      by (intros v Hv; by rewrite Hsame).
    rewrite filter_cons, Hd.
    split_and!.
    + rewrite Ht. unfold l1. destruct (decide (d - 1 = 0)) as [H0|H0]; cbn [tasks].
      * rewrite decide_True by (f_equal; lia). by rewrite fmap_cons, <-app_assoc.
      * rewrite decide_False; [done|]. intros [=]. lia.
    + rewrite Hsp. unfold l1. destruct (decide (d - 1 = 0)) as [H0|H0]; cbn [spawned].
      * rewrite decide_True by (f_equal; lia). by rewrite <-app_assoc.
      * rewrite decide_False; [done|]. intros [=]. lia.
    + rewrite Hm. unfold l1. by case_decide.
    + rewrite Hc. unfold l1. by case_decide.
    + rewrite Hw. unfold l1. by case_decide.
    + rewrite Hdag. unfold l1. by case_decide.
    + rewrite Hres. unfold l1. by case_decide.
    + rewrite Htim. unfold l1. by case_decide.
    + rewrite Hlock. unfold l1. by case_decide.
    + intros v. rewrite Hin.
      assert (in_degrees (self l1) = <[succ := d - 1]> (in_degrees (self l))) as ->
        by (unfold l1; by case_decide).
      destruct (decide (v = succ)) as [->|Hne].
      * rewrite decide_False by done. rewrite decide_True by left.
        by rewrite lookup_insert_eq, Hd.
      * rewrite lookup_insert_ne by done.
        destruct (decide (v ∈ rest)).
        -- by rewrite decide_True by by right.
        -- rewrite decide_False; [done|]. by intros [?|?]%elem_of_cons.
    + intros v. rewrite Hci.
      assert (child_inputs (self l1)
              = <[succ := default [] (child_inputs (self l) !! succ) ++ [result]]>
                  (child_inputs (self l))) as ->
        by (unfold l1; by case_decide).
      destruct (decide (v = succ)) as [->|Hne].
      * rewrite decide_False by done. rewrite decide_True by left.
        by rewrite lookup_insert_eq.
      * rewrite lookup_insert_ne by done.
        destruct (decide (v ∈ rest)).
        -- by rewrite decide_True by by right.
        -- rewrite decide_False; [done|]. by intros [?|?]%elem_of_cons.
Qed.

(** ** The executor: list and dictionary facts used by the invariant *)

Section task_facts.
Context {K A : Type} `{EqDecision K}.
Implicit Types (k : K) (a : A) (d : list (K * A)).

Lemma dict_del_keys_perm k d : k ∈ d.*1 → d.*1 ≡ₚ k :: (dict_del k d).*1.
Proof.
  induction d as [|[k0 a0] d IH]; [by intros ?%elem_of_nil|].
  rewrite fmap_cons. cbn [fst dict_del]. intros Hk.
  destruct (decide (k0 = k)) as [->|Hne]; [done|].
  apply elem_of_cons in Hk as [?|Hk]; [done|].
  rewrite fmap_cons. cbn [fst]. rewrite (IH Hk) at 1. apply Permutation_swap.
Qed.

Lemma elem_of_dict_set x k a d : x ∈ dict_set k a d → x = (k, a) ∨ x ∈ d.
Proof.
  induction d as [|[k0 a0] d IH]; cbn [dict_set].
  - intros ->%list_elem_of_singleton. by left.
  - destruct (decide (k0 = k)) as [->|Hne].
    + intros [->|Hx]%elem_of_cons; [by left | right; by right].
    + intros [->|Hx]%elem_of_cons; [right; left|].
      destruct (IH Hx); [by left | right; by right].
Qed.

Lemma elem_of_dict_del x k d : x ∈ dict_del k d → x ∈ d.
Proof. intros Hx. eapply elem_of_sublist; [exact Hx | apply dict_del_sublist]. Qed.

Lemma filter_dict_set (P : K * A → Prop) `{∀ x, Decision (P x)} k a a' d :
  dict_get k d = Some a → ¬ P (k, a) → P (k, a') →
  (filter P (dict_set k a' d)).*1 ≡ₚ k :: (filter P d).*1.
Proof.
  intros Hget Hn Hp. induction d as [|[k0 a0] d IH]; [done|].
  cbn [dict_get dict_set] in *. destruct (decide (k0 = k)) as [->|Hne].
  - simplify_eq. rewrite filter_cons_True by done.
    by rewrite filter_cons_False by done.
  - rewrite !filter_cons. destruct (decide (P (k0, a0))); [|by apply IH].
    rewrite !fmap_cons, (IH Hget). apply Permutation_swap.
Qed.

Lemma filter_dict_del (P : K * A → Prop) `{∀ x, Decision (P x)} k a d :
  dict_get k d = Some a → P (k, a) →
  (filter P d).*1 ≡ₚ k :: (filter P (dict_del k d)).*1.
Proof.
  intros Hget Hp. induction d as [|[k0 a0] d IH]; [done|].
  cbn [dict_get dict_del] in *. destruct (decide (k0 = k)) as [->|Hne].
  - simplify_eq. by rewrite filter_cons_True by done.
  - rewrite !filter_cons. destruct (decide (P (k0, a0))); [|by apply IH].
    rewrite !fmap_cons, (IH Hget). apply Permutation_swap.
Qed.
End task_facts.

Section pending.
Context {A : Type} `{EqDecision A}.

Lemma filter_ne_absent (x : A) (l : list A) : x ∉ l → filter (λ u, u ≠ x) l = l.
Proof.
  induction l as [|y l IH]; [done|].
  intros [Hne Hl]%not_elem_of_cons.
  rewrite filter_cons_True by done. by rewrite IH.
Qed.

Lemma length_filter_ne (x : A) (l : list A) :
  NoDup l → x ∈ l → S (length (filter (λ u, u ≠ x) l)) = length l.
Proof.
  induction l as [|y l IH]; [by intros _ ?%elem_of_nil|].
  intros [Hy Hnd]%NoDup_cons [->|Hx]%elem_of_cons.
  - rewrite filter_cons_False by (intros ?; done).
    by rewrite filter_ne_absent.
  - rewrite filter_cons_True by (by intros ->).
    cbn. by rewrite IH.
Qed.

Lemma filter_ne_nil (x : A) (l : list A) :
  NoDup l → l ≠ [] → filter (λ u, u ≠ x) l = [] → l = [x].
Proof.
  intros Hnd Hne Hf. destruct l as [|y l]; [done|].
  rewrite filter_cons in Hf. destruct (decide (y ≠ x)) as [|Hyx]; [done|].
  assert (y = x) as -> by by destruct (decide (y = x)).
  f_equal. apply NoDup_cons in Hnd as [Hx _].
  rewrite filter_ne_absent in Hf by done. done.
Qed.
End pending.

Lemma pending_snoc (G : DiGraph string) (done : list string) node v :
  pending_predecessors G (done ++ [node]) v
  = filter (λ u, u ≠ node) (pending_predecessors G done v).
Proof.
  unfold pending_predecessors. rewrite list_filter_filter.
  apply list_filter_iff. intros u.
  rewrite elem_of_app, list_elem_of_singleton. tauto.
Qed.

Lemma pending_NoDup (G : DiGraph string) done v :
  NoDup (nodes G) → NoDup (pending_predecessors G done v).
Proof. intros. by apply NoDup_filter, predecessors_NoDup. Qed.

Lemma pending_elem (G : DiGraph string) done u v :
  NoDup (nodes G) →
  u ∈ pending_predecessors G done v ↔ has_edge G u v ∧ u ∉ done.
Proof.
  intros Hnd. unfold pending_predecessors.
  rewrite list_elem_of_filter, elem_of_predecessors by done. tauto.
Qed.

Lemma size_results_writes dag l :
  loop_inv dag l → size (results (self l)) = length (writes l).
Proof.
  intros Hinv.
  assert (NoDup (writes l)) as Hnd.
  { pose proof (inv_spawned_nodup _ _ Hinv) as Hsp.
    rewrite (inv_spawned_split _ _ Hinv) in Hsp. by apply NoDup_app in Hsp as [? _]. }
  rewrite <-size_dom.
  assert (dom (results (self l)) = list_to_set (writes l)) as ->.
  { apply set_eq. intros v. rewrite elem_of_dom, elem_of_list_to_set.
    apply (inv_results _ _ Hinv). }
  by rewrite size_list_to_set.
Qed.

(** ** The executor: the invariant holds when [run] starts *)

Lemma pending_nil (G : DiGraph string) v :
  pending_predecessors G [] v = predecessors v G.
Proof.
  unfold pending_predecessors.
  induction (predecessors v G) as [|u l IH]; [done|].
  rewrite filter_cons_True by apply not_elem_of_nil. by rewrite IH.
Qed.

Lemma fmap_fst_pair {A B} (g : A → B) (l : list A) :
  ((λ x, (x, g x)) <$> l).*1 = l.
Proof. induction l as [|x l IH]; [done|]. cbn. by rewrite IH. Qed.

Lemma source_is_node dag : good_dag dag →
  WeightedDAG.source dag ∈ nodes (WeightedDAG.graph dag).
Proof.
  intros (_ & _ & Huniq & _). unfold unique_source in Huniq.
  assert (WeightedDAG.source dag ∈
            filter (λ n, in_degree n (WeightedDAG.graph dag) = 0%nat)
              (nodes (WeightedDAG.graph dag))) as Hin by (rewrite Huniq; left).
  by apply list_elem_of_filter in Hin as [_ ?].
Qed.

Lemma inv_init dag now : good_dag dag → loop_inv dag (run_begin dag now).
Proof.
  intros Hgood. pose proof (source_is_node dag Hgood) as Hsrc.
  destruct Hgood as (Hwf & Hac & Huniq & Hreach).
  assert (NoDup (nodes (WeightedDAG.graph dag))) as Hnd by apply Hwf.
  unfold unique_source in Huniq.
  split; cbn; try done.
  - apply NoDup_singleton.
  - by intros v ->%list_elem_of_singleton.
  - intros v Hv. rewrite pending_nil, list_elem_of_singleton. split.
    + intros ->.
      assert (WeightedDAG.source dag ∈
                filter (λ n, in_degree n (WeightedDAG.graph dag) = 0%nat)
                  (nodes (WeightedDAG.graph dag))) as Hin by (rewrite Huniq; left).
      apply list_elem_of_filter in Hin as [Hdeg _].
      by apply length_zero_iff_nil in Hdeg.
    + intros Hnil. apply list_elem_of_singleton. rewrite <-Huniq.
      apply list_elem_of_filter. split; [|done].
      unfold in_degree. by rewrite Hnil.
  - intros v Hv. rewrite pending_nil.
    apply elem_of_list_to_map_1.
    + by rewrite fmap_fst_pair.
    + apply list_elem_of_fmap. by exists v.
  - intros v. rewrite lookup_empty, elem_of_nil. split; [by intros [??] | done].
  - intros v. rewrite lookup_empty, elem_of_nil. split; [by intros [??] | done].
  - by intros node t0 i d [=]%list_elem_of_singleton.
  - rewrite elem_of_nil. tauto.
Qed.

(** ** The executor: each kind of step keeps the invariant *)

Lemma begin_step dag l node now :
  good_dag dag → loop_inv dag l → dict_get node (tasks l) = Some Created →
  ∃ l',
    _run_node_task_begin node now l = inr (tt, l') ∧ loop_inv dag l' ∧
    calls l' = calls l ++ [(node, [], incoming_duration (WeightedDAG.graph dag) node)] ∧
    tasks l' = dict_set node
                 (Awaiting now [] (incoming_duration (WeightedDAG.graph dag) node))
                 (tasks l) ∧
    writes l' = writes l ∧ spawned l' = spawned l ∧ main l' = main l ∧
    results (self l') = results (self l) ∧
    in_degrees (self l') = in_degrees (self l) ∧
    child_inputs (self l') = child_inputs (self l).
Proof.
  intros (Hwf & Hac & Huniq & Hreach) Hinv Hget.
  unfold _run_node_task_begin. lsimpl.
  rewrite (inv_dag _ _ Hinv), (total_duration_spec _ Hwf). unfold WeightedDAG.lift. lsimpl.
  eexists. split; [done|]. split; [|done].
  assert (node ∈ (tasks l).*1) as Hnode by (apply dict_get_is_Some; eauto).
  assert ((dict_set node
             (Awaiting now [] (incoming_duration (WeightedDAG.graph dag) node))
             (tasks l)).*1 = (tasks l).*1) as Hkeys
    by (by rewrite dict_set_keys, decide_True).
  destruct Hinv. split; cbn; try done.
  - by rewrite Hkeys.
  - apply Forall_app. split; [done|]. by repeat constructor.
  - rewrite !fmap_app. cbn.
    rewrite (filter_dict_set is_awaiting node Created); [|done|by intros []|done].
    rewrite inv_calls_split0. rewrite <-app_assoc.
    apply Permutation_app_head. symmetry. apply Permutation_cons_append.
  - intros node' t0 i d [Heq|Hin]%elem_of_dict_set; [by simplify_eq | eauto].
  - intros Hfin. destruct (inv_main_finished0 Hfin) as [Hnil _].
    rewrite Hnil in Hnode. by apply elem_of_nil in Hnode.
Qed.

Lemma writes_NoDup dag l : loop_inv dag l → NoDup (writes l).
Proof.
  intros Hinv. pose proof (inv_spawned_nodup _ _ Hinv) as Hsp.
  rewrite (inv_spawned_split _ _ Hinv) in Hsp. by apply NoDup_app in Hsp as [? _].
Qed.

Lemma writes_are_nodes dag l v :
  loop_inv dag l → v ∈ writes l → v ∈ nodes (WeightedDAG.graph dag).
Proof.
  intros Hinv Hv. apply (inv_spawned_nodes _ _ Hinv).
  rewrite (inv_spawned_split _ _ Hinv). apply elem_of_app. by left.
Qed.

(** Counting: all nodes are written exactly when as many results exist. *)
Lemma all_written dag l :
  good_dag dag → loop_inv dag l →
  (length (nodes (WeightedDAG.graph dag)) ≤ length (writes l))%nat →
  tasks l = [] ∧ writes l ≡ₚ nodes (WeightedDAG.graph dag).
Proof.
  intros (Hwf & _) Hinv Hlen.
  assert (NoDup (nodes (WeightedDAG.graph dag))) as Hnd by apply Hwf.
  pose proof (inv_spawned_nodup _ _ Hinv) as Hsp.
  assert (spawned l ⊆ nodes (WeightedDAG.graph dag)) as Hsub
    by (intros v; apply (inv_spawned_nodes _ _ Hinv)).
  pose proof (submseteq_length _ _ (NoDup_submseteq _ _ Hsp Hsub)) as Hlen'.
  rewrite (inv_spawned_split _ _ Hinv), length_app, length_fmap in Hlen'.
  assert (tasks l = []) as Hnil by (destruct (tasks l); [done | cbn in Hlen'; lia]).
  split; [done|].
  apply submseteq_length_Permutation; [|lia].
  apply NoDup_submseteq; [by eapply writes_NoDup|].
  intros v Hv. by eapply writes_are_nodes.
Qed.

Lemma poll_step dag l now :
  good_dag dag → loop_inv dag l → main l = Polling →
  ∃ l',
    poll now l = inr (tt, l') ∧ loop_inv dag l' ∧
    calls l' = calls l ∧ tasks l' = tasks l ∧ writes l' = writes l ∧
    spawned l' = spawned l ∧ results (self l') = results (self l) ∧
    in_degrees (self l') = in_degrees (self l) ∧
    child_inputs (self l') = child_inputs (self l) ∧
    main l' = (if decide (length (writes l) < length (nodes (WeightedDAG.graph dag)))%nat
               then Polling else Finished).
Proof.
  intros Hgood Hinv Hmain. unfold poll. lsimpl.
  rewrite (inv_dag _ _ Hinv), (size_results_writes dag l Hinv).
  case_decide as Hlt; lsimpl.
  - exists l. by split_and!.
  - eexists. split; [done|]. split; [|done].
    destruct (all_written dag l Hgood Hinv) as [Hnil Hperm]; [lia|].
    pose proof Hinv as Hinv'. destruct Hinv. split; cbn; try done.
    + split; [done|]. intros Hsrc. by apply inv_main_await0 in Hsrc; rewrite Hmain in Hsrc.
    + intros _. split; [done|]. intros v Hv. by rewrite Hperm.
Qed.

Lemma resume_step dag l node t0 i d o now :
  good_dag dag → loop_inv dag l →
  dict_get node (tasks l) = Some (Awaiting t0 i d) →
  ∃ l',
    fire (Resume node o now) l = inr (tt, l') ∧ loop_inv dag l' ∧
    writes l' = writes l ++ [node] ∧ calls l' = calls l ∧
    results (self l') = <[node := result_of o]> (results (self l)) ∧
    timings (self l') = <[node := (now - t0)%Q]> (timings (self l)) ∧
    spawned l' = spawned l ++
      filter (λ v, in_degrees (self l) !! v = Some 1)
        (successors node (WeightedDAG.graph dag)) ∧
    (∀ v, in_degrees (self l') !! v =
          if decide (v ∈ successors node (WeightedDAG.graph dag))
          then (λ d, d - 1) <$> in_degrees (self l) !! v
          else in_degrees (self l) !! v) ∧
    (∀ v, child_inputs (self l') !! v =
          if decide (v ∈ successors node (WeightedDAG.graph dag))
          then Some (default [] (child_inputs (self l) !! v) ++ [result_of o])
          else child_inputs (self l) !! v).
Proof.
  intros (Hwf & Hac & Huniq & Hreach) Hinv Hget.
  set (G := WeightedDAG.graph dag) in *.
  set (succs := successors node G).
  pose proof Hwf as (Hnd & Hsnd & Hcl)%wf_graph_alt.
  assert (NoDup succs) as Hsuccs_nd by apply Hsnd.
  assert (∀ v, v ∈ succs → v ∈ nodes G) as Hsuccs_nodes by (intros v; apply Hcl).
  assert (node ∉ succs) as Hself.
  { intros Hin. apply (Hac node). by apply tc_once. }
  assert (node ∈ (tasks l).*1) as Hnode_tasks by (apply dict_get_is_Some; eauto).
  pose proof (inv_spawned_nodup _ _ Hinv) as Hsp_nd.
  pose proof (inv_spawned_split _ _ Hinv) as Hsplit.
  assert (NoDup (writes l ++ (tasks l).*1)) as Hwt by by rewrite <-Hsplit.
  apply NoDup_app in Hwt as (Hw_nd & Hdisj & Ht_nd).
  assert (node ∉ writes l) as Hnode_nw by (intros Hin; by apply (Hdisj node)).
  assert (node ∈ spawned l) as Hnode_sp
    by (rewrite Hsplit; apply elem_of_app; by right).
  assert (∀ v, v ∈ nodes G →
               in_degrees (self l) !! v
               = Some (Z.of_nat (length (pending_predecessors G (writes l) v)))) as Hdeg
    by apply (inv_in_degrees _ _ Hinv).
  set (ready := filter (λ v, in_degrees (self l) !! v = Some 1) succs).
  assert (∀ v, v ∈ ready ↔
               v ∈ succs ∧ length (pending_predecessors G (writes l) v) = 1%nat) as Hready.
  { intros v. unfold ready. rewrite list_elem_of_filter. split.
    - intros [Hv1 Hv]. split; [done|]. rewrite Hdeg in Hv1 by auto.
      injection Hv1 as Hv1. lia.
    - intros [Hv Hv1]. split; [|done]. rewrite Hdeg by auto. by rewrite Hv1. }
  assert (∀ v, v ∈ succs → node ∈ pending_predecessors G (writes l) v) as Hpend_in.
  { intros v Hv. by apply pending_elem. }
  assert (∀ v, v ∉ succs → node ∉ pending_predecessors G (writes l) v) as Hpend_out.
  { intros v Hv [? _]%pending_elem; done. }
  (* run the segment *)
  unfold fire. rewrite M_bind_eq. unfold get_state at 1. rewrite Hget.
  unfold _run_node_task_resume. fold (result_of o). lsimpl.
  rewrite (inv_dag _ _ Hinv). fold G. fold succs.
  match goal with
  | |- context [for_ succs (release_successor (result_of o)) ?l0] =>
      destruct (release_successors (result_of o) succs l0)
        as (l1 & Hrun & Ht1 & Hsp1 & Hm1 & Hc1 & Hw1 & Hdag1 & Hres1 & Htim1
            & Hlock1 & Hin1 & Hci1); [done | |]
  end.
  { intros v Hv. cbn. rewrite Hdeg by auto. eauto. }
  rewrite Hrun. cbn in Ht1, Hsp1, Hm1, Hc1, Hw1, Hdag1, Hres1, Htim1, Hin1, Hci1.
  fold ready in Ht1, Hsp1.
  set (b := decide (main l = AwaitSource ∧ node = WeightedDAG.source dag)).
  eexists (MkLoop _ _ (if b then Polling else main l1) _ _ _).
  split; [by destruct b|].
  cbn [self tasks main calls spawned writes WorkflowExecutor.dag results timings in_degrees
       child_inputs lock].
  rewrite Hw1, Hc1, Hres1, Htim1, Hsp1.
  split; [|by split_and!].
  (* the invariant *)
  assert (∀ v, v ∈ ready → v ∉ spawned l) as Hfresh.
  { intros v [Hv Hlen]%Hready Hsp.
    apply (inv_spawned_ready _ _ Hinv) in Hsp; [|auto]. fold G in Hsp.
    by rewrite Hsp in Hlen. }
  assert (NoDup ready) as Hready_nd by by apply NoDup_filter.
  assert (node ∉ ready) as Hnode_ready by (intros [? _]%Hready; done).
  split; cbn [self tasks main calls spawned writes WorkflowExecutor.dag results timings in_degrees
              child_inputs lock]; rewrite ?Hw1, ?Hc1, ?Hres1, ?Htim1, ?Hsp1, ?Hm1.
  - done.
  - done.
  - apply NoDup_app. split_and!; [done | | done].
    intros v Hv Hr. by apply (Hfresh v).
  - rewrite Ht1.
    assert (node ∈ (tasks l ++ ((λ v, (v, Created)) <$> ready)).*1) as Hin'
      by (rewrite fmap_app; apply elem_of_app; by left).
    rewrite <-app_assoc. cbn [app]. rewrite <-(dict_del_keys_perm node _ Hin').
    rewrite fmap_app, <-list_fmap_compose.
    replace ((fst ∘ (λ v : string, (v, Created))) <$> ready) with ready
      by (clear; induction ready as [|x xs IH]; [done | cbn; by rewrite <-IH]).
    by rewrite app_assoc, <-Hsplit.
  - intros v [Hv|Hv]%elem_of_app; [by apply (inv_spawned_nodes _ _ Hinv)|].
    apply Hready in Hv as [Hv _]. auto.
  - intros v Hv. fold G. rewrite pending_snoc, elem_of_app. split.
    + intros [Hsp|[Hs Hlen]%Hready].
      * apply (inv_spawned_ready _ _ Hinv) in Hsp; [|done]. fold G in Hsp.
        by rewrite Hsp.
      * pose proof (length_filter_ne node _ (pending_NoDup G (writes l) v Hnd)
                      (Hpend_in v Hs)) as Hl.
        rewrite Hlen in Hl. apply length_zero_iff_nil. lia.
    + intros Hnil.
      destruct (decide (pending_predecessors G (writes l) v = [])) as [He|Hne].
      * left. by apply (inv_spawned_ready _ _ Hinv).
      * right. apply (filter_ne_nil node) in Hnil; [|by apply pending_NoDup|done].
        apply Hready. rewrite Hnil. split; [|done].
        assert (node ∈ pending_predecessors G (writes l) v) as Hin'
          by (rewrite Hnil; left).
        by apply pending_elem in Hin' as [? _].
  - intros v Hv. fold G. rewrite Hin1, pending_snoc, (Hdeg v Hv). cbn [fmap option_fmap option_map].
    destruct (decide (v ∈ succs)) as [Hs|Hs].
    + pose proof (length_filter_ne node _ (pending_NoDup G (writes l) v Hnd)
                    (Hpend_in v Hs)) as Hl.
      f_equal. lia.
    + by rewrite (filter_ne_absent node) by auto.
  - intros v. rewrite elem_of_app, list_elem_of_singleton, <-(inv_results _ _ Hinv).
    destruct (decide (node = v)) as [->|Hne].
    + rewrite lookup_insert_eq. split; [auto | eauto].
    + rewrite lookup_insert_ne by done. split; [auto | by intros [|]].
  - intros v. rewrite elem_of_app, list_elem_of_singleton, <-(inv_timings _ _ Hinv).
    destruct (decide (node = v)) as [->|Hne].
    + rewrite lookup_insert_eq. split; [auto | eauto].
    + rewrite lookup_insert_ne by done. split; [auto | by intros [|]].
  - apply (inv_calls _ _ Hinv).
  - rewrite Ht1, (inv_calls_split _ _ Hinv).
    rewrite <-app_assoc. apply Permutation_app_head. cbn [app].
    rewrite (filter_dict_del is_awaiting node (Awaiting t0 i d) (tasks l)); [|done..].
    assert (dict_del node (tasks l ++ ((λ v, (v, Created)) <$> ready))
            = dict_del node (tasks l) ++ ((λ v, (v, Created)) <$> ready)) as ->.
    { clear -Hnode_tasks. induction (tasks l) as [|[k a] ts IH].
      - by apply elem_of_nil in Hnode_tasks.
      - cbn [app dict_del]. destruct (decide (k = node)); [done|].
        cbn. f_equal. apply IH. rewrite fmap_cons in Hnode_tasks.
        by apply elem_of_cons in Hnode_tasks as [|]. }
    rewrite filter_app.
    assert (filter is_awaiting ((λ v : string, (v, Created)) <$> ready) = []) as ->.
    { clear. induction ready as [|x xs IH]; [done|].
      rewrite fmap_cons, filter_cons_False; [done | by intros []]. }
    by rewrite app_nil_r.
  - intros node' t0' i' d' Hin'%elem_of_dict_del. rewrite Ht1 in Hin'.
    apply elem_of_app in Hin' as [Hin'|Hin'].
    + by apply (inv_awaiting _ _ Hinv node' t0' i' d').
    + apply list_elem_of_fmap in Hin' as (? & [=] & _).
  - intros u v r Hu Huv. rewrite Hci1.
    assert (v ∈ succs ↔ has_edge G node v) as Hvs by done.
    destruct (decide (node = u)) as [->|Hne].
    + rewrite lookup_insert_eq in Hu. injection Hu as <-.
      rewrite decide_True by done. cbn. apply elem_of_app. right. left.
    + rewrite lookup_insert_ne in Hu by done.
      pose proof (inv_inputs _ _ Hinv u v r Hu Huv) as Hr.
      case_decide; [|done]. cbn. apply elem_of_app. by left.
  - rewrite elem_of_app, list_elem_of_singleton.
    pose proof (inv_main_await _ _ Hinv) as Hma.
    destruct (decide (node = WeightedDAG.source dag)) as [Heq|Hne].
    + unfold b. rewrite decide_True; [|split; [|done]].
      * split; [done | intros Hn; exfalso; apply Hn; by right].
      * apply Hma. by rewrite <-Heq.
    + unfold b. rewrite decide_False by (by intros [_ ?]).
      rewrite Hma. split; [intros ? [|]; done | intros Hn ?; apply Hn; by left].
  - intros Hfin.
    assert (main l = Finished) as Hfin'.
    { revert Hfin. by destruct b. }
    destruct (inv_main_finished _ _ Hinv Hfin') as [Hnil _].
    rewrite Hnil in Hnode_tasks. by apply elem_of_nil in Hnode_tasks.
Qed.

(** ** The executor: no step fails, and every reachable state is good *)

Lemma fire_enabled dag l ev :
  good_dag dag → loop_inv dag l → enabled ev l →
  ∃ l', fire ev l = inr (tt, l') ∧ loop_inv dag l'.
Proof.
  intros Hgood Hinv [_ Hev]. destruct ev as [node now | node o now | now].
  - destruct (begin_step dag l node now Hgood Hinv Hev) as (l' & ? & ? & _). eauto.
  - destruct Hev as (t0 & i & d & Hget).
    destruct (resume_step dag l node t0 i d o now Hgood Hinv Hget) as (l' & ? & ? & _).
    eauto.
  - destruct (poll_step dag l now Hgood Hinv Hev) as (l' & ? & ? & _). eauto.
Qed.

Lemma inv_step dag l ev l' :
  good_dag dag → loop_inv dag l → loop_step l ev l' → loop_inv dag l'.
Proof.
  intros Hgood Hinv [Hen Hfire].
  destruct (fire_enabled dag l ev Hgood Hinv Hen) as (l'' & Hfire' & Hinv').
  rewrite Hfire in Hfire'. by simplify_eq.
Qed.

Lemma inv_reachable dag now l :
  good_dag dag → loop_reachable (run_begin dag now) l → loop_inv dag l.
Proof.
  intros Hgood. induction 1 as [|l ev l' _ IH Hstep].
  - by apply inv_init.
  - by eapply inv_step.
Qed.

Lemma loop_reachable_trans l0 l1 l2 :
  loop_reachable l0 l1 → loop_reachable l1 l2 → loop_reachable l0 l2.
Proof. intros H01. induction 1; [done | by eapply reach_step]. Qed.

(** ** The executor: progress *)

(** While a node has no result, some coroutine is alive. *)
Lemma idle_means_done dag l :
  good_dag dag → loop_inv dag l → tasks l = [] →
  ∀ v, v ∈ nodes (WeightedDAG.graph dag) → v ∈ writes l.
Proof.
  intros (Hwf & Hac & _) Hinv Hidle v Hv.
  set (G := WeightedDAG.graph dag) in *.
  destruct (decide (v ∈ writes l)) as [|Hnw]; [done|]. exfalso.
  set (R := λ a b : string, has_edge G a b ∧ a ∉ writes l).
  assert (RelDecision R) as HR by (intros a b; unfold R; apply _).
  destruct (minimal_ancestor R (nodes G) v) as (m & Hmv & Hmin).
  { intros y Hy. apply (Hac y).
    apply (tc_congruence id (has_edge G)) in Hy; [done|]. by intros ?? [? _]. }
  assert ((m ∉ writes l) ∧ (m ∈ nodes G)) as [Hmw Hmn].
  { apply rtc_inv in Hmv as [->|(z & [Hmz ?] & _)]; [done|].
    split; [done|]. by eapply has_edge_source_node. }
  assert (m ∈ spawned l) as Hsp.
  { apply (inv_spawned_ready _ _ Hinv); [done|]. fold G.
    apply elem_of_nil_inv. intros u [Hum Hu]%pending_elem; [|apply Hwf].
    apply (Hmin u); [by eapply has_edge_source_node | done]. }
  rewrite (inv_spawned_split _ _ Hinv), Hidle, app_nil_r in Hsp. done.
Qed.

Lemma progress_bounds dag l :
  good_dag dag → loop_inv dag l →
  (length (calls l) ≤ length (nodes (WeightedDAG.graph dag)))%nat ∧
  (length (writes l) ≤ length (nodes (WeightedDAG.graph dag)))%nat.
Proof.
  intros (Hwf & _) Hinv.
  pose proof (inv_spawned_nodup _ _ Hinv) as Hsp.
  assert (spawned l ⊆ nodes (WeightedDAG.graph dag)) as Hsub
    by (intros v; apply (inv_spawned_nodes _ _ Hinv)).
  pose proof (submseteq_length _ _ (NoDup_submseteq _ _ Hsp Hsub)) as Hlen.
  rewrite (inv_spawned_split _ _ Hinv), length_app, length_fmap in Hlen.
  pose proof (Permutation_length (inv_calls_split _ _ Hinv)) as Hc.
  rewrite !length_fmap, length_app, length_fmap in Hc.
  pose proof (length_filter is_awaiting (tasks l)). lia.
Qed.

(** ** The executor: [run] terminates *)

Lemma drive_finished `{NodeExecutionStrategy} fuel sch k l :
  main l = Finished → drive fuel sch k l = Some (inr l).
Proof. intros Hm. destruct fuel; cbn; by rewrite Hm. Qed.

Lemma drive_step `{NodeExecutionStrategy} fuel sch k l l' :
  main l ≠ Finished → fire (next_event sch k l) l = inr (tt, l') →
  drive (S fuel) sch k l = drive fuel sch (S k) l'.
Proof.
  intros Hm Hfire. cbn [drive]. rewrite Hfire. by destruct (main l).
Qed.

Lemma task_lookup dag l i node st :
  loop_inv dag l → tasks l !! i = Some (node, st) → dict_get node (tasks l) = Some st.
Proof.
  intros Hinv Hlk. apply dict_get_elem; [|by eapply list_elem_of_lookup_2].
  pose proof (inv_spawned_nodup _ _ Hinv) as Hsp.
  rewrite (inv_spawned_split _ _ Hinv) in Hsp. by apply NoDup_app in Hsp as (_ & _ & ?).
Qed.

Lemma drive_terminates (E : NodeExecutionStrategy) dag sch fuel k l :
  good_dag dag → loop_inv dag l → results_from E dag l →
  (steps_left dag l + 1 ≤ fuel)%nat →
  ∃ l', drive fuel sch k l = Some (inr l') ∧ loop_reachable l l' ∧
        loop_inv dag l' ∧ main l' = Finished ∧ results_from E dag l'.
Proof.
  intros Hgood. revert k l.
  induction fuel as [|fuel IH]; intros k l Hinv Hres Hfuel; [lia|].
  destruct (decide (main l = Finished)) as [Hfin|Hnf].
  { exists l. rewrite drive_finished by done. split_and!; [done | constructor | done..]. }
  assert (lock (self l) = false) as Hlock by apply (inv_lock _ _ Hinv).
  unfold steps_left in Hfuel.
  destruct (tasks l !! (pick sch l mod length (tasks l))%nat) as [[node st]|] eqn:Hlk.
  - pose proof (task_lookup dag l _ node st Hinv Hlk) as Hget.
    destruct st as [|t0 i d].
    + (* the coroutine starts *)
      destruct (begin_step dag l node (clock sch k) Hgood Hinv Hget)
        as (l' & Hfire & Hinv' & Hcalls & _ & Hw & _ & _ & Hr & _).
      destruct (progress_bounds dag l' Hgood Hinv') as [Hb _].
      rewrite Hcalls, length_app in Hb. cbn in Hb.
      destruct (IH (S k) l' Hinv') as (l'' & Hrun & Hreach & Hinv'' & Hfin & Hres'').
      { intros v r. rewrite Hr. apply Hres. }
      { unfold steps_left. rewrite Hcalls, Hw, length_app. cbn. lia. }
      exists l''. split_and!; [|  |done..].
      * rewrite <-Hrun. apply drive_step; [done|]. unfold next_event. by rewrite Hlk.
      * eapply loop_reachable_trans; [|exact Hreach].
        eapply (reach_step _ _ (Begin node (clock sch k))); [constructor|].
        split; [split; [exact Hlock | exact Hget] | exact Hfire].
    + (* the strategy call completes *)
      destruct (inv_awaiting _ _ Hinv node t0 i d) as [-> Hd];
        [by apply dict_get_Some_elem|].
      destruct (resume_step dag l node t0 [] d (execute node [] d) (clock sch k)
                  Hgood Hinv Hget)
        as (l' & Hfire & Hinv' & Hw & Hcalls & Hr & _).
      destruct (progress_bounds dag l' Hgood Hinv') as [_ Hb].
      rewrite Hw, length_app in Hb. cbn in Hb.
      destruct (IH (S k) l' Hinv') as (l'' & Hrun & Hreach & Hinv'' & Hfin & Hres'').
      { intros v r. rewrite Hr. destruct (decide (node = v)) as [->|Hne].
        - rewrite lookup_insert_eq. intros [= <-]. by rewrite Hd.
        - rewrite lookup_insert_ne by done. apply Hres. }
      { unfold steps_left. rewrite Hcalls, Hw, length_app. cbn. lia. }
      exists l''. split_and!; [|  |done..].
      * rewrite <-Hrun. apply drive_step; [done|]. unfold next_event. by rewrite Hlk.
      * eapply loop_reachable_trans; [|exact Hreach].
        eapply (reach_step _ _ (Resume node (execute node [] d) (clock sch k)));
          [constructor|].
        split; [|exact Hfire]. split; [exact Hlock|]. cbn. eauto.
  - (* nothing left to run: [run] polls and finds every result *)
    assert (tasks l = []) as Hidle.
    { apply lookup_ge_None in Hlk. destruct (tasks l) as [|t ts]; [done|].
      pose proof (Nat.mod_upper_bound (pick sch l) (length (t :: ts))) as Hub.
      cbn [length] in *. lia. }
    pose proof (idle_means_done dag l Hgood Hinv Hidle) as Hall.
    assert (main l = Polling) as Hpoll.
    { destruct (main l) eqn:Hm; [|done|done].
      apply (inv_main_await _ _ Hinv) in Hm. exfalso. apply Hm, Hall.
      by apply source_is_node. }
    destruct (poll_step dag l (clock sch k) Hgood Hinv Hpoll)
      as (l' & Hfire & Hinv' & _ & _ & _ & _ & Hr & _ & _ & Hm').
    assert (length (nodes (WeightedDAG.graph dag)) ≤ length (writes l))%nat as Hlen.
    { apply submseteq_length, NoDup_submseteq; [apply Hgood | exact Hall]. }
    rewrite decide_False in Hm' by lia.
    exists l'. split_and!; [| |done..|].
    + rewrite (drive_step fuel sch k l l'); [by apply drive_finished | done |].
      unfold next_event. by rewrite Hlk.
    + eapply (reach_step _ _ (Poll (clock sch k))); [constructor|].
      split; [split; [exact Hlock | exact Hpoll] | exact Hfire].
    + intros v r. rewrite Hr. apply Hres.
Qed.

Lemma run_terminates (E : NodeExecutionStrategy) dag sch fuel :
  good_dag dag →
  (2 * length (nodes (WeightedDAG.graph dag)) + 1 ≤ fuel)%nat →
  ∃ l, run fuel sch dag = Some (inr l) ∧
       loop_reachable (run_begin dag (clock sch 0)) l ∧
       loop_inv dag l ∧ main l = Finished ∧ results_from E dag l.
Proof.
  intros Hgood Hfuel. unfold run.
  apply drive_terminates; [done | by apply inv_init | |].
  - intros v r. cbn. by rewrite lookup_empty.
  - unfold steps_left. cbn. lia.
Qed.

(** What the invariant says once [run] has returned. *)
Lemma finished_state dag l :
  good_dag dag → loop_inv dag l → main l = Finished →
  tasks l = [] ∧
  writes l ≡ₚ nodes (WeightedDAG.graph dag) ∧
  spawned l ≡ₚ nodes (WeightedDAG.graph dag) ∧
  (calls l).*1.*1 ≡ₚ nodes (WeightedDAG.graph dag) ∧
  size (results (self l)) = length (nodes (WeightedDAG.graph dag)) ∧
  size (timings (self l)) = length (nodes (WeightedDAG.graph dag)).
Proof.
  intros Hgood Hinv Hfin.
  destruct (inv_main_finished _ _ Hinv Hfin) as [Hidle Hall].
  assert (writes l ≡ₚ nodes (WeightedDAG.graph dag)) as Hperm.
  { apply (all_written dag l Hgood Hinv).
    apply submseteq_length, NoDup_submseteq; [apply Hgood | exact Hall]. }
  split_and!; [done | done | | | |].
  - by rewrite (inv_spawned_split _ _ Hinv), Hidle, app_nil_r.
  - by rewrite (inv_calls_split _ _ Hinv), Hidle, app_nil_r.
  - by rewrite (size_results_writes dag l Hinv), Hperm.
  - rewrite <-size_dom.
    assert (dom (timings (self l)) = list_to_set (writes l)) as ->.
    { apply set_eq. intros v. rewrite elem_of_dom, elem_of_list_to_set.
      apply (inv_timings _ _ Hinv). }
    rewrite size_list_to_set by by eapply writes_NoDup. by rewrite Hperm.
Qed.

(** ** The adjacency schema against the graph *)

Section schema_facts.
Context (G : DiGraph string) (Hwf : wf_graph G).

Lemma schema_triples_nonempty (G' : DiGraph string) :
  schema_triples (filter (λ e, e.2 ≠ []) G') = edges G'.
Proof.
  unfold schema_triples, edges.
  induction G' as [|[u a] G' IH]; [done|].
  rewrite filter_cons. cbn [snd mbind list_bind].
  destruct (decide (a ≠ [])) as [Ha|Ha].
  - cbn [mbind list_bind]. by rewrite IH.
  - assert (a = []) as -> by (destruct a; [done | by destruct Ha]).
    by rewrite IH.
Qed.

Lemma elem_of_edges u v d :
  (u, v, d) ∈ edges G ↔ edge_duration G u v = inr d.
Proof.
  destruct Hwf as [Hnd Hall]. rewrite Forall_forall in Hall.
  unfold edges, edge_duration. rewrite list_elem_of_bind. split.
  - intros ([u' a] & Hin & HG). apply list_elem_of_bind in Hin as ([v' d'] & Hin & Ha).
    apply list_elem_of_singleton in Hin. simplify_eq.
    rewrite (dict_get_elem u' a G Hnd HG).
    destruct (Hall _ HG) as [Hnda _].
    by rewrite (dict_get_elem v' d' a Hnda Ha).
  - destruct (dict_get u G) as [a|] eqn:Hu; [|done].
    destruct (dict_get v a) as [d'|] eqn:Hv; [|done]. intros [= ->].
    exists (u, a). split; [|by apply dict_get_Some_elem].
    apply list_elem_of_bind. exists (v, d). split; [left|].
    by apply dict_get_Some_elem.
Qed.

Lemma edges_NoDup : NoDup (edges G).
Proof.
  destruct Hwf as [Hnd Hall]. rewrite Forall_forall in Hall.
  unfold edges. apply NoDup_bind.
  - intros [u1 a1] [u2 a2] [[u v] d] H1 H2 Hy1 Hy2.
    apply list_elem_of_bind in Hy1 as ([v1 d1] & Hy1 & _).
    apply list_elem_of_bind in Hy2 as ([v2 d2] & Hy2 & _).
    apply list_elem_of_singleton in Hy1, Hy2.
    assert (u1 = u2) as -> by congruence.
    pose proof (dict_get_elem _ _ _ Hnd H1) as E1.
    pose proof (dict_get_elem _ _ _ Hnd H2) as E2. congruence.
  - intros [u a] Hin. destruct (Hall _ Hin) as [Hnda _]. cbn [snd] in Hnda.
    apply NoDup_bind.
    + intros [v1 d1] [v2 d2] y H1 H2 Hy1 Hy2.
      apply list_elem_of_singleton in Hy1, Hy2.
      assert (v1 = v2) as -> by congruence.
      pose proof (dict_get_elem _ _ _ Hnda H1) as E1.
      pose proof (dict_get_elem _ _ _ Hnda H2) as E2. congruence.
    + intros [v d] _. apply NoDup_singleton.
    + by apply NoDup_fmap_1 in Hnda.
  - by apply NoDup_fmap_1 in Hnd.
Qed.

Lemma schema_keys_suffix (G1 G2 : DiGraph string) :
  G = G1 ++ G2 →
  (filter (λ e, e.2 ≠ []) G2).*1
  = filter (λ u, out_degree u G ≠ 0%nat) (nodes G2).
Proof.
  revert G1. induction G2 as [|[u a] G2 IH]; intros G1 HG; [done|].
  assert ((u, a) ∈ G) as Hin by (rewrite HG; apply elem_of_app; right; left).
  assert (out_degree u G = length a) as Hdeg.
  { unfold out_degree, successors. rewrite (adj_elem u G a); [|apply Hwf|done].
    by rewrite length_fmap. }
  specialize (IH (G1 ++ [(u, a)])). rewrite <-app_assoc in IH. specialize (IH HG).
  unfold nodes. rewrite fmap_cons, !filter_cons. cbn [fst snd]. rewrite Hdeg.
  destruct a as [|x a].
  - rewrite decide_False by (by intros ?). rewrite decide_False by (by intros ?).
    exact IH.
  - rewrite decide_True by done. rewrite decide_True by done.
    rewrite fmap_cons. cbn [fst]. f_equal. exact IH.
Qed.

Lemma schema_keys :
  (filter (λ e, e.2 ≠ []) G).*1 = filter (λ u, out_degree u G ≠ 0%nat) (nodes G).
Proof. by apply (schema_keys_suffix []). Qed.

(** A non-empty acyclic graph has a node without outgoing edge. *)
Lemma sink_exists : acyclic G → nodes G ≠ [] →
  ∃ u, u ∈ nodes G ∧ out_degree u G = 0%nat.
Proof.
  intros Hac Hne. destruct (nodes G) as [|x0 xs] eqn:Hnodes; [done|].
  set (R := λ a b : string, has_edge G b a).
  assert (RelDecision R) as HR by (intros a b; unfold R; apply _).
  assert (∀ a b, tc R a b → tc (has_edge G) b a) as Hflip.
  { induction 1 as [a b Hab | a z b Haz _ IH]; [by apply tc_once|].
    eapply tc_r; [exact IH | exact Haz]. }
  destruct (minimal_ancestor R (nodes G) x0) as (m & Hm & Hmin).
  { intros y Hy%Hflip. by apply (Hac y). }
  assert (m ∈ nodes G) as Hmn.
  { apply rtc_inv in Hm as [->|(z & Hmz & _)].
    - rewrite Hnodes. left.
    - by eapply has_edge_target_node. }
  exists m. rewrite <-Hnodes. split; [done|].
  unfold out_degree. apply length_zero_iff_nil, elem_of_nil_inv.
  intros v Hv. apply (Hmin v); [|exact Hv].
  by eapply has_edge_target_node.
Qed.
End schema_facts.

(* ================================================================== *)
(** * Part III: the properties C1 to C10 *)
(* ================================================================== *)

Lemma demo_oracle_shuffles : shuffles demo_oracle.
Proof.
  intros l. cbn. rewrite <-(reverse_Permutation l) at 2.
  destruct (reverse l) as [|x r]; [done|]. by rewrite reverse_Permutation.
Qed.

(** ** The model on concrete inputs *)

Example cycle_is_rejected :
  is_directed_acyclic_graph [(0%nat, [(1%nat, 5)]); (1%nat, [(0%nat, 3)])] = false
  ∧ is_directed_acyclic_graph [(0%nat, [(1%nat, 5)]); (1%nat, [])] = true.
Proof. split; reflexivity. Qed.

Example descendants_of_a_chain :
  descendants [(0%nat, [(1%nat, 5)]); (1%nat, [(2%nat, 1)]); (2%nat, []);
               (3%nat, [(0%nat, 1)])] 0%nat = [1%nat; 2%nat].
Proof. reflexivity. Qed.

(** Three nodes, ordering [2; 0; 1], one forward edge 0 -> 1.  The repair
    pass attaches node 0 by 0 -> 2, tries 1 -> 0, undoes it, and keeps
    0 -> 1 (whose duration it overwrites). *)
Example demo_generation :
  ∃ dag trail,
    WeightedDAG.__init__ demo_oracle 3 (1 # 2) = inr (dag, trail) ∧
    WeightedDAG.graph dag
      = [("node_2", []); ("node_0", [("node_1", 5); ("node_2", 5)]); ("node_1", [])] ∧
    WeightedDAG.source dag = "node_0" ∧
    WeightedDAG.schema dag = [("node_0", [("node_1", 5); ("node_2", 5)])] ∧
    trail
      = [IntGraph AddNodes [(2%nat, []); (0%nat, []); (1%nat, [])];
         IntGraph ForwardEdge [(2%nat, []); (0%nat, [(1%nat, 5)]); (1%nat, [])];
         IntGraph TryOut
           [(2%nat, []); (0%nat, [(1%nat, 5); (2%nat, 5)]); (1%nat, [])];
         IntGraph TryOut
           [(2%nat, []); (0%nat, [(1%nat, 5); (2%nat, 5)]); (1%nat, [(0%nat, 5)])];
         IntGraph UndoOut
           [(2%nat, []); (0%nat, [(1%nat, 5); (2%nat, 5)]); (1%nat, [])];
         IntGraph TryIn
           [(2%nat, []); (0%nat, [(1%nat, 5); (2%nat, 5)]); (1%nat, [])]].
Proof. eexists _, _. split; [vm_compute; reflexivity|]. by split_and!. Qed.

(** Four nodes and no forward edge: nodes 1 and 2 are both attached by an
    edge into node 0, two sources remain, and the virtual source is added. *)
Example virtual_source_generation :
  ∃ dag trail,
    WeightedDAG.__init__ demo_oracle 4 0 = inr (dag, trail) ∧
    WeightedDAG.graph dag
      = [("node_3", []); ("node_0", [("node_3", 5)]); ("node_1", [("node_0", 5)]);
         ("node_2", [("node_0", 5)]);
         ("virtual", [("node_1", 5); ("node_2", 5)])] ∧
    WeightedDAG.source dag = "virtual".
Proof. eexists _, _. split; [vm_compute; reflexivity|]. by split_and!. Qed.

(** ** Generation *)

(** C1. After generation, for every numNodes >= 1 and every edgeProbability,
    the graph has exactly one node of in-degree 0, the resolved source, and
    every node is reachable from it along directed edges. *)
Theorem C1_single_source_reaches_every_node O (num_nodes : Z) (edge_probability : Q) :
  shuffles O → 1 ≤ num_nodes →
  ∃ dag trail,
    WeightedDAG.__init__ O num_nodes edge_probability = inr (dag, trail) ∧
    filter (λ n, in_degree n (WeightedDAG.graph dag) = 0%nat)
      (nodes (WeightedDAG.graph dag)) = [WeightedDAG.source dag] ∧
    ∀ x, x ∈ nodes (WeightedDAG.graph dag) →
         rtc (has_edge (WeightedDAG.graph dag)) (WeightedDAG.source dag) x.
Proof.
  intros HO Hn.
  destruct (init_spec O num_nodes edge_probability HO Hn)
    as (dag & trail & Hrun & (_ & _ & Huniq & Hreach) & _).
  by exists dag, trail.
Qed.

Lemma C1_witness :
  ∃ dag trail,
    WeightedDAG.__init__ demo_oracle 3 (1 # 2) = inr (dag, trail) ∧
    filter (λ n, in_degree n (WeightedDAG.graph dag) = 0%nat)
      (nodes (WeightedDAG.graph dag)) = [WeightedDAG.source dag] ∧
    ∀ x, x ∈ nodes (WeightedDAG.graph dag) →
         rtc (has_edge (WeightedDAG.graph dag)) (WeightedDAG.source dag) x.
Proof.
  apply C1_single_source_reaches_every_node; [apply demo_oracle_shuffles | lia].
Defined.

(** C3 as stated fails: with the ordering [2; 0; 1] and the single forward
    edge 0 -> 1, the repair pass attaches node 0 by the edge 0 -> 2 and then
    tries 1 -> 0 (line 49), which closes the cycle 0 -> 1 -> 0; the graph is
    cyclic until line 53 removes the edge. *)
Lemma C3_counterexample :
  shuffles demo_oracle ∧
  ∃ dag trail,
    WeightedDAG.__init__ demo_oracle 3 (1 # 2) = inr (dag, trail) ∧
    ¬ Forall snapshot_acyclic trail.
Proof.
  split; [apply demo_oracle_shuffles|].
  eexists _, _. split; [vm_compute; reflexivity|].
  intros Hall. rewrite Forall_forall in Hall.
  assert (snapshot_acyclic
            (IntGraph TryOut
               [(2%nat, []); (0%nat, [(1%nat, 5); (2%nat, 5)]);
                (1%nat, [(0%nat, 5)])])) as Hcyc.
  { apply Hall. do 3 right. left. }
  apply (Hcyc 0%nat). apply (tc_l _ 0%nat 1%nat 0%nat); [|apply tc_once].
  - unfold has_edge. apply (bool_decide_unpack _). by vm_compute.
  - unfold has_edge. apply (bool_decide_unpack _). by vm_compute.
Qed.

(** C3, amended. For every numNodes >= 1 and every edgeProbability, the edge
    set is acyclic after every mutation of the generation algorithm and in
    the final graph, except right after a tentative repair edge (lines 49
    and 55) that closes a cycle: is_directed_acyclic_graph rejects it and the
    next mutation removes it, which leaves an acyclic graph again.  Forward
    edges, every edge kept by the repair pass and the virtual-source edges
    preserve acyclicity. *)
Theorem C3_acyclic_except_rejected_tentative_edges O (num_nodes : Z)
    (edge_probability : Q) :
  shuffles O → 1 ≤ num_nodes →
  ∃ dag trail,
    WeightedDAG.__init__ O num_nodes edge_probability = inr (dag, trail) ∧
    trail_ok trail ∧ acyclic (WeightedDAG.graph dag).
Proof.
  intros HO Hn.
  destruct (init_spec O num_nodes edge_probability HO Hn)
    as (dag & trail & Hrun & (_ & Hac & _) & Htr & _).
  by exists dag, trail.
Qed.

Lemma C3_witness :
  ∃ dag trail,
    WeightedDAG.__init__ demo_oracle 3 (1 # 2) = inr (dag, trail) ∧
    trail_ok trail ∧ acyclic (WeightedDAG.graph dag).
Proof.
  apply C3_acyclic_except_rejected_tentative_edges;
    [apply demo_oracle_shuffles | lia].
Defined.

Lemma init_without_nodes O (num_nodes : Z) (edge_probability : Q) :
  shuffles O → num_nodes ≤ 0 →
  WeightedDAG.__init__ O num_nodes edge_probability = inl IndexError.
Proof.
  intros HO Hn. unfold WeightedDAG.__init__, WeightedDAG._generate_connected_dag.
  replace (Z.to_nat num_nodes) with 0%nat by lia. cbn [seq].
  assert (shuffle O [] = []) as -> by (apply Permutation_nil_r, (HO [])).
  reflexivity.
Qed.

(** C8 as stated fails: an edge probability of 2 is accepted, and a graph
    comes back. *)
Lemma C8_counterexample :
  shuffles demo_oracle ∧ ¬ (0 <= 2 <= 1)%Q ∧
  ∃ dag trail, WeightedDAG.__init__ demo_oracle 3 2 = inr (dag, trail).
Proof.
  split_and!; [apply demo_oracle_shuffles | by intros [_ ?] |].
  eexists _, _. vm_compute. reflexivity.
Qed.

(** C8, amended. Generation does not check its configuration.  It never
    fails because of edgeProbability: with numNodes >= 1 it returns a graph
    for every edgeProbability, inside [0, 1] or not.  With numNodes <= 0 it
    fails, not at entry but in step 3, with the IndexError that ordering[0]
    raises on the empty ordering. *)
Theorem C8_no_configuration_check O (num_nodes : Z) (edge_probability : Q) :
  shuffles O →
  (num_nodes ≤ 0 →
   WeightedDAG.__init__ O num_nodes edge_probability = inl IndexError) ∧
  (1 ≤ num_nodes →
   ∃ dag trail, WeightedDAG.__init__ O num_nodes edge_probability = inr (dag, trail)).
Proof.
  intros HO. split.
  - by apply init_without_nodes.
  - intros Hn.
    destruct (init_spec O num_nodes edge_probability HO Hn) as (dag & trail & ? & _).
    by exists dag, trail.
Qed.

Lemma C8_witness :
  (0 ≤ 0 → WeightedDAG.__init__ demo_oracle 0 (5 # 1) = inl IndexError) ∧
  (1 ≤ 0 → ∃ dag trail, WeightedDAG.__init__ demo_oracle 0 (5 # 1) = inr (dag, trail)).
Proof. apply C8_no_configuration_check, demo_oracle_shuffles. Defined.

(** C9. For every generated graph, the (node, successor, duration) triples
    of the adjacency schema are exactly the directed edges of the graph with
    their durations: none missing, none twice, none altered. *)
Theorem C9_schema_triples_are_the_edges O (num_nodes : Z) (edge_probability : Q) :
  shuffles O → 1 ≤ num_nodes →
  ∃ dag trail,
    WeightedDAG.__init__ O num_nodes edge_probability = inr (dag, trail) ∧
    schema_triples (WeightedDAG.schema dag) = edges (WeightedDAG.graph dag) ∧
    NoDup (schema_triples (WeightedDAG.schema dag)) ∧
    ∀ u v d, (u, v, d) ∈ schema_triples (WeightedDAG.schema dag)
             ↔ edge_duration (WeightedDAG.graph dag) u v = inr d.
Proof.
  intros HO Hn.
  destruct (init_spec O num_nodes edge_probability HO Hn)
    as (dag & trail & Hrun & (Hwf & _) & _ & Hschema).
  exists dag, trail. rewrite Hschema, schema_triples_nonempty.
  split_and!; [done.. | by apply edges_NoDup | ].
  intros u v d. by apply elem_of_edges.
Qed.

Lemma C9_witness :
  ∃ dag trail,
    WeightedDAG.__init__ demo_oracle 3 (1 # 2) = inr (dag, trail) ∧
    schema_triples (WeightedDAG.schema dag) = edges (WeightedDAG.graph dag) ∧
    NoDup (schema_triples (WeightedDAG.schema dag)) ∧
    ∀ u v d, (u, v, d) ∈ schema_triples (WeightedDAG.schema dag)
             ↔ edge_duration (WeightedDAG.graph dag) u v = inr d.
Proof.
  apply C9_schema_triples_are_the_edges; [apply demo_oracle_shuffles | lia].
Defined.

(** C10. The keys of the adjacency schema are exactly the nodes with at
    least one outgoing edge, in node order; a node of out-degree 0 is not a
    key, and since a generated graph always has such a node, the keys are a
    strict subset of the nodes. *)
Theorem C10_schema_keys_omit_sinks O (num_nodes : Z) (edge_probability : Q) :
  shuffles O → 1 ≤ num_nodes →
  ∃ dag trail,
    WeightedDAG.__init__ O num_nodes edge_probability = inr (dag, trail) ∧
    (WeightedDAG.schema dag).*1
      = filter (λ u, out_degree u (WeightedDAG.graph dag) ≠ 0%nat)
          (nodes (WeightedDAG.graph dag)) ∧
    (∀ u, out_degree u (WeightedDAG.graph dag) = 0%nat →
          u ∉ (WeightedDAG.schema dag).*1) ∧
    (∃ u, u ∈ nodes (WeightedDAG.graph dag) ∧ u ∉ (WeightedDAG.schema dag).*1).
Proof.
  intros HO Hn.
  destruct (init_spec O num_nodes edge_probability HO Hn)
    as (dag & trail & Hrun & Hgood & _ & Hschema).
  pose proof Hgood as (Hwf & Hac & _).
  exists dag, trail. rewrite Hschema, (schema_keys _ Hwf).
  assert (∀ u, out_degree u (WeightedDAG.graph dag) = 0%nat →
               u ∉ filter (λ u, out_degree u (WeightedDAG.graph dag) ≠ 0%nat)
                     (nodes (WeightedDAG.graph dag))) as Hsink.
  { intros u Hu [Hu' _]%list_elem_of_filter. done. }
  split_and!; [done.. |].
  destruct (sink_exists _ Hwf Hac) as (u & Hu & Hdeg).
  - intros Hnil. assert (WeightedDAG.source dag ∈ nodes (WeightedDAG.graph dag)) as Hs
      by (by apply source_is_node).
    rewrite Hnil in Hs. by apply elem_of_nil in Hs.
  - exists u. split; [done | by apply Hsink].
Qed.

Lemma C10_witness :
  ∃ dag trail,
    WeightedDAG.__init__ demo_oracle 3 (1 # 2) = inr (dag, trail) ∧
    (WeightedDAG.schema dag).*1
      = filter (λ u, out_degree u (WeightedDAG.graph dag) ≠ 0%nat)
          (nodes (WeightedDAG.graph dag)) ∧
    (∀ u, out_degree u (WeightedDAG.graph dag) = 0%nat →
          u ∉ (WeightedDAG.schema dag).*1) ∧
    (∃ u, u ∈ nodes (WeightedDAG.graph dag) ∧ u ∉ (WeightedDAG.schema dag).*1).
Proof.
  apply C10_schema_keys_omit_sinks; [apply demo_oracle_shuffles | lia].
Defined.

(** ** Execution *)

Lemma fire_deterministic ev l l1 l2 :
  fire ev l = inr (tt, l1) → fire ev l = inr (tt, l2) → l1 = l2.
Proof. congruence. Qed.

(** Once [run] has returned, every counter is at zero. *)
Lemma final_in_degrees dag l v :
  good_dag dag → loop_inv dag l → main l = Finished →
  v ∈ nodes (WeightedDAG.graph dag) →
  in_degrees (self l) !! v = Some 0.
Proof.
  intros Hgood Hinv Hfin Hv.
  destruct (inv_main_finished _ _ Hinv Hfin) as [_ Hall].
  rewrite (inv_in_degrees _ _ Hinv v Hv).
  replace (pending_predecessors (WeightedDAG.graph dag) (writes l) v) with (@nil string);
    [done|].
  symmetry. apply elem_of_nil_inv. intros u [Hu Hnw]%pending_elem; [|apply Hgood].
  apply Hnw, Hall. by eapply has_edge_source_node.
Qed.

Lemma final_results (E : NodeExecutionStrategy) dag l v :
  good_dag dag → loop_inv dag l → main l = Finished → results_from E dag l →
  v ∈ nodes (WeightedDAG.graph dag) →
  results (self l) !! v
  = Some (result_of (execute v [] (incoming_duration (WeightedDAG.graph dag) v))) ∧
  is_Some (timings (self l) !! v).
Proof.
  intros Hgood Hinv Hfin Hres Hv.
  destruct (inv_main_finished _ _ Hinv Hfin) as [_ Hall].
  split; [|by apply (inv_timings _ _ Hinv), Hall].
  destruct (proj2 (inv_results _ _ Hinv v) (Hall v Hv)) as [r Hr].
  by rewrite Hr, (Hres v r Hr).
Qed.



(** C4. When the strategy raises for a node, the finishing segment of that
    node's coroutine still runs to its end: the recorded result is
    "ERROR: " followed by the message, the node is in [results] and
    [timings], each successor has its in-degree decremented and the error
    string appended to its inputs.  A run in which the strategy raises for a
    node therefore still terminates with every node recorded, the others
    with the result that the strategy gave them. *)
Theorem C4_strategy_failure_is_recorded_and_releases_successors
    O (num_nodes : Z) (edge_probability : Q) :
  shuffles O → 1 ≤ num_nodes →
  ∃ dag trail,
    WeightedDAG.__init__ O num_nodes edge_probability = inr (dag, trail) ∧
    (∀ now l node msg t,
       loop_reachable (run_begin dag now) l →
       enabled (Resume node (Raise msg) t) l →
       ∃ l', fire (Resume node (Raise msg) t) l = inr (tt, l') ∧
             results (self l') !! node = Some ("ERROR: " +:+ msg) ∧
             is_Some (timings (self l') !! node) ∧
             ∀ succ, succ ∈ successors node (WeightedDAG.graph dag) →
               in_degrees (self l') !! succ
                 = (λ d, d - 1) <$> in_degrees (self l) !! succ ∧
               child_inputs (self l') !! succ
                 = Some (default [] (child_inputs (self l) !! succ)
                         ++ ["ERROR: " +:+ msg])) ∧
    (∀ (E : NodeExecutionStrategy) sch fuel node msg,
       node ∈ nodes (WeightedDAG.graph dag) →
       execute node [] (incoming_duration (WeightedDAG.graph dag) node) = Raise msg →
       (2 * length (nodes (WeightedDAG.graph dag)) + 1 ≤ fuel)%nat →
       ∃ l, @run E fuel sch dag = Some (inr l) ∧ main l = Finished ∧
            results (self l) !! node = Some ("ERROR: " +:+ msg) ∧
            is_Some (timings (self l) !! node) ∧
            (∀ succ, succ ∈ successors node (WeightedDAG.graph dag) →
               "ERROR: " +:+ msg ∈ default [] (child_inputs (self l) !! succ) ∧
               in_degrees (self l) !! succ = Some 0 ∧
               is_Some (results (self l) !! succ)) ∧
            (∀ v, v ∈ nodes (WeightedDAG.graph dag) →
               results (self l) !! v
               = Some (result_of
                         (execute v [] (incoming_duration (WeightedDAG.graph dag) v))))).
Proof.
  intros HO Hn.
  destruct (init_spec O num_nodes edge_probability HO Hn)
    as (dag & trail & Hrun & Hgood & _).
  exists dag, trail. split; [done|]. split.
  - intros now l node msg t Hreach [_ (t0 & i & d & Hget)].
    pose proof (inv_reachable dag now l Hgood Hreach) as Hinv.
    destruct (resume_step dag l node t0 i d (Raise msg) t Hgood Hinv Hget)
      as (l' & Hfire & _ & _ & _ & Hr & Ht & _ & Hin & Hci).
    exists l'. split; [done|]. rewrite Hr, Ht, !lookup_insert_eq.
    split_and!; [done | eauto |].
    intros succ Hsucc. rewrite Hin, Hci. by rewrite !decide_True by done.
  - intros E sch fuel node msg Hnode Hraise Hfuel.
    destruct (run_terminates E dag sch fuel Hgood Hfuel)
      as (l & Hl & _ & Hinv & Hfin & Hres).
    pose proof (final_results E dag l) as Hfinal.
    exists l. split_and!; [done | done | | | |].
    + destruct (Hfinal node Hgood Hinv Hfin Hres Hnode) as [-> _]. by rewrite Hraise.
    + by destruct (Hfinal node Hgood Hinv Hfin Hres Hnode) as [_ ?].
    + intros succ Hsucc.
      assert (succ ∈ nodes (WeightedDAG.graph dag)) as Hsn.
      { eapply has_edge_target_node; [apply Hgood | exact Hsucc]. }
      split_and!.
      * apply (inv_inputs _ _ Hinv node succ); [|exact Hsucc].
        destruct (Hfinal node Hgood Hinv Hfin Hres Hnode) as [-> _]. by rewrite Hraise.
      * by apply (final_in_degrees dag).
      * destruct (Hfinal succ Hgood Hinv Hfin Hres Hsn) as [-> _]. eauto.
    + intros v Hv. by destruct (Hfinal v Hgood Hinv Hfin Hres Hv) as [-> _].
Qed.

Lemma C4_witness :
  ∃ dag trail,
    WeightedDAG.__init__ demo_oracle 3 (1 # 2) = inr (dag, trail) ∧
    (∀ now l node msg t,
       loop_reachable (run_begin dag now) l →
       enabled (Resume node (Raise msg) t) l →
       ∃ l', fire (Resume node (Raise msg) t) l = inr (tt, l') ∧
             results (self l') !! node = Some ("ERROR: " +:+ msg) ∧
             is_Some (timings (self l') !! node) ∧
             ∀ succ, succ ∈ successors node (WeightedDAG.graph dag) →
               in_degrees (self l') !! succ
                 = (λ d, d - 1) <$> in_degrees (self l) !! succ ∧
               child_inputs (self l') !! succ
                 = Some (default [] (child_inputs (self l) !! succ)
                         ++ ["ERROR: " +:+ msg])) ∧
    (∀ (E : NodeExecutionStrategy) sch fuel node msg,
       node ∈ nodes (WeightedDAG.graph dag) →
       execute node [] (incoming_duration (WeightedDAG.graph dag) node) = Raise msg →
       (2 * length (nodes (WeightedDAG.graph dag)) + 1 ≤ fuel)%nat →
       ∃ l, @run E fuel sch dag = Some (inr l) ∧ main l = Finished ∧
            results (self l) !! node = Some ("ERROR: " +:+ msg) ∧
            is_Some (timings (self l) !! node) ∧
            (∀ succ, succ ∈ successors node (WeightedDAG.graph dag) →
               "ERROR: " +:+ msg ∈ default [] (child_inputs (self l) !! succ) ∧
               in_degrees (self l) !! succ = Some 0 ∧
               is_Some (results (self l) !! succ)) ∧
            (∀ v, v ∈ nodes (WeightedDAG.graph dag) →
               results (self l) !! v
               = Some (result_of
                         (execute v [] (incoming_duration (WeightedDAG.graph dag) v))))).
Proof.
  apply C4_strategy_failure_is_recorded_and_releases_successors;
    [apply demo_oracle_shuffles | lia].
Defined.

(** The same on a concrete run: [node_0], the source of the demo graph,
    fails; both its successors receive the marker and complete. *)
Example failing_source_run :
  ∃ dag trail l,
    WeightedDAG.__init__ demo_oracle 3 (1 # 2) = inr (dag, trail) ∧
    @run failing_strategy 7 fifo dag = Some (inr l) ∧
    WeightedDAG.source dag = "node_0" ∧
    results (self l) !! "node_0" = Some "ERROR: boom" ∧
    child_inputs (self l) !! "node_1" = Some ["ERROR: boom"] ∧
    child_inputs (self l) !! "node_2" = Some ["ERROR: boom"] ∧
    results (self l) !! "node_1" = Some "node_1_result(init_node_1)" ∧
    results (self l) !! "node_2" = Some "node_2_result(init_node_2)" ∧
    calls l = [("node_0", [], 0); ("node_1", [], 5); ("node_2", [], 5)].
Proof.
  eexists _, _, _. split; [vm_compute; reflexivity|].
  split; [vm_compute; reflexivity|]. by vm_compute.
Qed.

(** C5. In every execution of [run], each node's coroutine is started
    exactly once.  [run] itself enters the source's coroutine; every other
    coroutine is created in the step that decrements its node's in-degree
    from 1 to 0, and in no other step.  The lock is free between any two
    steps, so the decrements of one finishing node are never interleaved
    with those of another.  No reachable state has started a node twice. *)
Theorem C5_every_coroutine_is_started_once O (num_nodes : Z) (edge_probability : Q) :
  shuffles O → 1 ≤ num_nodes →
  ∃ dag trail,
    WeightedDAG.__init__ O num_nodes edge_probability = inr (dag, trail) ∧
    (∀ now, spawned (run_begin dag now) = [WeightedDAG.source dag]) ∧
    (∀ now l,
       loop_reachable (run_begin dag now) l →
       NoDup (spawned l) ∧ lock (self l) = false ∧
       ∀ ev l', loop_step l ev l' →
         ∀ v, (v ∈ spawned l' ∧ v ∉ spawned l) ↔
              ∃ node o t, ev = Resume node o t ∧
                          v ∈ successors node (WeightedDAG.graph dag) ∧
                          in_degrees (self l) !! v = Some 1 ∧
                          in_degrees (self l') !! v = Some 0) ∧
    (∀ (E : NodeExecutionStrategy) sch fuel,
       (2 * length (nodes (WeightedDAG.graph dag)) + 1 ≤ fuel)%nat →
       ∃ l, @run E fuel sch dag = Some (inr l) ∧
            spawned l ≡ₚ nodes (WeightedDAG.graph dag)).
Proof.
  intros HO Hn.
  destruct (init_spec O num_nodes edge_probability HO Hn)
    as (dag & trail & Hrun & Hgood & _).
  exists dag, trail. split; [done|]. split; [done|]. split.
  - intros now l Hreach.
    pose proof (inv_reachable dag now l Hgood Hreach) as Hinv.
    split; [apply (inv_spawned_nodup _ _ Hinv)|].
    split; [apply (inv_lock _ _ Hinv)|].
    intros ev l' [[_ Hen] Hfire] v.
    destruct ev as [node t | node o t | t].
    + destruct (begin_step dag l node t Hgood Hinv Hen)
        as (l'' & Hfire' & _ & _ & _ & _ & Hsp & _).
      rewrite (fire_deterministic _ _ _ _ Hfire Hfire'), Hsp.
      split; [by intros [? ?] | by intros (? & ? & ? & [=] & _)].
    + destruct Hen as (t0 & i & d & Hget).
      destruct (resume_step dag l node t0 i d o t Hgood Hinv Hget)
        as (l'' & Hfire' & Hinv' & _ & _ & _ & _ & Hsp & Hin & _).
      rewrite (fire_deterministic _ _ _ _ Hfire Hfire').
      pose proof (inv_spawned_nodup _ _ Hinv') as Hnd. rewrite Hsp in Hnd.
      apply NoDup_app in Hnd as (_ & Hdisj & _).
      rewrite Hsp, elem_of_app, list_elem_of_filter. split.
      * intros [[Hv|[Hv1 Hv]] Hnv]; [done|].
        exists node, o, t. split_and!; [done..|].
        rewrite Hin, decide_True by done. by rewrite Hv1.
      * intros (node' & o' & t' & [= <- <- <-] & Hv & Hv1 & _).
        assert (v ∈ filter (λ v, in_degrees (self l) !! v = Some 1)
                      (successors node (WeightedDAG.graph dag))) as Hready
          by (by apply list_elem_of_filter).
        split; [right; by apply list_elem_of_filter in Hready|].
        intros Hsp'. by apply (Hdisj v).
    + destruct (poll_step dag l t Hgood Hinv Hen)
        as (l'' & Hfire' & _ & _ & _ & _ & Hsp & _).
      rewrite (fire_deterministic _ _ _ _ Hfire Hfire'), Hsp.
      split; [by intros [? ?] | by intros (? & ? & ? & [=] & _)].
  - intros E sch fuel Hfuel.
    destruct (run_terminates E dag sch fuel Hgood Hfuel)
      as (l & Hl & _ & Hinv & Hfin & _).
    destruct (finished_state dag l Hgood Hinv Hfin) as (_ & _ & Hsp & _).
    by exists l.
Qed.

Lemma C5_witness :
  ∃ dag trail,
    WeightedDAG.__init__ demo_oracle 3 (1 # 2) = inr (dag, trail) ∧
    (∀ now, spawned (run_begin dag now) = [WeightedDAG.source dag]) ∧
    (∀ now l,
       loop_reachable (run_begin dag now) l →
       NoDup (spawned l) ∧ lock (self l) = false ∧
       ∀ ev l', loop_step l ev l' →
         ∀ v, (v ∈ spawned l' ∧ v ∉ spawned l) ↔
              ∃ node o t, ev = Resume node o t ∧
                          v ∈ successors node (WeightedDAG.graph dag) ∧
                          in_degrees (self l) !! v = Some 1 ∧
                          in_degrees (self l') !! v = Some 0) ∧
    (∀ (E : NodeExecutionStrategy) sch fuel,
       (2 * length (nodes (WeightedDAG.graph dag)) + 1 ≤ fuel)%nat →
       ∃ l, @run E fuel sch dag = Some (inr l) ∧
            spawned l ≡ₚ nodes (WeightedDAG.graph dag)).
Proof.
  apply C5_every_coroutine_is_started_once; [apply demo_oracle_shuffles | lia].
Defined.

(** C6. For every node, source or not, the strategy is invoked with an empty
    list of inputs and with the sum of the durations of all edges that enter
    the node in the graph, whatever has finished by then; the inputs that
    accumulate in [child_inputs] (non-empty for every node but the source)
    are never what the strategy receives. *)
Theorem C6_strategy_gets_no_inputs_and_the_static_budget
    O (num_nodes : Z) (edge_probability : Q) :
  shuffles O → 1 ≤ num_nodes →
  ∃ dag trail,
    WeightedDAG.__init__ O num_nodes edge_probability = inr (dag, trail) ∧
    (∀ now l,
       loop_reachable (run_begin dag now) l →
       ∀ node inputs duration, (node, inputs, duration) ∈ calls l →
         inputs = [] ∧ duration = incoming_duration (WeightedDAG.graph dag) node) ∧
    (∀ (E : NodeExecutionStrategy) sch fuel,
       (2 * length (nodes (WeightedDAG.graph dag)) + 1 ≤ fuel)%nat →
       ∃ l, @run E fuel sch dag = Some (inr l) ∧
            (calls l).*1.*1 ≡ₚ nodes (WeightedDAG.graph dag) ∧
            (∀ node inputs duration, (node, inputs, duration) ∈ calls l →
               inputs = [] ∧
               duration = incoming_duration (WeightedDAG.graph dag) node) ∧
            (∀ v, v ∈ nodes (WeightedDAG.graph dag) → v ≠ WeightedDAG.source dag →
               default [] (child_inputs (self l) !! v) ≠ [])).
Proof.
  intros HO Hn.
  destruct (init_spec O num_nodes edge_probability HO Hn)
    as (dag & trail & Hrun & Hgood & _).
  assert (∀ l, loop_inv dag l →
               ∀ node inputs duration, (node, inputs, duration) ∈ calls l →
                 inputs = [] ∧
                 duration = incoming_duration (WeightedDAG.graph dag) node) as Hcalls.
  { intros l Hinv node inputs duration Hin.
    pose proof (inv_calls _ _ Hinv) as Hall. rewrite Forall_forall in Hall.
    apply (Hall _ Hin). }
  exists dag, trail. split; [done|]. split.
  - intros now l Hreach. by apply Hcalls, (inv_reachable dag now).
  - intros E sch fuel Hfuel.
    destruct (run_terminates E dag sch fuel Hgood Hfuel)
      as (l & Hl & _ & Hinv & Hfin & Hres).
    destruct (finished_state dag l Hgood Hinv Hfin) as (_ & _ & _ & Hc & _).
    exists l. split_and!; [done | done | by apply Hcalls |].
    intros v Hv Hsrc.
    pose proof Hgood as (Hwf & _ & Huniq & _).
    destruct (predecessors v (WeightedDAG.graph dag)) as [|u us] eqn:Hpred.
    + exfalso. apply Hsrc. apply list_elem_of_singleton. rewrite <-Huniq.
      apply list_elem_of_filter. split; [|done]. unfold in_degree. by rewrite Hpred.
    + assert (has_edge (WeightedDAG.graph dag) u v) as Huv.
      { apply elem_of_predecessors; [apply Hwf|]. rewrite Hpred. left. }
      destruct (final_results E dag l u Hgood Hinv Hfin Hres) as [Hu _].
      { by eapply has_edge_source_node. }
      pose proof (inv_inputs _ _ Hinv u v _ Hu Huv) as Hr.
      intros Hnil. rewrite Hnil in Hr. by apply elem_of_nil in Hr.
Qed.

Lemma C6_witness :
  ∃ dag trail,
    WeightedDAG.__init__ demo_oracle 3 (1 # 2) = inr (dag, trail) ∧
    (∀ now l,
       loop_reachable (run_begin dag now) l →
       ∀ node inputs duration, (node, inputs, duration) ∈ calls l →
         inputs = [] ∧ duration = incoming_duration (WeightedDAG.graph dag) node) ∧
    (∀ (E : NodeExecutionStrategy) sch fuel,
       (2 * length (nodes (WeightedDAG.graph dag)) + 1 ≤ fuel)%nat →
       ∃ l, @run E fuel sch dag = Some (inr l) ∧
            (calls l).*1.*1 ≡ₚ nodes (WeightedDAG.graph dag) ∧
            (∀ node inputs duration, (node, inputs, duration) ∈ calls l →
               inputs = [] ∧
               duration = incoming_duration (WeightedDAG.graph dag) node) ∧
            (∀ v, v ∈ nodes (WeightedDAG.graph dag) → v ≠ WeightedDAG.source dag →
               default [] (child_inputs (self l) !! v) ≠ [])).
Proof.
  apply C6_strategy_gets_no_inputs_and_the_static_budget;
    [apply demo_oracle_shuffles | lia].
Defined.

(** ** Metrics *)

Lemma py_max_spec (a b : Q) : (py_max a b == Qmax a b)%Q.
Proof.
  unfold py_max. destruct (Qlt_le_dec a b) as [Hlt|Hle].
  - symmetry. apply Q.max_r. by apply Qlt_le_weak.
  - symmetry. by apply Q.max_l.
Qed.

Lemma py_min_spec (a b : Q) : (py_min a b == Qmin a b)%Q.
Proof.
  unfold py_min. destruct (Qlt_le_dec b a) as [Hlt|Hle].
  - symmetry. apply Q.min_r. by apply Qlt_le_weak.
  - symmetry. by apply Q.min_l.
Qed.

Lemma py_clamp_bounds (y : Q) : (0 <= py_min 1 (py_max 0 y) <= 1)%Q.
Proof.
  unfold py_min, py_max.
  destruct (Qlt_le_dec 0 y) as [H0|H0]; destruct (Qlt_le_dec _ 1) as [H1|H1];
    split; try lra; try done.
Qed.

(** C7 as stated fails: [speedup] is infinite not only when the wall time
    is 0.  On an executor whose [wall_end_time] lies before its
    [wall_start_time] the wall time is negative and line 115 still returns
    float('inf'), where sequentialTime / wallTime is a finite number. *)
Lemma C7_counterexample :
  ∃ m, get_performance_metrics backdated_executor = inr m ∧
       (sequential_time m == 3)%Q ∧ (wall_time m == -3)%Q ∧
       speedup m = Infinity ∧
       speedup m ≠ spec_speedup (sequential_time m) (wall_time m).
Proof.
  eexists. split; [reflexivity|]. split_and!; [by vm_compute | by vm_compute | done |].
  by vm_compute.
Qed.

(** C7, amended. [get_performance_metrics] takes the sum of the values of
    [timings] as sequentialTime and returns speedup = sequentialTime /
    wallTime when wallTime is positive and infinity otherwise, that is when
    wallTime is 0 and also when it is negative; alpha = clamp(1 -
    timeSaved/sequentialTime, 0, 1), and 1 when sequentialTime is 0, as it
    is when there is no timing; and alpha lies in [0, 1] whatever the
    timings and the wall time are. *)
Theorem C7_speedup_is_infinite_unless_wall_time_is_positive
    (s : WorkflowExecutor.t) (wall_start wall_end : Q) :
  wall_start_time s = Some wall_start →
  wall_end_time s = Some wall_end →
  ∃ m, get_performance_metrics s = inr m ∧
       wall_time m = (wall_end - wall_start)%Q ∧
       sequential_time m = foldl Qplus 0%Q (map_to_list (timings s)).*2 ∧
       (timings s = ∅ → sequential_time m = 0%Q ∧ alpha m = 1%Q) ∧
       time_saved m = (sequential_time m - wall_time m)%Q ∧
       ((0 < wall_time m)%Q →
        speedup m = Finite (sequential_time m / wall_time m)) ∧
       ((wall_time m <= 0)%Q → speedup m = Infinity) ∧
       ((0 <= wall_time m)%Q →
        speedup m = spec_speedup (sequential_time m) (wall_time m)) ∧
       (alpha m == spec_alpha (sequential_time m) (wall_time m))%Q ∧
       (0 <= alpha m <= 1)%Q.
Proof.
  intros Hs He. unfold get_performance_metrics. rewrite Hs, He.
  eexists. split; [reflexivity|]. cbn [wall_time sequential_time time_saved speedup alpha].
  set (seq_time := foldl Qplus 0%Q (map_to_list (timings s)).*2).
  split; [done|]. split; [done|].
  split; [|split; [done|]; split; [|split; [|split; [|split]]]].
  - intros Hempty. unfold seq_time. rewrite Hempty, map_to_list_empty. by cbn.
  - intros Hpos. destruct (Qlt_le_dec 0 (wall_end - wall_start)); [done | lra].
  - intros Hle. destruct (Qlt_le_dec 0 (wall_end - wall_start)); [lra | done].
  - intros Hmono. unfold spec_speedup.
    destruct (Qlt_le_dec 0 (wall_end - wall_start)) as [Hpos|Hle];
      destruct (Qeq_dec (wall_end - wall_start) 0) as [Hz|Hnz]; try done; lra.
  - unfold spec_alpha, clamp. destruct (Qeq_dec seq_time 0); [done|].
    rewrite py_min_spec. apply Q.min_compat; [done|]. apply py_max_spec.
  - destruct (Qeq_dec seq_time 0); [split; lra|]. apply py_clamp_bounds.
Qed.

Lemma C7_witness :
  ∃ m, get_performance_metrics chain_executor = inr m ∧
       wall_time m = ((3 # 1) - 0)%Q ∧
       sequential_time m = foldl Qplus 0%Q (map_to_list (timings chain_executor)).*2 ∧
       (timings chain_executor = ∅ → sequential_time m = 0%Q ∧ alpha m = 1%Q) ∧
       time_saved m = (sequential_time m - wall_time m)%Q ∧
       ((0 < wall_time m)%Q →
        speedup m = Finite (sequential_time m / wall_time m)) ∧
       ((wall_time m <= 0)%Q → speedup m = Infinity) ∧
       ((0 <= wall_time m)%Q →
        speedup m = spec_speedup (sequential_time m) (wall_time m)) ∧
       (alpha m == spec_alpha (sequential_time m) (wall_time m))%Q ∧
       (0 <= alpha m <= 1)%Q.
Proof.
  apply C7_speedup_is_infinite_unless_wall_time_is_positive; reflexivity.
Defined.

(** The figures of that run: three units of work in three units of time. *)
Example chain_metrics :
  ∃ m, get_performance_metrics chain_executor = inr m ∧
       (sequential_time m == 3)%Q ∧ (wall_time m == 3)%Q ∧
       (alpha m == 1)%Q ∧ node_count m = 2%nat.
Proof. eexists. split; [reflexivity|]. by vm_compute. Qed.

(* ================================================================== *)
(** * Part IV: further properties, X1 to X22 *)
(* ================================================================== *)

(** ** Graphs: adding an edge and taking it back *)

Section dict_round_trip.
Context {K A : Type} `{EqDecision K}.
Implicit Types (k : K) (a : A) (d : list (K * A)).

Lemma dict_set_set k a a' d : dict_set k a (dict_set k a' d) = dict_set k a d.
Proof.
  induction d as [|[k0 a0] d IH]; cbn [dict_set].
  - by rewrite decide_True.
  - destruct (decide (k0 = k)) as [->|Hne]; cbn [dict_set].
    + by rewrite decide_True.
    + rewrite decide_False by done. by rewrite IH.
Qed.

Lemma dict_set_get_id k a d : dict_get k d = Some a → dict_set k a d = d.
Proof.
  induction d as [|[k0 a0] d IH]; cbn [dict_get dict_set]; [done|].
  destruct (decide (k0 = k)) as [->|Hne].
  - by intros [= ->].
  - intros Hget. by rewrite IH.
Qed.

Lemma dict_del_last k a d : k ∉ d.*1 → dict_del k (d ++ [(k, a)]) = d.
Proof.
  induction d as [|[k0 a0] d IH]; cbn [app dict_del fmap list_fmap fst].
  - intros _. by rewrite decide_True.
  - intros [Hne Hk]%not_elem_of_cons. rewrite decide_False by done. by rewrite IH.
Qed.
End dict_round_trip.

Section add_remove.
Context {V : Type} `{EqDecision V}.
Implicit Types (G : DiGraph V) (u v : V).

Lemma add_node_present u G : u ∈ nodes G → add_node u G = G.
Proof. intros Hu. unfold add_node. by rewrite decide_True. Qed.

Lemma add_edge_present u v d G :
  u ∈ nodes G → v ∈ nodes G → add_edge u v d G = dict_set u (dict_set v d (adj u G)) G.
Proof.
  intros Hu Hv. unfold add_edge. cbv zeta.
  by rewrite (add_node_present u G Hu), (add_node_present v G Hv).
Qed.

(** Removing an edge that was just added, and was not there before, gives
    back the very same graph. *)
Lemma remove_add_edge u v d G :
  u ∈ nodes G → v ∈ nodes G → ¬ has_edge G u v →
  remove_edge u v (add_edge u v d G) = inr G.
Proof.
  intros Hu Hv Huv. unfold remove_edge.
  assert (has_edge (add_edge u v d G) u v) as Hnew by (apply has_edge_add_edge; by left).
  rewrite decide_True by exact Hnew.
  f_equal. rewrite adj_add_edge, decide_True by done.
  rewrite add_edge_present by done.
  rewrite (dict_set_absent v d (adj u G)) by exact Huv.
  rewrite dict_del_last by exact Huv.
  rewrite dict_set_set. apply dict_set_get_id.
  apply dict_get_is_Some in Hu as [l Hl]. unfold adj. by rewrite Hl.
Qed.

Lemma tc_add_edge G u v d a b :
  tc (has_edge (add_edge u v d G)) a b →
  tc (has_edge G) a b ∨ (rtc (has_edge G) a u ∧ rtc (has_edge G) v b).
Proof.
  induction 1 as [a b Hab | a z b Haz _ IH].
  - apply has_edge_add_edge in Hab as [[-> ->]|Hab]; [by right | left; by apply tc_once].
  - apply has_edge_add_edge in Haz as [[-> ->]|Haz].
    + right. split; [done|]. destruct IH as [IH|[_ IH]]; [by apply tc_rtc | done].
    + destruct IH as [IH|[IH1 IH2]]; [left; by eapply tc_l|].
      right. split; [by eapply rtc_l | done].
Qed.

(** A new edge u -> v closes a cycle exactly when v already reaches u. *)
Lemma acyclic_add_edge_iff G u v d :
  acyclic G → acyclic (add_edge u v d G) ↔ ¬ rtc (has_edge G) v u.
Proof.
  intros Hac. split.
  - intros Hac' Hvu. apply (Hac' u).
    eapply tc_rtc_r; [apply tc_once, has_edge_add_edge; by left|].
    eapply rtc_subrel; [|exact Hvu]. intros a b Hab. apply has_edge_add_edge. by right.
  - intros Hvu x Hx. apply tc_add_edge in Hx as [Hx|[Hxu Hvx]]; [by apply (Hac x)|].
    apply Hvu. by etrans.
Qed.
End add_remove.

(** ** The repair pass: the first candidate always fits *)

Lemma try_targets_first O node target rest (s : Gen nat) :
  wf_graph (gen_graph s) → acyclic (gen_graph s) →
  node ∈ nodes (gen_graph s) → target ∈ nodes (gen_graph s) → node ≠ target →
  let G := gen_graph s in
  let G1 := add_edge node target (randint O (gen_draws s)) G in
  let G3 := add_edge target node (randint O (S (gen_draws s))) G in
  ∃ s',
    WeightedDAG.try_targets O node (target :: rest) s = inr (true, s') ∧
    wf_graph (gen_graph s') ∧ acyclic (gen_graph s') ∧
    ((¬ rtc (has_edge G) target node ∧
      s' = MkGen G1 (S (gen_draws s)) (gen_trail s ++ [IntGraph TryOut G1])) ∨
     (rtc (has_edge G) target node ∧
      s' = MkGen G3 (S (S (gen_draws s)))
             (gen_trail s ++ [IntGraph TryOut G1; IntGraph UndoOut G; IntGraph TryIn G3]))).
Proof.
  intros Hwf Hac Hnode Htarget Hne G G1 G3.
  assert (wf_graph G1) as Hwf1 by by apply wf_add_edge.
  assert (wf_graph G3) as Hwf3 by by apply wf_add_edge.
  cbn [WeightedDAG.try_targets]. msimpl. fold G. fold G1.
  destruct (is_directed_acyclic_graph G1) eqn:Hd1.
  - apply is_directed_acyclic_graph_spec in Hd1; [|apply Hwf1].
    eexists. split; [done|]. cbn [gen_graph]. split_and!; [done..|].
    left. split; [|done]. by apply (acyclic_add_edge_iff G node target) in Hd1.
  - assert (¬ acyclic G1) as Hcyc.
    { intros Hac1. apply is_directed_acyclic_graph_spec in Hac1; [|apply Hwf1]. congruence. }
    assert (rtc (has_edge G) target node) as Hpath.
    { destruct (decide (node ∈ descendants G target)) as [Hin|Hout].
      - apply descendants_spec in Hin as [_ Hin]; [by apply tc_rtc | done].
      - exfalso. apply Hcyc, acyclic_add_edge_iff; [done|].
        intros [Heq|Hp]%rtc_tc; [done|]. by apply Hout, descendants_spec. }
    assert (¬ has_edge G node target) as Hnew.
    { intros Hnt. apply (Hac node). eapply tc_rtc_r; [by apply tc_once | done]. }
    assert (remove_edge node target G1 = inr G) as Hrm by by apply remove_add_edge.
    msimpl. cbn [gen_graph]. rewrite Hrm. msimpl. cbn [gen_graph gen_draws gen_trail].
    fold G3.
    assert (acyclic G3) as Hac3.
    { apply acyclic_add_edge_iff; [done|]. intros Hback.
      apply rtc_tc in Hback as [Heq|Hback]; [done|].
      apply (Hac node). by eapply tc_rtc_r. }
    rewrite (proj2 (is_directed_acyclic_graph_spec G3 (proj1 Hwf3)) Hac3).
    eexists. split; [done|]. cbn [gen_graph]. split_and!; [done..|].
    right. split; [done|]. by rewrite <-!app_assoc.
Qed.

(** ** Generation: the node list, the durations, and what the trail keeps *)

Section adjacency_frames.
Context {V : Type} `{EqDecision V}.
Implicit Types (G : DiGraph V) (u v : V).

Lemma adj_add_nodes_from (ns : list V) G u : adj u (add_nodes_from ns G) = adj u G.
Proof.
  unfold add_nodes_from. revert G. induction ns as [|n ns IH]; intros G; [done|].
  cbn [foldl]. by rewrite IH, adj_add_node.
Qed.

Lemma nodes_add_nodes_from (ns : list V) G :
  NoDup (nodes G ++ ns) → nodes (add_nodes_from ns G) = nodes G ++ ns.
Proof.
  unfold add_nodes_from. revert G. induction ns as [|n ns IH]; intros G Hnd.
  - by rewrite app_nil_r.
  - cbn [foldl]. rewrite IH.
    + rewrite nodes_add_node, decide_False; [by rewrite <-app_assoc|].
      intros Hn. apply NoDup_app in Hnd as (_ & Hdisj & _). apply (Hdisj n Hn). left.
    + rewrite nodes_add_node, decide_False; [by rewrite <-app_assoc|].
      intros Hn. apply NoDup_app in Hnd as (_ & Hdisj & _). apply (Hdisj n Hn). left.
Qed.

Lemma nodes_add_edge_present u v d G :
  u ∈ nodes G → v ∈ nodes G → nodes (add_edge u v d G) = nodes G.
Proof.
  intros Hu Hv. rewrite nodes_add_edge, !nodes_add_node.
  rewrite (decide_True _ _ Hu). by rewrite decide_True.
Qed.

Lemma elem_of_adj_add_edge a x u v d G :
  x ∈ adj a (add_edge u v d G) → (a = u ∧ x = (v, d)) ∨ x ∈ adj a G.
Proof.
  rewrite adj_add_edge. case_decide as Hua; [|by right]. subst a.
  intros [->|Hx]%elem_of_dict_set; [by left | by right].
Qed.
End adjacency_frames.

Section generation_more.
Context (O : Oracle) (HO : shuffles O) (Hit : iterates O).
Context (P : Z → Prop) (HP : ∀ k, P (randint O k)).
Context (num_nodes : Z) (edge_probability : Q).
Let n := Z.to_nat num_nodes.
Let ordering := shuffle O (seq 0 n).

Let dur_ok (G : DiGraph nat) : Prop := ∀ u v d, (v, d) ∈ adj u G → P d.

Let kept (s : Gen nat) : Prop :=
  ∀ x, x ∈ gen_trail s → snapshot_acyclic x →
       ∀ a b, int_edges x a b → has_edge (gen_graph s) a b.

Let tame (x : snapshot) : Prop :=
  snapshot_site x ≠ UndoIn ∧ (snapshot_site x = TryIn → snapshot_acyclic x) ∧
  ∃ site G, x = IntGraph site G.

Let no_undo_in (s : Gen nat) : Prop := Forall tame (gen_trail s).

Let J2 (s : Gen nat) : Prop :=
  wf_graph (gen_graph s) ∧ nodes (gen_graph s) = ordering ∧
  (∀ a b, has_edge (gen_graph s) a b → before ordering a b) ∧
  dur_ok (gen_graph s) ∧ no_undo_in s ∧ kept s.

Let J3 (s : Gen nat) : Prop :=
  wf_graph (gen_graph s) ∧ acyclic (gen_graph s) ∧ nodes (gen_graph s) = ordering ∧
  dur_ok (gen_graph s) ∧ no_undo_in s ∧ kept s.

Lemma kept_grows (s : Gen nat) G' k tr' :
  kept s →
  (∀ a b, has_edge (gen_graph s) a b → has_edge G' a b) →
  (∀ x, x ∈ tr' → snapshot_acyclic x → ∀ a b, int_edges x a b → has_edge G' a b) →
  kept (MkGen G' k (gen_trail s ++ tr')).
Proof.
  intros Hk Hsub Hnew x [Hx|Hx]%elem_of_app Hac a b Hab; cbn [gen_graph].
  - apply Hsub. by eapply Hk.
  - by eapply Hnew.
Qed.

Lemma dur_ok_add_edge G u v k : dur_ok G → dur_ok (add_edge u v (randint O k) G).
Proof.
  intros Hd a b d [[_ [= _ ->]]|Hin]%elem_of_adj_add_edge; [apply HP | by eapply Hd].
Qed.

Lemma forward_edge_more i j :
  (i < j < n)%nat →
  hoare J2
    (r ← rand_random O;
     if Qlt_le_dec r edge_probability then
       oi ← index ordering i;
       oj ← index ordering j;
       d ← rand_randint O;
       g_add_edge ForwardEdge oi oj d
     else mret tt)
    (λ _, J2).
Proof.
  intros Hij s (Hwf & Hn & Hfw & Hd & Hu & Hk). msimpl.
  destruct (shuffles_facts O n HO) as [Hnd Hlen]. fold ordering in Hnd, Hlen.
  destruct (Qlt_le_dec _ _); [|eexists tt, _; split; [done|]; by split_and!].
  destruct (lookup_lt_is_Some_2 ordering i) as [oi Hoi]; [lia|].
  destruct (lookup_lt_is_Some_2 ordering j) as [oj Hoj]; [lia|].
  unfold index. rewrite Hoi. msimpl. rewrite Hoj. msimpl.
  eexists _, _. split; [done|].
  set (G' := add_edge oi oj (randint O (S (gen_draws s))) (gen_graph s)).
  assert (∀ a b, has_edge (gen_graph s) a b → has_edge G' a b) as Hsub.
  { intros a b Hab. apply has_edge_add_edge. by right. }
  split_and!; cbn [gen_graph gen_trail].
  - by apply wf_add_edge.
  - unfold G'. rewrite nodes_add_edge_present; [done | |]; rewrite Hn;
      by eapply list_elem_of_lookup_2.
  - intros a b [[-> ->]|Hab]%has_edge_add_edge; [|by apply Hfw].
    exists i, j. split_and!; [lia|done..].
  - by apply dur_ok_add_edge.
  - apply Forall_app. split; [done|].
    apply Forall_singleton. split_and!; [done | done | eauto].
  - apply (kept_grows s); [done..|].
    intros x ->%list_elem_of_singleton _ a b Hab. exact Hab.
Qed.

Lemma try_targets_more node target rest :
  hoare (λ s, J3 s ∧ node ∈ ordering ∧ target ∈ ordering ∧ node ≠ target)
    (WeightedDAG.try_targets O node (target :: rest))
    (λ inserted s, inserted = true ∧ J3 s).
Proof.
  intros s ((Hwf & Hac & Hn & Hd & Hu & Hk) & Hnode & Htarget & Hne).
  destruct (try_targets_first O node target rest s Hwf Hac) as (s' & Hrun & Hwf' & Hac' & Hs');
    [by rewrite Hn.. | done |].
  exists true, s'. split; [done|]. split; [done|].
  assert (∀ u v k, u ∈ ordering → v ∈ ordering →
            nodes (add_edge u v (randint O k) (gen_graph s)) = ordering) as Hnodes.
  { intros u v k Hu' Hv'. rewrite nodes_add_edge_present; [done | by rewrite Hn..]. }
  assert (∀ u v k a b, has_edge (gen_graph s) a b →
            has_edge (add_edge u v (randint O k) (gen_graph s)) a b) as Hsub.
  { intros u v k a b Hab. apply has_edge_add_edge. by right. }
  destruct Hs' as [[Hno ->]|[Hpath ->]]; cbn [gen_graph gen_trail] in *.
  - split_and!; [done | done | by apply Hnodes | by apply dur_ok_add_edge | |].
    + apply Forall_app. split; [done|].
      apply Forall_singleton. split_and!; [done | done | eauto].
    + apply (kept_grows s); [done | by apply Hsub |].
      intros x ->%list_elem_of_singleton _ a b Hab. exact Hab.
  - split_and!; [done | done | by apply Hnodes | by apply dur_ok_add_edge | |].
    + apply Forall_app. split; [done|].
      apply List.Forall_cons;
        [|apply List.Forall_cons; [|apply List.Forall_cons; [|apply List.Forall_nil]]];
        (split_and!; [done | done || by intros _ | eauto]).
    + apply (kept_grows s); [done | by apply Hsub |].
      intros x Hx Hacx a b Hab.
      apply elem_of_cons in Hx as [->|Hx].
      { exfalso. revert Hacx. cbn [snapshot_acyclic].
        rewrite acyclic_add_edge_iff by done. tauto. }
      apply elem_of_cons in Hx as [->|Hx]; [by apply Hsub|].
      apply list_elem_of_singleton in Hx as ->. exact Hab.
Qed.

Lemma repair_more unreachable (reachable : gset nat) :
  NoDup unreachable →
  (∀ x, x ∈ unreachable → x ∈ ordering ∧ x ∉ reachable) →
  reachable ≠ ∅ → (∀ x, x ∈ reachable → x ∈ ordering) →
  hoare J3 (WeightedDAG.repair O unreachable reachable) (λ _, J3).
Proof.
  revert reachable.
  induction unreachable as [|node rest IH]; intros reachable Hnd Hun Hne Hsub s Hs.
  - by exists tt, s.
  - apply NoDup_cons in Hnd as [Hnode Hnd].
    destruct (Hun node) as [Hno Hnr]; [left|].
    cbn [WeightedDAG.repair]. msimpl.
    destruct (set_iter O reachable) as [|target targets] eqn:Hiter.
    { exfalso. apply Hne, leibniz_equiv, elements_empty_inv.
      pose proof (Hit reachable) as Hp. rewrite Hiter in Hp.
      symmetry in Hp. by apply Permutation_nil_r in Hp. }
    assert (target ∈ reachable) as Htr.
    { apply elem_of_elements. rewrite <-(Hit reachable), Hiter. left. }
    destruct (try_targets_more node target targets s) as (b & s1 & -> & -> & Hs1).
    { split_and!; [done | done | by apply Hsub | by intros ->]. }
    apply IH; [done | | | | done].
    + intros x Hx. destruct (Hun x) as [? ?]; [by right|].
      split; [done|]. rewrite elem_of_union, elem_of_singleton.
      intros [->|?]; done.
    + set_solver.
    + intros x [->%elem_of_singleton|?]%elem_of_union; auto.
Qed.

Lemma generate_connected_dag_more draws :
  (1 ≤ num_nodes)%Z →
  ∃ s,
    WeightedDAG._generate_connected_dag O num_nodes edge_probability (MkGen [] draws [])
      = inr (relabel_nodes (gen_graph s) node_label, s) ∧
    wf_graph (gen_graph s) ∧ acyclic (gen_graph s) ∧ nodes (gen_graph s) = ordering ∧
    (∀ u v d, (v, d) ∈ adj u (gen_graph s) → P d) ∧
    Forall (λ x, snapshot_site x ≠ UndoIn ∧
                 (snapshot_site x = TryIn → snapshot_acyclic x) ∧
                 ∃ site G, x = IntGraph site G)
      (gen_trail s) ∧
    (∀ x, x ∈ gen_trail s → snapshot_acyclic x →
          ∀ a b, int_edges x a b → has_edge (gen_graph s) a b).
Proof.
  intros Hn1.
  destruct (shuffles_facts O n HO) as [Hnd Hlen]. fold ordering in Hnd, Hlen.
  assert (0 < n)%nat as Hpos by (unfold n; lia).
  destruct (lookup_lt_is_Some_2 ordering 0) as [o0 Ho0]; [lia|].
  assert (o0 ∈ ordering) as Ho0in by by eapply list_elem_of_lookup_2.
  assert (hoare (λ s, gen_graph s = [] ∧ gen_trail s = [])
            (WeightedDAG._generate_connected_dag O num_nodes edge_probability)
            (λ G0 s, G0 = relabel_nodes (gen_graph s) node_label ∧ J3 s)) as Hh.
  { unfold WeightedDAG._generate_connected_dag. fold n. fold ordering.
    apply (hoare_bind _ (λ _, J2)).
    { intros s [HG Htr]. msimpl. eexists _, _. split; [done|].
      rewrite HG, Htr.
      destruct (add_nodes_from_spec ordering [] wf_graph_nil) as (Hwf & _ & He).
      assert (∀ a b, ¬ has_edge (add_nodes_from ordering []) a b) as Hno.
      { intros a b Hab%He. unfold has_edge, successors, adj in Hab.
        by apply elem_of_nil in Hab. }
      split_and!; cbn [gen_graph gen_trail].
      - done.
      - by rewrite nodes_add_nodes_from.
      - intros a b Hab. by apply Hno in Hab.
      - intros u v d. rewrite adj_add_nodes_from. unfold adj. cbn. by intros ?%elem_of_nil.
      - apply Forall_singleton. split_and!; [done | done | eauto].
      - intros x ->%list_elem_of_singleton _ a b Hab. exact Hab. }
    intros _. apply (hoare_bind _ (λ _, J2)).
    { apply for_inv. intros i Hi. apply for_inv. intros j Hj.
      apply forward_edge_more.
      apply elem_of_seq in Hi, Hj. lia. }
    intros _ s (Hwf & Hn & Hfw & Hd & Hu & Hk). msimpl.
    unfold index. rewrite Ho0. msimpl.
    assert (acyclic (gen_graph s)) as Hac by by apply (forward_acyclic ordering).
    match goal with
    | |- context [WeightedDAG.repair O ?u ?r s] =>
        destruct (repair_more u r) with (s := s) as ([] & s1 & -> & Hs1)
    end.
    - rewrite (Hit _). apply NoDup_elements.
    - intros x Hx. rewrite (Hit _) in Hx. apply elem_of_elements in Hx.
      apply elem_of_difference in Hx as [Hx ?]. split; [|done].
      apply elem_of_list_to_set in Hx. by rewrite <-Hn.
    - set_solver.
    - intros x [Hx| ->%elem_of_singleton]%elem_of_union; [|done].
      apply elem_of_list_to_set, descendants_spec in Hx as [_ Hx]; [|done].
      rewrite <-Hn. apply tc_last_step in Hx as (w & _ & Hwx).
      by eapply has_edge_target_node.
    - by split_and!.
    - by eexists _, _. }
  destruct (Hh (MkGen [] draws [])) as (G0 & s & Hrun & -> & (? & ? & ? & ? & ? & ?));
    [done|].
  exists s. by split_and!.
Qed.
End generation_more.

(** ** Source resolution: what line 79 does to the graph *)

Section virtual_source.
Context (O : Oracle) (G0 : DiGraph string).
Context (Hv : "virtual" ∉ nodes G0).

(** [G0] with the adjacency entry that the loop of lines 78-79 has built
    up so far. *)
Let with_virtual (l : list (string * Z)) : DiGraph string :=
  match l with [] => G0 | _ => G0 ++ [("virtual", l)] end.

Lemma adj_with_virtual l u :
  adj u (with_virtual l) = if decide (u = "virtual") then l else adj u G0.
Proof.
  unfold with_virtual, adj. destruct l as [|e l].
  - case_decide as Hu; [|done]. subst u. by rewrite (proj2 (dict_get_None _ _) Hv).
  - rewrite dict_get_app_absent. case_decide as Hu.
    + subst u. rewrite (proj2 (dict_get_None _ _) Hv). cbn. by rewrite decide_True.
    + destruct (dict_get u G0); [done|]. cbn. by rewrite decide_False.
Qed.

Lemma has_edge_with_virtual l a b :
  has_edge (with_virtual l) a b ↔ has_edge G0 a b ∨ (a = "virtual" ∧ b ∈ l.*1).
Proof.
  unfold has_edge, successors. rewrite adj_with_virtual. case_decide as Ha.
  - subst a. rewrite (adj_absent _ _ Hv). cbn. rewrite elem_of_nil. naive_solver.
  - naive_solver.
Qed.

Lemma add_virtual_edge l src d :
  src ∈ nodes G0 → src ∉ l.*1 →
  add_edge "virtual" src d (with_virtual l) = with_virtual (l ++ [(src, d)]).
Proof.
  intros Hsrc Hnew. unfold add_edge. cbv zeta.
  assert (add_node src (add_node "virtual" (with_virtual l))
          = G0 ++ [("virtual", l)]) as ->.
  { destruct l as [|e l]; unfold with_virtual.
    - unfold add_node at 2. rewrite decide_False by done.
      apply add_node_present. unfold nodes. rewrite fmap_app, elem_of_app. by left.
    - rewrite (add_node_present "virtual").
      + apply add_node_present. unfold nodes. rewrite fmap_app, elem_of_app. by left.
      + unfold nodes. rewrite fmap_app, elem_of_app. right. left. }
  unfold adj. rewrite dict_get_last by exact Hv.
  change (default [] (Some l)) with l.
  rewrite (dict_set_absent src d l) by done. rewrite dict_set_last by exact Hv.
  unfold with_virtual. by destruct l.
Qed.

Lemma virtual_loop srcs l k tr :
  NoDup srcs → (∀ x, x ∈ srcs → x ∈ nodes G0 ∧ x ∉ l.*1) →
  let pairs := zip srcs (randint O <$> seq k (length srcs)) in
  ∃ tr',
    for_ srcs (λ source, d ← rand_randint O;
                         g_add_edge VirtualEdge "virtual" source d)
      (MkGen (with_virtual l) k tr)
    = inr (tt, MkGen (with_virtual (l ++ pairs)) (k + length srcs) (tr ++ tr')) ∧
    length tr' = length srcs ∧
    Forall (λ x, ∃ l', l' `prefix_of` l ++ pairs ∧
                       x = StrGraph VirtualEdge (with_virtual l')) tr'.
Proof.
  revert l k tr. induction srcs as [|src srcs IH]; intros l k tr Hnd Hs pairs.
  - exists []. unfold pairs. cbn. rewrite !app_nil_r, Nat.add_0_r. by split_and!.
  - apply NoDup_cons in Hnd as [Hsrc Hnd].
    destruct (Hs src) as [Hin Hnew]; [left|].
    destruct (IH (l ++ [(src, randint O k)]) (S k)
                (tr ++ [StrGraph VirtualEdge (with_virtual (l ++ [(src, randint O k)]))])
                Hnd)
      as (tr' & Hrun & Hlen & Hall).
    { intros x Hx. destruct (Hs x) as [? ?]; [by right|]. split; [done|].
      rewrite fmap_app, elem_of_app. cbn. rewrite list_elem_of_singleton.
      intros [?| ->]; done. }
    exists (StrGraph VirtualEdge (with_virtual (l ++ [(src, randint O k)])) :: tr').
    assert (l ++ pairs
            = (l ++ [(src, randint O k)]) ++ zip srcs (randint O <$> seq (S k) (length srcs)))
      as Hpairs by (unfold pairs; cbn; by rewrite <-app_assoc).
    split_and!.
    + cbn [for_]. msimpl. rewrite add_virtual_edge by done.
      unfold snap, snap_string. msimpl_in Hrun. unfold snap, snap_string in Hrun.
      rewrite Hrun, Hpairs.
      replace (k + length (src :: srcs))%nat with (S k + length srcs)%nat by (cbn; lia).
      by rewrite <-(app_assoc tr).
    + cbn. by rewrite Hlen.
    + rewrite Hpairs. constructor; [|done].
      eexists. split; [|done]. by apply prefix_app_r.
Qed.

Lemma get_source_node_exact draws tr :
  wf_graph G0 → acyclic G0 → nodes G0 ≠ [] →
  let sources := filter (λ n, in_degree n G0 = 0%nat) (nodes G0) in
  let pairs := zip sources (randint O <$> seq draws (length sources)) in
  ∃ src s,
    WeightedDAG._get_source_node O (MkGen G0 draws tr) = inr (src, s) ∧
    match sources with
    | [s0] => src = s0 ∧ s = MkGen G0 draws tr
    | _ =>
        src = "virtual" ∧ (2 ≤ length sources)%nat ∧
        gen_graph s = G0 ++ [("virtual", pairs)] ∧
        gen_draws s = (draws + length sources)%nat ∧
        ∃ tr', gen_trail s = tr ++ tr' ∧ length tr' = length sources ∧
               Forall (λ x, ∃ l', l' `prefix_of` pairs ∧
                                  x = StrGraph VirtualEdge (with_virtual l')) tr'
    end.
Proof.
  intros Hwf Hac Hne sources pairs. unfold WeightedDAG._get_source_node. msimpl.
  fold sources.
  assert (sources ≠ []) as Hsne.
  { intros Hnil. destruct G0 as [|[x0 l0] G0'] eqn:HG; [done|].
    destruct (source_ancestor ((x0, l0) :: G0') x0 Hwf Hac) as (m & Hm & _); [left|].
    fold sources in Hm. rewrite Hnil in Hm. by apply elem_of_nil in Hm. }
  case_decide as Hlen.
  - destruct sources as [|s0 [|]] eqn:Hsrc; try done.
    unfold index. cbn. by eexists _, _.
  - destruct (virtual_loop sources [] draws tr) as (tr' & Hrun & Hlen' & Hall).
    { apply NoDup_filter, Hwf. }
    { intros x [_ Hx]%list_elem_of_filter. split; [done | apply not_elem_of_nil]. }
    cbn [app] in Hrun, Hall. fold pairs in Hrun, Hall.
    change (with_virtual []) with G0 in Hrun. msimpl_in Hrun. rewrite Hrun.
    eexists _, _. split; [done|].
    assert (2 ≤ length sources)%nat as H2.
    { destruct sources as [|? [|]]; cbn in *; [done | done | lia]. }
    assert (pairs ≠ []) as Hp.
    { unfold pairs. destruct sources as [|? [|]]; cbn in *; [done | done | done]. }
    assert (with_virtual pairs = G0 ++ [("virtual", pairs)]) as Hwv
      by (unfold with_virtual; by destruct pairs).
    destruct sources as [|s0 [|s1 rest]] eqn:Hsrc; [done | done |].
    cbn [gen_graph gen_draws gen_trail]. split_and!; [done..|].
    exists tr'. by split_and!.
Qed.
End virtual_source.

Lemma elem_of_adj_relabel {V W} `{EqDecision V} `{EqDecision W} (f : V → W)
    (G : DiGraph V) (u v : W) (d : Z) :
  NoDup (nodes G) → (v, d) ∈ adj u (relabel_nodes G f) →
  ∃ a b, u = f a ∧ v = f b ∧ (b, d) ∈ adj a G.
Proof.
  intros Hnd Hin. unfold adj in Hin at 1.
  destruct (dict_get u (relabel_nodes G f)) as [l'|] eqn:Hget;
    [|by apply elem_of_nil in Hin].
  apply dict_get_Some_elem in Hget. cbn in Hin.
  apply list_elem_of_fmap in Hget as ([a l] & [= -> ->] & HaG). cbn in Hin.
  apply list_elem_of_fmap in Hin as ([b d'] & [= -> ->] & Hb).
  exists a, b. split_and!; [done..|]. by rewrite (adj_elem a G l).
Qed.

(** ** The constructor, in more detail *)

Lemma init_generated O (P : Z → Prop) (num_nodes : Z) (edge_probability : Q) :
  shuffles O → iterates O → (∀ k, P (randint O k)) → 1 ≤ num_nodes →
  ∃ dag trail (Gint : DiGraph nat) (extra : list (string * Z)),
    (∃ s1 tr,
       WeightedDAG._generate_connected_dag O num_nodes edge_probability (MkGen [] 0 [])
       = inr (relabel_nodes Gint node_label, s1) ∧
       gen_graph s1 = Gint ∧ trail = gen_trail s1 ++ tr ∧
       Forall (λ x, snapshot_site x = VirtualEdge) tr) ∧
    WeightedDAG.__init__ O num_nodes edge_probability = inr (dag, trail) ∧
    good_dag dag ∧
    wf_graph Gint ∧ acyclic Gint ∧
    nodes Gint = shuffle O (seq 0 (Z.to_nat num_nodes)) ∧
    let G0 := relabel_nodes Gint node_label in
    let sources := filter (λ v, in_degree v G0 = 0%nat) (nodes G0) in
    WeightedDAG.graph dag
      = match extra with [] => G0 | _ => G0 ++ [("virtual", extra)] end ∧
    (WeightedDAG.source dag = "virtual" ↔ extra ≠ []) ∧
    (extra = [] → sources = [WeightedDAG.source dag]) ∧
    (extra ≠ [] → extra.*1 = sources ∧ (2 ≤ length sources)%nat) ∧
    Forall (λ e, P e.2) extra ∧
    (∀ u v d, (v, d) ∈ adj u Gint → P d) ∧
    Forall (λ x, snapshot_site x ≠ UndoIn ∧
                 (snapshot_site x = TryIn → snapshot_acyclic x)) trail ∧
    (∀ x, x ∈ trail → snapshot_acyclic x →
          ∀ a b, snapshot_edges x a b → has_edge (WeightedDAG.graph dag) a b).
Proof.
  intros HO Hit HP Hn.
  destruct (init_spec O num_nodes edge_probability HO Hn)
    as (dag & trail & Hrun & Hgood & _).
  destruct (generate_connected_dag_more O HO Hit P HP num_nodes edge_probability 0%nat Hn)
    as (s1 & Hgen & Hwf & Hac & Hnodes & Hdur & Hundo & Hkept).
  set (Gint := gen_graph s1) in *.
  set (G0 := relabel_nodes Gint node_label).
  assert ("virtual" ∉ nodes G0) as Hv.
  { unfold G0. rewrite nodes_relabel. intros (i & Hi & _)%list_elem_of_fmap.
    by apply (node_label_not_virtual i). }
  assert (wf_graph G0) as Hwf0 by (apply wf_relabel; [apply _ | done]).
  assert (nodes G0 ≠ []) as Hne.
  { unfold G0. rewrite nodes_relabel, Hnodes.
    destruct (shuffles_facts O (Z.to_nat num_nodes) HO) as [_ Hlen].
    intros Hnil%fmap_nil_inv. rewrite Hnil in Hlen. cbn in Hlen. lia. }
  destruct (get_source_node_exact O G0 Hv (gen_draws s1) (gen_trail s1) Hwf0)
    as (src & s2 & Hsrc & Hcase); [apply acyclic_relabel; [apply _ | done] | done |].
  cbv zeta in Hcase.
  set (sources := filter (λ v, in_degree v G0 = 0%nat) (nodes G0)) in *.
  (* read the fields of the object off the run *)
  pose proof Hrun as Hfields.
  unfold WeightedDAG.__init__ in Hfields. rewrite Hgen in Hfields. fold G0 in Hfields.
  rewrite Hsrc in Hfields.
  destruct (WeightedDAG._to_langgraph_schema (gen_graph s2) src) as [|ls]; [done|].
  destruct (WeightedDAG._to_schema (gen_graph s2)) as [|sch]; [done|].
  injection Hfields as Hdag Htrail.
  assert (WeightedDAG.graph dag = gen_graph s2) as Hgraph by by rewrite <-Hdag.
  assert (WeightedDAG.source dag = src) as Hsource by by rewrite <-Hdag.
  clear Hdag. subst trail.
  assert (∀ x, x ∈ gen_trail s1 → snapshot_acyclic x →
               ∀ a b, snapshot_edges x a b → has_edge G0 a b) as Hkept0.
  { intros x Hx Hacx a b Hab. rewrite Forall_forall in Hundo.
    destruct (Hundo x Hx) as (_ & _ & site & G & ->).
    destruct Hab as (i & j & -> & -> & Hij).
    apply has_edge_relabel; [apply _|]. exists i, j. split_and!; [done..|].
    by apply (Hkept _ Hx Hacx). }
  set (pairs := zip sources (randint O <$> seq (gen_draws s1) (length sources))) in *.
  assert (Forall (λ e : string * Z, P e.2) pairs) as Hpairs.
  { apply Forall_forall. intros [v d] Hd%elem_of_zip_r.
    apply list_elem_of_fmap in Hd as (k & -> & _). apply HP. }
  assert (pairs.*1 = sources) as Hfst.
  { unfold pairs. apply fst_zip. by rewrite length_fmap, length_seq. }
  assert (∀ x, x ∈ sources → x ≠ "virtual") as Hsv.
  { intros x [_ Hx]%list_elem_of_filter ->. done. }
  assert (Forall (λ x, snapshot_site x ≠ UndoIn ∧
                       (snapshot_site x = TryIn → snapshot_acyclic x))
            (gen_trail s1)) as Hundo1.
  { eapply Forall_impl; [exact Hundo|]. by intros x (? & ? & _). }
  destruct sources as [|s0 [|s1' rest]] eqn:Hsources.
  - (* no source at all cannot happen *)
    destruct Hcase as (_ & Hlen & _). cbn in Hlen. lia.
  - destruct Hcase as [-> ->].
    exists dag, (gen_trail s1), Gint, []. rewrite Hgraph, Hsource. cbn [gen_graph].
    split; [exists s1, []; by rewrite app_nil_r|].
    split_and!; try done.
    split; [|done]. intros ->. exfalso. apply (Hsv "virtual"); [left | done].
  - destruct Hcase as (-> & Hlen & HG & Hdraws & tr' & Htr & Hlen' & Hall).
    assert (pairs ≠ []) as Hpne by (intros Hnil; by rewrite Hnil in Hfst).
    exists dag, (gen_trail s2), Gint, pairs. rewrite Hgraph, Hsource.
    cbv zeta. fold G0. fold sources. rewrite Hsources.
    split.
    { exists s1, tr'. split_and!; [done..|].
      eapply Forall_impl; [exact Hall|]. by intros x (l' & _ & ->). }
    split_and!; try done.
    + rewrite Htr. apply Forall_app. split; [done|].
      eapply Forall_impl; [exact Hall|]. by intros x (l' & _ & ->).
    + intros x Hx Hacx a b Hab. rewrite HG.
      replace (G0 ++ [("virtual", pairs)])
        with (match pairs with [] => G0 | _ => G0 ++ [("virtual", pairs)] end)
        by (by destruct pairs).
      apply (has_edge_with_virtual G0 Hv).
      rewrite Htr in Hx. apply elem_of_app in Hx as [Hx|Hx]; [left; by eapply Hkept0|].
      rewrite Forall_forall in Hall. destruct (Hall x Hx) as (l' & [l'' Hpre] & ->).
      cbn [snapshot_edges] in Hab.
      apply (has_edge_with_virtual G0 Hv) in Hab as [Hab|[-> Hb]]; [by left|].
      right. split; [done|]. rewrite Hpre, fmap_app, elem_of_app. by left.
Qed.

Lemma init_more O (P : Z → Prop) (num_nodes : Z) (edge_probability : Q) :
  shuffles O → iterates O → (∀ k, P (randint O k)) → 1 ≤ num_nodes →
  ∃ dag trail (Gint : DiGraph nat) (extra : list (string * Z)),
    WeightedDAG.__init__ O num_nodes edge_probability = inr (dag, trail) ∧
    good_dag dag ∧
    wf_graph Gint ∧ acyclic Gint ∧
    nodes Gint = shuffle O (seq 0 (Z.to_nat num_nodes)) ∧
    let G0 := relabel_nodes Gint node_label in
    let sources := filter (λ v, in_degree v G0 = 0%nat) (nodes G0) in
    WeightedDAG.graph dag
      = match extra with [] => G0 | _ => G0 ++ [("virtual", extra)] end ∧
    (WeightedDAG.source dag = "virtual" ↔ extra ≠ []) ∧
    (extra = [] → sources = [WeightedDAG.source dag]) ∧
    (extra ≠ [] → extra.*1 = sources ∧ (2 ≤ length sources)%nat) ∧
    Forall (λ e, P e.2) extra ∧
    (∀ u v d, (v, d) ∈ adj u Gint → P d) ∧
    Forall (λ x, snapshot_site x ≠ UndoIn ∧
                 (snapshot_site x = TryIn → snapshot_acyclic x)) trail ∧
    (∀ x, x ∈ trail → snapshot_acyclic x →
          ∀ a b, snapshot_edges x a b → has_edge (WeightedDAG.graph dag) a b).
Proof.
  intros HO Hit HP Hn.
  destruct (init_generated O P num_nodes edge_probability HO Hit HP Hn)
    as (dag & trail & Gint & extra & _ & Hrest).
  by exists dag, trail, Gint, extra.
Qed.

Lemma demo_oracle_iterates : iterates demo_oracle.
Proof. intros s. cbn. apply merge_sort_Permutation. Qed.

Lemma edge_duration_adj {V} `{EqDecision V} (G : DiGraph V) u v d :
  edge_duration G u v = inr d → (v, d) ∈ adj u G.
Proof.
  unfold edge_duration, adj. destruct (dict_get u G) as [a|]; [|done].
  destruct (dict_get v a) as [d'|] eqn:Hd; [|done].
  intros [= <-]. by apply dict_get_Some_elem.
Qed.

(** X1. For numNodes >= 1 the node list of the generated graph is the
    shuffled ordering under the names node_<i>, in that order, followed by
    "virtual" exactly when the resolved source is the virtual node.  So the
    nodes are node_0 ... node_(numNodes-1), with "virtual" when it is the
    source, and there are numNodes of them, or numNodes + 1. *)
Theorem X1_nodes_are_the_shuffled_labels O (num_nodes : Z) (edge_probability : Q) :
  shuffles O → iterates O → 1 ≤ num_nodes →
  ∃ dag trail,
    WeightedDAG.__init__ O num_nodes edge_probability = inr (dag, trail) ∧
    nodes (WeightedDAG.graph dag)
      = (node_label <$> shuffle O (seq 0 (Z.to_nat num_nodes)))
        ++ (if decide (WeightedDAG.source dag = "virtual") then ["virtual"] else []) ∧
    (∀ v, v ∈ nodes (WeightedDAG.graph dag) ↔
          (∃ i, (i < Z.to_nat num_nodes)%nat ∧ v = node_label i) ∨
          (v = "virtual" ∧ WeightedDAG.source dag = "virtual")) ∧
    length (nodes (WeightedDAG.graph dag))
      = (Z.to_nat num_nodes
         + (if decide (WeightedDAG.source dag = "virtual") then 1 else 0))%nat.
Proof.
  intros HO Hit Hn.
  destruct (init_more O (λ _, True) num_nodes edge_probability HO Hit) as
    (dag & trail & Gint & extra & Hrun & Hgood & Hwf & Hac & Hnodes & HG & Hsrc
     & Hone & Hmany & _); [done | done |].
  cbv zeta in HG, Hone, Hmany.
  exists dag, trail. split; [done|].
  assert (nodes (WeightedDAG.graph dag)
          = (node_label <$> shuffle O (seq 0 (Z.to_nat num_nodes)))
            ++ (if decide (WeightedDAG.source dag = "virtual") then ["virtual"] else []))
    as Heq.
  { rewrite HG. destruct extra as [|e extra].
    - rewrite decide_False by (rewrite Hsrc; auto).
      by rewrite app_nil_r, nodes_relabel, Hnodes.
    - rewrite decide_True by (by apply Hsrc).
      unfold nodes at 1. rewrite fmap_app. fold (nodes (relabel_nodes Gint node_label)).
      by rewrite nodes_relabel, Hnodes. }
  split_and!; [done | |].
  - intros v. rewrite Heq, elem_of_app, list_elem_of_fmap.
    assert (∀ i, i ∈ shuffle O (seq 0 (Z.to_nat num_nodes)) ↔ (i < Z.to_nat num_nodes)%nat)
      as Hin.
    { intros i. rewrite (HO _), elem_of_seq. lia. }
    split.
    + intros [(i & -> & Hi)|Hv].
      * left. exists i. split; [by apply Hin | done].
      * right. case_decide; [|by apply elem_of_nil in Hv].
        by apply list_elem_of_singleton in Hv.
    + intros [(i & Hi & ->)|[-> Hs]].
      * left. exists i. split; [done | by apply Hin].
      * right. rewrite decide_True by done. left.
  - rewrite Heq, length_app, length_fmap.
    destruct (shuffles_facts O (Z.to_nat num_nodes) HO) as [_ ->].
    by case_decide.
Qed.

Lemma X1_witness :
  ∃ dag trail,
    WeightedDAG.__init__ demo_oracle 3 (1 # 2) = inr (dag, trail) ∧
    nodes (WeightedDAG.graph dag)
      = (node_label <$> shuffle demo_oracle (seq 0 (Z.to_nat 3)))
        ++ (if decide (WeightedDAG.source dag = "virtual") then ["virtual"] else []) ∧
    (∀ v, v ∈ nodes (WeightedDAG.graph dag) ↔
          (∃ i, (i < Z.to_nat 3)%nat ∧ v = node_label i) ∨
          (v = "virtual" ∧ WeightedDAG.source dag = "virtual")) ∧
    length (nodes (WeightedDAG.graph dag))
      = (Z.to_nat 3
         + (if decide (WeightedDAG.source dag = "virtual") then 1 else 0))%nat.
Proof.
  apply X1_nodes_are_the_shuffled_labels;
    [apply demo_oracle_shuffles | apply demo_oracle_iterates | lia].
Defined.

(** X2. When random.randint(1, 10) keeps to its range, every edge of the
    generated graph, the virtual-source edges included, carries a duration
    between 1 and 10, and so does every triple of the adjacency schema. *)
Theorem X2_durations_between_1_and_10 O (num_nodes : Z) (edge_probability : Q) :
  shuffles O → iterates O → randint_in_range O → 1 ≤ num_nodes →
  ∃ dag trail,
    WeightedDAG.__init__ O num_nodes edge_probability = inr (dag, trail) ∧
    (∀ u v d, edge_duration (WeightedDAG.graph dag) u v = inr d → 1 ≤ d ≤ 10) ∧
    (∀ u v d, (u, v, d) ∈ schema_triples (WeightedDAG.schema dag) → 1 ≤ d ≤ 10).
Proof.
  intros HO Hit Hrange Hn.
  destruct (init_more O (λ d, 1 ≤ d ≤ 10) num_nodes edge_probability HO Hit Hrange Hn) as
    (dag & trail & Gint & extra & Hrun & Hgood & Hwf & Hac & Hnodes & HG & Hsrc
     & Hone & Hmany & Hextra & Hdur & _).
  cbv zeta in HG.
  destruct (init_spec O num_nodes edge_probability HO Hn)
    as (dag' & trail' & Hrun' & _ & _ & Hschema).
  rewrite Hrun in Hrun'. injection Hrun' as <- <-.
  assert ("virtual" ∉ nodes (relabel_nodes Gint node_label)) as Hv.
  { rewrite nodes_relabel. intros (i & Hi & _)%list_elem_of_fmap.
    by apply (node_label_not_virtual i). }
  assert (∀ u v d, edge_duration (WeightedDAG.graph dag) u v = inr d → 1 ≤ d ≤ 10) as Hall.
  { intros u v d Hd%edge_duration_adj. rewrite HG in Hd.
    rewrite (adj_with_virtual _ Hv) in Hd. case_decide.
    - rewrite Forall_forall in Hextra. apply (Hextra _ Hd).
    - apply elem_of_adj_relabel in Hd as (a & b & _ & _ & Hd); [|apply Hwf].
      by eapply Hdur. }
  exists dag, trail. split_and!; [done..|].
  intros u v d Hin. apply (Hall u v).
  destruct Hgood as (Hwfg & _).
  apply (elem_of_edges _ Hwfg). by rewrite <-schema_triples_nonempty, <-Hschema.
Qed.

Lemma X2_witness :
  ∃ dag trail,
    WeightedDAG.__init__ demo_oracle 3 (1 # 2) = inr (dag, trail) ∧
    (∀ u v d, edge_duration (WeightedDAG.graph dag) u v = inr d → 1 ≤ d ≤ 10) ∧
    (∀ u v d, (u, v, d) ∈ schema_triples (WeightedDAG.schema dag) → 1 ≤ d ≤ 10).
Proof.
  apply X2_durations_between_1_and_10;
    [apply demo_oracle_shuffles | apply demo_oracle_iterates | by intros k; cbn | lia].
Defined.

(** X3. During generation the second tentative edge of a repair attempt
    (line 55) is never rejected: every graph that the construction holds
    after line 55 is acyclic, and line 59, which would take the edge back, is
    never reached. *)
Theorem X3_second_tentative_edge_is_never_rejected
    O (num_nodes : Z) (edge_probability : Q) :
  shuffles O → iterates O → 1 ≤ num_nodes →
  ∃ dag trail,
    WeightedDAG.__init__ O num_nodes edge_probability = inr (dag, trail) ∧
    Forall (λ x, snapshot_site x ≠ UndoIn ∧
                 (snapshot_site x = TryIn → snapshot_acyclic x)) trail.
Proof.
  intros HO Hit Hn.
  destruct (init_more O (λ _, True) num_nodes edge_probability HO Hit) as
    (dag & trail & Gint & extra & Hrun & _ & _ & _ & _ & _ & _ & _ & _ & _ & _ & Hundo & _);
    [done | done |].
  by exists dag, trail.
Qed.

Lemma X3_witness :
  ∃ dag trail,
    WeightedDAG.__init__ demo_oracle 3 (1 # 2) = inr (dag, trail) ∧
    Forall (λ x, snapshot_site x ≠ UndoIn ∧
                 (snapshot_site x = TryIn → snapshot_acyclic x)) trail.
Proof.
  apply X3_second_tentative_edge_is_never_rejected;
    [apply demo_oracle_shuffles | apply demo_oracle_iterates | lia].
Defined.

(** X4. Generation never loses an edge that it has accepted: every edge
    of every acyclic graph that the construction passes through is an edge
    of the final graph.  Only an edge rejected at line 50 or 56 is ever
    removed. *)
Theorem X4_accepted_edges_are_never_lost O (num_nodes : Z) (edge_probability : Q) :
  shuffles O → iterates O → 1 ≤ num_nodes →
  ∃ dag trail,
    WeightedDAG.__init__ O num_nodes edge_probability = inr (dag, trail) ∧
    ∀ x, x ∈ trail → snapshot_acyclic x →
         ∀ a b, snapshot_edges x a b → has_edge (WeightedDAG.graph dag) a b.
Proof.
  intros HO Hit Hn.
  destruct (init_more O (λ _, True) num_nodes edge_probability HO Hit) as
    (dag & trail & Gint & extra & Hrun & _ & _ & _ & _ & _ & _ & _ & _ & _ & _ & _ & Hkept);
    [done | done |].
  by exists dag, trail.
Qed.

Lemma X4_witness :
  ∃ dag trail,
    WeightedDAG.__init__ demo_oracle 3 (1 # 2) = inr (dag, trail) ∧
    ∀ x, x ∈ trail → snapshot_acyclic x →
         ∀ a b, snapshot_edges x a b → has_edge (WeightedDAG.graph dag) a b.
Proof.
  apply X4_accepted_edges_are_never_lost;
    [apply demo_oracle_shuffles | apply demo_oracle_iterates | lia].
Defined.

(** X5. One repair attempt (lines 48-59) on a well-formed acyclic graph,
    for a node and a first candidate that are distinct nodes of the graph:
    the attempt succeeds with this candidate, whatever the other candidates
    are.  If the candidate does not reach the node, the edge node ->
    candidate is kept after one draw.  Otherwise that edge is added,
    rejected and removed again, which gives back the very same graph, and
    the edge candidate -> node is kept after a second draw. *)
Theorem X5_repair_attaches_by_the_first_candidate
    O (node target : nat) (rest : list nat) (s : Gen nat) :
  wf_graph (gen_graph s) → acyclic (gen_graph s) →
  node ∈ nodes (gen_graph s) → target ∈ nodes (gen_graph s) → node ≠ target →
  let G := gen_graph s in
  let G1 := add_edge node target (randint O (gen_draws s)) G in
  let G3 := add_edge target node (randint O (S (gen_draws s))) G in
  ∃ s',
    WeightedDAG.try_targets O node (target :: rest) s = inr (true, s') ∧
    wf_graph (gen_graph s') ∧ acyclic (gen_graph s') ∧
    ((¬ rtc (has_edge G) target node ∧
      s' = MkGen G1 (S (gen_draws s)) (gen_trail s ++ [IntGraph TryOut G1])) ∨
     (rtc (has_edge G) target node ∧
      remove_edge node target G1 = inr G ∧
      s' = MkGen G3 (S (S (gen_draws s)))
             (gen_trail s ++ [IntGraph TryOut G1; IntGraph UndoOut G; IntGraph TryIn G3]))).
Proof.
  intros Hwf Hac Hnode Htarget Hne G G1 G3.
  destruct (try_targets_first O node target rest s Hwf Hac Hnode Htarget Hne)
    as (s' & Hrun & Hwf' & Hac' & Hs').
  exists s'. split_and!; [done..|].
  destruct Hs' as [[Hno ->]|[Hpath ->]]; [by left|]. right. split_and!; [done | | done].
  apply remove_add_edge; [done..|].
  intros Hnt. apply (Hac node). eapply tc_rtc_r; [by apply tc_once | done].
Qed.

Lemma X5_witness :
  ∃ s',
    WeightedDAG.try_targets demo_oracle 1%nat [0%nat; 2%nat] two_step_state
      = inr (true, s') ∧
    wf_graph (gen_graph s') ∧ acyclic (gen_graph s') ∧
    ((¬ rtc (has_edge (gen_graph two_step_state)) 0%nat 1%nat ∧
      s' = MkGen (add_edge 1%nat 0%nat 5 (gen_graph two_step_state)) 1
             [IntGraph TryOut (add_edge 1%nat 0%nat 5 (gen_graph two_step_state))]) ∨
     (rtc (has_edge (gen_graph two_step_state)) 0%nat 1%nat ∧
      remove_edge 1%nat 0%nat (add_edge 1%nat 0%nat 5 (gen_graph two_step_state))
        = inr (gen_graph two_step_state) ∧
      s' = MkGen (add_edge 0%nat 1%nat 5 (gen_graph two_step_state)) 2
             [IntGraph TryOut (add_edge 1%nat 0%nat 5 (gen_graph two_step_state));
              IntGraph UndoOut (gen_graph two_step_state);
              IntGraph TryIn (add_edge 0%nat 1%nat 5 (gen_graph two_step_state))])).
Proof.
  apply (X5_repair_attaches_by_the_first_candidate demo_oracle 1%nat 0%nat [2%nat]
           two_step_state).
  - apply (bool_decide_unpack _). vm_compute. reflexivity.
  - apply is_directed_acyclic_graph_spec; [apply (bool_decide_unpack _)|];
      vm_compute; reflexivity.
  - apply (bool_decide_unpack _). vm_compute. reflexivity.
  - apply (bool_decide_unpack _). vm_compute. reflexivity.
  - lia.
Defined.

(** X6. [_get_source_node] on a non-empty well-formed acyclic graph that
    has no node named "virtual".  With exactly one node of in-degree 0 it
    returns that node and changes nothing: no draw, no mutation.  Otherwise
    there are at least two such nodes, it returns "virtual", and the graph
    gains one entry, "virtual", last, with one edge to each of them in node
    order; the durations are the next draws, one per edge. *)
Theorem X6_source_resolution O (G0 : DiGraph string) (draws : nat) (tr : list snapshot) :
  wf_graph G0 → acyclic G0 → nodes G0 ≠ [] → "virtual" ∉ nodes G0 →
  let sources := filter (λ n, in_degree n G0 = 0%nat) (nodes G0) in
  ∃ src s,
    WeightedDAG._get_source_node O (MkGen G0 draws tr) = inr (src, s) ∧
    match sources with
    | [s0] => src = s0 ∧ s = MkGen G0 draws tr
    | _ =>
        src = "virtual" ∧ (2 ≤ length sources)%nat ∧
        gen_graph s
          = G0 ++ [("virtual", zip sources (randint O <$> seq draws (length sources)))] ∧
        gen_draws s = (draws + length sources)%nat ∧
        length (gen_trail s) = (length tr + length sources)%nat
    end.
Proof.
  intros Hwf Hac Hne Hv sources.
  destruct (get_source_node_exact O G0 Hv draws tr Hwf Hac Hne) as (src & s & Hrun & Hcase).
  cbv zeta in Hcase. fold sources in Hcase.
  exists src, s. split; [done|].
  destruct sources as [|s0 [|s1 rest]].
  - destruct Hcase as (? & ? & ? & ? & tr' & Htr & Hlen & _).
    by rewrite Htr, length_app, Hlen.
  - done.
  - destruct Hcase as (? & ? & ? & ? & tr' & Htr & Hlen & _).
    by rewrite Htr, length_app, Hlen.
Qed.

Lemma X6_witness :
  ∃ src s,
    WeightedDAG._get_source_node demo_oracle (MkGen two_roots 4 []) = inr (src, s) ∧
    match filter (λ n, in_degree n two_roots = 0%nat) (nodes two_roots) with
    | [s0] => src = s0 ∧ s = MkGen two_roots 4 []
    | _ =>
        src = "virtual" ∧
        (2 ≤ length (filter (λ n, in_degree n two_roots = 0%nat) (nodes two_roots)))%nat ∧
        gen_graph s
          = two_roots ++
            [("virtual",
              zip (filter (λ n, in_degree n two_roots = 0%nat) (nodes two_roots))
                (randint demo_oracle <$>
                   seq 4 (length (filter (λ n, in_degree n two_roots = 0%nat)
                                    (nodes two_roots)))))] ∧
        gen_draws s
          = (4 + length (filter (λ n, in_degree n two_roots = 0%nat)
                           (nodes two_roots)))%nat ∧
        length (gen_trail s)
          = (length (@nil snapshot)
             + length (filter (λ n, in_degree n two_roots = 0%nat) (nodes two_roots)))%nat
    end.
Proof.
  apply (X6_source_resolution demo_oracle two_roots 4 []).
  - apply (bool_decide_unpack _). vm_compute. reflexivity.
  - apply is_directed_acyclic_graph_spec; [apply (bool_decide_unpack _)|];
      vm_compute; reflexivity.
  - discriminate.
  - apply (bool_decide_unpack _). vm_compute. reflexivity.
Defined.

(** ** The LangGraph schema *)

Lemma init_fields O (num_nodes : Z) (edge_probability : Q) dag trail :
  WeightedDAG.__init__ O num_nodes edge_probability = inr (dag, trail) →
  WeightedDAG.num_nodes dag = num_nodes ∧
  WeightedDAG.edge_probability dag = edge_probability ∧
  WeightedDAG._to_langgraph_schema (WeightedDAG.graph dag) (WeightedDAG.source dag)
    = inr (WeightedDAG.lang_schema dag) ∧
  WeightedDAG._to_schema (WeightedDAG.graph dag) = inr (WeightedDAG.schema dag).
Proof.
  unfold WeightedDAG.__init__. intros Hrun.
  destruct (WeightedDAG._generate_connected_dag _ _ _ _) as [|[G0 s1]]; [done|].
  destruct (WeightedDAG._get_source_node _ _) as [|[src s2]]; [done|].
  destruct (WeightedDAG._to_langgraph_schema _ _) as [|ls] eqn:Hls; [done|].
  destruct (WeightedDAG._to_schema _) as [|sch] eqn:Hsch; [done|].
  injection Hrun as <- <-. by cbn.
Qed.

Section lang_schema.
Context (G : DiGraph string) (Hwf : wf_graph G).

Lemma edge_pairs_fst : edge_pairs G = (edges G).*1.
Proof.
  unfold edge_pairs, edges. clear Hwf.
  induction G as [|[u a] G' IH]; [done|].
  cbn [mbind list_bind]. rewrite fmap_app, <-IH. f_equal.
  clear IH. induction a as [|[v d] a IHa]; [done|].
  cbn [mbind list_bind fmap list_fmap app]. cbn. by f_equal.
Qed.

Lemma edge_pairs_NoDup : NoDup (edge_pairs G).
Proof.
  rewrite edge_pairs_fst. apply NoDup_fmap_2_strong; [|by apply edges_NoDup].
  intros [[u v] d] [[u' v'] d'] Hin Hin' [= <- <-].
  apply (elem_of_edges G Hwf) in Hin, Hin'. congruence.
Qed.

Let fill_body : string * string → M (list (string * string * Z)) unit :=
  λ '(u, v),
    d ← WeightedDAG.lift (edge_duration G u v);
    durations ← get_state;
    put_state (dict_set (u, v) d durations).

Lemma fill_body_eq u v d acc :
  edge_duration G u v = inr d → fill_body (u, v) acc = inr (tt, dict_set (u, v) d acc).
Proof. intros Hd. unfold fill_body. rewrite M_bind_eq, Hd. done. Qed.

Lemma lang_fill (ts acc : list (string * string * Z)) :
  (∀ t, t ∈ ts → edge_duration G t.1.1 t.1.2 = inr t.2) →
  NoDup (acc.*1 ++ ts.*1) →
  for_ ts.*1 fill_body acc = inr (tt, acc ++ ts).
Proof.
  revert acc. induction ts as [|[[u v] d] ts IH]; intros acc Hdur Hnd.
  - by rewrite app_nil_r.
  - pose proof (Hdur (u, v, d) (list_elem_of_here _ _)) as Hd. cbn [fst snd] in Hd.
    cbn [fmap list_fmap for_ fst]. rewrite M_bind_eq, (fill_body_eq u v d) by done.
    rewrite dict_set_absent.
    + rewrite IH.
      * by rewrite <-app_assoc.
      * intros t Ht. apply Hdur. by right.
      * rewrite fmap_app. cbn. by rewrite <-app_assoc.
    + apply NoDup_app in Hnd as (_ & Hdisj & _). intros Hin.
      apply (Hdisj _ Hin). left.
Qed.

Lemma to_langgraph_schema_spec src :
  WeightedDAG._to_langgraph_schema G src
  = inr {| WeightedDAG.ls_nodes := nodes G;
           WeightedDAG.ls_edges := edge_pairs G;
           WeightedDAG.ls_durations := edges G;
           WeightedDAG.ls_source := src |}.
Proof.
  unfold WeightedDAG._to_langgraph_schema. fold fill_body.
  rewrite edge_pairs_fst at 1. rewrite lang_fill; [done | |].
  - intros [[u v] d] Hin. by apply (elem_of_edges G Hwf).
  - cbn [fmap list_fmap app]. rewrite <-edge_pairs_fst. apply edge_pairs_NoDup.
Qed.
End lang_schema.

(** X7. The LangGraph schema of a generated graph: its nodes are the
    graph's nodes, its source is the resolved source and is one of its
    nodes, its edges are the graph's edges, each once, its durations map
    each edge to the duration stored in the graph, with the keys in the
    order of the edge list, and the (edge, duration) pairs are the triples
    of the adjacency schema. *)
Theorem X7_langgraph_schema_lists_the_graph O (num_nodes : Z) (edge_probability : Q) :
  shuffles O → 1 ≤ num_nodes →
  ∃ dag trail,
    WeightedDAG.__init__ O num_nodes edge_probability = inr (dag, trail) ∧
    let ls := WeightedDAG.lang_schema dag in
    let G := WeightedDAG.graph dag in
    WeightedDAG.ls_nodes ls = nodes G ∧
    WeightedDAG.ls_source ls = WeightedDAG.source dag ∧
    WeightedDAG.ls_source ls ∈ WeightedDAG.ls_nodes ls ∧
    WeightedDAG.ls_edges ls = (WeightedDAG.ls_durations ls).*1 ∧
    NoDup (WeightedDAG.ls_edges ls) ∧
    (∀ u v, (u, v) ∈ WeightedDAG.ls_edges ls ↔ has_edge G u v) ∧
    (∀ u v d, dict_get (u, v) (WeightedDAG.ls_durations ls) = Some d
              ↔ edge_duration G u v = inr d) ∧
    WeightedDAG.ls_durations ls = schema_triples (WeightedDAG.schema dag).
Proof.
  intros HO Hn.
  destruct (init_spec O num_nodes edge_probability HO Hn)
    as (dag & trail & Hrun & Hgood & _ & Hschema).
  pose proof Hgood as (Hwf & _).
  destruct (init_fields _ _ _ _ _ Hrun) as (_ & _ & Hls & _).
  rewrite (to_langgraph_schema_spec _ Hwf) in Hls. injection Hls as Hls.
  exists dag, trail. split; [done|]. cbv zeta. rewrite <-Hls.
  cbn [WeightedDAG.ls_nodes WeightedDAG.ls_edges WeightedDAG.ls_durations
       WeightedDAG.ls_source].
  assert (NoDup (edges (WeightedDAG.graph dag)).*1) as Hnd.
  { rewrite <-edge_pairs_fst. by apply edge_pairs_NoDup. }
  split_and!.
  - done.
  - done.
  - by apply source_is_node.
  - apply edge_pairs_fst.
  - by apply edge_pairs_NoDup.
  - intros u v. by apply edge_pairs_elem.
  - intros u v d. rewrite <-(elem_of_edges _ Hwf). split.
    + apply dict_get_Some_elem.
    + by apply dict_get_elem.
  - by rewrite Hschema, schema_triples_nonempty.
Qed.

Lemma X7_witness :
  ∃ dag trail,
    WeightedDAG.__init__ demo_oracle 3 (1 # 2) = inr (dag, trail) ∧
    let ls := WeightedDAG.lang_schema dag in
    let G := WeightedDAG.graph dag in
    WeightedDAG.ls_nodes ls = nodes G ∧
    WeightedDAG.ls_source ls = WeightedDAG.source dag ∧
    WeightedDAG.ls_source ls ∈ WeightedDAG.ls_nodes ls ∧
    WeightedDAG.ls_edges ls = (WeightedDAG.ls_durations ls).*1 ∧
    NoDup (WeightedDAG.ls_edges ls) ∧
    (∀ u v, (u, v) ∈ WeightedDAG.ls_edges ls ↔ has_edge G u v) ∧
    (∀ u v d, dict_get (u, v) (WeightedDAG.ls_durations ls) = Some d
              ↔ edge_duration G u v = inr d) ∧
    WeightedDAG.ls_durations ls = schema_triples (WeightedDAG.schema dag).
Proof.
  apply X7_langgraph_schema_lists_the_graph; [apply demo_oracle_shuffles | lia].
Defined.

(** ** The executor: what each segment leaves alone *)

Lemma release_frame_refl l : release_frame l l.
Proof. unfold release_frame. split_and!; auto. Qed.

Lemma release_frame_trans l1 l2 l3 :
  release_frame l1 l2 → release_frame l2 l3 → release_frame l1 l3.
Proof.
  unfold release_frame.
  intros (? & ? & ? & ? & ? & ? & ? & ? & ? & ? & ? & H12)
         (? & ? & ? & ? & ? & ? & ? & ? & ? & ? & ? & H23).
  split_and!; try congruence.
  intros x [Hx|Hx]%H23; [by apply H12 | by right].
Qed.

Lemma release_successor_frame result succ l l1 :
  release_successor result succ l = inr (tt, l1) → release_frame l l1.
Proof.
  unfold release_successor. lsimpl.
  destruct (in_degrees (self l) !! succ) as [d|]; [|done]. lsimpl.
  rewrite lookup_insert_eq. lsimpl.
  case_decide; lsimpl; intros [= <-]; unfold release_frame; cbn; split_and!; auto.
  intros x [Hx| ->%list_elem_of_singleton]%elem_of_app; auto.
Qed.

Lemma release_loop_frame result succs l l1 :
  for_ succs (release_successor result) l = inr (tt, l1) → release_frame l l1.
Proof.
  revert l. induction succs as [|succ rest IH]; intros l.
  - intros [= <-]. apply release_frame_refl.
  - cbn [for_]. rewrite M_bind_eq.
    destruct (release_successor result succ l) as [|[[] l0]] eqn:Hone; [done|].
    intros Hrest. eapply release_frame_trans; [by eapply release_successor_frame|].
    by apply IH.
Qed.

Lemma begin_frame node now l l' :
  _run_node_task_begin node now l = inr (tt, l') →
  active_tasks (self l') = active_tasks (self l) + 1 ∧
  max_parallelism (self l')
    = Z.max (max_parallelism (self l)) (active_tasks (self l) + 1) ∧
  wall_start_time (self l') = wall_start_time (self l) ∧
  wall_end_time (self l') = wall_end_time (self l) ∧
  timings (self l') = timings (self l) ∧
  results (self l') = results (self l) ∧
  main l' = main l ∧ writes l' = writes l ∧
  ∃ d, calls l' = calls l ++ [(node, [], d)] ∧
       tasks l' = dict_set node (Awaiting now [] d) (tasks l).
Proof.
  unfold _run_node_task_begin. lsimpl.
  destruct (total_duration _ node) as [|d]; [done|].
  unfold WeightedDAG.lift. lsimpl. intros [= <-]. cbn. split_and!; try done.
  by exists d.
Qed.

Lemma resume_frame node o now l l' t0 i d :
  dict_get node (tasks l) = Some (Awaiting t0 i d) →
  fire (Resume node o now) l = inr (tt, l') →
  active_tasks (self l') = active_tasks (self l) - 1 ∧
  max_parallelism (self l') = max_parallelism (self l) ∧
  wall_start_time (self l') = wall_start_time (self l) ∧
  wall_end_time (self l') = wall_end_time (self l) ∧
  timings (self l') = <[node := (now - t0)%Q]> (timings (self l)) ∧
  results (self l') = <[node := result_of o]> (results (self l)) ∧
  calls l' = calls l ∧ writes l' = writes l ++ [node] ∧
  (main l' = main l ∨ (main l = AwaitSource ∧ main l' = Polling)) ∧
  ∀ x, x ∈ tasks l' → x ∈ tasks l ∨ x.2 = Created.
Proof.
  intros Hget. unfold fire. rewrite M_bind_eq. unfold get_state at 1. rewrite Hget.
  unfold _run_node_task_resume. fold (result_of o). lsimpl.
  match goal with
  | |- context [for_ ?succs (release_successor (result_of o)) ?l0] =>
      destruct (for_ succs (release_successor (result_of o)) l0) as [|[[] l1]] eqn:Hloop;
        [done|]; apply release_loop_frame in Hloop
  end.
  destruct Hloop as (Ha & Hm & Hs & He & Ht & Hr & Hd & Hl & Hmain & Hc & Hw & Htasks).
  cbn in Ha, Hm, Hs, He, Ht, Hr, Hd, Hl, Hmain, Hc, Hw, Htasks.
  case_decide as Hsrc; lsimpl; intros [= <-]; cbn;
    rewrite ?Ha, ?Hm, ?Hs, ?He, ?Ht, ?Hr, ?Hc, ?Hw; split_and!; try done.
  - right. by destruct Hsrc.
  - intros x Hx%elem_of_dict_del. by apply Htasks.
  - by left.
  - intros x Hx%elem_of_dict_del. by apply Htasks.
Qed.

Lemma poll_frame now l l' :
  poll now l = inr (tt, l') →
  active_tasks (self l') = active_tasks (self l) ∧
  max_parallelism (self l') = max_parallelism (self l) ∧
  wall_start_time (self l') = wall_start_time (self l) ∧
  timings (self l') = timings (self l) ∧
  results (self l') = results (self l) ∧
  calls l' = calls l ∧ writes l' = writes l ∧ tasks l' = tasks l ∧
  (l' = l ∨ (main l' = Finished ∧ wall_end_time (self l') = Some now)).
Proof.
  unfold poll. lsimpl. case_decide; lsimpl; intros [= <-]; cbn; split_and!; auto.
Qed.

(** ** The executor: counters and clocks *)

Lemma calls_writes_awaiting dag l :
  loop_inv dag l →
  length (calls l) = (length (writes l) + length (filter is_awaiting (tasks l)))%nat.
Proof.
  intros Hinv. pose proof (Permutation_length (inv_calls_split _ _ Hinv)) as Hlen.
  by rewrite !length_fmap, length_app, length_fmap in Hlen.
Qed.

Lemma counters_init dag now : counters_inv (run_begin dag now).
Proof. split; cbn; done. Qed.

Lemma finished_idle dag l ev :
  loop_inv dag l → enabled ev l → main l ≠ Finished.
Proof.
  intros Hinv [_ Hev] Hfin. destruct (inv_main_finished _ _ Hinv Hfin) as [Hnil _].
  destruct ev as [node now | node o now | now]; cbn in Hev.
  - by rewrite Hnil in Hev.
  - destruct Hev as (? & ? & ? & Hev). by rewrite Hnil in Hev.
  - by rewrite Hfin in Hev.
Qed.

Lemma counters_step dag l ev l' :
  good_dag dag → loop_inv dag l → counters_inv l → loop_step l ev l' → counters_inv l'.
Proof.
  intros Hgood Hinv Hcnt Hstep.
  pose proof (inv_step dag l ev l' Hgood Hinv Hstep) as Hinv'.
  pose proof (calls_writes_awaiting dag l Hinv) as Hlen.
  pose proof (calls_writes_awaiting dag l' Hinv') as Hlen'.
  pose proof (finished_idle dag l ev Hinv (proj1 Hstep)) as Hnf.
  destruct Hstep as [[_ Hen] Hfire]. destruct Hcnt.
  destruct ev as [node now | node o now | now]; cbn [fire] in Hfire.
  - apply begin_frame in Hfire
      as (Ha & Hm & Hs & He & _ & _ & Hmain & Hw & d & Hc & _).
    split; rewrite ?Ha, ?Hm, ?Hs, ?He, ?Hmain, ?Hw, ?Hc, ?length_app; cbn [length];
      try done; try lia.
  - destruct Hen as (t0 & i & d & Hget).
    apply (resume_frame _ _ _ _ _ _ _ _ Hget) in Hfire
      as (Ha & Hm & Hs & He & _ & _ & Hc & Hw & Hmain & _).
    rewrite Hc, Hw, length_app in Hlen'. cbn [length] in Hlen'.
    split; rewrite ?Ha, ?Hm, ?Hs, ?He, ?Hw, ?Hc, ?length_app; cbn [length];
      try done; try lia.
    rewrite cnt_wall_end0. destruct Hmain as [->|[Ha' ->]]; [done|].
    split; [done | intros _; by rewrite Ha'].
  - apply poll_frame in Hfire as (Ha & Hm & Hs & _ & _ & Hc & Hw & _ & Hcase).
    split; rewrite ?Ha, ?Hm, ?Hs, ?Hw, ?Hc; try done.
    destruct Hcase as [->|[-> ->]]; [done|]. split; [done | by intros []].
Qed.

Lemma counters_reachable dag now l :
  good_dag dag → loop_reachable (run_begin dag now) l → counters_inv l.
Proof.
  intros Hgood. induction 1 as [|l ev l' Hreach IH Hstep].
  - apply counters_init.
  - eapply counters_step; [done | by eapply inv_reachable | done..].
Qed.

Lemma time_init dag now : time_inv now now (run_begin dag now).
Proof.
  split; cbn; try done.
  - apply Qle_refl.
  - intros node t0 i d [[=]|[]%elem_of_nil]%elem_of_cons.
Qed.

Lemma time_step lo hi l ev l' :
  time_inv lo hi l → wall_end_time (self l) = None → (hi <= event_time ev)%Q →
  loop_step l ev l' → time_inv lo (event_time ev) l'.
Proof.
  intros [Hs Ho Haw Htm Hend] Hnone Hle [[_ Hen] Hfire].
  destruct ev as [node now | node o now | now]; cbn [fire event_time] in *.
  - apply begin_frame in Hfire
      as (_ & _ & Hs' & He' & Ht' & _ & _ & _ & d & _ & Htasks).
    split; rewrite ?Hs', ?He', ?Ht', ?Htasks; try done.
    + lra.
    + intros node' t0 i d' [[= _ <- _ _]|Hin]%elem_of_dict_set; [lra|].
      destruct (Haw _ _ _ _ Hin). lra.
    + intros v t Hv. destruct (Htm v t Hv). lra.
    + by rewrite Hnone.
  - destruct Hen as (t0 & i & d & Hget).
    apply (resume_frame _ _ _ _ _ _ _ _ Hget) in Hfire
      as (_ & _ & Hs' & He' & Ht' & _ & _ & _ & _ & Htasks).
    destruct (Haw node t0 i d) as [Hlo Hhi]; [by apply dict_get_Some_elem|].
    split; rewrite ?Hs', ?He', ?Ht'; try done.
    + lra.
    + intros node' t0' i' d' [Hin|[=]]%Htasks. destruct (Haw _ _ _ _ Hin). lra.
    + intros v t. destruct (decide (node = v)) as [->|Hne].
      * rewrite lookup_insert_eq. intros [= <-]. lra.
      * rewrite lookup_insert_ne by done. intros Hv. destruct (Htm v t Hv). lra.
    + by rewrite Hnone.
  - apply poll_frame in Hfire as (_ & _ & Hs' & Ht' & _ & _ & _ & Htasks & Hcase).
    split; rewrite ?Hs', ?Ht', ?Htasks; try done.
    + lra.
    + intros node' t0 i d' Hin. destruct (Haw _ _ _ _ Hin). lra.
    + intros v t Hv. destruct (Htm v t Hv). lra.
    + destruct Hcase as [->|[_ ->]]; [by rewrite Hnone | by intros e [= <-]].
Qed.

(** ** The executor: what [run] does at each step *)

Lemma next_event_enabled `{NodeExecutionStrategy} dag sch k l :
  good_dag dag → loop_inv dag l → main l ≠ Finished →
  enabled (next_event sch k l) l ∧ event_time (next_event sch k l) = clock sch k.
Proof.
  intros Hgood Hinv Hnf. unfold next_event.
  pose proof (inv_lock _ _ Hinv) as Hlock.
  destruct (tasks l !! (pick sch l mod length (tasks l))%nat) as [[node st]|] eqn:Hlk.
  - pose proof (task_lookup dag l _ node st Hinv Hlk) as Hget.
    destruct st as [|t0 i d]; (split; [split; [done|]|done]); cbn; eauto.
  - split; [|done]. split; [done|]. cbn.
    assert (tasks l = []) as Hidle.
    { apply lookup_ge_None in Hlk. destruct (tasks l) as [|t ts]; [done|].
      pose proof (Nat.mod_upper_bound (pick sch l) (length (t :: ts))) as Hub.
      cbn [length] in *. lia. }
    pose proof (idle_means_done dag l Hgood Hinv Hidle) as Hall.
    destruct (main l) eqn:Hm; [|done|done].
    apply (inv_main_await _ _ Hinv) in Hm. exfalso. apply Hm, Hall.
    by apply source_is_node.
Qed.

Lemma drive_invariant `{NodeExecutionStrategy} (I : nat → Loop → Prop) sch :
  (∀ k l l', I k l → main l ≠ Finished →
             fire (next_event sch k l) l = inr (tt, l') → I (S k) l') →
  ∀ fuel k l l', I k l → drive fuel sch k l = Some (inr l') →
                 ∃ k', (k ≤ k')%nat ∧ I k' l' ∧ main l' = Finished.
Proof.
  intros Hstep. induction fuel as [|fuel IH]; intros k l l' HI Hrun.
  - cbn in Hrun. destruct (main l) eqn:Hm; [done.. |]. injection Hrun as <-. eauto.
  - cbn [drive] in Hrun.
    destruct (decide (main l = Finished)) as [Hfin|Hnf].
    { rewrite Hfin in Hrun. injection Hrun as <-. eauto. }
    destruct (fire (next_event sch k l) l) as [e|[[] l1]] eqn:Hfire.
    { by destruct (main l). }
    assert (drive fuel sch (S k) l1 = Some (inr l')) as Hrest by (by destruct (main l)).
    destruct (IH (S k) l1 l') as (k' & Hk & HI' & Hfin'); [by eapply Hstep | done |].
    exists k'. split_and!; [lia | done..].
Qed.

(** Everything that holds of the state in which [run] returns. *)
Lemma run_invariants (E : NodeExecutionStrategy) dag sch fuel l :
  good_dag dag → monotonic (clock sch) →
  run fuel sch dag = Some (inr l) →
  ∃ k, main l = Finished ∧ loop_inv dag l ∧ counters_inv l ∧
       time_inv (clock sch 0) (clock sch k) l.
Proof.
  intros Hgood Hmono Hrun. unfold run in Hrun.
  destruct (drive_invariant
              (λ k l, loop_inv dag l ∧ counters_inv l ∧
                      time_inv (clock sch 0) (clock sch (pred k)) l) sch)
    with (fuel := fuel) (k := 1%nat) (l := run_begin dag (clock sch 0)) (l' := l)
    as (k' & _ & (Hinv & Hcnt & Htm) & Hfin); [| |done|].
  - intros k l0 l1 (Hinv & Hcnt & Htm) Hnf Hfire.
    destruct (next_event_enabled dag sch k l0 Hgood Hinv Hnf) as [Hen Htime].
    assert (loop_step l0 (next_event sch k l0) l1) as Hstep by done.
    split_and!.
    + by eapply inv_step.
    + by eapply counters_step.
    + cbn [pred]. rewrite <-Htime. eapply time_step; [done | | | done].
      * by apply (cnt_wall_end _ Hcnt).
      * rewrite Htime. apply Hmono. lia.
  - split_and!; [by apply inv_init | apply counters_init | apply time_init].
  - by exists (pred k').
Qed.

(** ** Metrics: the largest timing and the sum *)

Lemma foldl_py_max_spec (x : Q) (rest : list Q) :
  foldl py_max x rest ∈ x :: rest ∧
  ∀ t, t ∈ x :: rest → (t <= foldl py_max x rest)%Q.
Proof.
  revert x. induction rest as [|y rest IH]; intros x; cbn [foldl].
  - split; [left|]. intros t ->%list_elem_of_singleton. apply Qle_refl.
  - destruct (IH (py_max x y)) as [Hin Hmax]. split.
    + apply elem_of_cons in Hin as [Heq|Hin]; [|by do 2 right].
      rewrite Heq. unfold py_max. destruct (Qlt_le_dec x y); [right; left | left].
    + assert (x <= py_max x y)%Q as Hx
        by (unfold py_max; destruct (Qlt_le_dec x y); lra).
      assert (y <= py_max x y)%Q as Hy
        by (unfold py_max; destruct (Qlt_le_dec x y); lra).
      pose proof (Hmax (py_max x y) (list_elem_of_here _ _)) as Hm.
      intros t [->|[->|Ht]%elem_of_cons]%elem_of_cons; [lra | lra |].
      apply Hmax. by right.
Qed.

Lemma foldl_Qplus_bounds (c : Q) (ts : list Q) (a : Q) :
  (∀ t, t ∈ ts → (0 <= t)%Q ∧ (t <= c)%Q) →
  (a <= foldl Qplus a ts)%Q ∧
  (foldl Qplus a ts <= a + inject_Z (Z.of_nat (length ts)) * c)%Q.
Proof.
  revert a. induction ts as [|t ts IH]; intros a Hts; cbn [foldl length].
  - rewrite Qmult_0_l. lra.
  - destruct (Hts t) as [H0 Hc]; [left|].
    destruct (IH (a + t)%Q) as [Hlo Hhi]; [intros t' Ht'; apply Hts; by right|].
    rewrite Nat2Z.inj_succ. unfold Z.succ. rewrite inject_Z_plus.
    split; [lra|]. change (inject_Z 1) with 1%Q. lra.
Qed.

Lemma elem_of_timing_values (s : WorkflowExecutor.t) t :
  t ∈ (map_to_list (timings s)).*2 ↔ ∃ v, timings s !! v = Some t.
Proof.
  rewrite list_elem_of_fmap. split.
  - intros ([v t'] & -> & Hin%elem_of_map_to_list). by exists v.
  - intros [v Hv]. exists (v, t). split; [done|]. by apply elem_of_map_to_list.
Qed.

Lemma length_timing_values (s : WorkflowExecutor.t) :
  length (map_to_list (timings s)).*2 = size (timings s).
Proof. by rewrite length_fmap, length_map_to_list. Qed.

(** X8. In every state of a run, [active_tasks] is the number of
    coroutines suspended in their strategy call; it never exceeds
    [max_parallelism], which never exceeds the number of strategy calls made
    so far, itself at most the number of nodes.  When [run] returns,
    [active_tasks] is back to 0 and [max_parallelism] lies between 1 and the
    number of nodes. *)
Theorem X8_active_tasks_and_max_parallelism O (num_nodes : Z) (edge_probability : Q) :
  shuffles O → 1 ≤ num_nodes →
  ∃ dag trail,
    WeightedDAG.__init__ O num_nodes edge_probability = inr (dag, trail) ∧
    (∀ now l,
       loop_reachable (run_begin dag now) l →
       active_tasks (self l) = Z.of_nat (length (filter is_awaiting (tasks l))) ∧
       active_tasks (self l) ≤ max_parallelism (self l) ∧
       max_parallelism (self l) ≤ Z.of_nat (length (calls l)) ∧
       (length (calls l) ≤ length (nodes (WeightedDAG.graph dag)))%nat) ∧
    (∀ (E : NodeExecutionStrategy) sch fuel,
       (2 * length (nodes (WeightedDAG.graph dag)) + 1 ≤ fuel)%nat →
       ∃ l, @run E fuel sch dag = Some (inr l) ∧
            active_tasks (self l) = 0 ∧
            1 ≤ max_parallelism (self l) ≤
              Z.of_nat (length (nodes (WeightedDAG.graph dag)))).
Proof.
  intros HO Hn.
  destruct (init_spec O num_nodes edge_probability HO Hn)
    as (dag & trail & Hrun & Hgood & _).
  exists dag, trail. split; [done|].
  assert (∀ now l, loop_reachable (run_begin dag now) l →
            active_tasks (self l) = Z.of_nat (length (filter is_awaiting (tasks l))) ∧
            active_tasks (self l) ≤ max_parallelism (self l) ∧
            max_parallelism (self l) ≤ Z.of_nat (length (calls l)) ∧
            (length (calls l) ≤ length (nodes (WeightedDAG.graph dag)))%nat) as Hstate.
  { intros now l Hreach.
    pose proof (inv_reachable dag now l Hgood Hreach) as Hinv.
    destruct (counters_reachable dag now l Hgood Hreach) as [Ha Hlo Hhi _ _ _].
    pose proof (calls_writes_awaiting dag l Hinv) as Hlen.
    destruct (progress_bounds dag l Hgood Hinv) as [Hc _].
    split_and!; [lia | done..]. }
  split; [exact Hstate|].
  intros E sch fuel Hfuel.
  destruct (run_terminates E dag sch fuel Hgood Hfuel)
    as (l & Hl & Hreach & Hinv & Hfin & _).
  destruct (Hstate _ l Hreach) as (Ha & Hlo & Hhi & Hc).
  destruct (counters_reachable dag _ l Hgood Hreach) as [_ _ _ Hstarted _ _].
  destruct (finished_state dag l Hgood Hinv Hfin) as (Hidle & _ & _ & Hcalls & _).
  exists l. split; [done|]. rewrite Ha, Hidle. split; [done|].
  apply Permutation_length in Hcalls. rewrite !length_fmap in Hcalls.
  split; [|lia]. apply Hstarted. intros Hnil. rewrite Hnil in Hcalls. cbn in Hcalls.
  pose proof (source_is_node dag Hgood) as Hsrc.
  destruct (nodes (WeightedDAG.graph dag)); [by apply elem_of_nil in Hsrc | done].
Qed.

Lemma X8_witness :
  ∃ dag trail,
    WeightedDAG.__init__ demo_oracle 3 (1 # 2) = inr (dag, trail) ∧
    (∀ now l,
       loop_reachable (run_begin dag now) l →
       active_tasks (self l) = Z.of_nat (length (filter is_awaiting (tasks l))) ∧
       active_tasks (self l) ≤ max_parallelism (self l) ∧
       max_parallelism (self l) ≤ Z.of_nat (length (calls l)) ∧
       (length (calls l) ≤ length (nodes (WeightedDAG.graph dag)))%nat) ∧
    (∀ (E : NodeExecutionStrategy) sch fuel,
       (2 * length (nodes (WeightedDAG.graph dag)) + 1 ≤ fuel)%nat →
       ∃ l, @run E fuel sch dag = Some (inr l) ∧
            active_tasks (self l) = 0 ∧
            1 ≤ max_parallelism (self l) ≤
              Z.of_nat (length (nodes (WeightedDAG.graph dag)))).
Proof.
  apply X8_active_tasks_and_max_parallelism; [apply demo_oracle_shuffles | lia].
Defined.

(** X9. [get_performance_metrics] raises TypeError (None - None, line
    113) on an executor that has not run, and in every state of a run that
    has not returned; once [run] has returned it produces the metrics. *)
Theorem X9_metrics_raise_until_run_has_returned
    O (num_nodes : Z) (edge_probability : Q) :
  shuffles O → 1 ≤ num_nodes →
  ∃ dag trail,
    WeightedDAG.__init__ O num_nodes edge_probability = inr (dag, trail) ∧
    get_performance_metrics (WorkflowExecutor.__init__ dag) = inl TypeError ∧
    ∀ now l,
      loop_reachable (run_begin dag now) l →
      (get_performance_metrics (self l) = inl TypeError ↔ main l ≠ Finished) ∧
      (main l = Finished → ∃ m, get_performance_metrics (self l) = inr m).
Proof.
  intros HO Hn.
  destruct (init_spec O num_nodes edge_probability HO Hn)
    as (dag & trail & Hrun & Hgood & _).
  exists dag, trail. split_and!; [done | done |].
  intros now l Hreach.
  destruct (counters_reachable dag now l Hgood Hreach) as [_ _ _ _ [t0 Hs] He].
  unfold get_performance_metrics. rewrite Hs.
  destruct (wall_end_time (self l)) as [t1|].
  - assert (main l = Finished) as Hfin.
    { destruct (decide (main l = Finished)) as [|Hnf]; [done|].
      by apply He in Hnf. }
    split; [split; [done | by rewrite Hfin] | eauto].
  - assert (main l ≠ Finished) as Hnf by (by apply He).
    split; [done|]. by intros ?.
Qed.

Lemma X9_witness :
  ∃ dag trail,
    WeightedDAG.__init__ demo_oracle 3 (1 # 2) = inr (dag, trail) ∧
    get_performance_metrics (WorkflowExecutor.__init__ dag) = inl TypeError ∧
    ∀ now l,
      loop_reachable (run_begin dag now) l →
      (get_performance_metrics (self l) = inl TypeError ↔ main l ≠ Finished) ∧
      (main l = Finished → ∃ m, get_performance_metrics (self l) = inr m).
Proof.
  apply X9_metrics_raise_until_run_has_returned; [apply demo_oracle_shuffles | lia].
Defined.

(** X10. With a monotonic clock, after [run] has returned on a generated
    graph: every node's timing is non-negative and at most the wall time;
    so [critical_path], the largest timing, is at most the wall time,
    [sequential_time] lies between 0 and nodeCount times the wall time,
    [node_count] is the number of nodes and [max_parallelism] lies between 1
    and that number. *)
Theorem X10_timings_lie_within_the_wall_time
    O (num_nodes : Z) (edge_probability : Q) :
  shuffles O → 1 ≤ num_nodes →
  ∃ dag trail,
    WeightedDAG.__init__ O num_nodes edge_probability = inr (dag, trail) ∧
    ∀ (E : NodeExecutionStrategy) sch fuel,
      monotonic (clock sch) →
      (2 * length (nodes (WeightedDAG.graph dag)) + 1 ≤ fuel)%nat →
      ∃ l m,
        @run E fuel sch dag = Some (inr l) ∧
        get_performance_metrics (self l) = inr m ∧
        (0 <= wall_time m)%Q ∧
        (∀ v t, timings (self l) !! v = Some t → (0 <= t)%Q ∧ (t <= wall_time m)%Q) ∧
        (0 <= critical_path m)%Q ∧ (critical_path m <= wall_time m)%Q ∧
        (0 <= sequential_time m)%Q ∧
        (sequential_time m
         <= inject_Z (Z.of_nat (length (nodes (WeightedDAG.graph dag)))) * wall_time m)%Q ∧
        node_count m = length (nodes (WeightedDAG.graph dag)) ∧
        1 ≤ metrics_max_parallelism m ≤
          Z.of_nat (length (nodes (WeightedDAG.graph dag))).
Proof.
  intros HO Hn.
  destruct (init_spec O num_nodes edge_probability HO Hn)
    as (dag & trail & Hrun & Hgood & _).
  exists dag, trail. split; [done|]. intros E sch fuel Hmono Hfuel.
  destruct (run_terminates E dag sch fuel Hgood Hfuel)
    as (l & Hl & Hreach & Hinv & Hfin & _).
  destruct (run_invariants E dag sch fuel l Hgood Hmono Hl)
    as (k & _ & _ & Hcnt & [Hs Ho _ Htm Hend]).
  destruct (finished_state dag l Hgood Hinv Hfin) as (Hidle & _ & _ & Hcalls & _ & Hsize).
  destruct (wall_end_time (self l)) as [e|] eqn:He;
    [|by apply (cnt_wall_end _ Hcnt) in He].
  rewrite (Hend e eq_refl) in He.
  assert (calls l ≠ []) as Hcne.
  { intros Hnil. rewrite Hnil in Hcalls. apply Permutation_length in Hcalls.
    pose proof (source_is_node dag Hgood) as Hsrc.
    destruct (nodes (WeightedDAG.graph dag)); [by apply elem_of_nil in Hsrc | done]. }
  apply Permutation_length in Hcalls. rewrite !length_fmap in Hcalls.
  pose proof (cnt_max_started _ Hcnt Hcne) as Hmax1.
  pose proof (cnt_max_upper _ Hcnt) as Hmax2.
  exists l. unfold get_performance_metrics. rewrite Hs, He. eexists. split; [done|].
  split; [reflexivity|].
  cbn [wall_time sequential_time critical_path node_count metrics_max_parallelism].
  set (values := (map_to_list (timings (self l))).*2).
  assert (∀ t, t ∈ values → (0 <= t)%Q ∧ (t <= clock sch k - clock sch 0)%Q) as Hvals.
  { intros t [v Hv]%elem_of_timing_values. by apply (Htm v). }
  destruct (foldl_Qplus_bounds (clock sch k - clock sch 0) values 0 Hvals) as [Hlo Hhi].
  unfold values in Hhi. rewrite length_timing_values, Hsize in Hhi. fold values in Hhi.
  split_and!; [lra | done | | | done | lra | done | lia | lia].
  - destruct values as [|x rest] eqn:Hv; [lra|].
    destruct (foldl_py_max_spec x rest) as [Hin _]. by apply Hvals in Hin as [? _].
  - destruct values as [|x rest] eqn:Hv; [lra|].
    destruct (foldl_py_max_spec x rest) as [Hin _]. by apply Hvals in Hin as [_ ?].
Qed.

Lemma fifo_monotonic : monotonic (clock fifo).
Proof.
  intros i j Hij. cbn. rewrite <-Zle_Qle. lia.
Qed.

Lemma X10_witness :
  ∃ dag trail,
    WeightedDAG.__init__ demo_oracle 3 (1 # 2) = inr (dag, trail) ∧
    ∀ (E : NodeExecutionStrategy) sch fuel,
      monotonic (clock sch) →
      (2 * length (nodes (WeightedDAG.graph dag)) + 1 ≤ fuel)%nat →
      ∃ l m,
        @run E fuel sch dag = Some (inr l) ∧
        get_performance_metrics (self l) = inr m ∧
        (0 <= wall_time m)%Q ∧
        (∀ v t, timings (self l) !! v = Some t → (0 <= t)%Q ∧ (t <= wall_time m)%Q) ∧
        (0 <= critical_path m)%Q ∧ (critical_path m <= wall_time m)%Q ∧
        (0 <= sequential_time m)%Q ∧
        (sequential_time m
         <= inject_Z (Z.of_nat (length (nodes (WeightedDAG.graph dag)))) * wall_time m)%Q ∧
        node_count m = length (nodes (WeightedDAG.graph dag)) ∧
        1 ≤ metrics_max_parallelism m ≤
          Z.of_nat (length (nodes (WeightedDAG.graph dag))).
Proof.
  apply X10_timings_lie_within_the_wall_time; [apply demo_oracle_shuffles | lia].
Defined.

(** X11. [get_performance_metrics] on any executor whose two wall-clock
    fields are set: [node_count] is the number of timings and
    [max_parallelism] is the field of the executor; [critical_path] is the
    largest timing (it is one of them, and no timing exceeds it); with no
    timing at all [critical_path] and [sequential_time] are 0. *)
Theorem X11_critical_path_is_the_largest_timing
    (s : WorkflowExecutor.t) (wall_start wall_end : Q) :
  wall_start_time s = Some wall_start →
  wall_end_time s = Some wall_end →
  ∃ m, get_performance_metrics s = inr m ∧
       node_count m = size (timings s) ∧
       metrics_max_parallelism m = max_parallelism s ∧
       (∀ v t, timings s !! v = Some t → (t <= critical_path m)%Q) ∧
       (timings s = ∅ → critical_path m = 0%Q ∧ sequential_time m = 0%Q) ∧
       (timings s ≠ ∅ → ∃ v, timings s !! v = Some (critical_path m)).
Proof.
  intros Hs He. unfold get_performance_metrics. rewrite Hs, He.
  eexists. split; [reflexivity|].
  cbn [sequential_time critical_path node_count metrics_max_parallelism].
  set (values := (map_to_list (timings s)).*2).
  set (seq_time := foldl Qplus 0%Q values).
  split_and!; [done | done | | |].
  - intros v t Hv.
    assert (t ∈ values) as Hin by (apply elem_of_timing_values; eauto).
    destruct values as [|x rest]; [by apply elem_of_nil in Hin|].
    by apply foldl_py_max_spec.
  - intros Hempty. unfold seq_time, values. by rewrite Hempty, map_to_list_empty.
  - intros Hne. destruct values as [|x rest] eqn:Hv.
    + exfalso. apply Hne. apply map_to_list_empty_iff.
      unfold values in Hv. by apply fmap_nil_inv in Hv.
    + apply elem_of_timing_values. fold values. rewrite Hv.
      apply foldl_py_max_spec.
Qed.

Lemma X11_witness :
  ∃ m, get_performance_metrics chain_executor = inr m ∧
       node_count m = size (timings chain_executor) ∧
       metrics_max_parallelism m = max_parallelism chain_executor ∧
       (∀ v t, timings chain_executor !! v = Some t → (t <= critical_path m)%Q) ∧
       (timings chain_executor = ∅ → critical_path m = 0%Q ∧ sequential_time m = 0%Q) ∧
       (timings chain_executor ≠ ∅ →
        ∃ v, timings chain_executor !! v = Some (critical_path m)).
Proof.
  apply (X11_critical_path_is_the_largest_timing chain_executor 0 (3 # 1)); reflexivity.
Defined.

(** ** The executor: a node runs after its predecessors *)

Lemma before_app_l {A} (l k : list A) a b : before l a b → before (l ++ k) a b.
Proof.
  intros (i & j & Hij & Hi & Hj). exists i, j.
  split_and!; [done | by apply lookup_app_l_Some..].
Qed.

Lemma before_snoc {A} (l : list A) a b : a ∈ l → before (l ++ [b]) a b.
Proof.
  intros (i & Hi)%list_elem_of_lookup. exists i, (length l).
  pose proof (lookup_lt_Some _ _ _ Hi). split_and!; [done | by apply lookup_app_l_Some |].
  by rewrite lookup_app_r, Nat.sub_diag.
Qed.

(** The predecessors of a node whose coroutine exists have all recorded
    their results. *)
Lemma spawned_after_predecessors dag l u v :
  good_dag dag → loop_inv dag l → v ∈ spawned l →
  has_edge (WeightedDAG.graph dag) u v → u ∈ writes l.
Proof.
  intros (Hwf & _) Hinv Hv Huv.
  destruct (decide (u ∈ writes l)) as [|Hnw]; [done|]. exfalso.
  pose proof (inv_spawned_nodes _ _ Hinv v Hv) as Hvn.
  apply (inv_spawned_ready _ _ Hinv v Hvn) in Hv.
  assert (u ∈ pending_predecessors (WeightedDAG.graph dag) (writes l) v) as Hin
    by (apply pending_elem; [apply Hwf | done]).
  rewrite Hv in Hin. by apply elem_of_nil in Hin.
Qed.

Lemma called_is_spawned dag l v :
  loop_inv dag l → v ∈ (calls l).*1.*1 → v ∈ spawned l.
Proof.
  intros Hinv Hv. rewrite (inv_calls_split _ _ Hinv) in Hv.
  rewrite (inv_spawned_split _ _ Hinv).
  apply elem_of_app in Hv as [Hv|Hv]; apply elem_of_app; [by left | right].
  apply list_elem_of_fmap in Hv as (x & -> & [_ Hx]%list_elem_of_filter).
  by apply list_elem_of_fmap_2.
Qed.

Lemma written_is_called dag l v :
  loop_inv dag l → v ∈ writes l → v ∈ (calls l).*1.*1.
Proof.
  intros Hinv Hv. rewrite (inv_calls_split _ _ Hinv). apply elem_of_app. by left.
Qed.

Lemma task_is_spawned dag l v st :
  loop_inv dag l → dict_get v (tasks l) = Some st → v ∈ spawned l.
Proof.
  intros Hinv Hget. rewrite (inv_spawned_split _ _ Hinv). apply elem_of_app. right.
  apply dict_get_is_Some. eauto.
Qed.

Lemma order_step dag l ev l' :
  good_dag dag → loop_inv dag l → order_inv dag l → loop_step l ev l' →
  order_inv dag l'.
Proof.
  intros Hgood Hinv Hord [[_ Hen] Hfire] u v Huv.
  destruct (Hord u v Huv) as [Hw Hc].
  destruct ev as [node now | node o now | now]; cbn [fire] in Hfire.
  - pose proof (task_is_spawned dag l node _ Hinv Hen) as Hsp.
    apply begin_frame in Hfire as (_ & _ & _ & _ & _ & _ & _ & -> & d & -> & _).
    split; [done|]. rewrite !fmap_app. cbn [fmap list_fmap fst].
    destruct (decide (v ∈ (calls l).*1.*1)) as [Hv|Hv].
    + intros _. by apply before_app_l, Hc.
    + intros [?| ->%list_elem_of_singleton]%elem_of_app; [done|].
      apply before_snoc. eapply written_is_called; [done|].
      by eapply spawned_after_predecessors.
  - destruct Hen as (t0 & i & d & Hget).
    pose proof (task_is_spawned dag l node _ Hinv Hget) as Hsp.
    apply (resume_frame _ _ _ _ _ _ _ _ Hget) in Hfire
      as (_ & _ & _ & _ & _ & _ & -> & -> & _).
    split; [|done].
    destruct (decide (v ∈ writes l)) as [Hv|Hv].
    + intros _. by apply before_app_l, Hw.
    + intros [?| ->%list_elem_of_singleton]%elem_of_app; [done|].
      apply before_snoc. by eapply spawned_after_predecessors.
  - apply poll_frame in Hfire as (_ & _ & _ & _ & _ & -> & -> & _). by split.
Qed.

Lemma order_reachable dag now l :
  good_dag dag → loop_reachable (run_begin dag now) l → order_inv dag l.
Proof.
  intros Hgood. induction 1 as [|l ev l' Hreach IH Hstep].
  - intros u v _. cbn. split; by intros ?%elem_of_nil.
  - eapply order_step; [done | by eapply inv_reachable | done..].
Qed.

(** X12. The strategy is never called on a node before all the
    predecessors of the node have their results recorded.  When [run]
    returns, the order in which the results were written and the order in
    which the strategy calls were made both list the tail of every edge
    before its head. *)
Theorem X12_every_node_runs_after_its_predecessors
    O (num_nodes : Z) (edge_probability : Q) :
  shuffles O → 1 ≤ num_nodes →
  ∃ dag trail,
    WeightedDAG.__init__ O num_nodes edge_probability = inr (dag, trail) ∧
    (∀ now l,
       loop_reachable (run_begin dag now) l →
       ∀ node inputs duration u,
         (node, inputs, duration) ∈ calls l →
         has_edge (WeightedDAG.graph dag) u node →
         is_Some (results (self l) !! u)) ∧
    (∀ (E : NodeExecutionStrategy) sch fuel,
       (2 * length (nodes (WeightedDAG.graph dag)) + 1 ≤ fuel)%nat →
       ∃ l, @run E fuel sch dag = Some (inr l) ∧
            ∀ u v, has_edge (WeightedDAG.graph dag) u v →
                   before (writes l) u v ∧ before ((calls l).*1.*1) u v).
Proof.
  intros HO Hn.
  destruct (init_spec O num_nodes edge_probability HO Hn)
    as (dag & trail & Hrun & Hgood & _).
  exists dag, trail. split; [done|]. split.
  - intros now l Hreach node inputs duration u Hcall Huv.
    pose proof (inv_reachable dag now l Hgood Hreach) as Hinv.
    apply (inv_results _ _ Hinv).
    eapply spawned_after_predecessors; [done | done | | exact Huv].
    apply (called_is_spawned dag); [done|].
    apply list_elem_of_fmap. exists (node, inputs). split; [done|].
    apply list_elem_of_fmap. by exists (node, inputs, duration).
  - intros E sch fuel Hfuel.
    destruct (run_terminates E dag sch fuel Hgood Hfuel)
      as (l & Hl & Hreach & Hinv & Hfin & _).
    exists l. split; [done|]. intros u v Huv.
    destruct (order_reachable dag _ l Hgood Hreach u v Huv) as [Hw Hc].
    destruct (inv_main_finished _ _ Hinv Hfin) as [_ Hall].
    assert (v ∈ writes l) as Hv.
    { apply Hall. eapply has_edge_target_node; [apply Hgood | done]. }
    split; [by apply Hw | by apply Hc, (written_is_called dag)].
Qed.

Lemma X12_witness :
  ∃ dag trail,
    WeightedDAG.__init__ demo_oracle 3 (1 # 2) = inr (dag, trail) ∧
    (∀ now l,
       loop_reachable (run_begin dag now) l →
       ∀ node inputs duration u,
         (node, inputs, duration) ∈ calls l →
         has_edge (WeightedDAG.graph dag) u node →
         is_Some (results (self l) !! u)) ∧
    (∀ (E : NodeExecutionStrategy) sch fuel,
       (2 * length (nodes (WeightedDAG.graph dag)) + 1 ≤ fuel)%nat →
       ∃ l, @run E fuel sch dag = Some (inr l) ∧
            ∀ u v, has_edge (WeightedDAG.graph dag) u v →
                   before (writes l) u v ∧ before ((calls l).*1.*1) u v).
Proof.
  apply X12_every_node_runs_after_its_predecessors; [apply demo_oracle_shuffles | lia].
Defined.

(** ** The executor: the in-degree counters *)

Lemma initial_in_degrees dag v :
  NoDup (nodes (WeightedDAG.graph dag)) → v ∈ nodes (WeightedDAG.graph dag) →
  in_degrees (WorkflowExecutor.__init__ dag) !! v
  = Some (Z.of_nat (in_degree v (WeightedDAG.graph dag))).
Proof.
  intros Hnd Hv. cbn [WorkflowExecutor.__init__ in_degrees].
  apply elem_of_list_to_map.
  - by rewrite fmap_fst_pair.
  - apply list_elem_of_fmap. by exists v.
Qed.

(** X13. [in_degrees] starts as the in-degree of every node; in every
    state of a run, [in_degrees[v]] is the number of predecessors of v that
    have no recorded result, so it is never negative and never above the
    in-degree; when [run] returns, every counter is 0. *)
Theorem X13_in_degrees_count_the_unfinished_predecessors
    O (num_nodes : Z) (edge_probability : Q) :
  shuffles O → 1 ≤ num_nodes →
  ∃ dag trail,
    WeightedDAG.__init__ O num_nodes edge_probability = inr (dag, trail) ∧
    let G := WeightedDAG.graph dag in
    (∀ v, v ∈ nodes G →
          in_degrees (WorkflowExecutor.__init__ dag) !! v = Some (Z.of_nat (in_degree v G))) ∧
    (∀ now l v,
       loop_reachable (run_begin dag now) l → v ∈ nodes G →
       ∃ k : nat,
         in_degrees (self l) !! v = Some (Z.of_nat k) ∧
         k = length (filter (λ u, results (self l) !! u = None) (predecessors v G)) ∧
         (k ≤ in_degree v G)%nat) ∧
    (∀ (E : NodeExecutionStrategy) sch fuel,
       (2 * length (nodes G) + 1 ≤ fuel)%nat →
       ∃ l, @run E fuel sch dag = Some (inr l) ∧
            ∀ v, v ∈ nodes G → in_degrees (self l) !! v = Some 0).
Proof.
  intros HO Hn.
  destruct (init_spec O num_nodes edge_probability HO Hn)
    as (dag & trail & Hrun & Hgood & _).
  exists dag, trail. split; [done|]. cbv zeta. split_and!.
  - intros v Hv. apply initial_in_degrees; [apply Hgood | done].
  - intros now l v Hreach Hv.
    pose proof (inv_reachable dag now l Hgood Hreach) as Hinv.
    eexists. split; [by apply (inv_in_degrees _ _ Hinv)|].
    unfold pending_predecessors.
    rewrite (filter_ext_in (λ u, u ∉ writes l) (λ u, results (self l) !! u = None)).
    + split; [done|]. apply length_filter.
    + intros u _. rewrite <-(inv_results _ _ Hinv), eq_None_not_Some. done.
  - intros E sch fuel Hfuel.
    destruct (run_terminates E dag sch fuel Hgood Hfuel)
      as (l & Hl & Hreach & Hinv & Hfin & _).
    exists l. split; [done|]. intros v Hv. by apply (final_in_degrees dag).
Qed.

Lemma X13_witness :
  ∃ dag trail,
    WeightedDAG.__init__ demo_oracle 3 (1 # 2) = inr (dag, trail) ∧
    let G := WeightedDAG.graph dag in
    (∀ v, v ∈ nodes G →
          in_degrees (WorkflowExecutor.__init__ dag) !! v = Some (Z.of_nat (in_degree v G))) ∧
    (∀ now l v,
       loop_reachable (run_begin dag now) l → v ∈ nodes G →
       ∃ k : nat,
         in_degrees (self l) !! v = Some (Z.of_nat k) ∧
         k = length (filter (λ u, results (self l) !! u = None) (predecessors v G)) ∧
         (k ≤ in_degree v G)%nat) ∧
    (∀ (E : NodeExecutionStrategy) sch fuel,
       (2 * length (nodes G) + 1 ≤ fuel)%nat →
       ∃ l, @run E fuel sch dag = Some (inr l) ∧
            ∀ v, v ∈ nodes G → in_degrees (self l) !! v = Some 0).
Proof.
  apply X13_in_degrees_count_the_unfinished_predecessors;
    [apply demo_oracle_shuffles | lia].
Defined.

(** ** The executor: the inputs collected for each node *)

Lemma omap_ext_in {A B} (f g : A → option B) (l : list A) :
  (∀ x, x ∈ l → f x = g x) → omap f l = omap g l.
Proof.
  induction l as [|x l IH]; intros Hext; [done|].
  cbn [omap list_omap]. rewrite (Hext x) by left.
  rewrite IH; [done|]. intros y Hy. apply Hext. by right.
Qed.

Lemma omap_snoc {A B} (f : A → option B) (l : list A) x y :
  f x = Some y → omap f (l ++ [x]) = omap f l ++ [y].
Proof.
  intros Hx. induction l as [|z l IH]; cbn [app omap list_omap].
  - cbn. by rewrite Hx.
  - rewrite IH. by destruct (f z).
Qed.

Lemma inputs_step dag l ev l' :
  good_dag dag → loop_inv dag l → inputs_inv dag l → loop_step l ev l' →
  inputs_inv dag l'.
Proof.
  intros Hgood Hinv Hin [[_ Hen] Hfire].
  destruct ev as [node now | node o now | now].
  - destruct (begin_step dag l node now Hgood Hinv Hen)
      as (l'' & Hfire' & _ & _ & _ & Hw & _ & _ & Hr & _ & Hci).
    cbn [fire] in Hfire. rewrite Hfire in Hfire'. injection Hfire' as <-.
    intros v. by rewrite Hci, Hw, Hr.
  - destruct Hen as (t0 & i & d & Hget).
    destruct (resume_step dag l node t0 i d o now Hgood Hinv Hget)
      as (l'' & Hfire' & Hinv' & Hw & _ & Hr & _ & _ & _ & Hci).
    rewrite Hfire in Hfire'. injection Hfire' as <-.
    pose proof (writes_NoDup dag l' Hinv') as Hnd. rewrite Hw in Hnd.
    apply NoDup_app in Hnd as (_ & Hdisj & _).
    assert (node ∉ writes l) as Hnew.
    { intros Hin'. apply (Hdisj node Hin'). left. }
    intros v. rewrite Hci, Hw, Hr. unfold arrived. rewrite filter_app.
    fold (arrived (WeightedDAG.graph dag) (writes l) v).
    assert (omap (λ u, <[node := result_of o]> (results (self l)) !! u)
              (arrived (WeightedDAG.graph dag) (writes l) v)
            = omap (λ u, results (self l) !! u)
                (arrived (WeightedDAG.graph dag) (writes l) v)) as Hsame.
    { apply omap_ext_in. intros u [_ Hu]%list_elem_of_filter.
      apply lookup_insert_ne. by intros ->. }
    specialize (Hin v).
    destruct (decide (v ∈ successors node (WeightedDAG.graph dag))) as [Hs|Hs].
    + rewrite filter_cons_True by exact Hs. rewrite filter_nil.
      rewrite Hin.
      destruct (arrived (WeightedDAG.graph dag) (writes l) v) as [|u us] eqn:Harr.
      * cbn. by rewrite lookup_insert_eq.
      * rewrite <-Harr in *. cbn [default from_option id].
        transitivity (Some (omap (λ u0, <[node:=result_of o]> (results (self l)) !! u0)
                              (arrived (WeightedDAG.graph dag) (writes l) v ++ [node])));
          [|by destruct (arrived (WeightedDAG.graph dag) (writes l) v)].
        rewrite (omap_snoc _ _ node (result_of o)) by apply lookup_insert_eq.
        by rewrite Hsame.
    + rewrite filter_cons_False by exact Hs. rewrite filter_nil, app_nil_r.
      rewrite Hin.
      destruct (arrived (WeightedDAG.graph dag) (writes l) v) as [|u us]; [done|].
      by rewrite Hsame.
  - destruct (poll_step dag l now Hgood Hinv Hen)
      as (l'' & Hfire' & _ & _ & _ & Hw & _ & Hr & _ & Hci & _).
    cbn [fire] in Hfire. rewrite Hfire in Hfire'. injection Hfire' as <-.
    intros v. by rewrite Hci, Hw, Hr.
Qed.

Lemma inputs_reachable dag now l :
  good_dag dag → loop_reachable (run_begin dag now) l → inputs_inv dag l.
Proof.
  intros Hgood. induction 1 as [|l ev l' Hreach IH Hstep].
  - intros v. cbn. apply lookup_empty.
  - eapply inputs_step; [done | by eapply inv_reachable | done..].
Qed.

Lemma arrived_all (G : DiGraph string) (done : list string) v :
  wf_graph G → done ≡ₚ nodes G → arrived G done v ≡ₚ predecessors v G.
Proof.
  intros Hwf Hperm. apply NoDup_Permutation.
  - apply NoDup_filter. rewrite Hperm. apply Hwf.
  - apply predecessors_NoDup, Hwf.
  - intros u. unfold arrived. rewrite list_elem_of_filter, Hperm.
    rewrite elem_of_predecessors by apply Hwf. split; [by intros [? _]|].
    intros Huv. split; [done|]. by eapply has_edge_source_node.
Qed.

(** X14. When [run] returns, [child_inputs[v]] holds, for every node v,
    the results of the predecessors of v, one for each, in the order in
    which they finished; the source has no entry at all. *)
Theorem X14_child_inputs_hold_the_predecessors_results
    O (num_nodes : Z) (edge_probability : Q) :
  shuffles O → 1 ≤ num_nodes →
  ∃ dag trail,
    WeightedDAG.__init__ O num_nodes edge_probability = inr (dag, trail) ∧
    let G := WeightedDAG.graph dag in
    ∀ (E : NodeExecutionStrategy) sch fuel,
      (2 * length (nodes G) + 1 ≤ fuel)%nat →
      ∃ l, @run E fuel sch dag = Some (inr l) ∧
           child_inputs (self l) !! WeightedDAG.source dag = None ∧
           ∀ v, v ∈ nodes G →
                arrived G (writes l) v ≡ₚ predecessors v G ∧
                default [] (child_inputs (self l) !! v)
                = (λ u, result_of (execute u [] (incoming_duration G u)))
                    <$> arrived G (writes l) v.
Proof.
  intros HO Hn.
  destruct (init_spec O num_nodes edge_probability HO Hn)
    as (dag & trail & Hrun & Hgood & _).
  exists dag, trail. split; [done|]. cbv zeta. intros E sch fuel Hfuel.
  destruct (run_terminates E dag sch fuel Hgood Hfuel)
    as (l & Hl & Hreach & Hinv & Hfin & Hres).
  pose proof (inputs_reachable dag _ l Hgood Hreach) as Hin.
  destruct (finished_state dag l Hgood Hinv Hfin) as (_ & Hw & _).
  pose proof Hgood as (Hwf & _ & Huniq & _).
  assert (∀ v, arrived (WeightedDAG.graph dag) (writes l) v
               ≡ₚ predecessors v (WeightedDAG.graph dag)) as Harr
    by (intros v; by apply arrived_all).
  exists l. split_and!; [done | |].
  - rewrite Hin.
    assert (predecessors (WeightedDAG.source dag) (WeightedDAG.graph dag) = []) as Hnil.
    { apply length_zero_iff_nil.
      assert (WeightedDAG.source dag ∈
                filter (λ n, in_degree n (WeightedDAG.graph dag) = 0%nat)
                  (nodes (WeightedDAG.graph dag))) as Hs by (rewrite Huniq; left).
      by apply list_elem_of_filter in Hs as [? _]. }
    pose proof (Harr (WeightedDAG.source dag)) as Hp. rewrite Hnil in Hp.
    apply Permutation_nil_r in Hp. by rewrite Hp.
  - intros v Hv. split; [done|]. rewrite Hin.
    assert (∀ us : list string, (∀ u, u ∈ us → u ∈ writes l) →
              omap (λ u, results (self l) !! u) us
              = (λ u, result_of (execute u []
                                   (incoming_duration (WeightedDAG.graph dag) u))) <$> us)
      as Hom.
    { induction us as [|u us IH]; intros Hus; [done|].
      cbn [omap list_omap fmap list_fmap].
      destruct (proj2 (inv_results _ _ Hinv u) (Hus u (list_elem_of_here _ _)))
        as [r Hr].
      rewrite Hr, (Hres u r Hr). cbn. f_equal. apply IH.
      intros u' Hu'. apply Hus. by right. }
    destruct (arrived (WeightedDAG.graph dag) (writes l) v) as [|u us] eqn:Hav; [done|].
    cbn [default from_option id]. apply Hom.
    intros u' Hu'. rewrite <-Hav in Hu'. by apply list_elem_of_filter in Hu' as [_ ?].
Qed.

Lemma X14_witness :
  ∃ dag trail,
    WeightedDAG.__init__ demo_oracle 3 (1 # 2) = inr (dag, trail) ∧
    let G := WeightedDAG.graph dag in
    ∀ (E : NodeExecutionStrategy) sch fuel,
      (2 * length (nodes G) + 1 ≤ fuel)%nat →
      ∃ l, @run E fuel sch dag = Some (inr l) ∧
           child_inputs (self l) !! WeightedDAG.source dag = None ∧
           ∀ v, v ∈ nodes G →
                arrived G (writes l) v ≡ₚ predecessors v G ∧
                default [] (child_inputs (self l) !! v)
                = (λ u, result_of (execute u [] (incoming_duration G u)))
                    <$> arrived G (writes l) v.
Proof.
  apply X14_child_inputs_hold_the_predecessors_results;
    [apply demo_oracle_shuffles | lia].
Defined.

(** ** The two strategies under the executor *)

(** X15. Under [DurationSleepStrategy] every run of a generated graph
    ends with results[v] = "<v>_result(init_<v>)" for every node v, also for
    a node that has predecessors. *)
Theorem X15_sleep_strategy_results O (num_nodes : Z) (edge_probability : Q) :
  shuffles O → 1 ≤ num_nodes →
  ∃ dag trail,
    WeightedDAG.__init__ O num_nodes edge_probability = inr (dag, trail) ∧
    ∀ sch fuel,
      (2 * length (nodes (WeightedDAG.graph dag)) + 1 ≤ fuel)%nat →
      ∃ l, @run DurationSleepStrategy fuel sch dag = Some (inr l) ∧
           ∀ v, v ∈ nodes (WeightedDAG.graph dag) →
                results (self l) !! v = Some (v +:+ "_result(" +:+ ("init_" +:+ v) +:+ ")").
Proof.
  intros HO Hn.
  destruct (init_spec O num_nodes edge_probability HO Hn)
    as (dag & trail & Hrun & Hgood & _).
  exists dag, trail. split; [done|]. intros sch fuel Hfuel.
  destruct (run_terminates DurationSleepStrategy dag sch fuel Hgood Hfuel)
    as (l & Hl & _ & Hinv & Hfin & Hres).
  exists l. split; [done|]. intros v Hv.
  by destruct (final_results DurationSleepStrategy dag l v Hgood Hinv Hfin Hres Hv)
    as [-> _].
Qed.

Lemma X15_witness :
  ∃ dag trail,
    WeightedDAG.__init__ demo_oracle 3 (1 # 2) = inr (dag, trail) ∧
    ∀ sch fuel,
      (2 * length (nodes (WeightedDAG.graph dag)) + 1 ≤ fuel)%nat →
      ∃ l, @run DurationSleepStrategy fuel sch dag = Some (inr l) ∧
           ∀ v, v ∈ nodes (WeightedDAG.graph dag) →
                results (self l) !! v = Some (v +:+ "_result(" +:+ ("init_" +:+ v) +:+ ")").
Proof.
  apply X15_sleep_strategy_results; [apply demo_oracle_shuffles | lia].
Defined.

(** X16. Under [LLMStrategy(llm)] every run of a generated graph ends
    with results[v], for every node v, equal to what llm._call returns on
    the prompt "Node <v> - process: init_<v>", or to "ERROR: " followed by
    the message when that call raises. *)
Theorem X16_llm_strategy_prompts O (num_nodes : Z) (edge_probability : Q) :
  shuffles O → 1 ≤ num_nodes →
  ∃ dag trail,
    WeightedDAG.__init__ O num_nodes edge_probability = inr (dag, trail) ∧
    ∀ (llm_call : string → outcome) sch fuel,
      (2 * length (nodes (WeightedDAG.graph dag)) + 1 ≤ fuel)%nat →
      ∃ l, @run (LLMStrategy llm_call) fuel sch dag = Some (inr l) ∧
           ∀ v, v ∈ nodes (WeightedDAG.graph dag) →
                let prompt := "Node " +:+ v +:+ " - process: " +:+ ("init_" +:+ v) in
                results (self l) !! v = Some (result_of (llm_call prompt)) ∧
                (∀ msg, llm_call prompt = Raise msg →
                        results (self l) !! v = Some ("ERROR: " +:+ msg)).
Proof.
  intros HO Hn.
  destruct (init_spec O num_nodes edge_probability HO Hn)
    as (dag & trail & Hrun & Hgood & _).
  exists dag, trail. split; [done|]. intros llm_call sch fuel Hfuel.
  destruct (run_terminates (LLMStrategy llm_call) dag sch fuel Hgood Hfuel)
    as (l & Hl & _ & Hinv & Hfin & Hres).
  exists l. split; [done|]. intros v Hv prompt.
  destruct (final_results (LLMStrategy llm_call) dag l v Hgood Hinv Hfin Hres Hv)
    as [-> _].
  split; [done|]. intros msg Hmsg. unfold execute, LLMStrategy. fold prompt.
  by rewrite Hmsg.
Qed.

Lemma X16_witness :
  ∃ dag trail,
    WeightedDAG.__init__ demo_oracle 3 (1 # 2) = inr (dag, trail) ∧
    ∀ (llm_call : string → outcome) sch fuel,
      (2 * length (nodes (WeightedDAG.graph dag)) + 1 ≤ fuel)%nat →
      ∃ l, @run (LLMStrategy llm_call) fuel sch dag = Some (inr l) ∧
           ∀ v, v ∈ nodes (WeightedDAG.graph dag) →
                let prompt := "Node " +:+ v +:+ " - process: " +:+ ("init_" +:+ v) in
                results (self l) !! v = Some (result_of (llm_call prompt)) ∧
                (∀ msg, llm_call prompt = Raise msg →
                        results (self l) !! v = Some ("ERROR: " +:+ msg)).
Proof.
  apply X16_llm_strategy_prompts; [apply demo_oracle_shuffles | lia].
Defined.

(** ** The executor on a graph with a node that the source does not reach *)

Section unreachable_node.
Context (dag : WeightedDAG.t).
Let G := WeightedDAG.graph dag.
Context (Hwf : wf_graph G) (Hsrc : WeightedDAG.source dag ∈ nodes G).
Context (x : string) (Hx : x ∈ nodes G).
Context (Hfar : ¬ rtc (has_edge G) (WeightedDAG.source dag) x).

Lemma stuck_init now : stuck_inv dag (run_begin dag now).
Proof.
  split.
  - done.
  - intros v Hv.
    change (in_degrees (self (run_begin dag now)))
      with (in_degrees (WorkflowExecutor.__init__ dag)).
    rewrite initial_in_degrees; [eauto | apply Hwf | done].
  - intros v [? Hv]. cbn in Hv. by rewrite lookup_empty in Hv.
  - intros y ->%list_elem_of_singleton. done.
  - done.
Qed.

Lemma stuck_size l : stuck_inv dag l → (size (results (self l)) < length (nodes G))%nat.
Proof.
  intros [_ _ Hres _ _].
  assert (dom (results (self l)) ⊆ list_to_set (nodes G) ∖ ({[x]} : gset string)) as Hsub.
  { intros v Hv%elem_of_dom. destruct (Hres v Hv) as [Hn Hr].
    apply elem_of_difference. split; [by apply elem_of_list_to_set|].
    intros ->%elem_of_singleton. done. }
  apply subseteq_size in Hsub. rewrite size_dom in Hsub.
  assert (size (list_to_set (nodes G) ∖ ({[x]} : gset string)) < length (nodes G))%nat;
    [|lia].
  rewrite <-(size_list_to_set (C := gset string) (nodes G)) by apply Hwf.
  apply subset_size. apply subset_difference_elem_of. by apply elem_of_list_to_set.
Qed.

Lemma stuck_step `{NodeExecutionStrategy} sch k l :
  stuck_inv dag l →
  ∃ l', fire (next_event sch k l) l = inr (tt, l') ∧ stuck_inv dag l'.
Proof.
  intros Hst. pose proof Hst as [Hdag Hdeg Hres Htasks Hmain].
  pose proof Hwf as (Hnd & Hsnd & Hcl)%wf_graph_alt.
  unfold next_event.
  destruct (tasks l !! (pick sch l mod length (tasks l))%nat) as [[node st]|] eqn:Hlk.
  - apply list_elem_of_lookup_2 in Hlk. destruct (Htasks _ Hlk) as [Hnode Hreach].
    cbn [fst] in Hnode, Hreach. destruct st as [|t0 i d].
    + (* the coroutine starts *)
      cbn [fire]. unfold _run_node_task_begin. lsimpl.
      rewrite Hdag. fold G. rewrite (total_duration_spec G Hwf). unfold WeightedDAG.lift.
      lsimpl. eexists. split; [done|]. split; cbn; try done.
      intros y [->|Hy]%elem_of_dict_set; [done | by apply Htasks].
    + (* the strategy call completes *)
      cbn [fire]. rewrite M_bind_eq. unfold get_state at 1.
      destruct (dict_get node (tasks l)) as [[|t1 i1 d1]|] eqn:Hget;
        [by exists l | | by exists l].
      unfold _run_node_task_resume. fold (result_of (execute node i d)). lsimpl.
      rewrite Hdag. fold G.
      match goal with
      | |- context [for_ ?succs (release_successor ?r) ?l0] =>
          destruct (release_successors r succs l0)
            as (l1 & Hrun & Ht1 & _ & Hm1 & _ & _ & Hdag1 & Hres1 & _ & _ & Hin1 & _);
            [apply Hsnd | |]
      end.
      { intros v Hv. cbn. apply Hdeg. by eapply Hcl. }
      rewrite Hrun. cbn in Ht1, Hm1, Hdag1, Hres1, Hin1.
      set (b := decide (main l = AwaitSource ∧ node = WeightedDAG.source dag)).
      eexists (MkLoop _ _ (if b then Polling else main l1) _ _ _).
      split; [by destruct b|].
      split; cbn [self tasks main WorkflowExecutor.dag results in_degrees];
        rewrite ?Hdag1, ?Hres1.
      * done.
      * intros v Hv. rewrite Hin1. destruct (Hdeg v Hv) as [dv ->]. by case_decide.
      * intros v. destruct (decide (node = v)) as [<-|Hne]; [done|].
        rewrite lookup_insert_ne by done. apply Hres.
      * intros y Hy%elem_of_dict_del. rewrite Ht1 in Hy.
        apply elem_of_app in Hy as [Hy|Hy]; [by apply Htasks|].
        apply list_elem_of_fmap in Hy as (v & -> & [_ Hv]%list_elem_of_filter).
        cbn [fst]. split; [by eapply Hcl|]. eapply rtc_r; [exact Hreach | exact Hv].
      * destruct b; [done|]. by rewrite Hm1.
  - (* nothing to run: the poll finds work outstanding *)
    cbn [fire]. unfold poll. lsimpl. rewrite Hdag. fold G.
    rewrite decide_True by by apply stuck_size. lsimpl. by exists l.
Qed.

Lemma stuck_drive `{NodeExecutionStrategy} sch fuel k l :
  stuck_inv dag l → drive fuel sch k l = None.
Proof.
  revert k l. induction fuel as [|fuel IH]; intros k l Hst.
  - cbn. pose proof (stuck_main _ _ Hst). by destruct (main l).
  - destruct (stuck_step sch k l Hst) as (l' & Hfire & Hst').
    rewrite (drive_step fuel sch k l l'); [by apply IH | by apply Hst | done].
Qed.
End unreachable_node.

(** X17. On a well-formed acyclic graph with a node that the source does
    not reach, [run] never returns, under any schedule and however many
    steps the event loop is given: it neither completes nor raises. *)
Theorem X17_run_never_returns_when_a_node_is_out_of_reach
    (E : NodeExecutionStrategy) (dag : WeightedDAG.t) (x : string) :
  let G := WeightedDAG.graph dag in
  wf_graph G → acyclic G → WeightedDAG.source dag ∈ nodes G →
  x ∈ nodes G → x ≠ WeightedDAG.source dag →
  x ∉ descendants G (WeightedDAG.source dag) →
  ∀ sch fuel, run fuel sch dag = None.
Proof.
  intros G Hwf _ Hsrc Hx Hne Hfar sch fuel. unfold run.
  apply (stuck_drive dag Hwf x Hx); [|by apply stuck_init].
  intros [Heq|Htc]%rtc_tc; [done|]. by apply Hfar, descendants_spec.
Qed.

Lemma X17_witness : @run DurationSleepStrategy 100 fifo split_dag = None.
Proof.
  apply (X17_run_never_returns_when_a_node_is_out_of_reach
           DurationSleepStrategy split_dag "node_1").
  - apply (bool_decide_unpack _). vm_compute. reflexivity.
  - apply is_directed_acyclic_graph_spec; [apply (bool_decide_unpack _)|];
      vm_compute; reflexivity.
  - apply (bool_decide_unpack _). vm_compute. reflexivity.
  - apply (bool_decide_unpack _). vm_compute. reflexivity.
  - discriminate.
  - apply (bool_decide_unpack _). vm_compute. reflexivity.
Defined.

(** ** The budget that a node is given *)

Lemma total_duration_bounds (G : DiGraph string) (node : string) (preds : list string)
    (total : Z) :
  (∀ src d, src ∈ preds → edge_duration G src node = inr d → 1 ≤ d ≤ 10) →
  foldr (λ src acc,
           match acc, edge_duration G src node with
           | inr a, inr d => inr (d + a)
           | inl e, _ => inl e
           | _, inl e => inl e
           end) (inr 0) preds = inr total →
  Z.of_nat (length preds) ≤ total ≤ 10 * Z.of_nat (length preds).
Proof.
  revert total. induction preds as [|src preds IH]; intros total Hd; cbn [foldr length].
  - intros [= <-]. lia.
  - destruct (foldr _ _ preds) as [e|a] eqn:Hrest; [done|].
    destruct (edge_duration G src node) as [e|d] eqn:Hsrc; [done|].
    intros [= <-].
    pose proof (Hd src d (list_elem_of_here _ _) Hsrc).
    destruct (IH a); [|done|lia].
    intros src' d' Hin. apply Hd. by right.
Qed.

(** X18. When random.randint(1, 10) keeps to its range, the duration
    that the strategy call of a node receives lies between the in-degree of
    the node and ten times the in-degree: it is 0 for the source and at
    least 1 for every other node. *)
Theorem X18_budget_is_bounded_by_the_in_degree
    O (num_nodes : Z) (edge_probability : Q) :
  shuffles O → iterates O → randint_in_range O → 1 ≤ num_nodes →
  ∃ dag trail,
    WeightedDAG.__init__ O num_nodes edge_probability = inr (dag, trail) ∧
    let G := WeightedDAG.graph dag in
    (∀ v, v ∈ nodes G →
          total_duration G v = inr (incoming_duration G v) ∧
          Z.of_nat (in_degree v G) ≤ incoming_duration G v ≤ 10 * Z.of_nat (in_degree v G)) ∧
    incoming_duration G (WeightedDAG.source dag) = 0 ∧
    (∀ v, v ∈ nodes G → v ≠ WeightedDAG.source dag → 1 ≤ incoming_duration G v) ∧
    (∀ now l node inputs duration,
       loop_reachable (run_begin dag now) l → (node, inputs, duration) ∈ calls l →
       Z.of_nat (in_degree node G) ≤ duration ≤ 10 * Z.of_nat (in_degree node G)).
Proof.
  intros HO Hit Hrange Hn.
  destruct (init_more O (λ d, 1 ≤ d ≤ 10) num_nodes edge_probability HO Hit Hrange Hn) as
    (dag & trail & Gint & extra & Hrun & Hgood & Hwfi & _ & _ & HG & _ & _ & _
     & Hextra & Hdur & _).
  cbv zeta in HG. pose proof Hgood as (Hwf & _ & Huniq & _).
  assert ("virtual" ∉ nodes (relabel_nodes Gint node_label)) as Hv.
  { rewrite nodes_relabel. intros (i & Hi & _)%list_elem_of_fmap.
    by apply (node_label_not_virtual i). }
  assert (∀ u v d, edge_duration (WeightedDAG.graph dag) u v = inr d → 1 ≤ d ≤ 10) as Hall.
  { intros u v d Hd%edge_duration_adj. rewrite HG in Hd.
    rewrite (adj_with_virtual _ Hv) in Hd. case_decide.
    - rewrite Forall_forall in Hextra. apply (Hextra _ Hd).
    - apply elem_of_adj_relabel in Hd as (a & b & _ & _ & Hd); [|apply Hwfi].
      by eapply Hdur. }
  assert (∀ v, Z.of_nat (in_degree v (WeightedDAG.graph dag))
               ≤ incoming_duration (WeightedDAG.graph dag) v
               ≤ 10 * Z.of_nat (in_degree v (WeightedDAG.graph dag))) as Hbound.
  { intros v. unfold in_degree.
    apply (total_duration_bounds (WeightedDAG.graph dag) v).
    - intros src d _. apply Hall.
    - apply (total_duration_spec _ Hwf). }
  assert (in_degree (WeightedDAG.source dag) (WeightedDAG.graph dag) = 0%nat) as Hsrc0.
  { assert (WeightedDAG.source dag ∈
              filter (λ n, in_degree n (WeightedDAG.graph dag) = 0%nat)
                (nodes (WeightedDAG.graph dag))) as Hs by (rewrite Huniq; left).
    by apply list_elem_of_filter in Hs as [? _]. }
  exists dag, trail. split; [done|]. cbv zeta. split_and!.
  - intros v _. split; [apply (total_duration_spec _ Hwf) | apply Hbound].
  - pose proof (Hbound (WeightedDAG.source dag)) as Hb. rewrite Hsrc0 in Hb. lia.
  - intros v Hv' Hne.
    assert (in_degree v (WeightedDAG.graph dag) ≠ 0%nat) as Hpos.
    { intros Hz. apply Hne. apply list_elem_of_singleton. rewrite <-Huniq.
      by apply list_elem_of_filter. }
    pose proof (Hbound v). lia.
  - intros now l node inputs duration Hreach Hcall.
    pose proof (inv_reachable dag now l Hgood Hreach) as Hinv.
    pose proof (inv_calls _ _ Hinv) as Hc. rewrite Forall_forall in Hc.
    destruct (Hc _ Hcall) as [_ Hd]. cbn in Hd. rewrite Hd. apply Hbound.
Qed.

Lemma X18_witness :
  ∃ dag trail,
    WeightedDAG.__init__ demo_oracle 3 (1 # 2) = inr (dag, trail) ∧
    let G := WeightedDAG.graph dag in
    (∀ v, v ∈ nodes G →
          total_duration G v = inr (incoming_duration G v) ∧
          Z.of_nat (in_degree v G) ≤ incoming_duration G v ≤ 10 * Z.of_nat (in_degree v G)) ∧
    incoming_duration G (WeightedDAG.source dag) = 0 ∧
    (∀ v, v ∈ nodes G → v ≠ WeightedDAG.source dag → 1 ≤ incoming_duration G v) ∧
    (∀ now l node inputs duration,
       loop_reachable (run_begin dag now) l → (node, inputs, duration) ∈ calls l →
       Z.of_nat (in_degree node G) ≤ duration ≤ 10 * Z.of_nat (in_degree node G)).
Proof.
  apply X18_budget_is_bounded_by_the_in_degree;
    [apply demo_oracle_shuffles | apply demo_oracle_iterates | by intros k; cbn | lia].
Defined.

(** ** Calling [run] a second time *)

Lemma run_begin_fresh dag now :
  run_begin dag now = run_again (WorkflowExecutor.__init__ dag) now.
Proof. reflexivity. Qed.

Lemma next_event_single `{NodeExecutionStrategy} sch k l x :
  tasks l = [x] →
  next_event sch k l
  = match x with
    | (node, Created) => Begin node (clock sch k)
    | (node, Awaiting _ inputs d) => Resume node (execute node inputs d) (clock sch k)
    end.
Proof.
  intros Ht. unfold next_event. rewrite Ht. cbn [length].
  by rewrite Nat.mod_1_r.
Qed.

Lemma next_event_idle `{NodeExecutionStrategy} sch k l :
  tasks l = [] → next_event sch k l = Poll (clock sch k).
Proof. intros Ht. unfold next_event. by rewrite Ht. Qed.

Section second_run.
Context (E : NodeExecutionStrategy) (dag : WeightedDAG.t) (Hgood : good_dag dag).
Context (s : WorkflowExecutor.t).
Let G := WeightedDAG.graph dag.
Let src := WeightedDAG.source dag.
Context (Hdag : WorkflowExecutor.dag s = dag) (Hlock : lock s = false).
Context (Hdeg : ∀ v, v ∈ nodes G → in_degrees s !! v = Some 0).
Context (Hfull : ∀ v, v ∈ nodes G → is_Some (results s !! v)).
Context (Hsize : size (results s) = length (nodes G)).

Lemma source_budget : total_duration G src = inr 0.
Proof.
  destruct Hgood as (_ & _ & Huniq & _).
  assert (src ∈ filter (λ n, in_degree n G = 0%nat) (nodes G)) as Hs
    by (unfold G, src; rewrite Huniq; left).
  apply list_elem_of_filter in Hs as [Hs _].
  unfold in_degree in Hs. apply length_zero_iff_nil in Hs.
  unfold total_duration. by rewrite Hs.
Qed.

Lemma second_run sch fuel :
  (3 ≤ fuel)%nat →
  let result := result_of (execute src [] 0) in
  ∃ l, drive fuel sch 1 (run_again s (clock sch 0)) = Some (inr l) ∧
       main l = Finished ∧
       calls l = [(src, [], 0)] ∧ writes l = [src] ∧ spawned l = [src] ∧
       results (self l) = <[src := result]> (results s) ∧
       size (results (self l)) = length (nodes G) ∧
       (∀ v, in_degrees (self l) !! v
             = if decide (v ∈ successors src G) then Some (-1) else in_degrees s !! v) ∧
       (∀ v, child_inputs (self l) !! v
             = if decide (v ∈ successors src G)
               then Some (default [] (child_inputs s !! v) ++ [result])
               else child_inputs s !! v).
Proof.
  intros Hfuel result.
  pose proof Hgood as (Hwf & Hac & Huniq & _).
  pose proof Hwf as (Hnd & Hsnd & Hcl)%wf_graph_alt.
  pose proof (source_is_node dag Hgood) as Hsrc. fold src G in Hsrc.
  destruct fuel as [|[|[|fuel]]]; [lia..|].
  set (l0 := run_again s (clock sch 0)).
  (* the source starts *)
  assert (∃ la, fire (next_event sch 1 l0) l0 = inr (tt, la) ∧
                tasks la = [(src, Awaiting (clock sch 1) [] 0)] ∧
                main la = AwaitSource ∧ calls la = [(src, [], 0)] ∧
                writes la = [] ∧ spawned la = [src] ∧
                WorkflowExecutor.dag (self la) = dag ∧ lock (self la) = false ∧
                results (self la) = results s ∧ in_degrees (self la) = in_degrees s ∧
                child_inputs (self la) = child_inputs s) as (la & Hfa & Hta & Hma & Hca
                  & Hwa & Hspa & Hdaga & Hlocka & Hra & Hia & Hcia).
  { rewrite (next_event_single sch 1 l0 (src, Created))
      by (unfold l0, run_again; by rewrite Hdag).
    cbn [fire]. unfold _run_node_task_begin. lsimpl.
    unfold l0, run_again. cbn [self WorkflowExecutor.dag]. rewrite Hdag. fold G src.
    rewrite source_budget. unfold WeightedDAG.lift. lsimpl.
    eexists. split; [done|]. cbn. rewrite decide_True by done. by split_and!. }
  (* its strategy call completes *)
  assert (∃ lb, fire (next_event sch 2 la) la = inr (tt, lb) ∧
                tasks lb = [] ∧ main lb = Polling ∧ calls lb = [(src, [], 0)] ∧
                writes lb = [src] ∧ spawned lb = [src] ∧
                WorkflowExecutor.dag (self lb) = dag ∧
                results (self lb) = <[src := result]> (results s) ∧
                (∀ v, in_degrees (self lb) !! v
                      = if decide (v ∈ successors src G) then Some (-1)
                        else in_degrees s !! v) ∧
                (∀ v, child_inputs (self lb) !! v
                      = if decide (v ∈ successors src G)
                        then Some (default [] (child_inputs s !! v) ++ [result])
                        else child_inputs s !! v)) as (lb & Hfb & Htb & Hmb & Hcb
                  & Hwb & Hspb & Hdagb & Hrb & Hib & Hcib).
  { rewrite (next_event_single sch 2 la _ Hta).
    cbn [fire]. rewrite M_bind_eq. unfold get_state at 1. rewrite Hta.
    cbn [dict_get]. rewrite decide_True by done.
    unfold _run_node_task_resume. fold result. lsimpl. rewrite Hdaga. fold G.
    match goal with
    | |- context [for_ ?succs (release_successor ?r) ?l1] =>
        destruct (release_successors r succs l1)
          as (l2 & Hrun & Ht2 & Hsp2 & Hm2 & Hc2 & Hw2 & Hdag2 & Hres2 & _ & _
              & Hin2 & Hci2); [apply Hsnd | |]
    end.
    { intros v Hv. cbn. rewrite Hia, Hdeg; [eauto | by eapply Hcl]. }
    rewrite Hrun. cbn in Ht2, Hsp2, Hm2, Hc2, Hw2, Hdag2, Hres2, Hin2, Hci2.
    assert (filter (λ v, in_degrees s !! v = Some 1) (successors src G) = []) as Hnone.
    { apply elem_of_nil_inv. intros v [Hv1 Hv]%list_elem_of_filter.
      rewrite Hdeg in Hv1 by (by eapply Hcl). done. }
    rewrite Hia, Hnone in Ht2, Hsp2. rewrite app_nil_r in Ht2, Hsp2.
    rewrite Hma. rewrite decide_True by done. lsimpl.
    eexists. split; [done|].
    cbn [self tasks main calls spawned writes WorkflowExecutor.dag results in_degrees
         child_inputs].
    rewrite ?Ht2, ?Hta, ?Hc2, ?Hca, ?Hw2, ?Hwa, ?Hsp2, ?Hspa, ?Hdag2, ?Hdaga, ?Hres2, ?Hra.
    cbn [dict_del]. rewrite decide_True by done.
    split_and!; try done.
    - intros v. rewrite Hin2, Hia. case_decide as Hv; [|done].
      rewrite Hdeg by (by eapply Hcl). done.
    - intros v. rewrite Hci2, Hcia. done. }
  (* the poll finds every result in place *)
  assert (size (results (self lb)) = length (nodes G)) as Hsizeb.
  { rewrite Hrb. destruct (Hfull src Hsrc) as [r0 Hr0].
    rewrite <-Hsize. rewrite <-!size_dom, dom_insert_L.
    f_equal. apply elem_of_dom_2 in Hr0. set_solver. }
  assert (∃ lc, fire (next_event sch 3 lb) lb = inr (tt, lc) ∧ main lc = Finished ∧
                calls lc = calls lb ∧ writes lc = writes lb ∧ spawned lc = spawned lb ∧
                results (self lc) = results (self lb) ∧
                in_degrees (self lc) = in_degrees (self lb) ∧
                child_inputs (self lc) = child_inputs (self lb)) as (lc & Hfc & Hmc & Hcc
                  & Hwc & Hspc & Hrc & Hic & Hcic).
  { rewrite (next_event_idle sch 3 lb Htb). cbn [fire]. unfold poll. lsimpl.
    rewrite Hdagb. fold G. rewrite decide_False by lia. lsimpl.
    eexists. split; [done|]. by cbn. }
  exists lc.
  rewrite (drive_step _ sch 1 l0 la); [|done|done].
  rewrite (drive_step _ sch 2 la lb); [|by rewrite Hma|done].
  rewrite (drive_step _ sch 3 lb lc); [|by rewrite Hmb|done].
  rewrite drive_finished by done.
  rewrite Hcc, Hwc, Hspc, Hrc, Hic, Hcic. by split_and!.
Qed.
End second_run.

(** X19. Calling [run] a second time on an executor that has completed
    a run executes the source only: one strategy call is made, the
    successors of the source have their in-degree taken from 0 to -1 and the
    new result of the source appended to their inputs once more, no other
    coroutine is created, every other result is kept, and the run ends
    within three steps of the event loop. *)
Theorem X19_second_run_executes_only_the_source
    O (num_nodes : Z) (edge_probability : Q) :
  shuffles O → 1 ≤ num_nodes →
  ∃ dag trail,
    WeightedDAG.__init__ O num_nodes edge_probability = inr (dag, trail) ∧
    let G := WeightedDAG.graph dag in
    let src := WeightedDAG.source dag in
    ∀ (E : NodeExecutionStrategy) sch fuel,
      (2 * length (nodes G) + 1 ≤ fuel)%nat →
      ∃ l1, @run E fuel sch dag = Some (inr l1) ∧
        ∀ sch' fuel',
          (3 ≤ fuel')%nat →
          ∃ l2, @drive E fuel' sch' 1 (run_again (self l1) (clock sch' 0)) = Some (inr l2) ∧
                main l2 = Finished ∧
                calls l2 = [(src, [], 0)] ∧ spawned l2 = [src] ∧ writes l2 = [src] ∧
                size (results (self l2)) = length (nodes G) ∧
                (∀ v, v ≠ src → results (self l2) !! v = results (self l1) !! v) ∧
                (∀ v, v ∈ successors src G →
                      in_degrees (self l2) !! v = Some (-1) ∧
                      child_inputs (self l2) !! v
                      = Some (default [] (child_inputs (self l1) !! v)
                              ++ [result_of (execute src [] 0)])) ∧
                (∀ v, v ∉ successors src G →
                      in_degrees (self l2) !! v = in_degrees (self l1) !! v ∧
                      child_inputs (self l2) !! v = child_inputs (self l1) !! v).
Proof.
  intros HO Hn.
  destruct (init_spec O num_nodes edge_probability HO Hn)
    as (dag & trail & Hrun & Hgood & _).
  exists dag, trail. split; [done|]. cbv zeta. intros E sch fuel Hfuel.
  destruct (run_terminates E dag sch fuel Hgood Hfuel)
    as (l1 & Hl1 & _ & Hinv & Hfin & Hres).
  exists l1. split; [done|]. intros sch' fuel' Hfuel'.
  destruct (second_run E dag Hgood (self l1)) with (sch := sch') (fuel := fuel')
    as (l2 & Hl2 & Hm & Hc & Hw & Hsp & Hr & Hsize & Hin & Hci).
  - apply (inv_dag _ _ Hinv).
  - apply (inv_lock _ _ Hinv).
  - intros v Hv. by apply (final_in_degrees dag).
  - intros v Hv. by destruct (final_results E dag l1 v Hgood Hinv Hfin Hres Hv) as [-> _].
  - by destruct (finished_state dag l1 Hgood Hinv Hfin) as (_ & _ & _ & _ & ? & _).
  - done.
  - exists l2. split_and!; [done..| | |].
    + intros v Hne. rewrite Hr. by apply lookup_insert_ne.
    + intros v Hv. by rewrite Hin, Hci, !decide_True.
    + intros v Hv. by rewrite Hin, Hci, !decide_False.
Qed.

Lemma X19_witness :
  ∃ dag trail,
    WeightedDAG.__init__ demo_oracle 3 (1 # 2) = inr (dag, trail) ∧
    let G := WeightedDAG.graph dag in
    let src := WeightedDAG.source dag in
    ∀ (E : NodeExecutionStrategy) sch fuel,
      (2 * length (nodes G) + 1 ≤ fuel)%nat →
      ∃ l1, @run E fuel sch dag = Some (inr l1) ∧
        ∀ sch' fuel',
          (3 ≤ fuel')%nat →
          ∃ l2, @drive E fuel' sch' 1 (run_again (self l1) (clock sch' 0)) = Some (inr l2) ∧
                main l2 = Finished ∧
                calls l2 = [(src, [], 0)] ∧ spawned l2 = [src] ∧ writes l2 = [src] ∧
                size (results (self l2)) = length (nodes G) ∧
                (∀ v, v ≠ src → results (self l2) !! v = results (self l1) !! v) ∧
                (∀ v, v ∈ successors src G →
                      in_degrees (self l2) !! v = Some (-1) ∧
                      child_inputs (self l2) !! v
                      = Some (default [] (child_inputs (self l1) !! v)
                              ++ [result_of (execute src [] 0)])) ∧
                (∀ v, v ∉ successors src G →
                      in_degrees (self l2) !! v = in_degrees (self l1) !! v ∧
                      child_inputs (self l2) !! v = child_inputs (self l1) !! v).
Proof.
  apply X19_second_run_executes_only_the_source; [apply demo_oracle_shuffles | lia].
Defined.

(** ** Generation when every pair gets its edge *)

Lemma for_prefix_inv {S A} (I : list A → S → Prop) (xs : list A) (body : A → M S unit) :
  (∀ pre x post, xs = pre ++ x :: post →
                 hoare (I pre) (body x) (λ _, I (pre ++ [x]))) →
  hoare (I []) (for_ xs body) (λ _, I xs).
Proof.
  intros Hbody.
  assert (∀ rest pre, xs = pre ++ rest → hoare (I pre) (for_ rest body) (λ _, I xs)) as Hgen.
  { induction rest as [|x rest IH]; intros pre Hxs s Hs.
    - exists tt, s. split; [done|]. by rewrite Hxs, app_nil_r.
    - destruct (Hbody pre x rest Hxs s Hs) as ([] & s1 & Hx & Hs1).
      destruct (IH (pre ++ [x])) with (s := s1) as ([] & s2 & Hrest & Hs2);
        [by rewrite <-app_assoc | done |].
      exists tt, s2. split; [|done]. cbn [for_]. by rewrite M_bind_eq, Hx. }
  by apply (Hgen xs []).
Qed.

Section every_edge.
Context (O : Oracle) (HO : shuffles O) (Hit : iterates O).
Context (num_nodes : Z) (edge_probability : Q).
Context (Halways : ∀ k, (random O k < edge_probability)%Q).
Let n := Z.to_nat num_nodes.
Let ordering := shuffle O (seq 0 n).

(** The pairs of positions in [D] have their edge. *)
Let full (D : nat → nat → Prop) (s : Gen nat) : Prop :=
  wf_graph (gen_graph s) ∧ nodes (gen_graph s) = ordering ∧
  (∀ a b, has_edge (gen_graph s) a b → before ordering a b) ∧
  (∀ i j oi oj, D i j → ordering !! i = Some oi → ordering !! j = Some oj →
                has_edge (gen_graph s) oi oj).

Lemma every_edge_body (D : nat → nat → Prop) i j :
  (i < j < n)%nat →
  hoare (full D)
    (r ← rand_random O;
     if Qlt_le_dec r edge_probability then
       oi ← index ordering i;
       oj ← index ordering j;
       d ← rand_randint O;
       g_add_edge ForwardEdge oi oj d
     else mret tt)
    (λ _, full (λ a b, D a b ∨ (a = i ∧ b = j))).
Proof.
  intros Hij s (Hwf & Hn & Hfw & Hd). msimpl.
  destruct (shuffles_facts O n HO) as [Hnd Hlen]. fold ordering in Hnd, Hlen.
  destruct (Qlt_le_dec _ _) as [_|Hle].
  2:{ exfalso. pose proof (Halways (gen_draws s)). lra. }
  destruct (lookup_lt_is_Some_2 ordering i) as [oi Hoi]; [lia|].
  destruct (lookup_lt_is_Some_2 ordering j) as [oj Hoj]; [lia|].
  unfold index. rewrite Hoi. msimpl. rewrite Hoj. msimpl.
  eexists _, _. split; [done|]. split_and!; cbn [gen_graph].
  - by apply wf_add_edge.
  - rewrite nodes_add_edge_present; [done | |]; rewrite Hn;
      by eapply list_elem_of_lookup_2.
  - intros a b [[-> ->]|Hab]%has_edge_add_edge; [|by apply Hfw].
    exists i, j. split_and!; [lia|done..].
  - intros a b oa ob [Hab|[-> ->]] Ha Hb; apply has_edge_add_edge.
    + right. by eapply Hd.
    + left. split; congruence.
Qed.

Lemma every_edge_loops :
  hoare (full (λ _ _, False))
    (for_ (seq 0 n) (λ i,
       for_ (seq (i + 1) (n - (i + 1))) (λ j,
         r ← rand_random O;
         if Qlt_le_dec r edge_probability then
           oi ← index ordering i;
           oj ← index ordering j;
           d ← rand_randint O;
           g_add_edge ForwardEdge oi oj d
         else mret tt)))
    (λ _, full (λ i j, (i < j < n)%nat)).
Proof.
  assert (∀ D D' s, (∀ i j, D' i j → D i j) → full D s → full D' s) as Hweaken.
  { intros D D' s HD (? & ? & ? & Hfull). split_and!; [done..|].
    intros i j oi oj Hij. apply Hfull. by apply HD. }
  intros s Hs.
  destruct (for_prefix_inv (λ pre, full (λ i j, i ∈ pre ∧ (i < j < n)%nat)) (seq 0 n)
              (λ i,
                 for_ (seq (i + 1) (n - (i + 1))) (λ j,
                   r ← rand_random O;
                   if Qlt_le_dec r edge_probability then
                     oi ← index ordering i;
                     oj ← index ordering j;
                     d ← rand_randint O;
                     g_add_edge ForwardEdge oi oj d
                   else mret tt))) with (s := s) as ([] & s' & Hrun & Hs').
  - intros pre i post Hsplit s0 Hs0.
    assert (i < n)%nat as Hi.
    { assert (i ∈ seq 0 n) as Hin by (rewrite Hsplit, elem_of_app; right; left).
      apply elem_of_seq in Hin. lia. }
    destruct (for_prefix_inv
                (λ prej, full (λ a b, (a ∈ pre ∧ (a < b < n)%nat) ∨ (a = i ∧ b ∈ prej)))
                (seq (i + 1) (n - (i + 1)))
                (λ j,
                   r ← rand_random O;
                   if Qlt_le_dec r edge_probability then
                     oi ← index ordering i;
                     oj ← index ordering j;
                     d ← rand_randint O;
                     g_add_edge ForwardEdge oi oj d
                   else mret tt)) with (s := s0) as ([] & s1 & Hrun1 & Hs1).
    + intros prej j postj Hsplitj s2 Hs2.
      assert (i < j < n)%nat as Hj.
      { assert (j ∈ seq (i + 1) (n - (i + 1))) as Hin
          by (rewrite Hsplitj, elem_of_app; right; left).
        apply elem_of_seq in Hin. lia. }
      destruct (every_edge_body _ i j Hj s2 Hs2) as ([] & s3 & Hrun3 & Hs3).
      exists tt, s3. split; [done|]. eapply Hweaken; [|exact Hs3].
      intros a b [?|[-> [?| ->%list_elem_of_singleton]%elem_of_app]]; auto.
    + eapply Hweaken; [|exact Hs0]. intros a b [?|[_ []%elem_of_nil]]. done.
    + exists tt, s1. split; [done|]. eapply Hweaken; [|exact Hs1].
      intros a b [[Ha| ->%list_elem_of_singleton]%elem_of_app Hab]; [by left|].
      right. split; [done|]. apply elem_of_seq. lia.
  - eapply Hweaken; [|exact Hs]. by intros i j [[]%elem_of_nil _].
  - exists tt, s'. split; [done|]. eapply Hweaken; [|exact Hs'].
    intros i j Hij. split; [|done]. apply elem_of_seq. lia.
Qed.

Lemma generate_every_edge draws :
  (1 ≤ num_nodes)%Z →
  ∃ s,
    WeightedDAG._generate_connected_dag O num_nodes edge_probability (MkGen [] draws [])
      = inr (relabel_nodes (gen_graph s) node_label, s) ∧
    wf_graph (gen_graph s) ∧ nodes (gen_graph s) = ordering ∧
    ∀ a b, has_edge (gen_graph s) a b ↔ before ordering a b.
Proof.
  intros Hn1.
  destruct (shuffles_facts O n HO) as [Hnd Hlen]. fold ordering in Hnd, Hlen.
  assert (0 < n)%nat as Hpos by (unfold n; lia).
  destruct (lookup_lt_is_Some_2 ordering 0) as [o0 Ho0]; [lia|].
  assert (hoare (λ s, gen_graph s = [])
            (WeightedDAG._generate_connected_dag O num_nodes edge_probability)
            (λ G0 s, G0 = relabel_nodes (gen_graph s) node_label ∧
                     full (λ i j, (i < j < n)%nat) s)) as Hh.
  { unfold WeightedDAG._generate_connected_dag. fold n. fold ordering.
    apply (hoare_bind _ (λ _, full (λ _ _, False))).
    { intros s HG. msimpl. eexists _, _. split; [done|]. rewrite HG.
      destruct (add_nodes_from_spec ordering [] wf_graph_nil) as (Hwf & _ & He).
      assert (∀ a b, ¬ has_edge (add_nodes_from ordering []) a b) as Hno.
      { intros a b Hab%He. unfold has_edge, successors, adj in Hab.
        by apply elem_of_nil in Hab. }
      split_and!; cbn [gen_graph]; [done | by rewrite nodes_add_nodes_from | |done].
      intros a b Hab. by apply Hno in Hab. }
    intros _. apply (hoare_bind _ (λ _, full (λ i j, (i < j < n)%nat))).
    { apply every_edge_loops. }
    intros _ s (Hwf & Hn & Hfw & Hfull). msimpl.
    unfold index. rewrite Ho0. msimpl.
    (* nothing is out of reach *)
    assert (list_to_set (nodes (gen_graph s))
              ∖ (list_to_set (descendants (gen_graph s) o0) ∪ {[o0]})
            = (∅ : gset nat)) as ->.
    { apply set_eq. intros x. rewrite elem_of_difference, elem_of_list_to_set.
      split; [|by intros ?%elem_of_empty]. intros [Hx Hout]. exfalso. apply Hout.
      rewrite Hn in Hx. apply list_elem_of_lookup in Hx as [j Hj].
      apply elem_of_union. destruct j as [|j].
      - right. apply elem_of_singleton. congruence.
      - left. apply elem_of_list_to_set, descendants_spec; [done|].
        pose proof (lookup_lt_Some _ _ _ Hj). split.
        + intros ->. pose proof (NoDup_lookup _ _ _ _ Hnd Ho0 Hj). lia.
        + apply tc_once. apply (Hfull 0%nat (S j)); [lia | done..]. }
    assert (set_iter O ∅ = []) as ->.
    { apply Permutation_nil_r. by rewrite (Hit ∅), elements_empty. }
    cbn [WeightedDAG.repair]. msimpl. by eexists _, _. }
  destruct (Hh (MkGen [] draws [])) as (G0 & s & Hrun & -> & (Hwf & Hn & Hfw & Hfull));
    [done|].
  exists s. split_and!; [done..|]. intros a b. split; [apply Hfw|].
  intros (i & j & Hij & Hi & Hj). pose proof (lookup_lt_Some _ _ _ Hj).
  apply (Hfull i j); [lia | done..].
Qed.
End every_edge.

Lemma filter_none {A} (P : A → Prop) `{∀ x, Decision (P x)} (l : list A) :
  (∀ x, x ∈ l → ¬ P x) → filter P l = [].
Proof.
  induction l as [|x l IH]; intros Hno; [done|].
  rewrite filter_cons_False by (apply Hno; left). apply IH. intros y Hy. apply Hno. by right.
Qed.

(** The constructor when every pair gets its edge. *)
Lemma init_every_edge O (num_nodes : Z) (edge_probability : Q) :
  shuffles O → iterates O → (∀ k, (random O k < edge_probability)%Q) → 1 ≤ num_nodes →
  ∃ dag trail (Gint : DiGraph nat) o0,
    WeightedDAG.__init__ O num_nodes edge_probability = inr (dag, trail) ∧
    good_dag dag ∧
    shuffle O (seq 0 (Z.to_nat num_nodes)) !! 0%nat = Some o0 ∧
    nodes Gint = shuffle O (seq 0 (Z.to_nat num_nodes)) ∧
    (∀ a b, has_edge Gint a b ↔ before (shuffle O (seq 0 (Z.to_nat num_nodes))) a b) ∧
    WeightedDAG.graph dag = relabel_nodes Gint node_label ∧
    WeightedDAG.source dag = node_label o0.
Proof.
  intros HO Hit Halways Hn.
  destruct (init_spec O num_nodes edge_probability HO Hn)
    as (dag & trail & Hrun & Hgood & _).
  destruct (generate_every_edge O HO Hit num_nodes edge_probability Halways 0%nat Hn)
    as (s1 & Hgen & Hwf & Hnodes & Hedges).
  destruct (shuffles_facts O (Z.to_nat num_nodes) HO) as [Hnd Hlen].
  set (ordering := shuffle O (seq 0 (Z.to_nat num_nodes))) in *.
  destruct ordering as [|o0 rest] eqn:Hord; [cbn in Hlen; lia|].
  set (Gint := gen_graph s1) in *.
  set (G0 := relabel_nodes Gint node_label).
  assert (wf_graph G0) as Hwf0 by (apply wf_relabel; [apply _ | done]).
  assert (NoDup (nodes G0)) as Hnd0 by apply Hwf0.
  assert (filter (λ v, in_degree v G0 = 0%nat) (nodes G0) = [node_label o0]) as Hsources.
  { replace (nodes G0) with (node_label <$> o0 :: rest)
      by (unfold G0; by rewrite nodes_relabel, Hnodes).
    cbn [fmap list_fmap].
    rewrite filter_cons_True.
    - f_equal. apply filter_none. intros v (x & -> & Hx)%list_elem_of_fmap Hz.
      apply (proj1 (in_degree_zero G0 _ Hnd0) Hz (node_label o0)).
      apply has_edge_relabel; [apply _|]. exists o0, x. split_and!; [done..|].
      apply Hedges. apply list_elem_of_lookup in Hx as [j Hj].
      exists 0%nat, (S j). split_and!; [lia | done..].
    - apply (in_degree_zero G0 _ Hnd0). intros u Hu.
      apply has_edge_relabel in Hu as (a & b & -> & Hb & Hab); [|apply _].
      apply (inj node_label) in Hb as <-.
      apply Hedges in Hab as (i & j & Hij & Hi & Hj).
      assert (j = 0%nat) by (by eapply (NoDup_lookup _ j 0%nat o0 Hnd)). lia. }
  pose proof Hrun as Hfields.
  unfold WeightedDAG.__init__ in Hfields. rewrite Hgen in Hfields. fold G0 in Hfields.
  assert (WeightedDAG._get_source_node O (MkGen G0 (gen_draws s1) (gen_trail s1))
          = inr (node_label o0, MkGen G0 (gen_draws s1) (gen_trail s1))) as Hsrc.
  { unfold WeightedDAG._get_source_node. msimpl. by rewrite Hsources. }
  rewrite Hsrc in Hfields. cbn [gen_graph gen_trail] in Hfields.
  destruct (WeightedDAG._to_langgraph_schema G0 (node_label o0)) as [|ls]; [done|].
  destruct (WeightedDAG._to_schema G0) as [|sch]; [done|].
  injection Hfields as Hdag Htrail.
  exists dag, trail, Gint, o0. split_and!; try done; by rewrite <-Hdag.
Qed.

(** ** The executor on a graph in which every two nodes are joined *)

Lemma before_determines {A} `{EqDecision A} (l1 l2 : list A) :
  NoDup l1 → l2 ≡ₚ l1 → (∀ a b, before l1 a b → before l2 a b) → l2 = l1.
Proof.
  intros Hnd. revert l2. induction Hnd as [|a l1 Ha Hnd IH]; intros l2 Hperm Hbefore.
  - by apply Permutation_nil_r.
  - destruct l2 as [|b l2]; [by apply Permutation_nil_cons in Hperm|].
    assert (NoDup (b :: l2)) as Hnd2 by (rewrite Hperm; by constructor).
    destruct (decide (b = a)) as [->|Hne].
    + f_equal. apply IH; [by eapply Permutation_cons_inv|].
      intros x y (i & j & Hij & Hi & Hj).
      destruct (Hbefore x y) as (i' & j' & Hij' & Hi' & Hj').
      { exists (S i), (S j). split_and!; [lia | done..]. }
      destruct i' as [|i'].
      { injection Hi' as ->. exfalso. apply Ha. by eapply list_elem_of_lookup_2. }
      destruct j' as [|j']; [lia|]. exists i', j'. split_and!; [lia | done..].
    + exfalso.
      assert (b ∈ l1) as [j Hj]%list_elem_of_lookup.
      { assert (b ∈ a :: l1) as [?|?]%elem_of_cons by (rewrite <-Hperm; left); done. }
      destruct (Hbefore a b) as (i' & j' & Hij' & Hi' & Hj').
      { exists 0%nat, (S j). split_and!; [lia | done..]. }
      assert (j' = 0%nat) by (by eapply (NoDup_lookup _ j' 0%nat b Hnd2)). lia.
Qed.

Lemma one_task dag l :
  good_dag dag → all_joined (WeightedDAG.graph dag) → loop_inv dag l →
  (length (tasks l) ≤ 1)%nat.
Proof.
  intros Hgood Hjoined Hinv.
  destruct (tasks l) as [|[u su] [|[v sv] r]] eqn:Ht; cbn; [lia | lia |]. exfalso.
  pose proof (inv_spawned_nodup _ _ Hinv) as Hnd.
  rewrite (inv_spawned_split _ _ Hinv), Ht in Hnd. cbn in Hnd.
  apply NoDup_app in Hnd as (_ & Hdisj & Htasks).
  apply NoDup_cons in Htasks as [Huv _].
  assert (u ≠ v) as Hne by (intros ->; apply Huv; left).
  assert (∀ x, x ∈ [u; v] → x ∈ spawned l) as Hsp.
  { intros x Hx. rewrite (inv_spawned_split _ _ Hinv), Ht. apply elem_of_app. right. cbn.
    apply elem_of_cons in Hx as [->|Hx]; [left | right].
    apply list_elem_of_singleton in Hx as ->. left. }
  assert (u ∈ spawned l) as Hu by (apply Hsp; left).
  assert (v ∈ spawned l) as Hv by (apply Hsp; right; left).
  destruct (Hjoined u v) as [Hedge|Hedge];
    [by apply (inv_spawned_nodes _ _ Hinv) | by apply (inv_spawned_nodes _ _ Hinv)
    | done | |].
  - apply (Hdisj u); [|left].
    apply (spawned_after_predecessors dag l u v Hgood Hinv Hv Hedge).
  - apply (Hdisj v); [|right; left].
    apply (spawned_after_predecessors dag l v u Hgood Hinv Hu Hedge).
Qed.

Lemma one_at_a_time dag now l :
  good_dag dag → all_joined (WeightedDAG.graph dag) →
  loop_reachable (run_begin dag now) l → max_parallelism (self l) ≤ 1.
Proof.
  intros Hgood Hjoined. induction 1 as [|l ev l' Hreach IH [[_ Hen] Hfire]]; [cbn; lia|].
  pose proof (inv_reachable dag now l Hgood Hreach) as Hinv.
  destruct ev as [node t | node o t | t]; cbn [fire] in Hfire.
  - pose proof (cnt_active _ (counters_reachable dag now l Hgood Hreach)) as Hactive.
    pose proof (calls_writes_awaiting dag l Hinv) as Hlen.
    pose proof (one_task dag l Hgood Hjoined Hinv) as Hone.
    assert (filter is_awaiting (tasks l) = []) as Hnone.
    { cbn in Hen. destruct (tasks l) as [|[u su] [|? ?]]; [done | | cbn in Hone; lia].
      cbn in Hen. case_decide; [|done]. by injection Hen as ->. }
    rewrite Hnone in Hlen. cbn in Hlen.
    apply begin_frame in Hfire as (_ & -> & _). lia.
  - destruct Hen as (t0 & i & d & Hget).
    by apply (resume_frame _ _ _ _ _ _ _ _ Hget) in Hfire as (_ & -> & _).
  - by apply poll_frame in Hfire as (_ & -> & _).
Qed.

(** ** Generation when no pair gets its edge *)

Lemma no_edge_no_path {V} `{EqDecision V} (G : DiGraph V) a b :
  (∀ w, ¬ has_edge G w b) → tc (has_edge G) a b → False.
Proof.
  intros Hno (w & _ & Hw)%tc_last_step. by apply (Hno w).
Qed.

Section no_forward_edge.
Context (O : Oracle) (HO : shuffles O) (Hit : iterates O).
Context (num_nodes : Z) (edge_probability : Q).
Context (Hnever : ∀ k, (edge_probability <= random O k)%Q).
Let n := Z.to_nat num_nodes.
Let ordering := shuffle O (seq 0 n).

(** The repair loop, when the nodes in [R] are those handled so far: every
    edge joins two of them, each of them but [o0] has exactly one successor,
    and each of them leads to [o0]. *)
Let funnel (o0 : nat) (R : gset nat) (s : Gen nat) : Prop :=
  wf_graph (gen_graph s) ∧ acyclic (gen_graph s) ∧ nodes (gen_graph s) = ordering ∧
  o0 ∈ R ∧
  (∀ a b, has_edge (gen_graph s) a b → a ∈ R ∧ b ∈ R ∧ a ≠ o0) ∧
  (∀ a, a ∈ R → a ≠ o0 → ∃ b, ∀ c, has_edge (gen_graph s) a c ↔ c = b) ∧
  (∀ a, a ∈ R → rtc (has_edge (gen_graph s)) a o0) ∧
  Forall (λ x, snapshot_site x = AddNodes ∨ snapshot_site x = TryOut) (gen_trail s).

Lemma funnel_proper o0 (R R' : gset nat) s :
  (∀ x, x ∈ R ↔ x ∈ R') → funnel o0 R s → funnel o0 R' s.
Proof.
  intros HR (Hwf & Hac & Hn & Ho & He & Hs & Hr & Ht).
  split_and!; [done | done | done | by apply HR | | | | done].
  - intros a b Hab. destruct (He a b Hab) as (? & ? & ?). by rewrite <-!HR.
  - intros a Ha%HR. by apply Hs.
  - intros a Ha%HR. by apply Hr.
Qed.

Lemma repair_no_forward o0 unreachable (R : gset nat) :
  NoDup unreachable →
  (∀ x, x ∈ unreachable → x ∈ ordering ∧ x ∉ R) →
  (∀ x, x ∈ R → x ∈ ordering) →
  hoare (funnel o0 R) (WeightedDAG.repair O unreachable R)
    (λ _, funnel o0 (list_to_set unreachable ∪ R)).
Proof.
  revert R. induction unreachable as [|node rest IH]; intros R Hnd Hun Hsub s Hs.
  - exists tt, s. split; [done|]. eapply funnel_proper; [|exact Hs]. set_solver.
  - apply NoDup_cons in Hnd as [Hnode Hnd].
    destruct (Hun node) as [Hno HnR]; [left|].
    pose proof Hs as (Hwf & Hac & Hn & Ho & He & Hsucc & Hr & Ht).
    cbn [WeightedDAG.repair]. msimpl.
    destruct (set_iter O R) as [|target targets] eqn:Hiter.
    { exfalso. pose proof (Hit R) as Hp. rewrite Hiter in Hp. symmetry in Hp.
      apply Permutation_nil_r in Hp. apply elem_of_elements in Ho.
      rewrite Hp in Ho. by apply elem_of_nil in Ho. }
    assert (target ∈ R) as Htr.
    { apply elem_of_elements. rewrite <-(Hit R), Hiter. left. }
    assert (node ≠ target) as Hne by (by intros ->).
    destruct (try_targets_first O node target targets s Hwf Hac)
      as (s' & Hrun & Hwf' & Hac' & Hcase);
      [by rewrite Hn | rewrite Hn; by apply Hsub | done |].
    rewrite Hrun. cbv zeta in Hcase.
    destruct Hcase as [[_ Hs']|[Hpath _]].
    2:{ exfalso. apply rtc_inv_r in Hpath as [->|(w & _ & Hw)]; [done|].
        by destruct (He w node Hw) as (_ & ? & _). }
    assert (∀ a b, has_edge (gen_graph s') a b
                   ↔ (a = node ∧ b = target) ∨ has_edge (gen_graph s) a b) as He'.
    { intros a b. rewrite Hs'. cbn [gen_graph]. apply has_edge_add_edge. }
    assert (∀ a b, rtc (has_edge (gen_graph s)) a b → rtc (has_edge (gen_graph s')) a b)
      as Hsubrel.
    { intros a b. apply rtc_subrel. intros x y Hxy. apply He'. by right. }
    destruct (IH ({[node]} ∪ R) Hnd) with (s := s') as ([] & s2 & Hrest & Hs2).
    + intros x Hx. destruct (Hun x) as [? ?]; [by right|]. split; [done|].
      rewrite elem_of_union, elem_of_singleton. intros [->|?]; done.
    + intros x [->%elem_of_singleton|?]%elem_of_union; auto.
    + split_and!; [done | done | | set_solver | | | |].
      * rewrite Hs'. cbn [gen_graph].
        rewrite nodes_add_edge_present; [done | by rewrite Hn | rewrite Hn; by apply Hsub].
      * intros a b [[-> ->]|Hab]%He'.
        -- split_and!; [set_solver | set_solver | by intros ->].
        -- destruct (He a b Hab) as (? & ? & ?). split_and!; [set_solver.. | done].
      * intros a [->%elem_of_singleton|Ha]%elem_of_union Hao.
        -- exists target. intros c. rewrite He'. split; [|by left; split].
           intros [[_ ->]|Hc]; [done|]. by destruct (He node c Hc) as (? & _).
        -- destruct (Hsucc a Ha Hao) as [b Hb]. exists b. intros c.
           rewrite He', <-Hb. split; [|by right].
           intros [[-> _]|?]; done.
      * intros a [->%elem_of_singleton|Ha]%elem_of_union.
        -- eapply rtc_l; [apply He'; by left | by apply Hsubrel, Hr].
        -- by apply Hsubrel, Hr.
      * rewrite Hs'. cbn [gen_trail]. apply Forall_app. split; [done|].
        apply Forall_singleton. by right.
    + exists tt, s2. split; [done|]. eapply funnel_proper; [|exact Hs2]. set_solver.
Qed.

Lemma generate_no_forward draws :
  (1 ≤ num_nodes)%Z →
  ∃ s o0,
    WeightedDAG._generate_connected_dag O num_nodes edge_probability (MkGen [] draws [])
      = inr (relabel_nodes (gen_graph s) node_label, s) ∧
    ordering !! 0%nat = Some o0 ∧
    wf_graph (gen_graph s) ∧ acyclic (gen_graph s) ∧ nodes (gen_graph s) = ordering ∧
    (∀ a b, has_edge (gen_graph s) a b → a ≠ o0) ∧
    (∀ a, a ∈ ordering → a ≠ o0 → ∃ b, ∀ c, has_edge (gen_graph s) a c ↔ c = b) ∧
    (∀ a, a ∈ ordering → rtc (has_edge (gen_graph s)) a o0) ∧
    Forall (λ x, snapshot_site x = AddNodes ∨ snapshot_site x = TryOut) (gen_trail s).
Proof.
  intros Hn1.
  destruct (shuffles_facts O n HO) as [Hnd Hlen]. fold ordering in Hnd, Hlen.
  assert (0 < n)%nat as Hpos by (unfold n; lia).
  destruct (lookup_lt_is_Some_2 ordering 0) as [o0 Ho0]; [lia|].
  assert (o0 ∈ ordering) as Ho0in by by eapply list_elem_of_lookup_2.
  set (G1 := add_nodes_from ordering ([] : DiGraph nat)).
  destruct (add_nodes_from_spec ordering [] wf_graph_nil) as (Hwf1 & _ & He1).
  assert (∀ a b, ¬ has_edge G1 a b) as Hno.
  { intros a b Hab%He1. unfold has_edge, successors, adj in Hab.
    by apply elem_of_nil in Hab. }
  assert (nodes G1 = ordering) as Hn1' by (by apply nodes_add_nodes_from).
  pose (bare := λ s : Gen nat, gen_graph s = G1 ∧ gen_trail s = [IntGraph AddNodes G1]).
  assert (hoare (λ s, gen_graph s = [] ∧ gen_trail s = [])
            (WeightedDAG._generate_connected_dag O num_nodes edge_probability)
            (λ G0 s, G0 = relabel_nodes (gen_graph s) node_label ∧
                     funnel o0 (list_to_set ordering) s)) as Hh.
  { unfold WeightedDAG._generate_connected_dag. fold n. fold ordering.
    apply (hoare_bind _ (λ _, bare)).
    { intros s [HG Htr]. msimpl. eexists _, _. split; [done|].
      by rewrite HG, Htr. }
    intros _. apply (hoare_bind _ (λ _, bare)).
    { apply for_inv. intros i _. apply for_inv. intros j _ s [HG Htr]. msimpl.
      destruct (Qlt_le_dec _ _) as [Hlt|_].
      { exfalso. pose proof (Hnever (gen_draws s)). lra. }
      by eexists tt, _. }
    intros _ s [HG Htr]. msimpl. unfold index. rewrite Ho0. msimpl. rewrite HG.
    match goal with
    | |- context [WeightedDAG.repair O ?u ?r s] =>
        destruct (repair_no_forward o0 u r) with (s := s) as ([] & s1 & -> & Hs1)
    end.
    - rewrite (Hit _). apply NoDup_elements.
    - intros x Hx. rewrite (Hit _) in Hx. apply elem_of_elements in Hx.
      apply elem_of_difference in Hx as [Hx ?]. split; [|done].
      apply elem_of_list_to_set in Hx. by rewrite <-Hn1'.
    - intros x [Hx| ->%elem_of_singleton]%elem_of_union; [|done].
      apply elem_of_list_to_set, descendants_spec in Hx as [_ Hx]; [|done].
      exfalso. by apply (no_edge_no_path G1 o0 x (λ w, Hno w x)).
    - unfold funnel. rewrite HG, Htr. split_and!; [done | | done | set_solver | | | |].
      + intros u Hu. by apply (no_edge_no_path G1 u u (λ w, Hno w u)).
      + intros a b Hab. by apply Hno in Hab.
      + intros a [Ha| ->%elem_of_singleton]%elem_of_union; [|done].
        apply elem_of_list_to_set, descendants_spec in Ha as [_ Ha]; [|done].
        exfalso. by apply (no_edge_no_path G1 o0 a (λ w, Hno w a)).
      + intros a [Ha| ->%elem_of_singleton]%elem_of_union; [|done].
        apply elem_of_list_to_set, descendants_spec in Ha as [_ Ha]; [|done].
        exfalso. by apply (no_edge_no_path G1 o0 a (λ w, Hno w a)).
      + apply Forall_singleton. by left.
    - msimpl. eexists _, _. split; [done|]. split; [done|].
      eapply funnel_proper; [|exact Hs1]. intros x.
      rewrite elem_of_union, !elem_of_list_to_set, (Hit _), elem_of_elements.
      rewrite elem_of_difference, elem_of_list_to_set, Hn1'.
      destruct (decide (x ∈ (list_to_set (descendants G1 o0) ∪ {[o0]} : gset nat)))
        as [Hx|Hx]; [|tauto].
      split; [|tauto]. intros _.
      apply elem_of_union in Hx as [Hx| ->%elem_of_singleton]; [|done].
      apply elem_of_list_to_set, descendants_spec in Hx as [_ Hx]; [|done].
      exfalso. by apply (no_edge_no_path G1 o0 x (λ w, Hno w x)). }
  destruct (Hh (MkGen [] draws [])) as
    (G0 & s & Hrun & -> & (Hwf & Hac & Hn & _ & He & Hs & Hr & Ht)); [done|].
  exists s, o0. split_and!; [done.. | | | | done].
  - intros a b Hab. by destruct (He a b Hab) as (_ & _ & ?).
  - intros a Ha. apply Hs. by apply elem_of_list_to_set.
  - intros a Ha. apply Hr. by apply elem_of_list_to_set.
Qed.
End no_forward_edge.

Lemma steady_oracle_shuffles : shuffles steady_oracle.
Proof. exact demo_oracle_shuffles. Qed.

Lemma steady_oracle_iterates : iterates steady_oracle.
Proof. exact demo_oracle_iterates. Qed.

Lemma before_fmap {A B} (f : A → B) (l : list A) a b :
  before (f <$> l) a b ↔ ∃ x y, a = f x ∧ b = f y ∧ before l x y.
Proof.
  split.
  - intros (i & j & Hij & (x & -> & Hi)%list_lookup_fmap_Some
                       & (y & -> & Hj)%list_lookup_fmap_Some).
    exists x, y. split_and!; [done..|]. by exists i, j.
  - intros (x & y & -> & -> & i & j & Hij & Hi & Hj). exists i, j.
    split_and!; [done | by apply list_lookup_fmap_Some_2..].
Qed.

(** The degrees in a graph whose edges are the pairs of a list, the earlier
    element first. *)
Lemma degrees_of_order {V} `{EqDecision V} (G : DiGraph V) (ord : list V) i v :
  wf_graph G → NoDup ord → (∀ a b, has_edge G a b ↔ before ord a b) →
  ord !! i = Some v →
  in_degree v G = i ∧ out_degree v G = (length ord - S i)%nat.
Proof.
  intros Hwf Hnd Hedges Hi. pose proof Hwf as (Hndn & Hsnd & _)%wf_graph_alt.
  pose proof (lookup_lt_Some _ _ _ Hi) as Hlt. split.
  - unfold in_degree. rewrite <-(length_take_le ord i) by lia.
    apply Permutation_length, NoDup_Permutation.
    + by apply predecessors_NoDup.
    + eapply sublist_NoDup; [exact Hnd | apply sublist_take].
    + intros u. rewrite elem_of_predecessors by done. rewrite Hedges, elem_of_take. split.
      * intros (i' & j' & Hij & Hi' & Hj').
        assert (j' = i) as -> by (by eapply (NoDup_lookup ord)). eauto.
      * intros (i' & Hi' & Hlt'). by exists i', i.
  - unfold out_degree. rewrite <-(length_drop ord (S i)).
    apply Permutation_length, NoDup_Permutation.
    + apply Hsnd.
    + eapply sublist_NoDup; [exact Hnd | apply sublist_drop].
    + intros w. change (w ∈ successors v G) with (has_edge G v w).
      rewrite Hedges, list_elem_of_lookup. split.
      * intros (i' & j' & Hij & Hi' & Hj').
        assert (i' = i) as -> by (by eapply (NoDup_lookup ord)).
        exists (j' - S i)%nat. rewrite lookup_drop.
        by replace (S i + (j' - S i))%nat with j' by lia.
      * intros (k & Hk). rewrite lookup_drop in Hk. exists i, (S i + k)%nat.
        split_and!; [lia | done..].
Qed.

(** The generated graph when every pair gets its edge, under the names of
    the nodes. *)
Lemma init_every_edge_labels O (num_nodes : Z) (edge_probability : Q) :
  shuffles O → iterates O → (∀ k, (random O k < edge_probability)%Q) → 1 ≤ num_nodes →
  ∃ dag trail,
    WeightedDAG.__init__ O num_nodes edge_probability = inr (dag, trail) ∧
    good_dag dag ∧
    let G := WeightedDAG.graph dag in
    let ordering := node_label <$> shuffle O (seq 0 (Z.to_nat num_nodes)) in
    NoDup ordering ∧ length ordering = Z.to_nat num_nodes ∧
    nodes G = ordering ∧
    (∀ a b, has_edge G a b ↔ before ordering a b) ∧
    ordering !! 0%nat = Some (WeightedDAG.source dag) ∧
    all_joined G.
Proof.
  intros HO Hit Halways Hn.
  destruct (init_every_edge O num_nodes edge_probability HO Hit Halways Hn)
    as (dag & trail & Gint & o0 & Hrun & Hgood & Ho0 & Hnodes & Hedges & HG & Hsrc).
  destruct (shuffles_facts O (Z.to_nat num_nodes) HO) as [Hnd Hlen].
  exists dag, trail. split; [done|]. split; [done|]. cbv zeta.
  assert (∀ a b, has_edge (WeightedDAG.graph dag) a b
                 ↔ before (node_label <$> shuffle O (seq 0 (Z.to_nat num_nodes))) a b)
    as Hedges'.
  { intros a b. rewrite HG, before_fmap, has_edge_relabel by apply _.
    by setoid_rewrite Hedges. }
  assert (nodes (WeightedDAG.graph dag)
          = node_label <$> shuffle O (seq 0 (Z.to_nat num_nodes))) as Hnodes'
    by (by rewrite HG, nodes_relabel, Hnodes).
  split_and!; [by apply (NoDup_fmap_2 node_label) | by rewrite length_fmap | done..| |].
  - rewrite Hsrc. by apply list_lookup_fmap_Some_2.
  - intros a b Ha Hb Hne. rewrite !Hedges'. rewrite Hnodes' in Ha, Hb.
    apply list_elem_of_lookup in Ha as [i Hi]. apply list_elem_of_lookup in Hb as [j Hj].
    destruct (decide (i < j)%nat); [left; by exists i, j|].
    destruct (decide (j < i)%nat); [right; by exists j, i|].
    assert (i = j) as -> by lia. congruence.
Qed.

(** X20. When every draw of random.random() falls below
    edge_probability (as with edge_probability = 1), the generated graph has
    an edge from each node to every node that comes after it in the shuffled
    ordering, and no other edge: there is no virtual node, the source is the
    first node of the ordering, and the node at position i has in-degree i
    and out-degree numNodes - 1 - i. *)
Theorem X20_every_draw_below_the_probability_gives_every_edge
    O (num_nodes : Z) (edge_probability : Q) :
  shuffles O → iterates O → (∀ k, (random O k < edge_probability)%Q) → 1 ≤ num_nodes →
  ∃ dag trail,
    WeightedDAG.__init__ O num_nodes edge_probability = inr (dag, trail) ∧
    let G := WeightedDAG.graph dag in
    let ordering := node_label <$> shuffle O (seq 0 (Z.to_nat num_nodes)) in
    nodes G = ordering ∧
    (∀ a b, has_edge G a b ↔ before ordering a b) ∧
    ordering !! 0%nat = Some (WeightedDAG.source dag) ∧
    (∀ i v, ordering !! i = Some v →
            in_degree v G = i ∧ out_degree v G = (Z.to_nat num_nodes - S i)%nat).
Proof.
  intros HO Hit Halways Hn.
  destruct (init_every_edge_labels O num_nodes edge_probability HO Hit Halways Hn)
    as (dag & trail & Hrun & Hgood & Hnd & Hlen & Hnodes & Hedges & Hsrc & _).
  exists dag, trail. split; [done|]. cbv zeta in *. split_and!; [done..|].
  intros i v Hi. rewrite <-Hlen.
  apply (degrees_of_order (WeightedDAG.graph dag)); [apply Hgood | done..].
Qed.

Lemma X20_witness :
  ∃ dag trail,
    WeightedDAG.__init__ steady_oracle 3 1 = inr (dag, trail) ∧
    let G := WeightedDAG.graph dag in
    let ordering := node_label <$> shuffle steady_oracle (seq 0 (Z.to_nat 3)) in
    nodes G = ordering ∧
    (∀ a b, has_edge G a b ↔ before ordering a b) ∧
    ordering !! 0%nat = Some (WeightedDAG.source dag) ∧
    (∀ i v, ordering !! i = Some v →
            in_degree v G = i ∧ out_degree v G = (Z.to_nat 3 - S i)%nat).
Proof.
  apply X20_every_draw_below_the_probability_gives_every_edge;
    [apply steady_oracle_shuffles | apply steady_oracle_iterates
    | intros k; reflexivity | lia].
Defined.

(** X21. On such a graph every run executes the nodes one at a time, in
    the shuffled order: the strategy calls and the result writes both follow
    the ordering, [active_tasks] is 0 or 1 throughout, and [max_parallelism]
    is 1 when [run] returns. *)
Theorem X21_with_every_edge_the_nodes_run_one_at_a_time
    O (num_nodes : Z) (edge_probability : Q) :
  shuffles O → iterates O → (∀ k, (random O k < edge_probability)%Q) → 1 ≤ num_nodes →
  ∃ dag trail,
    WeightedDAG.__init__ O num_nodes edge_probability = inr (dag, trail) ∧
    let ordering := node_label <$> shuffle O (seq 0 (Z.to_nat num_nodes)) in
    ∀ (E : NodeExecutionStrategy) sch fuel,
      (2 * length (nodes (WeightedDAG.graph dag)) + 1 ≤ fuel)%nat →
      ∃ l, @run E fuel sch dag = Some (inr l) ∧
           (calls l).*1.*1 = ordering ∧ writes l = ordering ∧
           max_parallelism (self l) = 1 ∧
           (∀ l', loop_reachable (run_begin dag (clock sch 0)) l' →
                  0 ≤ active_tasks (self l') ≤ 1).
Proof.
  intros HO Hit Halways Hn.
  destruct (init_every_edge_labels O num_nodes edge_probability HO Hit Halways Hn)
    as (dag & trail & Hrun & Hgood & Hnd & Hlen & Hnodes & Hedges & Hsrc & Hjoined).
  exists dag, trail. split; [done|]. cbv zeta in *. intros E sch fuel Hfuel.
  destruct (run_terminates E dag sch fuel Hgood Hfuel)
    as (l & Hl & Hreach & Hinv & Hfin & _).
  destruct (finished_state dag l Hgood Hinv Hfin) as (_ & Hw & _ & Hc & _).
  pose proof (order_reachable dag _ l Hgood Hreach) as Hord.
  pose proof (counters_reachable dag _ l Hgood Hreach) as Hcnt.
  exists l. split_and!; [done | | | |].
  - apply before_determines; [done | by rewrite Hc, Hnodes |].
    intros a b Hab%Hedges. apply (Hord a b Hab).
    rewrite Hc. eapply has_edge_target_node; [apply Hgood | done].
  - apply before_determines; [done | by rewrite Hw, Hnodes |].
    intros a b Hab%Hedges. apply (Hord a b Hab).
    rewrite Hw. eapply has_edge_target_node; [apply Hgood | done].
  - pose proof (one_at_a_time dag _ l Hgood Hjoined Hreach).
    assert (calls l ≠ []) as Hne.
    { intros Hnil. rewrite Hnil, Hnodes in Hc. cbn in Hc.
      apply Permutation_nil in Hc. rewrite Hc in Hlen. cbn in Hlen. lia. }
    pose proof (cnt_max_started _ Hcnt Hne). lia.
  - intros l' Hreach'.
    pose proof (one_at_a_time dag _ l' Hgood Hjoined Hreach').
    pose proof (counters_reachable dag _ l' Hgood Hreach') as Hcnt'.
    pose proof (cnt_max_lower _ Hcnt').
    pose proof (cnt_active _ Hcnt') as Ha.
    pose proof (calls_writes_awaiting dag l' (inv_reachable dag _ l' Hgood Hreach')).
    lia.
Qed.

Lemma X21_witness :
  ∃ dag trail,
    WeightedDAG.__init__ steady_oracle 3 1 = inr (dag, trail) ∧
    let ordering := node_label <$> shuffle steady_oracle (seq 0 (Z.to_nat 3)) in
    ∀ (E : NodeExecutionStrategy) sch fuel,
      (2 * length (nodes (WeightedDAG.graph dag)) + 1 ≤ fuel)%nat →
      ∃ l, @run E fuel sch dag = Some (inr l) ∧
           (calls l).*1.*1 = ordering ∧ writes l = ordering ∧
           max_parallelism (self l) = 1 ∧
           (∀ l', loop_reachable (run_begin dag (clock sch 0)) l' →
                  0 ≤ active_tasks (self l') ≤ 1).
Proof.
  apply X21_with_every_edge_the_nodes_run_one_at_a_time;
    [apply steady_oracle_shuffles | apply steady_oracle_iterates
    | intros k; reflexivity | lia].
Defined.

Lemma only_element {A} (l : list A) (b : A) :
  NoDup l → (∀ c, c ∈ l ↔ c = b) → l = [b].
Proof.
  intros Hnd Hb. destruct l as [|x [|y l]].
  - exfalso. by apply (elem_of_nil b), Hb.
  - f_equal. apply Hb. left.
  - exfalso. apply NoDup_cons in Hnd as [Hx _]. apply Hx.
    assert (x = b) as -> by (apply Hb; left).
    assert (y = b) as -> by (apply Hb; right; left). left.
Qed.

(** X22. When no draw of random.random() falls below edge_probability
    (as with edge_probability = 0), the repair pass alone builds the graph
    and no tentative edge is ever rejected.  The first node of the ordering
    ends with no outgoing edge, every other generated node with exactly one,
    and every generated node leads to the first one.  With two nodes or more
    the first node of the ordering has a predecessor, and so is not the
    source. *)
Theorem X22_no_draw_below_the_probability_gives_a_funnel
    O (num_nodes : Z) (edge_probability : Q) :
  shuffles O → iterates O → (∀ k, (edge_probability <= random O k)%Q) → 1 ≤ num_nodes →
  ∃ dag trail o0,
    WeightedDAG.__init__ O num_nodes edge_probability = inr (dag, trail) ∧
    shuffle O (seq 0 (Z.to_nat num_nodes)) !! 0%nat = Some o0 ∧
    let G := WeightedDAG.graph dag in
    out_degree (node_label o0) G = 0%nat ∧
    (∀ x, x ∈ shuffle O (seq 0 (Z.to_nat num_nodes)) → x ≠ o0 →
          out_degree (node_label x) G = 1%nat) ∧
    (∀ x, x ∈ shuffle O (seq 0 (Z.to_nat num_nodes)) →
          rtc (has_edge G) (node_label x) (node_label o0)) ∧
    (2 ≤ num_nodes →
     (1 ≤ in_degree (node_label o0) G)%nat ∧ WeightedDAG.source dag ≠ node_label o0) ∧
    Forall (λ x, snapshot_site x = AddNodes ∨ snapshot_site x = TryOut ∨
                 snapshot_site x = VirtualEdge) trail.
Proof.
  intros HO Hit Hnever Hn.
  destruct (init_generated O (λ _, True) num_nodes edge_probability HO Hit) as
    (dag & trail & Gint & extra & (s1 & tr & Hgen & HGint & Htrail & Hvirt)
     & Hrun & Hgood & _ & _ & _ & HG & _); [done | done |].
  destruct (generate_no_forward O HO Hit num_nodes edge_probability Hnever 0%nat Hn)
    as (s & o0 & Hgen' & Ho0 & Hwf & Hac & Hnodes & Hnoo0 & Hsucc & Hrtc & Hsites).
  rewrite Hgen in Hgen'. injection Hgen' as _ ->. subst Gint.
  cbv zeta in HG. pose proof Hgood as (Hwfg & _ & Huniq & _).
  destruct (shuffles_facts O (Z.to_nat num_nodes) HO) as [Hnd Hlen].
  set (ordering := shuffle O (seq 0 (Z.to_nat num_nodes))) in *.
  set (G0 := relabel_nodes (gen_graph s) node_label) in *.
  assert ("virtual" ∉ nodes G0) as Hv.
  { unfold G0. rewrite nodes_relabel. intros (i & Hi & _)%list_elem_of_fmap.
    by apply (node_label_not_virtual i). }
  assert (∀ x, successors (node_label x) (WeightedDAG.graph dag)
               = node_label <$> successors x (gen_graph s)) as Hsuccs.
  { intros x. unfold successors at 1. rewrite HG, (adj_with_virtual G0 Hv).
    rewrite decide_False by apply node_label_not_virtual.
    apply (successors_relabel node_label). }
  assert (∀ a b, has_edge (gen_graph s) a b
                 → has_edge (WeightedDAG.graph dag) (node_label a) (node_label b)) as Hedges.
  { intros a b Hab. unfold has_edge. rewrite Hsuccs. by apply list_elem_of_fmap_2. }
  pose proof Hwf as (_ & Hsnd & _)%wf_graph_alt.
  exists dag, trail, o0. split; [done|]. split; [done|]. cbv zeta. split_and!.
  - unfold out_degree. rewrite Hsuccs, length_fmap.
    destruct (successors o0 (gen_graph s)) as [|b l] eqn:Hs; [done|]. exfalso.
    apply (Hnoo0 o0 b); [|done]. unfold has_edge. rewrite Hs. left.
  - intros x Hx Hne. unfold out_degree. rewrite Hsuccs, length_fmap.
    destruct (Hsucc x Hx Hne) as [b Hb].
    by rewrite (only_element (successors x (gen_graph s)) b (Hsnd x) Hb).
  - intros x Hx. apply (rtc_congruence node_label _ _ _ Hedges). by apply Hrtc.
  - intros Hn2.
    assert (1 ≤ in_degree (node_label o0) (WeightedDAG.graph dag))%nat as Hin.
    { destruct (lookup_lt_is_Some_2 ordering 1) as [x Hx]; [lia|].
      assert (x ≠ o0) as Hne.
      { intros ->. pose proof (NoDup_lookup _ _ _ _ Hnd Ho0 Hx). lia. }
      destruct (rtc_inv_r _ _ (Hrtc x (list_elem_of_lookup_2 _ _ _ Hx)))
        as [?|(w & _ & Hw)]; [done|].
      destruct (in_degree (node_label o0) (WeightedDAG.graph dag)) eqn:Hz; [|lia].
      exfalso.
      apply (proj1 (in_degree_zero (WeightedDAG.graph dag) _ (proj1 Hwfg)) Hz
               (node_label w)).
      by apply Hedges. }
    split; [done|]. intros Hsrc.
    assert (WeightedDAG.source dag ∈
              filter (λ v, in_degree v (WeightedDAG.graph dag) = 0%nat)
                (nodes (WeightedDAG.graph dag))) as Hs by (rewrite Huniq; left).
    apply list_elem_of_filter in Hs as [Hz _]. rewrite Hsrc in Hz. lia.
  - rewrite Htrail. apply Forall_app. split.
    + eapply Forall_impl; [exact Hsites|]. intros x [?|?]; auto.
    + eapply Forall_impl; [exact Hvirt|]. intros x ?; auto.
Qed.

Lemma X22_witness :
  ∃ dag trail o0,
    WeightedDAG.__init__ steady_oracle 3 0 = inr (dag, trail) ∧
    shuffle steady_oracle (seq 0 (Z.to_nat 3)) !! 0%nat = Some o0 ∧
    let G := WeightedDAG.graph dag in
    out_degree (node_label o0) G = 0%nat ∧
    (∀ x, x ∈ shuffle steady_oracle (seq 0 (Z.to_nat 3)) → x ≠ o0 →
          out_degree (node_label x) G = 1%nat) ∧
    (∀ x, x ∈ shuffle steady_oracle (seq 0 (Z.to_nat 3)) →
          rtc (has_edge G) (node_label x) (node_label o0)) ∧
    (2 ≤ 3 →
     (1 ≤ in_degree (node_label o0) G)%nat ∧ WeightedDAG.source dag ≠ node_label o0) ∧
    Forall (λ x, snapshot_site x = AddNodes ∨ snapshot_site x = TryOut ∨
                 snapshot_site x = VirtualEdge) trail.
Proof.
  apply X22_no_draw_below_the_probability_gives_a_funnel;
    [apply steady_oracle_shuffles | apply steady_oracle_iterates
    | intros k; unfold Qle; simpl; lia | lia].
Defined.
